(** * CLAM: Clustered Learning of Approximate Manifolds

    A shallow embedding of [pyclam/manifold.py] (classes [Cluster], [Graph]
    and [Manifold]) and the properties of its cluster tree, its graphs and
    its searches.

    Conventions of the embedding.
    - A [float] is modelled by an exact rational ([Q]); [<=] is [Qle_bool]
      and [==] is [Qeq_bool].  Rounding is not modelled.
    - A Python exception is a value of [PyError]; code that can raise
      returns a [result].
    - A [dict] is an association list in insertion order whose keys are
      compared with the key type's [__eq__]; a [set] is a list without
      repetition (again up to [__eq__]).
    - The data set, the metric and the two numpy primitives whose result is
      not determined by the source ([np.random.choice], [np.unique]) are the
      fields of an environment [Env]. *)

From Stdlib Require Import String Ascii List Bool Arith ZArith QArith Qabs Lia.
From Stdlib Require Import Lqa Sorted Permutation.
Import ListNotations.
Local Close Scope Q_scope.

Set Implicit Arguments.

(** ** Exceptions *)

Inductive PyError : Type :=
| ValueError
| TypeError
| AssertionError
| ZeroDivisionError
| KeyError
| IndexError
| AttributeError.

Inductive result (A : Type) : Type :=
| Ok (a : A)
| Raise (e : PyError).

Arguments Ok {A} a.
Arguments Raise {A} e.

Definition rbind {A B : Type} (r : result A) (k : A -> result B) : result B :=
  match r with
  | Ok a => k a
  | Raise e => Raise e
  end.

Notation "x <- c ;; k" := (rbind c (fun x => k))
  (at level 61, c at next level, right associativity).
Notation "'assert!' b ;; k" := (if b then k else Raise AssertionError)
  (at level 61, b at next level, right associativity).

Fixpoint rmap {A B : Type} (f : A -> result B) (l : list A) : result (list B) :=
  match l with
  | [] => Ok []
  | x :: t => y <- f x ;; ys <- rmap f t ;; Ok (y :: ys)
  end.

(** ** Numbers *)

Definition Qlt_bool (x y : Q) : bool := negb (Qle_bool y x).

(** [a / b] on Python floats: raises when the divisor is zero. *)
Definition py_div (a b : Q) : result Q :=
  if Qeq_bool b 0 then Raise ZeroDivisionError else Ok (a / b)%Q.

(** [sum(xs)]: the additions are made from the left, starting at 0. *)
Definition py_sum (l : list Q) : Q := fold_left Qplus l 0%Q.

Fixpoint Qsum (l : list Q) : Q :=
  match l with
  | [] => 0%Q
  | x :: t => (x + Qsum t)%Q
  end.

(** [np.argmax] and [np.argmin]: the first position of an extremal entry. *)
Fixpoint argmax_from (best_i : nat) (best : Q) (i : nat) (l : list Q) : nat :=
  match l with
  | [] => best_i
  | x :: t =>
      if Qlt_bool best x then argmax_from i x (S i) t
      else argmax_from best_i best (S i) t
  end.

Definition np_argmax (l : list Q) : nat :=
  match l with
  | [] => 0
  | x :: t => argmax_from 0 x 1 t
  end.

Fixpoint argmin_from (best_i : nat) (best : Q) (i : nat) (l : list Q) : nat :=
  match l with
  | [] => best_i
  | x :: t =>
      if Qlt_bool x best then argmin_from i x (S i) t
      else argmin_from best_i best (S i) t
  end.

Definition np_argmin (l : list Q) : nat :=
  match l with
  | [] => 0
  | x :: t => argmin_from 0 x 1 t
  end.

(** [m.max(initial=0.)] of a matrix. *)
Definition Qmax (x y : Q) : Q := if Qle_bool x y then y else x.

Definition matrix_max (m : list (list Q)) : Q :=
  fold_left (fun acc row => fold_left Qmax row acc) m 0%Q.

(** ** Sets and dictionaries up to a boolean equality *)

Section Containers.
Variable K : Type.
Variable eqb : K -> K -> bool.

Definition memb (k : K) (l : list K) : bool := existsb (eqb k) l.

(** [s.add(k)] *)
Definition set_add (k : K) (s : list K) : list K :=
  if memb k s then s else s ++ [k].

(** [s.update(ks)] and [set(ks)] *)
Definition set_update (s ks : list K) : list K :=
  fold_left (fun acc k => set_add k acc) ks s.

Definition set_of (ks : list K) : list K := set_update [] ks.

(** [s.remove(k)]; the caller checks membership first. *)
Definition set_remove (k : K) (s : list K) : list K :=
  filter (fun x => negb (eqb x k)) s.

(** [s - t] *)
Definition set_diff (s t : list K) : list K :=
  filter (fun x => negb (memb x t)) s.

Definition subsetb (s t : list K) : bool :=
  forallb (fun x => memb x t) s.

Definition set_eqb (s t : list K) : bool := subsetb s t && subsetb t s.

Variable V : Type.

(** [d.get(k)] *)
Fixpoint dict_get (k : K) (d : list (K * V)) : option V :=
  match d with
  | [] => None
  | (k', v) :: t => if eqb k k' then Some v else dict_get k t
  end.

(** [d[k] = v]: an existing key keeps its place (and its key object). *)
Fixpoint dict_set (k : K) (v : V) (d : list (K * V)) : list (K * V) :=
  match d with
  | [] => [(k, v)]
  | (k', v') :: t =>
      if eqb k k' then (k', v) :: t else (k', v') :: dict_set k v t
  end.

(** [d.update(items)] and the dict comprehension [{k: v for ...}]. *)
Definition dict_update (d items : list (K * V)) : list (K * V) :=
  fold_left (fun acc kv => dict_set (fst kv) (snd kv) acc) items d.

Definition dict_of (items : list (K * V)) : list (K * V) :=
  dict_update [] items.

Definition dict_keys (d : list (K * V)) : list K := map fst d.
End Containers.

(** ** The environment: data set, metric and numpy primitives *)

Record Env : Type := mkEnv {
  Data : Type;
  (** [manifold.data[i]] *)
  data : nat -> Data;
  (** one entry of [cdist(x1, x2, metric=manifold.metric)] *)
  cdist : Data -> Data -> Q;
  (** [np.random.choice(argpoints, n, replace=False)] *)
  np_random_choice : list nat -> nat -> list nat;
  (** [np.unique(manifold.data[argpoints], return_index=True, axis=0)[1]] *)
  np_unique_index : list nat -> list nat;
  (** the position drawn by the [i]-th call [np.random.choice(a=..., p=ps)] *)
  np_random_choice_p : nat -> list Q -> nat
}.

Definition SUBSAMPLE_LIMIT : nat := 100.
Definition BATCH_SIZE : nat := 100 * 100.

(** ** Clusters *)

#[warnings="-register-all"]
Inductive Cluster : Type := mkCluster {
  name : string;
  argpoints : list nat;
  (** [None] until [partition] has run; then a (possibly empty) collection. *)
  children : option (list Cluster)
}.

(** [Cluster.__init__] for a cluster that is not read from a file. *)
Definition new_Cluster (argpoints : list nat) (name : string) : result Cluster :=
  match argpoints with
  | [] => Raise ValueError
  | _ => Ok (mkCluster name argpoints None)
  end.

(** [Cluster.__eq__]: same name and same set of points. *)
Definition cluster_eqb (a b : Cluster) : bool :=
  String.eqb (name a) (name b) && set_eqb Nat.eqb (argpoints a) (argpoints b).

Definition cardinality (c : Cluster) : nat := length (argpoints c).

(** [name.count('0')] *)
Fixpoint count_zero (s : string) : nat :=
  match s with
  | EmptyString => 0
  | String a t => (if Ascii.eqb a "0"%char then 1 else 0) + count_zero t
  end.

Definition depth (c : Cluster) : nat := count_zero (name c).

(** [not cluster.children] *)
Definition no_children (c : Cluster) : bool :=
  match children c with
  | None | Some [] => true
  | Some (_ :: _) => false
  end.

Definition children_list (c : Cluster) : list Cluster :=
  match children c with
  | None => []
  | Some l => l
  end.

(** [iter(self)]: the points in batches of [BATCH_SIZE]. *)
Fixpoint batches_aux {A : Type} (fuel : nat) (n : nat) (l : list A) : list (list A) :=
  match fuel with
  | O => []
  | S fuel' =>
      match l with
      | [] => []
      | _ => firstn n l :: batches_aux fuel' n (skipn n l)
      end
  end.

Definition batches {A : Type} (n : nat) (l : list A) : list (list A) :=
  batches_aux (length l) n l.

Section Geometry.
Variable E : Env.

(** [Manifold.distance] on two lists of indices, and on raw points. *)
Definition distance_points (xs ys : list (Data E)) : list (list Q) :=
  map (fun x => map (cdist E x) ys) xs.

Definition distance (xs ys : list nat) : list (list Q) :=
  distance_points (map (data E) xs) (map (data E) ys).

Definition argsamples (c : Cluster) : list nat :=
  let small := cardinality c <=? SUBSAMPLE_LIMIT in
  let n := if small then length (argpoints c) else Nat.sqrt (cardinality c) in
  let indices :=
    if small then argpoints c else np_random_choice E (argpoints c) n in
  if Qeq_bool (matrix_max (distance indices indices)) 0 then
    firstn n (map (fun i => nth i (argpoints c) O) (np_unique_index E (argpoints c)))
  else indices.

Definition nsamples (c : Cluster) : nat := length (argsamples c).

Definition argmedoid (c : Cluster) : nat :=
  let sums := map Qsum (distance (argsamples c) (argsamples c)) in
  nth (np_argmin sums) (argsamples c) O.

Definition medoid (c : Cluster) : Data E := data E (argmedoid c).

(** [distance_from] for indices and for raw points. *)
Definition distance_from (c : Cluster) (xs : list nat) : list Q :=
  map (fun x => cdist E (medoid c) (data E x)) xs.

Definition distance_from_point (c : Cluster) (p : Data E) : Q :=
  cdist E (medoid c) p.

(** [argmax_max(b)] inside [argradius]. *)
Definition argmax_max (c : Cluster) (b : list nat) : nat * Q :=
  let distances := distance_from c b in
  let argmax := np_argmax distances in
  (nth argmax b O, nth argmax distances 0%Q).

(** [max(pairs, key=itemgetter(1))]: the first pair of largest key. *)
Fixpoint max_by_snd (best : nat * Q) (l : list (nat * Q)) : nat * Q :=
  match l with
  | [] => best
  | x :: t => if Qlt_bool (snd best) (snd x) then max_by_snd x t else max_by_snd best t
  end.

Definition argradius_radius (c : Cluster) : nat * Q :=
  match map (argmax_max c) (batches BATCH_SIZE (argpoints c)) with
  | [] => (O, 0%Q)
  | x :: t => max_by_snd x t
  end.

Definition argradius (c : Cluster) : nat := fst (argradius_radius c).
Definition radius (c : Cluster) : Q := snd (argradius_radius c).

(** [Cluster.overlaps] *)
Definition overlaps (c : Cluster) (point : Data E) (r : Q) : bool :=
  Qle_bool (distance_from_point c point) (radius c + r)%Q.
End Geometry.

(** ** Edges, graphs and the manifold *)

(** [Edge] is the named tuple [(neighbor, distance, probability)]. *)
Record Edge : Type := mkEdge {
  neighbor : Cluster;
  edge_distance : Q;
  probability : option Q
}.

Definition option_Qeqb (a b : option Q) : bool :=
  match a, b with
  | None, None => true
  | Some x, Some y => Qeq_bool x y
  | _, _ => false
  end.

(** Equality of edges as tuples. *)
Definition edge_eqb (a b : Edge) : bool :=
  cluster_eqb (neighbor a) (neighbor b)
  && Qeq_bool (edge_distance a) (edge_distance b)
  && option_Qeqb (probability a) (probability b).

(** The entries of [Graph.cache] that the graph code reads and writes. *)
Record GraphCache : Type := mkCache {
  cache_depth : option nat;
  cache_subsumed_clusters : option (list Cluster);
  cache_walkable_clusters : option (list Cluster);
  cache_subsumed_edges : option (list (Cluster * list Edge));
  cache_walkable_edges : option (list (Cluster * list Edge))
}.

Definition empty_cache : GraphCache := mkCache None None None None None.

Record Graph : Type := mkGraph {
  (** [self.edges]: cluster -> [None] or its set of outgoing edges *)
  edges : list (Cluster * option (list Edge));
  cache : GraphCache
}.

(** The constructor [Graph], applied to its clusters. *)
Definition new_Graph (clusters : list Cluster) : Graph :=
  mkGraph (dict_of cluster_eqb (map (fun c => (c, @None (list Edge))) clusters))
          empty_cache.

(** [Graph.clusters] and [Graph.cardinality] *)
Definition clusters (g : Graph) : list Cluster := dict_keys (edges g).
Definition graph_cardinality (g : Graph) : nat := length (edges g).

Record Manifold : Type := mkManifold {
  root : Cluster;
  layers : list Graph;
  graph : Graph
}.

(** [Manifold.depth] *)
Definition manifold_depth (m : Manifold) : nat := length (layers m) - 1.

(** ** Tree search *)

Section TreeSearch.
Variable E : Env.

(** One turn of the loop of [_tree_search]; [inl] is a [break]. *)
Definition tree_search_step (point : Data E) (r : Q)
    (results candidates : list (Cluster * Q))
  : (list (Cluster * Q) * list (Cluster * Q))
    + (list (Cluster * Q) * list (Cluster * Q)) :=
  let results :=
    dict_update cluster_eqb results
      (dict_of cluster_eqb (filter (fun cd => no_children (fst cd)) candidates)) in
  let candidates :=
    dict_of cluster_eqb (filter (fun cd => negb (no_children (fst cd))) candidates) in
  let children := flat_map (fun cd => children_list (fst cd)) candidates in
  match children with
  | [] => inl (results, candidates)
  | _ =>
      let argcenters := map (argmedoid E) children in
      let distances := map (fun i => cdist E point (data E i)) argcenters in
      let radii := map (fun child => (r + radius E child)%Q) children in
      let candidates :=
        dict_of cluster_eqb
          (map (fun cdr => (fst (fst cdr), snd (fst cdr)))
             (filter (fun cdr => Qle_bool (snd (fst cdr)) (snd cdr))
                (combine (combine children distances) radii))) in
      match candidates with
      | [] => inl (results, candidates)
      | _ => inr (results, candidates)
      end
  end.

Fixpoint tree_search_loop (n : nat) (point : Data E) (r : Q)
    (results candidates : list (Cluster * Q))
  : list (Cluster * Q) * list (Cluster * Q) :=
  match n with
  | O => (results, candidates)
  | S n' =>
      match tree_search_step point r results candidates with
      | inl rc => rc
      | inr (results', candidates') =>
          tree_search_loop n' point r results' candidates'
      end
  end.

Definition _tree_search (c : Cluster) (point : Data E) (r : Q) (d : Z)
  : result (list (Cluster * Q)) :=
  let dist := distance_from_point E c point in
  assert! Qle_bool dist (r + radius E c) ;;
  assert! (Z.of_nat (depth c) <? d)%Z ;;
  let rc := tree_search_loop (Z.to_nat (d - Z.of_nat (depth c))) point r
              [] [(c, dist)] in
  let results := dict_update cluster_eqb (fst rc) (snd rc) in
  assert! forallb (fun cd => (Z.of_nat (depth (fst cd)) <=? d)%Z) results ;;
  Ok results.

Definition tree_search (m : Manifold) (c : Cluster) (point : Data E) (r : Q)
    (d : Z) : result (list (Cluster * Q)) :=
  let d := if (d =? -1)%Z then Z.of_nat (length (layers m)) else d in
  if (d <? Z.of_nat (depth c))%Z then Raise ValueError
  else if (Z.of_nat (depth c) =? d)%Z then
    Ok [(c, distance_from_point E c point)]
  else if overlaps E c point r then _tree_search c point r d
  else Ok [].
End TreeSearch.

(** ** Partition *)

(** [lists[i].append(p)]; [partition] only calls it with [i] the [np.argmin]
    of a row that has one entry per list, so [i] is in range. *)
Fixpoint append_at {A : Type} (i : nat) (p : A) (lists : list (list A)) : list (list A) :=
  match lists, i with
  | [], _ => []
  | l :: t, O => (l ++ [p]) :: t
  | l :: t, S i' => l :: append_at i' p t
  end.

(** [lists.sort(key=len)]: a stable sort. *)
Fixpoint insert_by_len {A : Type} (x : list A) (l : list (list A)) : list (list A) :=
  match l with
  | [] => [x]
  | y :: t => if length x <? length y then x :: y :: t else y :: insert_by_len x t
  end.

Definition sort_by_len {A : Type} (l : list (list A)) : list (list A) :=
  fold_left (fun acc x => insert_by_len x acc) l [].

(** ['1' * i] *)
Fixpoint ones (i : nat) : string :=
  match i with
  | O => EmptyString
  | S i' => String "1"%char (ones i')
  end.

Definition child_name (parent : string) (i : nat) : string :=
  (parent ++ "0" ++ ones i)%string.

Fixpoint enumerate_from {A : Type} (i : nat) (l : list A) : list (nat * A) :=
  match l with
  | [] => []
  | x :: t => (i, x) :: enumerate_from (S i) t
  end.

Definition enumerate {A : Type} (l : list A) : list (nat * A) := enumerate_from 0 l.

Section Partition.
Variable E : Env.

Definition _find_poles (c : Cluster) : result (list nat) :=
  assert! (1 <? length (argsamples E c)) ;;
  let poles :=
    if 2 <? length (argsamples E c) then
      let row := map (fun s => cdist E (data E (argradius E c)) (data E s))
                     (argsamples E c) in
      let farthest := nth (np_argmax row) (argsamples E c) O in
      [argradius E c; farthest]
    else argsamples E c in
  assert! (length (set_of Nat.eqb poles) =? length poles) ;;
  Ok poles.

(** The body of the loop over the batches of [partition]. *)
Definition assign_batch (poles : list nat) (child_argpoints : list (list nat))
    (batch : list nat) : list (list nat) :=
  let argpoints := filter (fun p => negb (memb Nat.eqb p poles)) batch in
  match argpoints with
  | [] => child_argpoints
  | _ =>
      let distances := distance E argpoints poles in
      fold_left (fun acc pr => append_at (np_argmin (snd pr)) (fst pr) acc)
                (combine argpoints distances) child_argpoints
  end.

(** [partition] returns the children and stores them in the cluster; the
    model returns the cluster with its children set. *)
Definition partition (c : Cluster) (criterion : list (Cluster -> bool))
  : result Cluster :=
  if negb (forallb (fun b => b)
             ((1 <? length (argsamples E c)) :: map (fun crit => crit c) criterion))
  then Ok (mkCluster (name c) (argpoints c) (Some []))
  else
    poles <- _find_poles c ;;
    let child_argpoints := map (fun p => [p]) poles in
    let child_argpoints :=
      fold_left (assign_batch poles) (batches BATCH_SIZE (argpoints c))
                child_argpoints in
    let child_argpoints := sort_by_len child_argpoints in
    kids <- rmap (fun ia => new_Cluster (snd ia) (child_name (name c) (fst ia)))
                 (enumerate child_argpoints) ;;
    Ok (mkCluster (name c) (argpoints c) (Some (set_of cluster_eqb kids))).
End Partition.

(** ** Ancestry *)

(** [s.split('0')] *)
Fixpoint split_zero_aux (acc : string) (s : string) : list string :=
  match s with
  | EmptyString => [acc]
  | String a t =>
      if Ascii.eqb a "0"%char then acc :: split_zero_aux EmptyString t
      else split_zero_aux (acc ++ String a EmptyString)%string t
  end.

Definition split_zero (s : string) : list string := split_zero_aux EmptyString s.

(** The names of the ancestors, root first: [ancestry] in [Manifold.ancestry]. *)
Definition ancestor_names (cluster : string) : list string :=
  fold_left (fun acc piece => acc ++ [(last acc EmptyString ++ "0" ++ piece)%string])
            (tl (split_zero cluster)) [EmptyString].

(** The first child of that name, as the inner [for ... break] finds it. *)
Definition find_child (kids : list Cluster) (ancestor : string) : option Cluster :=
  find (fun child => String.eqb (name child) ancestor) kids.

Fixpoint descend (lineage_last : Cluster) (ancestors : list string) : list Cluster :=
  match ancestors with
  | [] => []
  | ancestor :: rest =>
      if no_children lineage_last then []
      else
        match find_child (children_list lineage_last) ancestor with
        | Some child => child :: descend child rest
        | None => descend lineage_last rest
        end
  end.

Definition ancestry (m : Manifold) (cluster : string) : result (list Cluster) :=
  if manifold_depth m <? count_zero cluster then Raise ValueError
  else
    let lineage :=
      root m ::
      (if (0 <? String.length cluster)
       then descend (root m) (tl (ancestor_names cluster)) else []) in
    if negb (String.eqb cluster (name (last lineage (root m)))) then Raise ValueError
    else Ok lineage.

(** [Manifold.select] *)
Definition select (m : Manifold) (cluster : string) : result Cluster :=
  lineage <- ancestry m cluster ;;
  Ok (last lineage (root m)).

(** ** State

    The graph code mutates two things: the graph itself ([edges] and
    [cache]) and the [candidates] attribute of the clusters of the tree.
    The tree's clusters are addressed by name, so the candidates are a store
    from names to [None] (absent) or a dictionary cluster -> distance. *)

Definition Cands : Type := list (string * list (Cluster * Q)).

Record World : Type := mkWorld {
  w_cands : Cands;
  w_graph : Graph
}.

(** A computation that reads and writes a state and may raise; the state at
    the time of the exception is kept. *)
Definition M (S A : Type) : Type := S -> S * result A.

Definition mret {S A : Type} (a : A) : M S A := fun s => (s, Ok a).
Definition mraise {S A : Type} (e : PyError) : M S A := fun s => (s, Raise e).
Definition mbind {S A B : Type} (c : M S A) (k : A -> M S B) : M S B :=
  fun s =>
    match c s with
    | (s', Ok a) => k a s'
    | (s', Raise e) => (s', Raise e)
    end.
Definition mget {S : Type} : M S S := fun s => (s, Ok s).
Definition mput {S : Type} (s : S) : M S unit := fun _ => (s, Ok tt).
Definition mlift {S A : Type} (r : result A) : M S A := fun s => (s, r).

Notation "x <~ c ;; k" := (mbind c (fun x => k))
  (at level 61, c at next level, right associativity).
Notation "c ;;; k" := (mbind c (fun _ => k))
  (at level 61, right associativity).

Fixpoint mfor {S A : Type} (l : list A) (body : A -> M S unit) : M S unit :=
  match l with
  | [] => mret tt
  | x :: t => body x ;;; mfor t body
  end.

Fixpoint mfold {S A B : Type} (body : B -> A -> M S B) (l : list A) (b : B) : M S B :=
  match l with
  | [] => mret b
  | x :: t => b' <~ body b x ;; mfold body t b'
  end.

Definition candidates (s : Cands) (c : Cluster) : option (list (Cluster * Q)) :=
  dict_get String.eqb (name c) s.

Definition set_candidates (c : Cluster) (v : list (Cluster * Q)) (s : Cands) : Cands :=
  dict_set String.eqb (name c) v s.

Definition get_cands : M World Cands := fun w => (w, Ok (w_cands w)).
Definition put_cands (s : Cands) : M World unit :=
  fun w => (mkWorld s (w_graph w), Ok tt).
Definition get_graph : M World Graph := fun w => (w, Ok (w_graph w)).
Definition put_graph (g : Graph) : M World unit :=
  fun w => (mkWorld (w_cands w) g, Ok tt).
Definition put_edges (es : list (Cluster * option (list Edge))) : M World unit :=
  fun w => (mkWorld (w_cands w) (mkGraph es (cache (w_graph w))), Ok tt).
Definition put_cache (c : GraphCache) : M World unit :=
  fun w => (mkWorld (w_cands w) (mkGraph (edges (w_graph w)) c), Ok tt).

(** ** Candidates *)

Section Candidates.
Variable E : Env.
Variable m : Manifold.

(** The clusters offered to [ancestry[depth + 1]]: the candidates of its
    parent, then the children of those that are at the parent's depth. *)
Definition working_set (parent_candidates : list (Cluster * Q)) (d : nat)
  : result (list (Cluster * Q)) :=
  kids <- rmap (fun cd =>
                  match children (fst cd) with
                  | None => Raise TypeError
                  | Some l => Ok (if depth (fst cd) =? d then l else [])
                  end) parent_candidates ;;
  Ok (dict_update cluster_eqb
        (dict_of cluster_eqb (map (fun cd => (fst cd, 0%Q)) parent_candidates))
        (dict_of cluster_eqb (map (fun child => (child, 0%Q)) (concat kids)))).

(** The test [d <= c.radius + radius * 4] on the working set. *)
Definition retain (child : Cluster) (r : Q) (ws : list (Cluster * Q))
  : list (Cluster * Q) :=
  let distances := distance_from E child (map (fun cd => argmedoid E (fst cd)) ws) in
  dict_of cluster_eqb
    (filter (fun cd => Qle_bool (snd cd) (radius E (fst cd) + r * 4)%Q)
            (combine (map fst ws) distances)).

(** One turn of the loop of [_find_candidates]; the loop variable [radius]
    is threaded through. *)
Definition candidates_step (lineage : list Cluster) (r : Q) (d : nat)
  : M World Q :=
  match nth_error lineage (S d) with
  | None => mraise IndexError
  | Some child =>
      let r := if Qlt_bool 0 (radius E child) then radius E child else r in
      s <~ get_cands ;;
      match candidates s child with
      | Some _ => mret r
      | None =>
          match nth_error lineage d with
          | None => mraise IndexError
          | Some parent =>
              match candidates s parent with
              | None => mraise TypeError
              | Some pc =>
                  ws <~ mlift (working_set pc d) ;;
                  put_cands
                    (set_candidates child
                       (match ws with [] => [] | _ => retain child r ws end) s) ;;;
                  mret r
              end
          end
      end
  end.

Definition _find_candidates (cluster : Cluster) : M World unit :=
  let r := radius E (root m) in
  lineage <~ mlift (ancestry m (name cluster)) ;;
  mfold (candidates_step lineage) (seq 0 (depth cluster)) r ;;;
  mret tt.
End Candidates.

(** ** Building the edges of a graph *)

Definition no_prob (c : Cluster) (d : Q) : Edge := mkEdge c d None.

(** [self.edges[cluster]] *)
Definition get_edges (g : Graph) (c : Cluster) : option (option (list Edge)) :=
  dict_get cluster_eqb c (edges g).

(** [d[k]] for a dictionary that must have the key. *)
Definition dict_lookup {K V : Type} (eqb : K -> K -> bool) (k : K) (d : list (K * V))
  : result V :=
  match dict_get eqb k d with
  | Some v => Ok v
  | None => Raise KeyError
  end.

(** A set-valued entry that may still be [None]. *)
Definition the_set {A : Type} (e : PyError) (o : option (list A)) : result (list A) :=
  match o with
  | Some l => Ok l
  | None => Raise e
  end.

(** [any((edges is None for edges in self.edges.values()))] *)
Definition any_edges_none (g : Graph) : bool :=
  existsb (fun kv => match snd kv with None => true | Some _ => false end) (edges g).

Section BuildEdges.
Variable E : Env.
Variable m : Manifold.

Definition _find_neighbors (cluster : Cluster) : M World unit :=
  s <~ get_cands ;;
  (match candidates s cluster with
   | None => _find_candidates E m cluster
   | Some _ => mret tt
   end) ;;;
  s <~ get_cands ;;
  cs <~ mlift (the_set AttributeError (candidates s cluster)) ;;
  g <~ get_graph ;;
  put_edges
    (dict_set cluster_eqb cluster
       (Some (set_of edge_eqb
          (map (fun cd => no_prob (fst cd) (snd cd))
             (filter (fun cd =>
                        memb cluster_eqb (fst cd) (clusters g)
                        && Qle_bool (snd cd) (radius E cluster + radius E (fst cd))%Q)
                     cs))))
       (edges g)).

(** [self.edges[target].add(e)] *)
Definition add_edge (target : Cluster) (e : Edge) : M World unit :=
  g <~ get_graph ;;
  o <~ mlift (dict_lookup cluster_eqb target (edges g)) ;;
  es <~ mlift (the_set AttributeError o) ;;
  put_edges (dict_set cluster_eqb target (Some (set_add edge_eqb e es)) (edges g)).

(** "handshake between all neighbors".  The set that is being iterated only
    ever receives an edge it already holds, so its elements are read once. *)
Definition handshake : M World unit :=
  g <~ get_graph ;;
  mfor (clusters g) (fun cluster =>
    g <~ get_graph ;;
    o <~ mlift (dict_lookup cluster_eqb cluster (edges g)) ;;
    es <~ mlift (the_set TypeError o) ;;
    mfor es (fun e => add_edge (neighbor e) (no_prob cluster (edge_distance e)))).

(** "Remove edges to self" *)
Definition remove_self_edges : M World unit :=
  g <~ get_graph ;;
  mfor (clusters g) (fun cluster =>
    g <~ get_graph ;;
    o <~ mlift (dict_lookup cluster_eqb cluster (edges g)) ;;
    es <~ mlift (the_set TypeError o) ;;
    if memb edge_eqb (no_prob cluster 0%Q) es then
      put_edges (dict_set cluster_eqb cluster
                   (Some (set_remove edge_eqb (no_prob cluster 0%Q) es)) (edges g))
    else mret tt).

(** [Graph.depth], which the two functions below evaluate for their log
    line; [max] of no clusters raises. *)
Definition graph_depth : M World nat :=
  g <~ get_graph ;;
  match cache_depth (cache g) with
  | Some d => mret d
  | None =>
      match map depth (clusters g) with
      | [] => mraise ValueError
      | d :: ds =>
          let v := fold_left Nat.max ds d in
          put_cache (mkCache (Some v)
                       (cache_subsumed_clusters (cache g))
                       (cache_walkable_clusters (cache g))
                       (cache_subsumed_edges (cache g))
                       (cache_walkable_edges (cache g))) ;;;
          mret v
      end
  end.

(** The edges of every cluster, in the order of [self.clusters]; raises if
    one is still [None]. *)
Definition all_edges (g : Graph) : result (list (Cluster * list Edge)) :=
  rmap (fun kv => es <- the_set TypeError (snd kv) ;; Ok (fst kv, es)) (edges g).

Definition subsumes (cluster : Cluster) (e : Edge) : bool :=
  Qle_bool (edge_distance e + radius E cluster)%Q (radius E (neighbor e)).

(** The four entries that [split_walkable_vs_subsumed] writes, from the
    clusters and their edges. *)
Definition subsumed_among (ces : list (Cluster * list Edge)) : list Cluster :=
  set_of cluster_eqb
    (flat_map (fun ce => map (fun _ => fst ce) (filter (subsumes (fst ce)) (snd ce)))
              ces).

Definition walkable_among (g : Graph) (subsumed : list Cluster) : list Cluster :=
  set_diff cluster_eqb (set_of cluster_eqb (clusters g)) subsumed.

Definition edges_to_subsumed (ces : list (Cluster * list Edge))
    (subsumed : list Cluster) : list (Cluster * list Edge) :=
  dict_of cluster_eqb
    (map (fun ce =>
            (fst ce,
             set_of edge_eqb
               (map (fun e => no_prob (neighbor e) (edge_distance e))
                  (filter (fun e => memb cluster_eqb (neighbor e) subsumed)
                          (snd ce)))))
         ces).

Definition edges_among_walkable (ces : list (Cluster * list Edge))
    (subsumed : list Cluster) : list (Cluster * list Edge) :=
  dict_of cluster_eqb
    (map (fun ce =>
            (fst ce,
             set_of edge_eqb
               (map (fun e => no_prob (neighbor e) (edge_distance e))
                  (filter (fun e => negb (memb cluster_eqb (neighbor e) subsumed))
                          (snd ce)))))
         (filter (fun ce => negb (memb cluster_eqb (fst ce) subsumed)) ces)).

Definition split_walkable_vs_subsumed : M World unit :=
  graph_depth ;;;
  g <~ get_graph ;;
  ces <~ mlift (all_edges g) ;;
  let subsumed := subsumed_among ces in
  put_cache (mkCache (cache_depth (cache g))
               (Some subsumed)
               (Some (walkable_among g subsumed))
               (Some (edges_to_subsumed ces subsumed))
               (Some (edges_among_walkable ces subsumed))).

(** The new edges of one walkable cluster, with their probabilities. *)
Definition transition_edges (es : list Edge) : result (list Edge) :=
  inverses <- rmap (fun e => py_div 1 (edge_distance e)) es ;;
  let factor := py_sum inverses in
  es' <- rmap (fun e =>
                 p <- py_div 1 (edge_distance e * factor)%Q ;;
                 Ok (mkEdge (neighbor e) (edge_distance e) (Some p))) es ;;
  Ok (set_of edge_eqb es').

(** [sum((probability for (_, _, probability) in edges))] *)
Definition probability_sum (es : list Edge) : result Q :=
  ps <- rmap (fun e => match probability e with
                       | Some p => Ok p
                       | None => Raise TypeError
                       end) es ;;
  Ok (py_sum ps).

Definition set_walkable_edges (c : GraphCache) (we : list (Cluster * list Edge))
  : GraphCache :=
  mkCache (cache_depth c) (cache_subsumed_clusters c) (cache_walkable_clusters c)
          (cache_subsumed_edges c) (Some we).

Definition recompute_transition_probabilities : M World unit :=
  graph_depth ;;;
  g <~ get_graph ;;
  we <~ mlift (the_set KeyError (cache_walkable_edges (cache g))) ;;
  mfor (dict_keys we) (fun cluster =>
    g <~ get_graph ;;
    we <~ mlift (the_set KeyError (cache_walkable_edges (cache g))) ;;
    es <~ mlift (dict_lookup cluster_eqb cluster we) ;;
    if 0 <? length es then
      es' <~ mlift (transition_edges es) ;;
      put_cache (set_walkable_edges (cache g) (dict_set cluster_eqb cluster es' we)) ;;;
      factor <~ mlift (probability_sum es') ;;
      if Qle_bool (Qabs (factor - 1)) (1 / 1000000)%Q then mret tt
      else mraise AssertionError
    else mret tt).

Definition build_edges : M World unit :=
  g <~ get_graph ;;
  mfor (clusters g) _find_neighbors ;;;
  handshake ;;;
  remove_self_edges ;;;
  split_walkable_vs_subsumed ;;;
  recompute_transition_probabilities.
End BuildEdges.

(** ** Changing and querying a graph *)

Section GraphQueries.
Variable E : Env.
Variable m : Manifold.

(** The union of the points of a collection of clusters, as a set. *)
Definition points_of (cs : list Cluster) : list nat :=
  set_of Nat.eqb (flat_map argpoints cs).

Definition replace_clusters (removals additions : list Cluster)
    (recompute_probabilities : bool) : M World unit :=
  g <~ get_graph ;;
  if negb (subsetb cluster_eqb removals (set_of cluster_eqb (clusters g))) then
    mraise ValueError
  else if existsb (fun cluster => memb cluster_eqb cluster (clusters g)) additions then
    mraise ValueError
  else
    let points_removed := points_of removals in
    let points_added := points_of additions in
    if negb (set_eqb Nat.eqb points_removed points_added) then mraise ValueError
    else
      let cs := set_of cluster_eqb (clusters g) in
      let cs := set_diff cluster_eqb cs removals in
      let cs := set_update cluster_eqb cs additions in
      put_graph (mkGraph (dict_of cluster_eqb (map (fun c => (c, @None (list Edge))) cs))
                         empty_cache) ;;;
      if recompute_probabilities then build_edges E m else mret tt.

(** The cached properties: each one builds the edges when its entry is
    missing from the cache. *)
Definition cached {A : Type} (field : GraphCache -> option A) : M World A :=
  g <~ get_graph ;;
  (match field (cache g) with
   | None => build_edges E m
   | Some _ => mret tt
   end) ;;;
  g <~ get_graph ;;
  match field (cache g) with
  | None => mraise KeyError
  | Some v => mret v
  end.

Definition subsumed_clusters : M World (list Cluster) := cached cache_subsumed_clusters.
Definition walkable_clusters : M World (list Cluster) := cached cache_walkable_clusters.
Definition subsumed_edges : M World (list (Cluster * list Edge)) :=
  cached cache_subsumed_edges.
Definition walkable_edges : M World (list (Cluster * list Edge)) :=
  cached cache_walkable_edges.

(** [if self.edges[cluster] is None: self.build_edges()] *)
Definition ensure_edges (cluster : Cluster) : M World unit :=
  g <~ get_graph ;;
  o <~ mlift (dict_lookup cluster_eqb cluster (edges g)) ;;
  match o with
  | None => build_edges E m
  | Some _ => mret tt
  end.

Definition neighbors (cluster : Cluster) (choice : string) : M World (list Cluster) :=
  ensure_edges cluster ;;;
  if String.eqb choice "all" then
    g <~ get_graph ;;
    o <~ mlift (dict_lookup cluster_eqb cluster (edges g)) ;;
    es <~ mlift (the_set TypeError o) ;;
    mret (map neighbor es)
  else if String.eqb choice "walkable" then
    we <~ walkable_edges ;;
    es <~ mlift (dict_lookup cluster_eqb cluster we) ;;
    mret (map neighbor es)
  else if String.eqb choice "subsumed" then
    se <~ subsumed_edges ;;
    es <~ mlift (dict_lookup cluster_eqb cluster se) ;;
    mret (map neighbor es)
  else mraise ValueError.

Definition probabilities (cluster : Cluster) : M World (list (option Q)) :=
  ensure_edges cluster ;;;
  sc <~ subsumed_clusters ;;
  if memb cluster_eqb cluster sc then mraise ValueError
  else
    we <~ walkable_edges ;;
    es <~ mlift (dict_lookup cluster_eqb cluster we) ;;
    let ps := map probability es in
    if existsb (fun p => match p with None => true | Some _ => false end) ps then
      recompute_transition_probabilities ;;;
      we <~ walkable_edges ;;
      es <~ mlift (dict_lookup cluster_eqb cluster we) ;;
      mret (map probability es)
    else mret ps.

(** [if any((edges is None ...)): self.build_edges()] *)
Definition ensure_built : M World unit :=
  g <~ get_graph ;;
  if any_edges_none g then build_edges E m else mret tt.
End GraphQueries.

(** ** Walks and traversals *)

Fixpoint mmap {S A B : Type} (f : A -> M S B) (l : list A) : M S (list B) :=
  match l with
  | [] => mret []
  | x :: t => y <~ f x ;; ys <~ mmap f t ;; mret (y :: ys)
  end.

(** The argument [starts] of [random_walks]. *)
Inductive Starts : Type :=
| StartName (s : string)
| StartNames (l : list string)
| StartCluster (c : Cluster)
| StartClusters (l : list Cluster).

(** [counts[k] += 1] *)
Definition increment (k : Cluster) (counts : list (Cluster * nat))
  : result (list (Cluster * nat)) :=
  v <- dict_lookup cluster_eqb k counts ;;
  Ok (dict_set cluster_eqb k (v + 1) counts).

Section Walks.
Variable E : Env.
Variable m : Manifold.

(** One draw [np.random.choice(a=neighbors(cluster), p=probabilities(cluster))];
    [i] counts the draws made so far. *)
Definition random_step (i : nat) (cluster : Cluster) : M World Cluster :=
  a <~ neighbors E m cluster "walkable" ;;
  p <~ probabilities E m cluster ;;
  ps <~ mlift (rmap (fun o => match o with
                              | Some q => Ok q
                              | None => Raise TypeError
                              end) p) ;;
  match nth_error a (np_random_choice_p E i ps) with
  | Some c => mret c
  | None => mraise ValueError
  end.

Fixpoint walk_steps (steps : nat) (i : nat) (walks : list Cluster)
    (counts : list (Cluster * nat)) : M World (list (Cluster * nat)) :=
  match steps with
  | O => mret counts
  | S steps' =>
      walks' <~ mmap (fun ic => random_step (i + fst ic) (snd ic)) (enumerate walks) ;;
      counts' <~ mlift (fold_left (fun acc c => cs <- acc ;; increment c cs)
                                  walks' (Ok counts)) ;;
      walk_steps steps' (i + length walks) walks' counts'
  end.

Definition random_walks (starts : Starts) (steps : Z) : M World (list (Cluster * nat)) :=
  g <~ get_graph ;;
  if graph_cardinality g <? 2 then
    mret (dict_of cluster_eqb (map (fun cluster => (cluster, 1)) (clusters g)))
  else
    starts <~ mlift (match starts with
                     | StartCluster c => Ok [c]
                     | StartName s => c <- select m s ;; Ok [c]
                     | StartClusters [] | StartNames [] => Raise IndexError
                     | StartClusters l => Ok l
                     | StartNames l => rmap (select m) l
                     end) ;;
    ensure_built E m ;;;
    wc <~ walkable_clusters E m ;;
    if existsb (fun cluster => negb (memb cluster_eqb cluster wc)) starts then
      mraise ValueError
    else
      g <~ get_graph ;;
      let counts := dict_of cluster_eqb (map (fun cluster => (cluster, 0)) (clusters g)) in
      let counts :=
        dict_update cluster_eqb counts
          (dict_of cluster_eqb (map (fun cluster => (cluster, 1)) starts)) in
      we <~ walkable_edges E m ;;
      sizes <~ mlift (rmap (fun cluster =>
                              es <- dict_lookup cluster_eqb cluster we ;;
                              Ok (cluster, length es)) starts) ;;
      let walks := map fst (filter (fun cn => 0 <? snd cn) sizes) in
      counts <~ walk_steps (Z.to_nat steps) 0 walks counts ;;
      wc <~ walkable_clusters E m ;;
      mfold (fun counts cluster =>
               ns <~ neighbors E m cluster "subsumed" ;;
               own <~ mlift (dict_lookup cluster_eqb cluster counts) ;;
               news <~ mlift (rmap (fun n => v <- dict_lookup cluster_eqb n counts ;;
                                             Ok (n, own + v)) ns) ;;
               mret (dict_update cluster_eqb counts (dict_of cluster_eqb news)))
            wc counts.

(** The loops below are bounded by [fuel]; [None] means the fuel ran out. *)
Fixpoint traverse_loop (fuel : nat) (visited frontier : list Cluster)
  : M World (option (list Cluster)) :=
  match frontier with
  | [] => mret (Some visited)
  | _ =>
      match fuel with
      | O => mret None
      | S fuel' =>
          let visited := set_update cluster_eqb visited frontier in
          nss <~ mmap (fun cluster => neighbors E m cluster "walkable") frontier ;;
          traverse_loop fuel' visited
            (set_of cluster_eqb
               (filter (fun n => negb (memb cluster_eqb n visited)) (concat nss)))
      end
  end.

(** "include the clusters subsumed by visited walkable clusters" *)
Definition attach_subsumed (visited : list Cluster) : M World (list Cluster) :=
  nss <~ mmap (fun cluster => neighbors E m cluster "subsumed") visited ;;
  mret (set_update cluster_eqb visited (set_of cluster_eqb (concat nss))).

Definition traverse (fuel : nat) (start : Cluster) : M World (option (list Cluster)) :=
  ensure_built E m ;;;
  sc <~ subsumed_clusters E m ;;
  if memb cluster_eqb start sc then mraise ValueError
  else
    r <~ traverse_loop fuel [] [start] ;;
    match r with
    | None => mret None
    | Some visited =>
        se <~ subsumed_edges E m ;;
        ess <~ mlift (rmap (fun cluster => dict_lookup cluster_eqb cluster se) visited) ;;
        mret (Some (set_update cluster_eqb visited
                      (set_of cluster_eqb (map neighbor (concat ess)))))
    end.

(** The loop shared by [bft] and [dft]; [pop] is [queue.popleft()] or
    [stack.pop()]. *)
Fixpoint worklist_loop (pop : list Cluster -> option (Cluster * list Cluster))
    (fuel : nat) (visited work : list Cluster) : M World (option (list Cluster)) :=
  match pop work with
  | None => mret (Some visited)
  | Some (cluster, rest) =>
      match fuel with
      | O => mret None
      | S fuel' =>
          if negb (memb cluster_eqb cluster visited) then
            let visited := set_add cluster_eqb cluster visited in
            ns <~ neighbors E m cluster "walkable" ;;
            worklist_loop pop fuel' visited
              (rest ++ filter (fun n => negb (memb cluster_eqb n visited)) ns)
          else worklist_loop pop fuel' visited rest
      end
  end.

Definition popleft (q : list Cluster) : option (Cluster * list Cluster) :=
  match q with
  | [] => None
  | x :: t => Some (x, t)
  end.

Definition pop (s : list Cluster) : option (Cluster * list Cluster) :=
  match rev s with
  | [] => None
  | x :: t => Some (x, rev t)
  end.

Definition worklist_traversal (pop : list Cluster -> option (Cluster * list Cluster))
    (fuel : nat) (start : Cluster) : M World (option (list Cluster)) :=
  ensure_built E m ;;;
  sc <~ subsumed_clusters E m ;;
  if memb cluster_eqb start sc then mraise ValueError
  else
    r <~ worklist_loop pop fuel [] [start] ;;
    match r with
    | None => mret None
    | Some visited => v <~ attach_subsumed visited ;; mret (Some v)
    end.

Definition bft : nat -> Cluster -> M World (option (list Cluster)) :=
  worklist_traversal popleft.
Definition dft : nat -> Cluster -> M World (option (list Cluster)) :=
  worklist_traversal pop.
End Walks.

(** ** Searches *)

(** [sorted(pairs, key=itemgetter(1))]: a stable sort on the distance. *)
Fixpoint insert_by_distance (x : nat * Q) (l : list (nat * Q)) : list (nat * Q) :=
  match l with
  | [] => [x]
  | y :: t =>
      if Qlt_bool (snd x) (snd y) then x :: y :: t else y :: insert_by_distance x t
  end.

Definition sort_by_distance (l : list (nat * Q)) : list (nat * Q) :=
  fold_left (fun acc x => insert_by_distance x acc) l [].

Section Search.
Variable E : Env.
Variable m : Manifold.

Definition find_clusters (point : Data E) (r : Q) (d : Z)
  : result (list (Cluster * Q)) :=
  match layers m with
  | [] => Raise IndexError
  | layer0 :: _ =>
      found <- rmap (fun c => tree_search E m c point r d) (clusters layer0) ;;
      Ok (dict_of cluster_eqb (concat found))
  end.

Definition find_points (point : Data E) (r : Q) : result (list (nat * Q)) :=
  cs <- find_clusters point r (Z.of_nat (length (layers m))) ;;
  let candidates := flat_map (fun cd => argpoints (fst cd)) cs in
  let results :=
    fold_left
      (fun results batch =>
         let distances := map (fun p => cdist E point (data E p)) batch in
         dict_update Nat.eqb results
           (dict_of Nat.eqb
              (filter (fun pd => Qle_bool (snd pd) r) (combine batch distances))))
      (batches BATCH_SIZE candidates) [] in
  Ok (sort_by_distance results).

(** [np.mean] *)
Definition np_mean (l : list Q) : Q := (Qsum l / inject_Z (Z.of_nat (length l)))%Q.

(** The [while] loop of [find_knn]; [None] means the fuel ran out. *)
Fixpoint knn_loop (fuel : nat) (point : Data E) (k : nat) (r : Q)
    (results : list (nat * Q)) : option (result (list (nat * Q))) :=
  if length results <? k then
    match fuel with
    | O => None
    | S fuel' =>
        let r := (r * 2)%Q in
        match find_points point r with
        | Raise e => Some (Raise e)
        | Ok results => knn_loop fuel' point k r results
        end
    end
  else Some (Ok results).

Definition initial_radius : result Q :=
  match rev (layers m) with
  | [] => Raise IndexError
  | deepest :: _ =>
      let r := np_mean (map (radius E) (clusters deepest)) in
      Ok (if Qlt_bool r (1 / 10000000000000000)%Q then (1 / 10000000000000000)%Q else r)
  end.

Definition find_knn (fuel : nat) (point : Data E) (k : nat)
  : option (result (list (nat * Q))) :=
  match initial_radius with
  | Raise e => Some (Raise e)
  | Ok r =>
      match find_points point r with
      | Raise e => Some (Raise e)
      | Ok results =>
          match knn_loop fuel point k r results with
          | Some (Ok results) => Some (Ok (firstn k (sort_by_distance results)))
          | other => other
          end
      end
  end.
End Search.

(** ** Building a manifold

    [Manifold.build_tree] partitions the deepest clusters of the last layer
    and appends the layer of their children until no cluster splits.  The
    clusters are objects that [partition] changes in place; on cluster
    values the same tree is obtained by partitioning a cluster and then its
    children ([grow]), and the layers are read back from the finished tree
    ([layers_from]).  [fuel] bounds the depth. *)

Section Build.
Variable E : Env.

Fixpoint grow (fuel : nat) (criterion : list (Cluster -> bool)) (c : Cluster)
  : result Cluster :=
  match fuel with
  | O => Ok c
  | S fuel' =>
      c' <- partition E c criterion ;;
      kids <- rmap (grow fuel' criterion) (children_list c') ;;
      Ok (mkCluster (name c') (argpoints c') (Some kids))
  end.

(** The layer that [_partition_threaded] returns for the last layer
    [layer], when [n] layers exist. *)
Definition next_layer (n : nat) (layer : list Cluster) : list Cluster :=
  filter (fun c => depth c <? n - 1) layer
  ++ flat_map (fun c => if no_children c then [c] else children_list c)
              (filter (fun c => depth c =? n - 1) layer).

Fixpoint layers_from (fuel : nat) (acc : list Graph) (last_layer : Graph) : list Graph :=
  match fuel with
  | O => acc ++ [last_layer]
  | S fuel' =>
      let cs := next_layer (length acc + 1) (clusters last_layer) in
      if graph_cardinality last_layer <? length cs then
        layers_from fuel' (acc ++ [last_layer]) (new_Graph cs)
      else acc ++ [last_layer]
  end.

(** [Manifold.__init__] followed by [build_tree]; the graph is the one of
    the leaves ([build] without a selection criterion). *)
Definition build_tree (fuel : nat) (argpoints : list nat)
    (criterion : list (Cluster -> bool)) : result Manifold :=
  root0 <- new_Cluster argpoints EmptyString ;;
  tree <- grow fuel criterion root0 ;;
  let ls := layers_from fuel [] (new_Graph [tree]) in
  Ok (mkManifold tree ls (new_Graph (clusters (last ls (new_Graph [tree]))))).

(** [Manifold.build_graph] without graph criteria.  Its log line takes
    [min(depths)] and [max(depths)] over the clusters of the graph, which
    raises when there is none. *)
Definition build_graph (m : Manifold) : M World unit :=
  g <~ get_graph ;;
  (match map depth (clusters g) with
   | [] => mraise ValueError
   | _ :: _ => mret tt
   end) ;;;
  s <~ get_cands ;;
  put_cands (set_candidates (root m) [(root m, 0%Q)] s) ;;;
  build_edges E m.
End Build.

(** The state in which [build_graph] finds a freshly built manifold. *)
Definition initial_world (m : Manifold) : World := mkWorld [] (graph m).

(** ** A concrete environment: points on a line *)

Definition line_data (pts : list Z) (i : nat) : Z := nth i pts 0%Z.

Definition line_cdist (x y : Z) : Q := inject_Z (Z.abs (x - y)).

Fixpoint insert_Z (x : Z) (l : list Z) : list Z :=
  match l with
  | [] => [x]
  | y :: t =>
      if (x =? y)%Z then l
      else if (x <? y)%Z then x :: l
      else y :: insert_Z x t
  end.

Fixpoint index_of (x : Z) (l : list Z) (i : nat) : nat :=
  match l with
  | [] => i
  | y :: t => if (x =? y)%Z then i else index_of x t (S i)
  end.

(** [np.unique(..., return_index=True)[1]] for rows with one coordinate: the
    first position of every distinct value, by increasing value. *)
Definition line_unique_index (pts : list Z) (argpoints : list nat) : list nat :=
  let values := map (line_data pts) argpoints in
  map (fun v => index_of v values 0) (fold_left (fun acc v => insert_Z v acc) values []).

Definition line_env (pts : list Z) : Env :=
  mkEnv (line_data pts) line_cdist
        (fun l n => firstn n l)
        (line_unique_index pts)
        (fun _ _ => O).

(** One point at 0. *)
Definition env1 : Env := line_env [0%Z].
Definition root1 : Cluster := mkCluster EmptyString [0] (Some []).
Definition manifold1 : Manifold :=
  mkManifold root1 [new_Graph [root1]] (new_Graph [root1]).

(** Four points: two near 0 and two near 20. *)
Definition env4 : Env := line_env [0%Z; 1%Z; 20%Z; 21%Z].

(** * Statements: the notions the theorems are stated with *)

(** The depth that [tree_search] works with: [-1] stands for [len(layers)]. *)
Definition effective_depth (m : Manifold) (d : Z) : Z :=
  if (d =? -1)%Z then Z.of_nat (length (layers m)) else d.

(** A cluster of depth 2. *)
Definition leaf00 : Cluster := mkCluster "00" [3] (Some []).

(** What the code relies on from the metric: distances are not negative,
    and two points are at distance zero exactly when they are the same. *)
Definition metric (E : Env) : Prop :=
  (forall x y, (0 <= cdist E x y)%Q)
  /\ (forall x, (cdist E x x == 0)%Q)
  /\ (forall x y, (cdist E x y == 0)%Q -> x = y).

(** [np.unique(..., axis=0)] returns the positions of rows that are pairwise
    different. *)
Definition unique_rows (E : Env) : Prop :=
  forall l, NoDup (map (fun i => data E (nth i l O)) (np_unique_index E l)).

(** What the code relies on from numpy: [np.random.choice] draws among the
    values it is given, and [np.unique] returns positions of its argument. *)
Definition numpy_contract (E : Env) : Prop :=
  (forall l n, incl (np_random_choice E l n) l)
  /\ (forall l i, In i (np_unique_index E l) -> i < length l).

(** Whether a point is nearer to the first pole ([np.argmin] gives 0). *)
Definition first_side (E : Env) (p0 p1 p : nat) : bool :=
  np_argmin [cdist E (data E p) (data E p0); cdist E (data E p) (data E p1)] =? 0.

Definition non_pole (p0 p1 p : nat) : bool := negb (memb Nat.eqb p [p0; p1]).

(** The condition under which [partition] splits a cluster. *)
Definition splittable (E : Env) (c : Cluster) (criterion : list (Cluster -> bool)) : bool :=
  (1 <? length (argsamples E c)) && forallb (fun crit => crit c) criterion.

(** The keys of a dictionary are pairwise different: no key equals (for
    [eqb]) a key that was inserted before it. *)
Fixpoint keys_distinct {K : Type} (eqb : K -> K -> bool) (ks : list K) : Prop :=
  match ks with
  | [] => True
  | k :: t => (forall k', In k' t -> eqb k' k = false) /\ keys_distinct eqb t
  end.

Definition is_equivalence {K : Type} (eqb : K -> K -> bool) : Prop :=
  (forall x, eqb x x = true)
  /\ (forall x y, eqb x y = eqb y x)
  /\ (forall x y z, eqb x y = true -> eqb y z = true -> eqb x z = true).

(** The three reasons for which [replace_clusters] refuses its arguments. *)
Definition removal_absent (g : Graph) (removals : list Cluster) : Prop :=
  exists r, In r removals /\ memb cluster_eqb r (clusters g) = false.

Definition addition_present (g : Graph) (additions : list Cluster) : Prop :=
  exists a, In a additions /\ memb cluster_eqb a (clusters g) = true.

Definition covers (cs : list Cluster) (p : nat) : Prop :=
  exists c, In c cs /\ In p (argpoints c).

Definition points_differ (removals additions : list Cluster) : Prop :=
  ~ (forall p, covers removals p <-> covers additions p).

Definition refused (g : Graph) (removals additions : list Cluster) : Prop :=
  removal_absent g removals \/ addition_present g additions
  \/ points_differ removals additions.

(** A cluster that is not in the tree of [manifold1]. *)
Definition stranger : Cluster := mkCluster "0" [0] None.

Definition world1 : World :=
  mkWorld [(EmptyString, [(root1, 0%Q)])] (new_Graph [root1]).

(** A property of the state that a computation keeps, whatever its outcome. *)
Definition keeps {S A : Type} (P : S -> Prop) (c : M S A) : Prop :=
  forall s s' r, P s -> c s = (s', r) -> P s'.

(** The edge [f] is among the edges of the cluster [a]. *)
Definition has_edge (w : World) (a : Cluster) (f : Edge) : Prop :=
  exists es, get_edges (w_graph w) a = Some (Some es) /\ memb edge_eqb f es = true.

(** Every edge of every cluster of the graph satisfies [Q]. *)
Definition edges_all (Q : Cluster -> Edge -> Prop) (w : World) : Prop :=
  forall a es e,
    In a (clusters (w_graph w)) ->
    get_edges (w_graph w) a = Some (Some es) -> In e es -> Q a e.

(** The clusters of the graph are [ks]. *)
Definition graph_keys (ks : list Cluster) (w : World) : Prop :=
  clusters (w_graph w) = ks.

Definition with_edges (w : World) (es : list (Cluster * option (list Edge))) : World :=
  mkWorld (w_cands w) (mkGraph es (cache (w_graph w))).

(** The invariant of the edges while they are built: the clusters of the
    graph are [ks] and every edge satisfies [Q]. *)
Definition inv (ks : list Cluster) (Q : Cluster -> Edge -> Prop) (w : World) : Prop :=
  graph_keys ks w /\ edges_all Q w.

(** The clusters [done] have their edges, which satisfy [Q]; the candidates
    satisfy [SI]. *)
Definition found (ks : list Cluster) (SI : Cands -> Prop)
    (Q : Cluster -> Edge -> Prop) (done : list Cluster) (w : World) : Prop :=
  graph_keys ks w /\ SI (w_cands w)
  /\ forall a, In a done ->
       exists es, get_edges (w_graph w) a = Some (Some es)
                  /\ forall e, In e es -> Q a e.

(** The edges of the clusters in [p] have their counterpart in the other
    direction. *)
Definition symmetric_on (p : list Cluster) (w : World) : Prop :=
  forall a e, In a p -> has_edge w a e ->
              has_edge w (neighbor e) (no_prob a (edge_distance e)).

Definition unweighted (_ : Cluster) (e : Edge) : Prop := probability e = None.

(** [es'] are the edges [es] of a walkable cluster once
    [recompute_transition_probabilities] has passed over them. *)
Definition weighted (es es' : list Edge) : Prop :=
  (es = [] /\ es' = [])
  \/ (es <> [] /\ transition_edges es = Ok es'
      /\ exists factor, probability_sum es' = Ok factor
                        /\ Qle_bool (Qabs (factor - 1)) (1 / 1000000)%Q = true).

(** The state of the loop of [recompute_transition_probabilities] once the
    clusters [done] have been treated, from the state [w0]. *)
Definition recomputed (we0 : list (Cluster * list Edge)) (done : list Cluster)
    (w0 w : World) : Prop :=
  w_cands w = w_cands w0
  /\ edges (w_graph w) = edges (w_graph w0)
  /\ cache_subsumed_clusters (cache (w_graph w))
     = cache_subsumed_clusters (cache (w_graph w0))
  /\ cache_walkable_clusters (cache (w_graph w))
     = cache_walkable_clusters (cache (w_graph w0))
  /\ cache_subsumed_edges (cache (w_graph w))
     = cache_subsumed_edges (cache (w_graph w0))
  /\ exists we,
       cache_walkable_edges (cache (w_graph w)) = Some we
       /\ dict_keys we = dict_keys we0
       /\ (forall c, In c done ->
             exists es es', dict_get cluster_eqb c we0 = Some es
                            /\ dict_get cluster_eqb c we = Some es'
                            /\ weighted es es')
       /\ (forall c, (forall x, In x done -> cluster_eqb c x = false) ->
             dict_get cluster_eqb c we = dict_get cluster_eqb c we0).

(** The probability of an edge, 0 if it has none. *)
Definition probability_or_zero (e : Edge) : Q :=
  match probability e with
  | Some p => p
  | None => 0%Q
  end.

(** Six points on a line, and the graph of the two clusters of depth 1. *)
Definition env6 : Env := line_env [0%Z; 3%Z; 4%Z; 5%Z; 6%Z; 9%Z].

Definition manifold6 : Manifold :=
  match build_tree env6 6 [0; 1; 2; 3; 4; 5] [] with
  | Ok m => m
  | Raise _ => manifold1
  end.

Definition world6 : World :=
  mkWorld [(EmptyString, [(root manifold6, 0%Q)])]
          (new_Graph (children_list (root manifold6))).

(** An edge leads to a cluster of the graph and carries no probability. *)
Definition plain_edge (ks : list Cluster) (_ : Cluster) (e : Edge) : Prop :=
  memb cluster_eqb (neighbor e) ks = true /\ probability e = None.

(** The clusters that can be reached from [start] along the neighbour
    function [nb]. *)
Inductive reach (nb : Cluster -> list Cluster) (start : Cluster) : Cluster -> Prop :=
| reach_start (x : Cluster) : cluster_eqb x start = true -> reach nb start x
| reach_step (x y : Cluster) :
    reach nb start y -> memb cluster_eqb x (nb y) = true -> reach nb start x.

(** The loops of the traversals over a fixed neighbour function. *)
Fixpoint flood (nb : Cluster -> list Cluster) (fuel : nat) (visited frontier : list Cluster)
  : option (list Cluster) :=
  match frontier with
  | [] => Some visited
  | _ =>
      match fuel with
      | O => None
      | S fuel' =>
          let visited := set_update cluster_eqb visited frontier in
          flood nb fuel' visited
            (set_of cluster_eqb
               (filter (fun n => negb (memb cluster_eqb n visited))
                       (concat (map nb frontier))))
      end
  end.

Fixpoint worklist (nb : Cluster -> list Cluster)
    (pop : list Cluster -> option (Cluster * list Cluster))
    (fuel : nat) (visited work : list Cluster) : option (list Cluster) :=
  match pop work with
  | None => Some visited
  | Some (cluster, rest) =>
      match fuel with
      | O => None
      | S fuel' =>
          if negb (memb cluster_eqb cluster visited) then
            let visited := set_add cluster_eqb cluster visited in
            worklist nb pop fuel' visited
              (rest ++ filter (fun n => negb (memb cluster_eqb n visited)) (nb cluster))
          else worklist nb pop fuel' visited rest
      end
  end.

(** What a way of taking an element out of the work list must satisfy. *)
Definition takes_one (pop : list Cluster -> option (Cluster * list Cluster)) : Prop :=
  forall work,
    match pop work with
    | None => work = []
    | Some (c, rest) =>
        length work = S (length rest) /\ forall y, In y work <-> y = c \/ In y rest
    end.

(** The clusters of [U] that are not yet visited. *)
Definition unvisited (U visited : list Cluster) : list Cluster :=
  filter (fun u => negb (memb cluster_eqb u visited)) U.

(** The neighbours of a cluster in a dictionary of edges. *)
Definition neighbors_in (d : list (Cluster * list Edge)) (c : Cluster) : list Cluster :=
  match dict_get cluster_eqb c d with
  | Some es => map neighbor es
  | None => []
  end.

(** The last step of the three traversals. *)
Definition with_subsumed (se : list (Cluster * list Edge)) (visited : list Cluster)
  : list Cluster :=
  set_update cluster_eqb visited
    (set_of cluster_eqb (concat (map (neighbors_in se) visited))).

(** The component of [start]: what is reached over walkable edges, and the
    subsumed neighbours of that. *)
Definition component (we se : list (Cluster * list Edge)) (start x : Cluster) : Prop :=
  reach (neighbors_in we) start x
  \/ exists y, reach (neighbors_in we) start y
               /\ memb cluster_eqb x (neighbors_in se y) = true.

(** A graph whose edges are built: nothing is left to compute, and the
    walkable neighbours of walkable clusters are walkable. *)
Record built (w : World) (sc : list Cluster) (we se : list (Cluster * list Edge)) : Prop := {
  built_edges : any_edges_none (w_graph w) = false;
  built_sc : cache_subsumed_clusters (cache (w_graph w)) = Some sc;
  built_we : cache_walkable_edges (cache (w_graph w)) = Some we;
  built_se : cache_subsumed_edges (cache (w_graph w)) = Some se;
  built_walkable :
    forall c, memb cluster_eqb c (dict_keys we) = true
              <-> memb cluster_eqb c (clusters (w_graph w)) = true
                  /\ memb cluster_eqb c sc = false;
  built_subsumed :
    forall c, memb cluster_eqb c (clusters (w_graph w)) = true ->
              memb cluster_eqb c (dict_keys se) = true;
  built_closed :
    forall c n, memb cluster_eqb c (dict_keys we) = true ->
                In n (neighbors_in we c) ->
                memb cluster_eqb n (dict_keys we) = true
}.

Arguments built_edges {w sc we se} _.
Arguments built_sc {w sc we se} _.
Arguments built_we {w sc we se} _.
Arguments built_se {w sc we se} _.
Arguments built_walkable {w sc we se} _ c.
Arguments built_subsumed {w sc we se} _ c _.
Arguments built_closed {w sc we se} _ c n _ _.

(** The first of the two clusters of the graph of [world6]. *)
Definition start6 : Cluster :=
  hd (root manifold6) (children_list (root manifold6)).

(** The clusters of the tree below [c], [c] included. *)
Fixpoint nodes (c : Cluster) : list Cluster :=
  c :: match children c with
       | None => []
       | Some l =>
           (fix below (l : list Cluster) : list Cluster :=
              match l with
              | [] => []
              | x :: t => nodes x ++ below t
              end) l
       end.

(** Induction on the tree: a property that holds of a cluster whenever it
    holds of its children holds of every cluster. *)
Section ClusterInduction.
Variable P : Cluster -> Prop.
Hypothesis step : forall c, (forall k, In k (children_list c) -> P k) -> P c.

Fixpoint cluster_induction (c : Cluster) : P c :=
  step c
    (match c return forall k, In k (children_list c) -> P k with
     | mkCluster n a ch =>
         match ch return forall k, In k (children_list (mkCluster n a ch)) -> P k with
         | None => fun k H => match H with end
         | Some l =>
             (fix below (l : list Cluster) : forall k, In k l -> P k :=
                match l return forall k, In k l -> P k with
                | [] => fun k H => match H with end
                | x :: t =>
                    fun k H =>
                      match H with
                      | or_introl e => eq_ind x P (cluster_induction x) k e
                      | or_intror H' => below t k H'
                      end
                end) l
         end
     end).
End ClusterInduction.

(** The candidates of the store are clusters of the tree, and a cluster that
    is its own candidate is so at distance zero. *)
Definition tree_store (m : Manifold) (s : Cands) : Prop :=
  forall n cs x d,
    dict_get String.eqb n s = Some cs -> In (x, d) cs ->
    In x (nodes (root m)) /\ (name x = n -> (d == 0)%Q).

(** An edge of [a] as [build_edges] makes them: to a cluster of the tree,
    without probability, no longer than the two radii, and of length zero if
    it leads to [a] itself. *)
Definition overlap_edge (E : Env) (m : Manifold) (a : Cluster) (e : Edge) : Prop :=
  In (neighbor e) (nodes (root m))
  /\ probability e = None
  /\ (edge_distance e <= radius E a + radius E (neighbor e))%Q
  /\ (name (neighbor e) = name a -> (edge_distance e == 0)%Q).

(** The radius that [_find_candidates] has adopted once it has gone down the
    path [path] (root first): the radius of the deepest cluster below the
    root whose radius is positive, and the radius of the root if there is
    none. *)
Definition adopted_radius (E : Env) (path : list Cluster) : Q :=
  match path with
  | [] => 0%Q
  | top :: below =>
      match find (fun c => Qlt_bool 0 (radius E c)) (rev below) with
      | Some c => radius E c
      | None => radius E top
      end
  end.

(** The largest radius on the path, as the specification words it. *)
Definition largest_radius (E : Env) (path : list Cluster) : Q :=
  fold_left Qmax (map (radius E) path) 0%Q.

(** What [_find_candidates] keeps of the working set [ws] for [child]. *)
Definition retained (E : Env) (child : Cluster) (r : Q) (ws : list (Cluster * Q))
  : list (Cluster * Q) :=
  match ws with
  | [] => []
  | _ => retain E child r ws
  end.

(** The four points of [env4], their tree, and the graph of the two
    clusters of depth 1. *)
Definition manifold4 : Manifold :=
  match build_tree env4 4 [0; 1; 2; 3] [] with
  | Ok m => m
  | Raise _ => manifold1
  end.

Definition world4 : World :=
  mkWorld [(EmptyString, [(root manifold4, 0%Q)])]
          (new_Graph (children_list (root manifold4))).

Definition near21 : Cluster := hd (root manifold4) (children_list (root manifold4)).
Definition near0 : Cluster := last (children_list (root manifold4)) (root manifold4).

(** ** Further functions of the source *)

(** [Cluster.__contains__]: the point could be inside the cluster. *)
Definition contains (E : Env) (c : Cluster) (point : Data E) : bool :=
  overlaps E c point 0%Q.

(** The sum of the distances from the sample [s] to the samples of [c]: the
    row of [s] in [argmedoid]. *)
Definition sample_sum (E : Env) (c : Cluster) (s : nat) : Q :=
  Qsum (map (fun t => cdist E (data E s) (data E t)) (argsamples E c)).

(** What [_tree_search] keeps of a cluster [x] below [c] with the distance
    [v]: [x] is in the tree of [c], [v] is the distance between the query
    point and the medoid of [x], and the ball of [x] meets the query ball. *)
Definition found_ok (E : Env) (c : Cluster) (point : Data E) (r : Q)
    (x : Cluster) (v : Q) : Prop :=
  In x (nodes c)
  /\ (v = cdist E point (medoid E x) \/ v = cdist E (medoid E x) point)
  /\ (v <= r + radius E x)%Q.

Definition all_found_ok (E : Env) (c : Cluster) (point : Data E) (r : Q)
    (l : list (Cluster * Q)) : Prop :=
  forall x v, In (x, v) l -> found_ok E c point r x v.

(** The distance is symmetric and obeys the triangle inequality. *)
Definition metric_space (E : Env) : Prop :=
  (forall x y, (cdist E x y == cdist E y x)%Q)
  /\ (forall x y z, (cdist E x z <= cdist E x y + cdist E y z)%Q).

(** The tree below [c] is as [partition] makes it: a child is one level
    deeper than its parent and holds points of its parent, and every point
    of a cluster that has children is in one of them. *)
Definition well_formed (c : Cluster) : Prop :=
  forall x, In x (nodes c) ->
    (forall k, In k (children_list x) ->
       depth k = S (depth x) /\ incl (argpoints k) (argpoints x))
    /\ (forall p, In p (argpoints x) -> no_children x = false ->
          exists k, In k (children_list x) /\ In p (argpoints k)).

(** The same, as a test. *)
Definition well_formedb (c : Cluster) : bool :=
  forallb
    (fun x =>
       forallb (fun k => (depth k =? S (depth x))
                         && forallb (fun p => memb Nat.eqb p (argpoints x)) (argpoints k))
               (children_list x)
       && (no_children x
           || forallb (fun p => existsb (fun k => memb Nat.eqb p (argpoints k))
                                        (children_list x))
                      (argpoints x)))
    (nodes c).

(** The point [p] is in one of the clusters of [l]. *)
Definition covered (l : list (Cluster * Q)) (p : nat) : Prop :=
  exists x, In x (map fst l) /\ In p (argpoints x).

(** The state of the loop of [_tree_search] from [c] after [j] turns: the
    clusters are clusters of the tree at most [j] levels below [c], and
    every point of [c] in the query ball is in one of them. *)
Definition search_state (E : Env) (c : Cluster) (point : Data E) (r : Q) (j : nat)
    (results candidates : list (Cluster * Q)) : Prop :=
  (forall x, In x (map fst results) -> In x (nodes c) /\ depth x <= depth c + j)
  /\ (forall x, In x (map fst candidates) -> In x (nodes c) /\ depth x <= depth c + j)
  /\ (forall p, In p (argpoints c) -> (cdist E point (data E p) <= r)%Q ->
        covered results p \/ covered candidates p).

(** A path down the tree from [c]: each cluster is a child of the one
    before it. *)
Fixpoint chain (c : Cluster) (path : list Cluster) : Prop :=
  match path with
  | [] => True
  | k :: t => In k (children_list c) /\ chain k t
  end.

(** The children in the tree below [c] are named as [partition] names them:
    the name of the parent, then '0', then a run of '1'. *)
Definition named_tree (c : Cluster) : Prop :=
  forall x k, In x (nodes c) -> In k (children_list x) ->
    exists i, name k = child_name (name x) i.

(** The same, as a test: the run of '1' is shorter than the number of
    children. *)
Definition named_treeb (c : Cluster) : bool :=
  forallb
    (fun x =>
       forallb (fun k => existsb (fun i => String.eqb (name k) (child_name (name x) i))
                                 (seq 0 (length (children_list x))))
               (children_list x))
    (nodes c).

(** The names met on the way down from a cluster named [pre], taking the
    children numbered [indices] one after the other. *)
Fixpoint names_from (pre : string) (indices : list nat) : list string :=
  match indices with
  | [] => []
  | i :: t => child_name pre i :: names_from (child_name pre i) t
  end.

(** What these steps append to the name. *)
Fixpoint join (indices : list nat) : string :=
  match indices with
  | [] => EmptyString
  | i :: t => ("0" ++ ones i ++ join t)%string
  end.

(** [Cluster.parent]: the last but one of the lineage. *)
Definition parent (m : Manifold) (c : Cluster) : result Cluster :=
  if 0 <? depth c then
    lineage <- ancestry m (name c) ;;
    match rev lineage with
    | _ :: p :: _ => Ok p
    | _ => Raise IndexError
    end
  else Raise ValueError.

(** The graph of the root of [manifold6] and its two children, in which the
    children are subsumed by the root; and the state [build_edges] leaves. *)
Definition world6s : World :=
  mkWorld [(EmptyString, [(root manifold6, 0%Q)])]
          (new_Graph (root manifold6 :: children_list (root manifold6))).

Definition built6s : World := fst (build_edges env6 manifold6 world6s).

(** [all(f(x) for x in l)]: the generator stops at the first [False], and
    what [f] raises before that is raised. *)
Fixpoint py_all {A : Type} (f : A -> result bool) (l : list A) : result bool :=
  match l with
  | [] => Ok true
  | x :: t => b <- f x ;; if b then py_all f t else Ok false
  end.

(** [set(d[k])] for a dictionary of sets that may be [None]: a missing key
    is a KeyError, [None] is not iterable (TypeError). *)
Definition edge_set (d : list (Cluster * option (list Edge))) (c : Cluster)
  : result (list Edge) :=
  o <- dict_lookup cluster_eqb c d ;;
  es <- the_set TypeError o ;;
  Ok (set_of edge_eqb es).

(** [Graph.__eq__] *)
Definition graph_eq (g other : Graph) : result bool :=
  let cluster_equality :=
    set_eqb cluster_eqb (set_of cluster_eqb (clusters g))
                        (set_of cluster_eqb (clusters other)) in
  if any_edges_none g then Ok cluster_equality
  else
    edges_equality <-
      py_all (fun cluster =>
                mine <- edge_set (edges g) cluster ;;
                theirs <- edge_set (edges other) cluster ;;
                Ok (set_eqb edge_eqb mine theirs))
             (clusters g) ;;
    Ok (cluster_equality && edges_equality).

(** Eight points on a line, their tree, and the graph of four of its
    clusters: ['0'], ['01'] and ['010'] are walkable, and ['01'] has two
    walkable neighbours at different distances; ['00'] is subsumed by
    ['0']. *)
Definition env8 : Env := line_env [0%Z; 3%Z; 4%Z; 5%Z; 6%Z; 9%Z; 10%Z; 13%Z].

Definition manifold8 : Manifold :=
  match build_tree env8 8 [0; 1; 2; 3; 4; 5; 6; 7] [] with
  | Ok m => m
  | Raise _ => manifold1
  end.

Definition cluster8 (n : string) : Cluster :=
  match select manifold8 n with
  | Ok c => c
  | Raise _ => root manifold8
  end.

Definition world8 : World :=
  mkWorld [(EmptyString, [(root manifold8, 0%Q)])]
          (new_Graph (map cluster8 ["0"; "01"; "010"; "00"]%string)).

Definition built8 : World := fst (build_edges env8 manifold8 world8).

(** Three different rows at distance 0 from one another, as the rows [1],
    [2], [3] under scipy's cosine distance: [d(p, p) = 0] and
    [d(p, q) = d(q, p)] hold, but a zero distance does not make two points
    equal. *)
Definition env_flat : Env :=
  mkEnv (line_data [1%Z; 2%Z; 3%Z]) (fun _ _ => 0%Q)
        (fun l n => firstn n l)
        (line_unique_index [1%Z; 2%Z; 3%Z])
        (fun _ _ => O).

Definition flat3 : Cluster := mkCluster EmptyString [0; 1; 2] None.

(** * Theorems *)

Unset Implicit Arguments.

(** ** Numbers *)

Lemma Qlt_bool_iff (x y : Q) : Qlt_bool x y = true <-> (x < y)%Q.
Proof.
  unfold Qlt_bool. rewrite negb_true_iff. split; intro H.
  - apply Qnot_le_lt. intro L. apply Qle_bool_iff in L. congruence.
  - destruct (Qle_bool y x) eqn:E; [|reflexivity].
    apply Qle_bool_iff in E. exfalso. apply (Qlt_not_le _ _ H E).
Qed.

(** C2: [tree_search] at the cluster's own depth returns the cluster
    without testing the overlap.  The root of the manifold of one point, of
    radius 0 at the point 0, does not overlap the ball of radius 1 around
    the point 5, and [tree_search] with depth 0 still returns it, at
    distance 5. *)
Theorem tree_search_own_depth_ignores_overlap :
  overlaps env1 root1 5%Z 1%Q = false /\
  tree_search env1 manifold1 root1 5%Z 1%Q 0%Z = Ok [(root1, inject_Z 5)].
Proof. split; vm_compute; reflexivity. Qed.

(** At its own depth a cluster is always returned. *)
Lemma tree_search_own_depth (E : Env) (m : Manifold) (c : Cluster) (p : Data E) (r : Q) :
  tree_search E m c p r (Z.of_nat (depth c)) = Ok [(c, distance_from_point E c p)].
Proof.
  unfold tree_search.
  assert (H : (Z.of_nat (depth c) =? -1)%Z = false) by (apply Z.eqb_neq; lia).
  rewrite H, Z.ltb_irrefl, Z.eqb_refl. reflexivity.
Qed.

(** C3 as stated fails: on the manifold of one point, whose only layer is
    the root, a search from the root with depth [-1] finds nothing around a
    point at distance 5 with radius 1, while the search with depth
    [len(layers) - 1 = 0] returns the root. *)
Lemma tree_search_minus_one_is_not_deepest_layer :
  tree_search env1 manifold1 root1 5%Z 1%Q (-1)%Z = Ok []
  /\ tree_search env1 manifold1 root1 5%Z 1%Q
       (Z.of_nat (length (layers manifold1)) - 1)%Z
     = Ok [(root1, inject_Z 5)].
Proof. split; vm_compute; reflexivity. Qed.

(** C3, amended.  [tree_search] with depth [-1] behaves as with depth
    [len(layers)], one more than the index of the deepest layer; and it
    raises [ValueError] for every depth that, after this substitution, is
    less than the depth of the cluster. *)
Theorem tree_search_minus_one (E : Env) (m : Manifold) (c : Cluster) (p : Data E) (r : Q) :
  tree_search E m c p r (-1)%Z = tree_search E m c p r (Z.of_nat (length (layers m)))
  /\ forall d : Z,
       (effective_depth m d < Z.of_nat (depth c))%Z ->
       tree_search E m c p r d = Raise ValueError.
Proof.
  split.
  - unfold tree_search.
    assert (H : (Z.of_nat (length (layers m)) =? -1)%Z = false) by (apply Z.eqb_neq; lia).
    rewrite H. reflexivity.
  - intros d H. unfold tree_search. fold (effective_depth m d).
    apply Z.ltb_lt in H. rewrite H. reflexivity.
Qed.

Lemma tree_search_minus_one_witness :
  tree_search env1 manifold1 leaf00 5%Z 1%Q (-1)%Z = Raise ValueError.
Proof.
  apply (proj2 (tree_search_minus_one env1 manifold1 leaf00 5%Z 1%Q)).
  vm_compute. reflexivity.
Defined.

(** C10.  On a graph of fewer than two clusters, [random_walks] returns the
    count 1 for every cluster of the graph, whatever [starts] and [steps]
    are, and leaves the state (edges, cache, candidates) as it is: no edge
    is built, no start is looked up or checked, nothing is raised. *)
Theorem random_walks_fewer_than_two (E : Env) (m : Manifold) (w : World)
    (starts : Starts) (steps : Z) :
  graph_cardinality (w_graph w) < 2 ->
  exists counts,
    random_walks E m starts steps w = (w, Ok counts)
    /\ map fst counts = clusters (w_graph w)
    /\ forall c n, In (c, n) counts -> n = 1.
Proof.
  intro H. unfold random_walks, mbind, get_graph, mret.
  apply Nat.ltb_lt in H. rewrite H.
  eexists. split; [reflexivity|].
  unfold clusters, dict_keys, graph_cardinality in *. apply Nat.ltb_lt in H.
  destruct (edges (w_graph w)) as [|[c o] [|x t]]; simpl in *; try lia.
  - split; [reflexivity|]. intros ? ? [].
  - split; [reflexivity|]. intros c0 n [H0|[]]. congruence.
Qed.

Ltac destruct_stuck :=
  repeat match goal with
  | |- context [match ?x with _ => _ end] =>
      lazymatch x with
      | context [match _ with _ => _ end] => fail
      | _ => destruct x eqn:?
      end
  end.

Lemma find_points_env1 (r : Q) :
  exists l, find_points env1 manifold1 0%Z r = Ok l /\ length l <= 1.
Proof.
  destruct r as [n d].
  vm_compute.
  destruct_stuck; eexists; (split; [reflexivity | simpl; lia]).
Qed.

Lemma knn_loop_env1 (fuel : nat) : forall (r : Q) (results : list (nat * Q)),
  length results <= 1 ->
  knn_loop env1 manifold1 fuel 0%Z 2 r results = None.
Proof.
  induction fuel as [|fuel IH]; intros r results H; simpl;
    (destruct (length results <? 2) eqn:L; [|apply Nat.ltb_ge in L; lia]).
  - reflexivity.
  - destruct (find_points_env1 (r * 2)%Q) as [l [Hl Hlen]].
    rewrite Hl. apply IH, Hlen.
Qed.

(** As long as [find_points] finds fewer than [k] points whatever the
    radius, [find_knn] does not return a result: the fuel of its loop runs
    out, or [find_points] raises. *)
Lemma knn_loop_never_enough (E : Env) (m : Manifold) (point : Data E) (k : nat) :
  (forall r l, find_points E m point r = Ok l -> length l < k) ->
  forall fuel r results out,
    length results < k -> knn_loop E m fuel point k r results <> Some (Ok out).
Proof.
  intros Hshort fuel. induction fuel as [|fuel IH]; intros r results out Hres;
    cbn [knn_loop];
    (destruct (length results <? k) eqn:L; [|apply Nat.ltb_ge in L; lia]);
    [discriminate|].
  destruct (find_points E m point (r * 2)%Q) as [l1|e] eqn:H1; [|discriminate].
  apply IH. exact (Hshort _ _ H1).
Qed.

Lemma find_knn_never_enough (E : Env) (m : Manifold) (point : Data E) (k : nat) :
  (forall r l, find_points E m point r = Ok l -> length l < k) ->
  forall fuel out, find_knn E m fuel point k <> Some (Ok out).
Proof.
  intros Hshort fuel out. unfold find_knn.
  destruct (initial_radius E m) as [r0|e]; [|discriminate].
  destruct (find_points E m point r0) as [l0|e] eqn:H0; [|discriminate].
  pose proof (knn_loop_never_enough E m point k Hshort fuel r0 l0) as G.
  destruct (knn_loop E m fuel point k r0 l0) as [[res|e]|] eqn:K; try discriminate.
  exfalso. apply (G res); [exact (Hshort _ _ H0) | reflexivity].
Qed.

(** C1: [find_knn] does not always return.  On the manifold of one point,
    [find_knn(q, 2)] goes on for ever: [find_points] finds at most the one
    point, so the loop [while len(results) < k] keeps doubling the radius,
    and the model of the loop runs out of any fuel it is given. *)
Theorem find_knn_more_than_N_diverges :
  forall fuel : nat, find_knn env1 manifold1 fuel 0%Z 2 = None.
Proof.
  intro fuel. unfold find_knn.
  destruct (initial_radius env1 manifold1) as [r0|e] eqn:R; [|vm_compute in R; discriminate].
  destruct (find_points_env1 r0) as [l [Hl Hlen]]. rewrite Hl.
  rewrite (knn_loop_env1 fuel r0 l Hlen). reflexivity.
Qed.

(** *** Batches *)

Lemma In_firstn {A : Type} (n : nat) (l : list A) (x : A) : In x (firstn n l) -> In x l.
Proof.
  intro H. rewrite <- (firstn_skipn n l). apply in_or_app. now left.
Qed.

Lemma batches_aux_concat {A : Type} (n : nat) : 0 < n ->
  forall (fuel : nat) (l : list A), length l <= fuel -> concat (batches_aux fuel n l) = l.
Proof.
  intros Hn fuel. induction fuel as [|fuel IH]; intros l Hl.
  - destruct l; [reflexivity | simpl in Hl; lia].
  - destruct l as [|x t]; [reflexivity|].
    cbn [batches_aux concat]. rewrite IH.
    + apply firstn_skipn.
    + rewrite length_skipn. cbn [length] in *. lia.
Qed.

Lemma batches_concat {A : Type} (l : list A) : concat (batches BATCH_SIZE l) = l.
Proof.
  apply batches_aux_concat; [|apply Nat.le_refl].
  unfold BATCH_SIZE. apply Nat.mul_pos_pos; apply Nat.lt_0_succ.
Qed.

Lemma batches_aux_nonempty {A : Type} (n : nat) : 0 < n ->
  forall (fuel : nat) (l b : list A), In b (batches_aux fuel n l) -> b <> [].
Proof.
  intros Hn fuel. induction fuel as [|fuel IH]; intros l b Hb; [destruct Hb|].
  destruct l as [|x t]; [destruct Hb|].
  cbn [batches_aux] in Hb. destruct Hb as [<-|Hb]; [|eapply IH; eassumption].
  destruct n; [lia|]. discriminate.
Qed.

Lemma batches_incl {A : Type} (l b : list A) : In b (batches BATCH_SIZE l) -> incl b l.
Proof.
  intros Hb x Hx. rewrite <- (batches_concat l). apply in_concat. eauto.
Qed.

Lemma batches_nonempty {A : Type} (l b : list A) : In b (batches BATCH_SIZE l) -> b <> [].
Proof.
  apply batches_aux_nonempty. unfold BATCH_SIZE. apply Nat.mul_pos_pos; apply Nat.lt_0_succ.
Qed.

Lemma batches_nil_inv {A : Type} (l : list A) : batches BATCH_SIZE l = [] -> l = [].
Proof. intro H. rewrite <- (batches_concat l), H. reflexivity. Qed.

(** *** argmax and argmin *)

Lemma argmax_from_lt (l : list Q) : forall bi b i,
  bi < i -> argmax_from bi b i l < i + length l.
Proof.
  induction l as [|x t IH]; intros bi b i H; simpl.
  - lia.
  - destruct (Qlt_bool b x).
    + specialize (IH i x (S i)). lia.
    + specialize (IH bi b (S i)). lia.
Qed.

Lemma np_argmax_lt (l : list Q) : l <> [] -> np_argmax l < length l.
Proof.
  destruct l as [|x t]; [congruence|]. intros _. simpl.
  pose proof (argmax_from_lt t 0 x 1). lia.
Qed.

Lemma np_argmin_pair (a b : Q) : np_argmin [a; b] = if Qlt_bool b a then 1 else 0.
Proof. reflexivity. Qed.

Lemma max_by_snd_in (l : list (nat * Q)) : forall best,
  max_by_snd best l = best \/ In (max_by_snd best l) l.
Proof.
  induction l as [|x t IH]; intro best; simpl; [now left|].
  destruct (Qlt_bool (snd best) (snd x)).
  - destruct (IH x) as [->|H]; auto.
  - destruct (IH best) as [->|H]; auto.
Qed.

(** *** Geometry stays inside the cluster *)

Lemma argradius_in (E : Env) (c : Cluster) :
  argpoints c <> [] -> In (argradius E c) (argpoints c).
Proof.
  intro Hne. unfold argradius, argradius_radius.
  destruct (batches BATCH_SIZE (argpoints c)) as [|b bs] eqn:Hb.
  - apply batches_nil_inv in Hb. congruence.
  - assert (Hall : forall x, In x (map (argmax_max E c) (b :: bs)) -> In (fst x) (argpoints c)).
    { intros x Hx. apply in_map_iff in Hx. destruct Hx as [b' [<- Hb']].
      rewrite <- Hb in Hb'. unfold argmax_max. cbn [fst].
      apply (batches_incl _ _ Hb'). apply nth_In.
      pose proof (batches_nonempty _ _ Hb') as Hn.
      assert (L : length (distance_from E c b') = length b')
        by (unfold distance_from; apply length_map).
      rewrite <- L. apply np_argmax_lt. intro H0. rewrite H0 in L.
      destruct b'; [congruence | discriminate]. }
    cbn [map] in *.
    destruct (max_by_snd_in (map (argmax_max E c) bs) (argmax_max E c b)) as [->|H].
    + apply Hall. now left.
    + apply Hall. now right.
Qed.

Lemma argsamples_incl (E : Env) (c : Cluster) :
  numpy_contract E -> incl (argsamples E c) (argpoints c).
Proof.
  intros [Hch Hun]. unfold argsamples.
  set (small := cardinality c <=? SUBSAMPLE_LIMIT).
  set (n := if small then length (argpoints c) else Nat.sqrt (cardinality c)).
  set (indices := if small then argpoints c else np_random_choice E (argpoints c) n).
  assert (Hi : incl indices (argpoints c)).
  { unfold indices. destruct small; [apply incl_refl | apply Hch]. }
  destruct (Qeq_bool _ _); [|exact Hi].
  intros x Hx. apply In_firstn in Hx. apply in_map_iff in Hx.
  destruct Hx as [i [<- Hin]]. apply nth_In. apply Hun, Hin.
Qed.

(** *** The poles *)

Lemma set_of_pair_length (a b : nat) :
  (length (set_of Nat.eqb [a; b]) =? 2) = negb (a =? b).
Proof.
  unfold set_of, set_update, set_add. cbn. rewrite (Nat.eqb_sym b a).
  destruct (a =? b); reflexivity.
Qed.

Lemma find_poles_shape (E : Env) (c : Cluster) (poles : list nat) :
  numpy_contract E -> argpoints c <> [] ->
  _find_poles E c = Ok poles ->
  exists p0 p1, poles = [p0; p1] /\ p0 <> p1
                /\ In p0 (argpoints c) /\ In p1 (argpoints c).
Proof.
  intros HE Hne. unfold _find_poles.
  destruct (1 <? length (argsamples E c)) eqn:H1; [|discriminate].
  apply Nat.ltb_lt in H1.
  pose proof (argsamples_incl E c HE) as Hincl.
  destruct (2 <? length (argsamples E c)) eqn:H2.
  - set (row := map _ (argsamples E c)).
    set (far := nth (np_argmax row) (argsamples E c) 0).
    rewrite set_of_pair_length.
    destruct (argradius E c =? far) eqn:Heq; [discriminate|].
    intro H. injection H as <-. exists (argradius E c), far.
    apply Nat.eqb_neq in Heq. repeat split; auto.
    + apply argradius_in, Hne.
    + apply Hincl. apply nth_In.
      assert (L : length row = length (argsamples E c)) by apply length_map.
      rewrite <- L. apply np_argmax_lt. intro H0. rewrite H0 in L. simpl in L. lia.
  - apply Nat.ltb_ge in H2.
    destruct (argsamples E c) as [|a [|b [|x t]]] eqn:Hs; simpl in H1, H2; try lia.
    rewrite set_of_pair_length.
    destruct (a =? b) eqn:Heq; [discriminate|].
    intro H. injection H as <-. exists a, b.
    apply Nat.eqb_neq in Heq. repeat split; auto.
    + apply Hincl. now left.
    + apply Hincl. right. now left.
Qed.

(** *** The two buckets *)

Section Buckets.
Variable E : Env.
Variables p0 p1 : nat.

Lemma first_side_lt (p : nat) :
  first_side E p0 p1 p
  = negb (Qlt_bool (cdist E (data E p) (data E p1)) (cdist E (data E p) (data E p0))).
Proof.
  unfold first_side. rewrite np_argmin_pair. now destruct (Qlt_bool _ _).
Qed.

Lemma assign_points (L : list nat) : forall l0 l1,
  fold_left (fun acc pr => append_at (np_argmin (snd pr)) (fst pr) acc)
            (combine L (distance E L [p0; p1])) [l0; l1]
  = [l0 ++ filter (first_side E p0 p1) L; l1 ++ filter (fun p => negb (first_side E p0 p1 p)) L].
Proof.
  induction L as [|x t IH]; intros l0 l1.
  - simpl. now rewrite !app_nil_r.
  - unfold distance, distance_points in *.
    cbn [map combine fold_left fst snd filter].
    rewrite first_side_lt, np_argmin_pair.
    destruct (Qlt_bool _ _); cbn [negb append_at];
      rewrite IH; now rewrite <- app_assoc.
Qed.

Lemma assign_batch_pair (batch l0 l1 : list nat) :
  assign_batch E [p0; p1] [l0; l1] batch
  = [l0 ++ filter (first_side E p0 p1) (filter (non_pole p0 p1) batch);
     l1 ++ filter (fun p => negb (first_side E p0 p1 p)) (filter (non_pole p0 p1) batch)].
Proof.
  unfold assign_batch.
  change (fun p => negb (memb Nat.eqb p [p0; p1])) with (non_pole p0 p1).
  destruct (filter (non_pole p0 p1) batch) as [|x t] eqn:Hf.
  - simpl. now rewrite !app_nil_r.
  - apply assign_points.
Qed.

Lemma assign_batches (bs : list (list nat)) : forall l0 l1,
  fold_left (assign_batch E [p0; p1]) bs [l0; l1]
  = [l0 ++ filter (first_side E p0 p1) (filter (non_pole p0 p1) (concat bs));
     l1 ++ filter (fun p => negb (first_side E p0 p1 p)) (filter (non_pole p0 p1) (concat bs))].
Proof.
  induction bs as [|b bs IH]; intros l0 l1.
  - simpl. now rewrite !app_nil_r.
  - cbn [fold_left concat]. rewrite assign_batch_pair, IH.
    rewrite !filter_app, !app_assoc. reflexivity.
Qed.
End Buckets.

Lemma sort_by_len_pair {A : Type} (a b : list A) :
  sort_by_len [a; b] = if length b <? length a then [b; a] else [a; b].
Proof. reflexivity. Qed.

Lemma child_names_differ (n : string) :
  String.eqb (child_name n 1) (child_name n 0) = false.
Proof.
  unfold child_name. induction n as [|a n IH]; [reflexivity|].
  simpl. rewrite Ascii.eqb_refl. exact IH.
Qed.

Lemma forallb_id_map {A : Type} (f : A -> bool) (l : list A) :
  forallb (fun b => b) (map f l) = forallb f l.
Proof. induction l as [|x t IH]; simpl; [reflexivity | now rewrite IH]. Qed.

Lemma partition_condition (E : Env) (c : Cluster) (criterion : list (Cluster -> bool)) :
  forallb (fun b => b)
    ((1 <? length (argsamples E c)) :: map (fun crit => crit c) criterion)
  = splittable E c criterion.
Proof. unfold splittable. cbn [forallb]. now rewrite forallb_id_map. Qed.

Lemma set_of_two_children (n : string) (a b : list nat) :
  set_of cluster_eqb [mkCluster (child_name n 0) a None; mkCluster (child_name n 1) b None]
  = [mkCluster (child_name n 0) a None; mkCluster (child_name n 1) b None].
Proof.
  unfold set_of, set_update, set_add. cbn [fold_left memb existsb app].
  unfold cluster_eqb at 1. cbn [name]. rewrite child_names_differ. reflexivity.
Qed.

Lemma new_Cluster_ok (l : list nat) (n : string) :
  l <> [] -> new_Cluster l n = Ok (mkCluster n l None).
Proof. destruct l; [congruence | reflexivity]. Qed.

(** What [partition] does, as long as [_find_poles] passes its assertions. *)
Lemma partition_with_poles (E : Env) (c : Cluster) (criterion : list (Cluster -> bool)) :
  numpy_contract E ->
  argpoints c <> [] ->
  (splittable E c criterion = false ->
   partition E c criterion = Ok (mkCluster (name c) (argpoints c) (Some [])))
  /\ (splittable E c criterion = true ->
      (exists poles, _find_poles E c = Ok poles) ->
      exists b0 b1 : list nat,
        partition E c criterion
        = Ok (mkCluster (name c) (argpoints c)
                (Some [mkCluster (child_name (name c) 0) b0 None;
                       mkCluster (child_name (name c) 1) b1 None]))
        /\ b0 <> [] /\ b1 <> []
        /\ length b0 <= length b1
        /\ (forall p, In p b0 -> ~ In p b1)
        /\ (forall p, In p (argpoints c) <-> In p b0 \/ In p b1)).
Proof.
  intros HE Hne. split.
  - intro Hs. unfold partition. rewrite partition_condition, Hs. reflexivity.
  - intros Hs [poles Hp].
    destruct (find_poles_shape E c _ HE Hne Hp) as [p0 [p1 [-> [Hd [H0 H1]]]]].
    unfold partition. rewrite partition_condition, Hs, Hp. cbn [negb rbind map].
    rewrite assign_batches, batches_concat, sort_by_len_pair.
    set (NP := filter (non_pole p0 p1) (argpoints c)).
    set (B0 := [p0] ++ filter (first_side E p0 p1) NP).
    set (B1 := [p1] ++ filter (fun p => negb (first_side E p0 p1 p)) NP).
    assert (Hnp : forall p, In p NP <-> In p (argpoints c) /\ p <> p0 /\ p <> p1).
    { intro p. unfold NP. rewrite filter_In. unfold non_pole, memb. cbn [existsb].
      rewrite orb_false_r, negb_true_iff, orb_false_iff, !Nat.eqb_neq. tauto. }
    assert (Hin0 : forall p, In p B0 <-> p = p0 \/ (In p NP /\ first_side E p0 p1 p = true)).
    { intro p. unfold B0. cbn [app In]. rewrite filter_In. intuition congruence. }
    assert (Hin1 : forall p, In p B1 <-> p = p1 \/ (In p NP /\ first_side E p0 p1 p = false)).
    { intro p. unfold B1. cbn [app In]. rewrite filter_In, negb_true_iff.
      intuition congruence. }
    assert (Hdisj : forall p, In p B0 -> ~ In p B1).
    { intros p I0 I1. apply Hin0 in I0. apply Hin1 in I1.
      destruct I0 as [->|[I0 S0]], I1 as [->|[I1 S1]].
      - congruence.
      - apply Hnp in I1. tauto.
      - apply Hnp in I0. tauto.
      - congruence. }
    assert (Hcover : forall p, In p (argpoints c) <-> In p B0 \/ In p B1).
    { intro p. rewrite Hin0, Hin1, Hnp. split.
      - intro Hp0. destruct (Nat.eq_dec p p0) as [->|N0]; [tauto|].
        destruct (Nat.eq_dec p p1) as [->|N1]; [tauto|].
        destruct (first_side E p0 p1 p); tauto.
      - intros [[->|[[? _] _]]|[->|[[? _] _]]]; assumption. }
    assert (Hn0 : B0 <> []) by (unfold B0; discriminate).
    assert (Hn1 : B1 <> []) by (unfold B1; discriminate).
    clearbody B0 B1.
    destruct (length B1 <? length B0) eqn:Hlen.
    + exists B1, B0. cbn -[child_name set_of new_Cluster].
      rewrite !new_Cluster_ok by assumption. cbn [rbind]. rewrite set_of_two_children.
      apply Nat.ltb_lt in Hlen.
      split; [reflexivity|]. split; [exact Hn1|]. split; [exact Hn0|].
      split; [lia|]. split.
      * intros p I1 I0. exact (Hdisj p I0 I1).
      * intro p. rewrite Hcover. tauto.
    + exists B0, B1. cbn -[child_name set_of new_Cluster].
      rewrite !new_Cluster_ok by assumption. cbn [rbind]. rewrite set_of_two_children.
      apply Nat.ltb_ge in Hlen.
      split; [reflexivity|]. split; [exact Hn0|]. split; [exact Hn1|].
      split; [lia|]. split; [exact Hdisj | exact Hcover].
Qed.

(** ** Sets and dictionaries *)

Section ContainerFacts.
Variable K : Type.
Variable eqb : K -> K -> bool.
Hypothesis eqb_equiv : is_equivalence eqb.

Lemma eqb_refl (x : K) : eqb x x = true.
Proof. apply eqb_equiv. Qed.

Lemma eqb_sym (x y : K) : eqb x y = eqb y x.
Proof. apply eqb_equiv. Qed.

Lemma eqb_trans (x y z : K) : eqb x y = true -> eqb y z = true -> eqb x z = true.
Proof. apply eqb_equiv. Qed.

Lemma eqb_compat_l (x y z : K) : eqb x y = true -> eqb x z = eqb y z.
Proof.
  intro H. destruct (eqb y z) eqn:Hyz.
  - eapply eqb_trans; eassumption.
  - destruct (eqb x z) eqn:Hxz; [|reflexivity].
    rewrite <- Hyz. symmetry. apply eqb_trans with x; [|assumption].
    now rewrite eqb_sym.
Qed.

Lemma eqb_compat_r (x y z : K) : eqb x y = true -> eqb z x = eqb z y.
Proof. intro H. rewrite (eqb_sym z x), (eqb_sym z y). now apply eqb_compat_l. Qed.

Lemma memb_true_iff (x : K) (l : list K) :
  memb eqb x l = true <-> exists y, In y l /\ eqb x y = true.
Proof. unfold memb. apply existsb_exists. Qed.

Lemma memb_false_iff (x : K) (l : list K) :
  memb eqb x l = false <-> forall y, In y l -> eqb x y = false.
Proof.
  unfold memb. induction l as [|a t IH]; simpl.
  - split; [intros _ y [] | reflexivity].
  - rewrite orb_false_iff, IH. split.
    + intros [H1 H2] y [<-|Hy]; auto.
    + intro H. split; [apply H; now left | intros y Hy; apply H; now right].
Qed.

Lemma memb_In (x : K) (l : list K) : In x l -> memb eqb x l = true.
Proof. intro H. apply memb_true_iff. exists x. split; [assumption | apply eqb_refl]. Qed.

Lemma memb_compat (x y : K) (l : list K) : eqb x y = true -> memb eqb x l = memb eqb y l.
Proof.
  intro H. unfold memb. induction l as [|a t IH]; simpl; [reflexivity|].
  now rewrite IH, (eqb_compat_l x y a H).
Qed.

Lemma memb_app (x : K) (l1 l2 : list K) :
  memb eqb x (l1 ++ l2) = memb eqb x l1 || memb eqb x l2.
Proof. unfold memb. apply existsb_app. Qed.

Lemma memb_set_add (x k : K) (s : list K) :
  memb eqb x (set_add eqb k s) = eqb x k || memb eqb x s.
Proof.
  unfold set_add. destruct (memb eqb k s) eqn:Hk.
  - destruct (eqb x k) eqn:Hx; [|reflexivity].
    simpl. now rewrite (memb_compat x k s Hx).
  - rewrite memb_app. simpl. rewrite orb_false_r. apply orb_comm.
Qed.

Lemma memb_set_update (x : K) (ks : list K) : forall s,
  memb eqb x (set_update eqb s ks) = memb eqb x s || memb eqb x ks.
Proof.
  unfold set_update. induction ks as [|k t IH]; intro s; simpl.
  - now rewrite orb_false_r.
  - rewrite IH, memb_set_add.
    destruct (eqb x k), (memb eqb x s), (memb eqb x t); reflexivity.
Qed.

Lemma memb_set_of (x : K) (ks : list K) : memb eqb x (set_of eqb ks) = memb eqb x ks.
Proof. unfold set_of. now rewrite memb_set_update. Qed.

Lemma memb_filter_compat (f : K -> bool) (x : K) (s : list K) :
  (forall a b, eqb a b = true -> f a = f b) ->
  memb eqb x (filter f s) = memb eqb x s && f x.
Proof.
  intro Hf. induction s as [|a t IH]; simpl; [reflexivity|].
  destruct (f a) eqn:Ha; simpl; rewrite IH.
  - destruct (eqb x a) eqn:Hx; simpl; [|reflexivity].
    rewrite (Hf x a Hx), Ha. now destruct (memb eqb x t).
  - destruct (eqb x a) eqn:Hx; simpl; [|reflexivity].
    rewrite (Hf x a Hx), Ha. now rewrite andb_false_r.
Qed.

Lemma memb_set_diff (x : K) (s t : list K) :
  memb eqb x (set_diff eqb s t) = memb eqb x s && negb (memb eqb x t).
Proof.
  unfold set_diff. apply memb_filter_compat.
  intros a b H. now rewrite (memb_compat a b t H).
Qed.

Lemma memb_set_remove (x k : K) (s : list K) :
  memb eqb x (set_remove eqb k s) = memb eqb x s && negb (eqb x k).
Proof.
  unfold set_remove. apply memb_filter_compat.
  intros a b H. now rewrite (eqb_compat_l a b k H).
Qed.

Lemma subsetb_true_iff (s t : list K) :
  subsetb eqb s t = true <-> forall x, memb eqb x s = true -> memb eqb x t = true.
Proof.
  unfold subsetb. rewrite forallb_forall. split.
  - intros H x Hx. apply memb_true_iff in Hx. destruct Hx as [y [Hy Hxy]].
    rewrite (memb_compat x y t Hxy). now apply H.
  - intros H x Hx. apply H. now apply memb_In.
Qed.

Lemma set_eqb_true_iff (s t : list K) :
  set_eqb eqb s t = true <-> forall x, memb eqb x s = memb eqb x t.
Proof.
  unfold set_eqb. rewrite andb_true_iff, !subsetb_true_iff. split.
  - intros [H1 H2] x. destruct (memb eqb x s) eqn:Hs.
    + symmetry. now apply H1.
    + destruct (memb eqb x t) eqn:Ht; [|reflexivity].
      rewrite <- Hs. now apply H2.
  - intro H. split; intros x Hx; [rewrite <- H | rewrite H]; assumption.
Qed.

(** *** Dictionaries *)

Variable V : Type.

Lemma dict_get_compat (k k' : K) (d : list (K * V)) :
  eqb k k' = true -> dict_get eqb k d = dict_get eqb k' d.
Proof.
  intro H. induction d as [|[a v] t IH]; simpl; [reflexivity|].
  now rewrite IH, (eqb_compat_l k k' a H).
Qed.

Lemma dict_get_set (k k' : K) (v : V) (d : list (K * V)) :
  dict_get eqb k (dict_set eqb k' v d)
  = if eqb k k' then Some v else dict_get eqb k d.
Proof.
  induction d as [|[a w] t IH]; simpl.
  - reflexivity.
  - destruct (eqb k' a) eqn:Ha; simpl.
    + destruct (eqb k a) eqn:Hk.
      * assert (H : eqb k k' = true)
          by (apply eqb_trans with a; [assumption | now rewrite eqb_sym]).
        now rewrite H.
      * destruct (eqb k k') eqn:Hkk; [|reflexivity].
        rewrite (eqb_compat_l k k' a Hkk) in Hk. congruence.
    + destruct (eqb k a) eqn:Hk.
      * destruct (eqb k k') eqn:Hkk; [|reflexivity].
        rewrite (eqb_compat_l k k' a Hkk) in Hk. congruence.
      * apply IH.
Qed.

Lemma dict_get_some_memb (k : K) (d : list (K * V)) :
  (exists v, dict_get eqb k d = Some v) <-> memb eqb k (dict_keys d) = true.
Proof.
  induction d as [|[a w] t IH]; simpl.
  - split; [intros [v H]; discriminate | discriminate].
  - destruct (eqb k a); [split; eauto | exact IH].
Qed.

Lemma dict_get_none_memb (k : K) (d : list (K * V)) :
  dict_get eqb k d = None <-> memb eqb k (dict_keys d) = false.
Proof.
  induction d as [|[a w] t IH]; simpl.
  - tauto.
  - destruct (eqb k a); [split; discriminate | exact IH].
Qed.

Lemma dict_keys_set (k : K) (v : V) (d : list (K * V)) :
  dict_keys (dict_set eqb k v d)
  = if memb eqb k (dict_keys d) then dict_keys d else dict_keys d ++ [k].
Proof.
  induction d as [|[a w] t IH]; simpl; [reflexivity|].
  destruct (eqb k a) eqn:Ha; simpl; [reflexivity|].
  rewrite IH. now destruct (memb eqb k (dict_keys t)).
Qed.

Lemma dict_keys_set_present (k : K) (v : V) (d : list (K * V)) :
  memb eqb k (dict_keys d) = true -> dict_keys (dict_set eqb k v d) = dict_keys d.
Proof. intro H. now rewrite dict_keys_set, H. Qed.

Lemma keys_distinct_app (l : list K) (k : K) :
  keys_distinct eqb l -> memb eqb k l = false -> keys_distinct eqb (l ++ [k]).
Proof.
  induction l as [|a t IH]; simpl; intros Hd Hk.
  - split; [intros ? [] | exact I].
  - destruct Hd as [Ha Ht]. apply orb_false_iff in Hk. destruct Hk as [Hka Hkt].
    split.
    + intros k' Hk'. apply in_app_or in Hk'. destruct Hk' as [Hk'|[<-|[]]]; auto.
    + now apply IH.
Qed.

Lemma keys_distinct_set (k : K) (v : V) (d : list (K * V)) :
  keys_distinct eqb (dict_keys d) -> keys_distinct eqb (dict_keys (dict_set eqb k v d)).
Proof.
  intro H. rewrite dict_keys_set. destruct (memb eqb k (dict_keys d)) eqn:Hk; [exact H|].
  now apply keys_distinct_app.
Qed.

Lemma keys_distinct_update (items : list (K * V)) : forall d,
  keys_distinct eqb (dict_keys d) ->
  keys_distinct eqb (dict_keys (dict_update eqb d items)).
Proof.
  unfold dict_update. induction items as [|[k v] t IH]; intros d H; simpl; [exact H|].
  apply IH. now apply keys_distinct_set.
Qed.

Lemma keys_distinct_of (items : list (K * V)) :
  keys_distinct eqb (dict_keys (dict_of eqb items)).
Proof. apply keys_distinct_update. exact I. Qed.

Lemma keys_distinct_memb (l : list K) (k : K) :
  keys_distinct eqb (l ++ [k]) -> memb eqb k l = false.
Proof.
  induction l as [|a t IH]; simpl; [reflexivity|].
  intros [Ha Ht]. apply orb_false_iff. split.
  - apply Ha. apply in_or_app. right. now left.
  - now apply IH.
Qed.

Lemma keys_distinct_prefix (l1 l2 : list K) :
  keys_distinct eqb (l1 ++ l2) -> keys_distinct eqb l1.
Proof.
  induction l1 as [|a t IH]; simpl; [intros _; exact I|].
  intros [Ha Ht]. split.
  - intros k' Hk'. apply Ha. apply in_or_app. now left.
  - now apply IH.
Qed.

Lemma dict_set_fresh (k : K) (v : V) (d : list (K * V)) :
  memb eqb k (dict_keys d) = false -> dict_set eqb k v d = d ++ [(k, v)].
Proof.
  induction d as [|[a w] t IH]; simpl; [reflexivity|].
  intro H. apply orb_false_iff in H. destruct H as [Ha Ht].
  rewrite Ha. now rewrite IH.
Qed.

(** A list of items with distinct keys is the dictionary made from it. *)
Lemma dict_update_distinct (items : list (K * V)) : forall d,
  keys_distinct eqb (dict_keys (d ++ items)) ->
  dict_update eqb d items = d ++ items.
Proof.
  unfold dict_update. induction items as [|[k v] t IH]; intros d H; simpl.
  - now rewrite app_nil_r.
  - replace (d ++ (k, v) :: t) with ((d ++ [(k, v)]) ++ t) in *
      by (rewrite <- app_assoc; reflexivity).
    rewrite dict_set_fresh.
    + now apply IH.
    + unfold dict_keys in *. rewrite !map_app in H.
      apply keys_distinct_prefix in H. now apply keys_distinct_memb in H.
Qed.

Lemma dict_of_distinct (items : list (K * V)) :
  keys_distinct eqb (dict_keys items) -> dict_of eqb items = items.
Proof. intro H. unfold dict_of. now apply (dict_update_distinct items []). Qed.
End ContainerFacts.

Lemma memb_nat_iff (x : nat) (l : list nat) : memb Nat.eqb x l = true <-> In x l.
Proof.
  unfold memb. rewrite existsb_exists. split.
  - intros [y [Hy Hxy]]. apply Nat.eqb_eq in Hxy. now subst.
  - intro H. exists x. split; [assumption | apply Nat.eqb_refl].
Qed.

Lemma nat_eqb_equivalence : is_equivalence Nat.eqb.
Proof.
  repeat split.
  - apply Nat.eqb_refl.
  - apply Nat.eqb_sym.
  - intros x y z H1 H2. apply Nat.eqb_eq in H1, H2. subst. apply Nat.eqb_refl.
Qed.

Lemma string_eqb_equivalence : is_equivalence String.eqb.
Proof.
  repeat split.
  - apply String.eqb_refl.
  - apply String.eqb_sym.
  - intros x y z H1 H2. apply String.eqb_eq in H1, H2. subst. apply String.eqb_refl.
Qed.

Lemma cluster_eqb_equivalence : is_equivalence cluster_eqb.
Proof.
  unfold cluster_eqb. repeat split.
  - intro x. rewrite String.eqb_refl. simpl.
    apply (set_eqb_true_iff _ _ nat_eqb_equivalence). reflexivity.
  - intros x y. rewrite String.eqb_sym. f_equal.
    unfold set_eqb. apply andb_comm.
  - intros x y z H1 H2. apply andb_true_iff in H1, H2.
    destruct H1 as [N1 S1], H2 as [N2 S2]. apply andb_true_iff. split.
    + apply String.eqb_eq in N1, N2. rewrite N1, N2. apply String.eqb_refl.
    + rewrite (set_eqb_true_iff _ _ nat_eqb_equivalence) in *.
      intro p. now rewrite S1, S2.
Qed.

Lemma cluster_eqb_name (a b : Cluster) : cluster_eqb a b = true -> name a = name b.
Proof.
  unfold cluster_eqb. intro H. apply andb_true_iff in H. now apply String.eqb_eq.
Qed.

Lemma Qeq_bool_sym (x y : Q) : Qeq_bool x y = Qeq_bool y x.
Proof.
  destruct (Qeq_bool x y) eqn:H1, (Qeq_bool y x) eqn:H2; try reflexivity.
  - apply Qeq_bool_iff in H1. symmetry in H1. apply Qeq_bool_iff in H1. congruence.
  - apply Qeq_bool_iff in H2. symmetry in H2. apply Qeq_bool_iff in H2. congruence.
Qed.

Lemma option_Qeqb_equivalence : is_equivalence option_Qeqb.
Proof.
  repeat split.
  - intros [x|]; simpl; [apply Qeq_bool_refl | reflexivity].
  - intros [x|] [y|]; simpl; try reflexivity. apply Qeq_bool_sym.
  - intros [x|] [y|] [z|]; simpl; try discriminate; try reflexivity.
    apply Qeq_bool_trans.
Qed.

Lemma edge_eqb_equivalence : is_equivalence edge_eqb.
Proof.
  destruct cluster_eqb_equivalence as [Cr [Cs Ct]].
  destruct option_Qeqb_equivalence as [Or [Os Ot]].
  unfold edge_eqb. repeat split.
  - intro x. now rewrite Cr, Qeq_bool_refl, Or.
  - intros x y. now rewrite Cs, Qeq_bool_sym, Os.
  - intros x y z H1 H2.
    apply andb_true_iff in H1, H2. destruct H1 as [H1 P1], H2 as [H2 P2].
    apply andb_true_iff in H1, H2. destruct H1 as [C1 D1], H2 as [C2 D2].
    rewrite (Ct _ _ _ C1 C2), (Qeq_bool_trans _ _ _ D1 D2), (Ot _ _ _ P1 P2).
    reflexivity.
Qed.

(** ** Computations with state *)

Lemma mbind_ok {S A B : Type} (c : M S A) (k : A -> M S B) (s s' : S) (b : B) :
  mbind c k s = (s', Ok b) ->
  exists s1 a, c s = (s1, Ok a) /\ k a s1 = (s', Ok b).
Proof.
  unfold mbind. destruct (c s) as [s1 [a|e]]; [eauto | discriminate].
Qed.

Lemma mbind_run {S A B : Type} (c : M S A) (k : A -> M S B) (s s1 : S) (a : A) :
  c s = (s1, Ok a) -> mbind c k s = k a s1.
Proof. unfold mbind. now intros ->. Qed.

Lemma mlift_ok {S A : Type} (r : result A) (s s' : S) (a : A) :
  mlift r s = (s', Ok a) -> s' = s /\ r = Ok a.
Proof. unfold mlift. intro H. injection H as <- ->. auto. Qed.

Lemma keeps_mret {S A : Type} (P : S -> Prop) (a : A) : keeps P (mret a).
Proof. intros s s' r H E. injection E as <- _. exact H. Qed.

Lemma keeps_mraise {S A : Type} (P : S -> Prop) (e : PyError) : keeps P (@mraise S A e).
Proof. intros s s' r H E. injection E as <- _. exact H. Qed.

Lemma keeps_mlift {S A : Type} (P : S -> Prop) (x : result A) : keeps P (mlift x).
Proof. intros s s' r H E. injection E as <- _. exact H. Qed.

Lemma keeps_mbind {S A B : Type} (P : S -> Prop) (c : M S A) (k : A -> M S B) :
  keeps P c -> (forall a, keeps P (k a)) -> keeps P (mbind c k).
Proof.
  intros Hc Hk s s' r H E. unfold mbind in E.
  destruct (c s) as [s1 [a|e]] eqn:C.
  - eapply Hk; [eapply Hc; eassumption | eassumption].
  - injection E as <- _. eapply Hc; eassumption.
Qed.

Lemma keeps_mfor {S A : Type} (P : S -> Prop) (l : list A) (body : A -> M S unit) :
  (forall x, In x l -> keeps P (body x)) -> keeps P (mfor l body).
Proof.
  induction l as [|x t IH]; intro H; simpl.
  - apply keeps_mret.
  - apply keeps_mbind; [apply H; now left|].
    intros _. apply IH. intros y Hy. apply H. now right.
Qed.

Lemma keeps_mfold {S A B : Type} (P : S -> Prop) (body : B -> A -> M S B) (l : list A) :
  (forall b x, In x l -> keeps P (body b x)) -> forall b, keeps P (mfold body l b).
Proof.
  induction l as [|x t IH]; intros H b; simpl.
  - apply keeps_mret.
  - apply keeps_mbind; [apply H; now left|].
    intro b'. apply IH. intros b0 y Hy. apply H. now right.
Qed.

Lemma keeps_mmap {S A B : Type} (P : S -> Prop) (f : A -> M S B) (l : list A) :
  (forall x, In x l -> keeps P (f x)) -> keeps P (mmap f l).
Proof.
  induction l as [|x t IH]; intro H; simpl.
  - apply keeps_mret.
  - apply keeps_mbind; [apply H; now left|].
    intro y. apply keeps_mbind.
    + apply IH. intros z Hz. apply H. now right.
    + intro ys. apply keeps_mret.
Qed.

Lemma keeps_get_graph (P : World -> Prop) : keeps P get_graph.
Proof. intros s s' r H E. injection E as <- _. exact H. Qed.

Lemma keeps_get_cands (P : World -> Prop) : keeps P get_cands.
Proof. intros s s' r H E. injection E as <- _. exact H. Qed.

(** ** Replacing clusters *)

Lemma subsetb_false_iff (s t : list Cluster) :
  subsetb cluster_eqb s t = false
  <-> exists x, In x s /\ memb cluster_eqb x t = false.
Proof.
  unfold subsetb. induction s as [|a u IH]; simpl.
  - split; [discriminate | intros [x [[] _]]].
  - rewrite andb_false_iff, IH. split.
    + intros [H|[x [Hx Hm]]]; eauto.
    + intros [x [[<-|Hx] Hm]]; eauto.
Qed.

Lemma points_of_covers (cs : list Cluster) (p : nat) :
  memb Nat.eqb p (points_of cs) = true <-> covers cs p.
Proof.
  unfold points_of. rewrite (memb_set_of _ _ nat_eqb_equivalence), memb_nat_iff.
  rewrite in_flat_map. reflexivity.
Qed.

Lemma points_eqb_iff (rs ads : list Cluster) :
  set_eqb Nat.eqb (points_of rs) (points_of ads) = true
  <-> (forall p, covers rs p <-> covers ads p).
Proof.
  rewrite (set_eqb_true_iff _ _ nat_eqb_equivalence). split.
  - intros H p. rewrite <- !points_of_covers. now rewrite H.
  - intros H p.
    destruct (memb Nat.eqb p (points_of rs)) eqn:R, (memb Nat.eqb p (points_of ads)) eqn:A;
      try reflexivity.
    + apply points_of_covers, H, points_of_covers in R. congruence.
    + apply points_of_covers, H, points_of_covers in A. congruence.
Qed.

(** The validation of [replace_clusters] fails exactly in the three cases. *)
Lemma refused_dec (g : Graph) (removals additions : list Cluster) :
  refused g removals additions
  <-> negb (subsetb cluster_eqb removals (set_of cluster_eqb (clusters g)))
      || existsb (fun c => memb cluster_eqb c (clusters g)) additions
      || negb (set_eqb Nat.eqb (points_of removals) (points_of additions)) = true.
Proof.
  unfold refused, removal_absent, addition_present, points_differ.
  rewrite !orb_true_iff, !negb_true_iff, subsetb_false_iff, existsb_exists.
  rewrite <- points_eqb_iff.
  assert (Hset : forall x, memb cluster_eqb x (set_of cluster_eqb (clusters g))
                           = memb cluster_eqb x (clusters g))
    by (intro x; apply (memb_set_of _ _ cluster_eqb_equivalence)).
  split.
  - intros [[r [Hr Hm]]|[[a Ha]|Hp]].
    + left. left. exists r. now rewrite Hset.
    + left. right. exists a. exact Ha.
    + right. now destruct (set_eqb Nat.eqb _ _).
  - intros [[[r [Hr Hm]]|[a Ha]]|Hp].
    + left. exists r. now rewrite <- Hset.
    + right. left. exists a. exact Ha.
    + right. right. now rewrite Hp.
Qed.

(** C8, amended.  [replace_clusters] raises [ValueError] and leaves the
    state as it is when a removal is not in the graph, an addition is in the
    graph, or the points of the removals differ from those of the additions.
    Otherwise it replaces the graph by the one without edges and with an
    empty cache over (clusters minus removals) plus additions, and runs
    [build_edges] on it: what [build_edges] raises is raised with the graph
    already replaced. *)
Theorem replace_clusters_spec (E : Env) (m : Manifold) (w : World)
    (removals additions : list Cluster) :
  (refused (w_graph w) removals additions ->
   replace_clusters E m removals additions true w = (w, Raise ValueError))
  /\ (~ refused (w_graph w) removals additions ->
      exists cs : list Cluster,
        (forall c, memb cluster_eqb c cs
                   = memb cluster_eqb c (clusters (w_graph w))
                     && negb (memb cluster_eqb c removals)
                     || memb cluster_eqb c additions)
        /\ replace_clusters E m removals additions true w
           = build_edges E m (mkWorld (w_cands w) (new_Graph cs))).
Proof.
  pose proof (refused_dec (w_graph w) removals additions) as D.
  unfold replace_clusters, mbind, get_graph, put_graph, mraise.
  destruct (negb (subsetb cluster_eqb removals (set_of cluster_eqb (clusters (w_graph w)))))
    eqn:C1.
  { split; [reflexivity|]. intro N. exfalso. apply N, D. reflexivity. }
  destruct (existsb (fun c => memb cluster_eqb c (clusters (w_graph w))) additions) eqn:C2.
  { split; [reflexivity|]. intro N. exfalso. apply N, D. reflexivity. }
  destruct (negb (set_eqb Nat.eqb (points_of removals) (points_of additions))) eqn:C3.
  { split; [reflexivity|]. intro N. exfalso. apply N, D. reflexivity. }
  split.
  - intro R. apply D in R. discriminate.
  - intros _. eexists. split; [|reflexivity].
    intro c.
    rewrite (memb_set_update _ _ cluster_eqb_equivalence).
    rewrite (memb_set_diff _ _ cluster_eqb_equivalence).
    now rewrite (memb_set_of _ _ cluster_eqb_equivalence).
Qed.

(** C8 as stated fails on a replacement that passes the validation and then
    fails in [build_edges]: [root1] replaced by a cluster that is not in the
    tree.  None of the three reasons holds, [ValueError] is raised (by
    [ancestry]), and the clusters of the graph have changed. *)
Lemma replace_clusters_raises_after_validation :
  ~ refused (w_graph world1) [root1] [stranger]
  /\ snd (replace_clusters env1 manifold1 [root1] [stranger] true world1)
     = Raise ValueError
  /\ clusters (w_graph (fst (replace_clusters env1 manifold1 [root1] [stranger] true world1)))
     <> clusters (w_graph world1).
Proof.
  split; [|split].
  - rewrite refused_dec. vm_compute. discriminate.
  - vm_compute. reflexivity.
  - vm_compute. discriminate.
Qed.

(** ** Edges: the elementary steps *)

Lemma In_set_add {A : Type} (eqb : A -> A -> bool) (k x : A) (s : list A) :
  In x (set_add eqb k s) -> x = k \/ In x s.
Proof.
  unfold set_add. destruct (memb eqb k s); [auto|].
  intro H. apply in_app_or in H. destruct H as [H|[H|[]]]; auto.
Qed.

Lemma In_set_update {A : Type} (eqb : A -> A -> bool) (ks : list A) (x : A) :
  forall s, In x (set_update eqb s ks) -> In x s \/ In x ks.
Proof.
  unfold set_update. induction ks as [|k t IH]; intros s H; simpl in *; [auto|].
  apply IH in H. destruct H as [H|H]; [|auto].
  apply In_set_add in H. destruct H as [->|H]; auto.
Qed.

Lemma In_set_of {A : Type} (eqb : A -> A -> bool) (ks : list A) (x : A) :
  In x (set_of eqb ks) -> In x ks.
Proof. intro H. apply In_set_update in H. destruct H as [[]|H]. exact H. Qed.

Lemma In_set_remove {A : Type} (eqb : A -> A -> bool) (k x : A) (s : list A) :
  In x (set_remove eqb k s) -> In x s.
Proof. unfold set_remove. intro H. apply filter_In in H. tauto. Qed.

Lemma keys_distinct_eqb_eq {K : Type} (eqb : K -> K -> bool) (ks : list K) (a b : K) :
  is_equivalence eqb -> keys_distinct eqb ks ->
  In a ks -> In b ks -> eqb a b = true -> a = b.
Proof.
  intros [Hr [Hs Ht]]. induction ks as [|k t IH]; intros Hd Ha Hb Hab; [destruct Ha|].
  destruct Hd as [Hk Hd]. destruct Ha as [<-|Ha], Hb as [<-|Hb].
  - reflexivity.
  - rewrite Hs, (Hk b Hb) in Hab. discriminate.
  - rewrite (Hk a Ha) in Hab. discriminate.
  - now apply IH.
Qed.

Lemma get_edges_member (g : Graph) (a : Cluster) (o : option (list Edge)) :
  get_edges g a = Some o -> memb cluster_eqb a (clusters g) = true.
Proof.
  intro H. apply (dict_get_some_memb _ _ _ a (edges g)). eauto.
Qed.

Lemma get_edges_compat (g : Graph) (a b : Cluster) :
  cluster_eqb a b = true -> get_edges g a = get_edges g b.
Proof. apply dict_get_compat, cluster_eqb_equivalence. Qed.

Lemma has_edge_compat (w : World) (a b : Cluster) (f f' : Edge) :
  cluster_eqb a b = true -> edge_eqb f f' = true -> has_edge w a f -> has_edge w b f'.
Proof.
  intros Hab Hff [es [Hg Hm]]. exists es. split.
  - now rewrite <- (get_edges_compat _ a b Hab).
  - now rewrite <- (memb_compat _ _ edge_eqb_equivalence f f' es Hff).
Qed.

Lemma dict_lookup_ok {K V : Type} (eqb : K -> K -> bool) (k : K) (d : list (K * V)) (v : V) :
  dict_lookup eqb k d = Ok v <-> dict_get eqb k d = Some v.
Proof.
  unfold dict_lookup. destruct (dict_get eqb k d); split; intro H; congruence.
Qed.

(** What [add_edge] does, in all cases. *)
Lemma add_edge_run (target : Cluster) (f : Edge) (w : World) :
  (exists es,
      get_edges (w_graph w) target = Some (Some es)
      /\ add_edge target f w
         = (with_edges w (dict_set cluster_eqb target (Some (set_add edge_eqb f es))
                            (edges (w_graph w))), Ok tt))
  \/ (exists e, add_edge target f w = (w, Raise e)).
Proof.
  unfold add_edge, mbind, get_graph, mlift, put_edges, dict_lookup, get_edges, the_set.
  destruct (dict_get cluster_eqb target (edges (w_graph w))) as [[es|]|]; eauto.
Qed.

Lemma with_edges_get (w : World) (k a : Cluster) (v : option (list Edge)) :
  get_edges (w_graph (with_edges w (dict_set cluster_eqb k v (edges (w_graph w))))) a
  = if cluster_eqb a k then Some v else get_edges (w_graph w) a.
Proof. unfold get_edges. cbn. apply dict_get_set, cluster_eqb_equivalence. Qed.

Lemma with_edges_clusters (w : World) (k : Cluster) (v o : option (list Edge)) :
  get_edges (w_graph w) k = Some o ->
  clusters (w_graph (with_edges w (dict_set cluster_eqb k v (edges (w_graph w)))))
  = clusters (w_graph w).
Proof.
  intro H. unfold clusters. cbn.
  apply dict_keys_set_present. eapply get_edges_member, H.
Qed.

Section EdgeInvariants.
Variable ks : list Cluster.
Hypothesis ks_distinct : keys_distinct cluster_eqb ks.

(** [Q] holds of every edge and passes to the edge in the other direction. *)
Variable Q : Cluster -> Edge -> Prop.
Hypothesis Q_reverse :
  forall a x e, In a ks -> In x ks -> cluster_eqb x (neighbor e) = true ->
                Q a e -> Q x (no_prob a (edge_distance e)).

Lemma key_eq (a b : Cluster) : In a ks -> In b ks -> cluster_eqb a b = true -> a = b.
Proof.
  apply keys_distinct_eqb_eq; [apply cluster_eqb_equivalence | exact ks_distinct].
Qed.

Lemma inv_set_edges (w : World) (k : Cluster) (o : option (list Edge)) (es : list Edge) :
  inv ks Q w -> In k ks -> get_edges (w_graph w) k = Some o ->
  (forall e, In e es -> Q k e) ->
  inv ks Q (with_edges w (dict_set cluster_eqb k (Some es) (edges (w_graph w)))).
Proof.
  intros [Hk Ha] Hin Hg Hes. split.
  - unfold graph_keys. rewrite (with_edges_clusters _ _ _ _ Hg). exact Hk.
  - intros a es' e Hain Hget He.
    rewrite (with_edges_clusters _ _ _ _ Hg) in Hain.
    rewrite with_edges_get in Hget.
    destruct (cluster_eqb a k) eqn:Hak.
    + injection Hget as <-. rewrite Hk in Hain.
      rewrite (key_eq a k Hain Hin Hak). now apply Hes.
    + eapply Ha; eassumption.
Qed.

Lemma keeps_add_edge (c : Cluster) (e : Edge) :
  In c ks -> Q c e ->
  keeps (inv ks Q) (add_edge (neighbor e) (no_prob c (edge_distance e))).
Proof.
  intros Hc Hq w w' r Hinv Hrun.
  destruct (add_edge_run (neighbor e) (no_prob c (edge_distance e)) w)
    as [[es [Hg Hr]]|[err Hr]]; rewrite Hr in Hrun; injection Hrun as <- _;
    [|exact Hinv].
  pose proof Hinv as [Hk Ha].
  pose proof (get_edges_member _ _ _ Hg) as Hm.
  apply (memb_true_iff _ cluster_eqb) in Hm. destruct Hm as [x [Hx Hnx]].
  rewrite Hk in Hx.
  assert (Hgx : get_edges (w_graph w) x = Some (Some es))
    by (rewrite <- Hg; symmetry; now apply get_edges_compat).
  split.
  - unfold graph_keys. rewrite (with_edges_clusters _ _ _ _ Hg). exact Hk.
  - intros a es' e' Hain Hget He'.
    rewrite (with_edges_clusters _ _ _ _ Hg) in Hain.
    rewrite with_edges_get in Hget.
    destruct (cluster_eqb a (neighbor e)) eqn:Han.
    + injection Hget as <-. rewrite Hk in Hain.
      apply In_set_add in He'. destruct He' as [->|He'].
      * apply Q_reverse; assumption.
      * apply (Ha a es e'); [now rewrite Hk | | exact He'].
        rewrite <- Hg. now apply get_edges_compat.
    + eapply Ha; eassumption.
Qed.

Lemma keeps_handshake : keeps (inv ks Q) handshake.
Proof.
  assert (H : forall l, incl l ks ->
            keeps (inv ks Q) (mfor l (fun cluster =>
              g <~ get_graph ;;
              o <~ mlift (dict_lookup cluster_eqb cluster (edges g)) ;;
              es <~ mlift (the_set TypeError o) ;;
              mfor es (fun e => add_edge (neighbor e) (no_prob cluster (edge_distance e)))))).
  { intros l Hl. apply keeps_mfor. intros c Hc.
    intros w w' r Hinv Hrun. unfold mbind at 1 in Hrun. cbn [get_graph] in Hrun.
    unfold mbind at 1 in Hrun. unfold mlift at 1 in Hrun.
    destruct (dict_lookup cluster_eqb c (edges (w_graph w))) as [o|err] eqn:Hl1;
      [|injection Hrun as <- _; exact Hinv].
    unfold mbind at 1 in Hrun. unfold mlift at 1 in Hrun.
    destruct o as [es|]; cbn [the_set] in Hrun; [|injection Hrun as <- _; exact Hinv].
    apply dict_lookup_ok in Hl1.
    assert (Hq : forall e, In e es -> Q c e).
    { intros e He. destruct Hinv as [Hk Ha]. apply (Ha c es e); auto.
      rewrite Hk. now apply Hl. }
    revert Hrun. apply keeps_mfor; [|exact Hinv].
    intros e He. apply keeps_add_edge; [now apply Hl | now apply Hq]. }
  intros w w' r Hinv Hrun.
  unfold handshake in Hrun. unfold mbind at 1 in Hrun. cbn [get_graph] in Hrun.
  rewrite (proj1 Hinv) in Hrun.
  exact (H ks (incl_refl ks) w w' r Hinv Hrun).
Qed.

Lemma keeps_remove_self_edges : keeps (inv ks Q) remove_self_edges.
Proof.
  assert (H : forall l, incl l ks ->
            keeps (inv ks Q) (mfor l (fun cluster =>
              g <~ get_graph ;;
              o <~ mlift (dict_lookup cluster_eqb cluster (edges g)) ;;
              es <~ mlift (the_set TypeError o) ;;
              if memb edge_eqb (no_prob cluster 0%Q) es then
                put_edges (dict_set cluster_eqb cluster
                             (Some (set_remove edge_eqb (no_prob cluster 0%Q) es)) (edges g))
              else mret tt))).
  { intros l Hl. apply keeps_mfor. intros c Hc.
    intros w w' r Hinv Hrun. unfold mbind at 1 in Hrun. cbn [get_graph] in Hrun.
    unfold mbind at 1 in Hrun. unfold mlift at 1 in Hrun.
    destruct (dict_lookup cluster_eqb c (edges (w_graph w))) as [o|err] eqn:Hl1;
      [|injection Hrun as <- _; exact Hinv].
    unfold mbind at 1 in Hrun. unfold mlift at 1 in Hrun.
    destruct o as [es|]; cbn [the_set] in Hrun; [|injection Hrun as <- _; exact Hinv].
    apply dict_lookup_ok in Hl1.
    destruct (memb edge_eqb (no_prob c 0%Q) es);
      [|injection Hrun as <- _; exact Hinv].
    unfold put_edges in Hrun. injection Hrun as <- _.
    apply (inv_set_edges w c (Some es)); auto.
    intros e He. apply In_set_remove in He.
    destruct Hinv as [Hk Ha]. apply (Ha c es e); auto. rewrite Hk. now apply Hl. }
  intros w w' r Hinv Hrun.
  unfold remove_self_edges in Hrun. unfold mbind at 1 in Hrun. cbn [get_graph] in Hrun.
  rewrite (proj1 Hinv) in Hrun.
  exact (H ks (incl_refl ks) w w' r Hinv Hrun).
Qed.
End EdgeInvariants.

(** ** Edges: the neighbours found among the candidates *)

Lemma keeps_put_cands (P : World -> Prop) (s : Cands) :
  (forall w, P w -> P (mkWorld s (w_graph w))) -> keeps P (put_cands s).
Proof. intros H w w' r Hw Hrun. injection Hrun as <- _. now apply H. Qed.

Lemma keeps_candidates_step (E : Env) (P : World -> Prop) (lineage : list Cluster)
    (r : Q) (d : nat) :
  (forall w s, P w -> P (mkWorld s (w_graph w))) ->
  keeps P (candidates_step E lineage r d).
Proof.
  intro HP. unfold candidates_step.
  destruct (nth_error lineage (S d)) as [child|]; [|apply keeps_mraise].
  apply keeps_mbind; [apply keeps_get_cands|]. intro s.
  destruct (candidates s child); [apply keeps_mret|].
  destruct (nth_error lineage d) as [parent|]; [|apply keeps_mraise].
  destruct (candidates s parent) as [pc|]; [|apply keeps_mraise].
  apply keeps_mbind; [apply keeps_mlift|]. intro ws.
  apply keeps_mbind; [|intros; apply keeps_mret].
  apply keeps_put_cands. intros w Hw. now apply HP.
Qed.

(** [_find_candidates] leaves the graph alone. *)
Lemma find_candidates_graph (E : Env) (m : Manifold) (cluster : Cluster) (g : Graph) :
  keeps (fun w => w_graph w = g) (_find_candidates E m cluster).
Proof.
  unfold _find_candidates.
  apply keeps_mbind; [apply keeps_mlift|]. intro lineage.
  apply keeps_mbind; [|intros; apply keeps_mret].
  apply keeps_mfold. intros b x _. apply keeps_candidates_step.
  intros w s Hw. exact Hw.
Qed.

(** What [_find_neighbors] does when it succeeds. *)
Lemma find_neighbors_ok (E : Env) (m : Manifold) (k : Cluster) (w w' : World) :
  _find_neighbors E m k w = (w', Ok tt) ->
  exists (w1 : World) (cs : list (Cluster * Q)),
    w_graph w1 = w_graph w
    /\ (w1 = w \/ _find_candidates E m k w = (w1, Ok tt))
    /\ candidates (w_cands w1) k = Some cs
    /\ w' = with_edges w1
              (dict_set cluster_eqb k
                 (Some (set_of edge_eqb
                    (map (fun cd => no_prob (fst cd) (snd cd))
                       (filter (fun cd =>
                                  memb cluster_eqb (fst cd) (clusters (w_graph w))
                                  && Qle_bool (snd cd) (radius E k + radius E (fst cd))%Q)
                               cs))))
                 (edges (w_graph w))).
Proof.
  unfold _find_neighbors. intro H.
  apply mbind_ok in H. destruct H as [w0 [s0 [H0 H]]]. injection H0 as <- <-.
  apply mbind_ok in H. destruct H as [w1 [[] [H1 H]]].
  apply mbind_ok in H. destruct H as [w2 [s1 [H2 H]]]. injection H2 as <- <-.
  apply mbind_ok in H. destruct H as [w3 [cs [H3 H]]].
  apply mlift_ok in H3. destruct H3 as [-> H3].
  apply mbind_ok in H. destruct H as [w4 [g [H4 H]]]. injection H4 as <- <-.
  unfold put_edges in H. injection H as <-.
  assert (Hg : w_graph w1 = w_graph w).
  { destruct (candidates (w_cands w) k).
    - injection H1 as <-. reflexivity.
    - exact (find_candidates_graph E m k (w_graph w) w w1 (Ok tt) eq_refl H1). }
  exists w1, cs. split; [exact Hg|]. split.
  - destruct (candidates (w_cands w) k); [left; now injection H1 | right; exact H1].
  - split.
    + destruct (candidates (w_cands w1) k); simpl in H3; [|discriminate].
      injection H3 as ->. reflexivity.
    + unfold with_edges. now rewrite Hg.
Qed.

Lemma keeps_find_neighbors_keys (E : Env) (m : Manifold) (ks : list Cluster) (k : Cluster) :
  In k ks -> keeps (graph_keys ks) (_find_neighbors E m k).
Proof.
  intro Hin. unfold _find_neighbors, graph_keys.
  apply keeps_mbind; [apply keeps_get_cands|]. intro s.
  apply keeps_mbind.
  { destruct (candidates s k); [apply keeps_mret|].
    intros w w' r Hw Hrun.
    rewrite (find_candidates_graph E m k (w_graph w) w w' r eq_refl Hrun). exact Hw. }
  intros _. apply keeps_mbind; [apply keeps_get_cands|]. intro s'.
  apply keeps_mbind; [apply keeps_mlift|]. intro cs.
  intros w w' r Hw Hrun. unfold mbind, get_graph, put_edges in Hrun.
  injection Hrun as <- _. cbn [w_graph]. unfold clusters. cbn [edges].
  rewrite dict_keys_set_present; [exact Hw|].
  fold (clusters (w_graph w)). rewrite Hw.
  apply (memb_In _ _ cluster_eqb_equivalence), Hin.
Qed.

Section Neighbors.
Variable E : Env.
Variable m : Manifold.
Variable ks : list Cluster.
Hypothesis ks_distinct : keys_distinct cluster_eqb ks.

(** [SI] is a property of the candidates that [_find_candidates] keeps, and
    [Q] follows from it for the edges that [_find_neighbors] creates. *)
Variable SI : Cands -> Prop.
Variable Q : Cluster -> Edge -> Prop.
Hypothesis SI_kept :
  forall k, keeps (fun w => SI (w_cands w)) (_find_candidates E m k).
Hypothesis Q_found :
  forall s k cs x d,
    SI s -> In k ks -> candidates s k = Some cs -> In (x, d) cs ->
    memb cluster_eqb x ks = true ->
    Qle_bool d (radius E k + radius E x)%Q = true ->
    Q k (no_prob x d).

Lemma found_step (done rest : list Cluster) (k : Cluster) (w w' : World) :
  ks = done ++ k :: rest ->
  found ks SI Q done w -> _find_neighbors E m k w = (w', Ok tt) ->
  found ks SI Q (done ++ [k]) w'.
Proof.
  intros Hks [Hk [Hs Hd]] Hrun.
  assert (Hin : In k ks) by (rewrite Hks; apply in_or_app; right; now left).
  pose proof (keeps_find_neighbors_keys E m ks k Hin w w' (Ok tt) Hk Hrun) as Hk'.
  destruct (find_neighbors_ok E m k w w' Hrun) as [w1 [cs [Hg [H1 [Hc ->]]]]].
  assert (Hs1 : SI (w_cands w1)).
  { destruct H1 as [->|H1]; [exact Hs|]. exact (SI_kept k w w1 (Ok tt) Hs H1). }
  split; [exact Hk'|]. split; [exact Hs1|].
  intros a Ha. unfold get_edges. cbn [with_edges w_graph edges].
  rewrite (dict_get_set _ _ cluster_eqb_equivalence).
  destruct (cluster_eqb a k) eqn:Hak.
  - assert (a = k).
    { apply (keys_distinct_eqb_eq cluster_eqb ks); auto using cluster_eqb_equivalence.
      rewrite Hks. apply in_app_or in Ha. apply in_or_app.
      destruct Ha as [Ha|[<-|[]]]; [now left | right; now left]. }
    subst a. eexists. split; [reflexivity|].
    intros e He. apply In_set_of in He. apply in_map_iff in He.
    destruct He as [[x d] [<- Hxd]]. apply filter_In in Hxd.
    destruct Hxd as [Hxd Ht]. apply andb_true_iff in Ht. destruct Ht as [Hm Hle].
    cbn [fst snd] in *. rewrite Hk in Hm.
    eapply Q_found; eassumption.
  - apply in_app_or in Ha. destruct Ha as [Ha|[<-|[]]].
    + apply Hd, Ha.
    + destruct cluster_eqb_equivalence as [Hr _]. rewrite Hr in Hak. discriminate.
Qed.

Lemma found_all (rest : list Cluster) : forall (done : list Cluster) (w w' : World),
  ks = done ++ rest ->
  found ks SI Q done w -> mfor rest (_find_neighbors E m) w = (w', Ok tt) ->
  found ks SI Q ks w'.
Proof.
  induction rest as [|k rest IH]; intros done w w' Hks Hf Hrun.
  - injection Hrun as <-. rewrite app_nil_r in Hks. rewrite <- Hks in Hf. exact Hf.
  - cbn [mfor] in Hrun. apply mbind_ok in Hrun.
    destruct Hrun as [w1 [[] [H1 H2]]].
    apply (IH (done ++ [k]) w1 w').
    + rewrite Hks, <- app_assoc. reflexivity.
    + eapply found_step; eassumption.
    + exact H2.
Qed.

Lemma find_all_neighbors (w w' : World) :
  graph_keys ks w -> SI (w_cands w) ->
  mfor ks (_find_neighbors E m) w = (w', Ok tt) ->
  found ks SI Q ks w'.
Proof.
  intros Hk Hs. apply (found_all ks []); [reflexivity|].
  split; [exact Hk|]. split; [exact Hs|]. intros a [].
Qed.
End Neighbors.

(** ** Edges: the handshake *)

Lemma edge_eqb_true_iff (e f : Edge) :
  edge_eqb e f = true
  <-> cluster_eqb (neighbor e) (neighbor f) = true
      /\ Qeq_bool (edge_distance e) (edge_distance f) = true
      /\ option_Qeqb (probability e) (probability f) = true.
Proof. unfold edge_eqb. rewrite !andb_true_iff. tauto. Qed.

Lemma cluster_eqb_refl (a : Cluster) : cluster_eqb a a = true.
Proof. apply cluster_eqb_equivalence. Qed.

Lemma cluster_eqb_sym (a b : Cluster) : cluster_eqb a b = cluster_eqb b a.
Proof. apply cluster_eqb_equivalence. Qed.

Lemma cluster_eqb_trans (a b c : Cluster) :
  cluster_eqb a b = true -> cluster_eqb b c = true -> cluster_eqb a c = true.
Proof. apply cluster_eqb_equivalence. Qed.

Lemma add_edge_ok (target : Cluster) (f : Edge) (w w' : World) :
  add_edge target f w = (w', Ok tt) ->
  exists es,
    get_edges (w_graph w) target = Some (Some es)
    /\ w' = with_edges w (dict_set cluster_eqb target (Some (set_add edge_eqb f es))
                            (edges (w_graph w))).
Proof.
  intro H. destruct (add_edge_run target f w) as [[es [Hg Hr]]|[e Hr]];
    rewrite Hr in H; [|discriminate].
  injection H as <-. eauto.
Qed.

Lemma add_edge_has (target : Cluster) (f : Edge) (w w' : World) :
  add_edge target f w = (w', Ok tt) ->
  (forall a e, has_edge w a e -> has_edge w' a e)
  /\ has_edge w' target f
  /\ (forall a e, has_edge w' a e ->
        has_edge w a e \/ (cluster_eqb a target = true /\ edge_eqb e f = true)).
Proof.
  intro H. apply add_edge_ok in H. destruct H as [es [Hg ->]].
  split; [|split].
  - intros a e [es' [Ha Hm]]. unfold has_edge. rewrite with_edges_get.
    destruct (cluster_eqb a target) eqn:Hat.
    + eexists. split; [reflexivity|].
      rewrite (get_edges_compat _ a target Hat), Hg in Ha. injection Ha as <-.
      rewrite (memb_set_add _ _ edge_eqb_equivalence). now rewrite Hm, orb_true_r.
    + eauto.
  - unfold has_edge. rewrite with_edges_get, cluster_eqb_refl.
    eexists. split; [reflexivity|].
    rewrite (memb_set_add _ _ edge_eqb_equivalence).
    destruct edge_eqb_equivalence as [Hr _]. now rewrite Hr.
  - intros a e [es' [Ha Hm]]. rewrite with_edges_get in Ha.
    destruct (cluster_eqb a target) eqn:Hat.
    + injection Ha as <-. rewrite (memb_set_add _ _ edge_eqb_equivalence) in Hm.
      apply orb_true_iff in Hm. destruct Hm as [Hm|Hm]; [now right|].
      left. exists es. split; [|exact Hm].
      now rewrite (get_edges_compat _ a target Hat).
    + left. exists es'. auto.
Qed.

(** The inner loop of the handshake, for the cluster [c]. *)
Lemma handshake_inner (c : Cluster) (l : list Edge) : forall (w w' : World),
  mfor l (fun e => add_edge (neighbor e) (no_prob c (edge_distance e))) w = (w', Ok tt) ->
  (forall a e, has_edge w a e -> has_edge w' a e)
  /\ (forall e0, In e0 l -> has_edge w' (neighbor e0) (no_prob c (edge_distance e0)))
  /\ (forall a e, has_edge w' a e ->
        has_edge w a e
        \/ exists e0, In e0 l /\ cluster_eqb a (neighbor e0) = true
                      /\ edge_eqb e (no_prob c (edge_distance e0)) = true).
Proof.
  induction l as [|x t IH]; intros w w' H.
  - injection H as <-. split; [auto|]. split; [intros ? []|auto].
  - cbn [mfor] in H. apply mbind_ok in H. destruct H as [w1 [[] [H1 H2]]].
    apply add_edge_has in H1. destruct H1 as [M1 [A1 N1]].
    apply IH in H2. destruct H2 as [M2 [A2 N2]].
    split; [|split].
    + auto.
    + intros e0 [<-|He0]; auto.
    + intros a e He. apply N2 in He. destruct He as [He|[e0 [He0 Hx]]].
      * apply N1 in He. destruct He as [He|[Ha Hf]]; [now left|].
        right. exists x. split; [now left | auto].
      * right. exists e0. split; [now right | exact Hx].
Qed.

Section Handshake.
Variable ks : list Cluster.
Hypothesis ks_distinct : keys_distinct cluster_eqb ks.

Lemma unweighted_reverse :
  forall a x e, In a ks -> In x ks -> cluster_eqb x (neighbor e) = true ->
                unweighted a e -> unweighted x (no_prob a (edge_distance e)).
Proof. reflexivity. Qed.

Lemma handshake_step (p : list Cluster) (c : Cluster) (es : list Edge) (w w' : World) :
  In c ks ->
  inv ks unweighted w -> symmetric_on p w ->
  get_edges (w_graph w) c = Some (Some es) ->
  mfor es (fun e => add_edge (neighbor e) (no_prob c (edge_distance e))) w = (w', Ok tt) ->
  symmetric_on (p ++ [c]) w'.
Proof.
  intros Hc Hinv Hsym Hget Hrun.
  destruct (handshake_inner c es w w' Hrun) as [Mono [Added New]].
  assert (Hnone : forall e0, In e0 es -> probability e0 = None).
  { intros e0 He0. destruct Hinv as [Hk Ha]. apply (Ha c es e0); auto. now rewrite Hk. }
  intros a e Ha He. apply in_app_or in Ha.
  destruct (New a e He) as [Hold|[e0 [He0 [Hae0 Hee0]]]].
  - destruct Ha as [Ha|[<-|[]]].
    + apply Mono. now apply Hsym.
    + destruct Hold as [es' [Hg' Hm]]. rewrite Hget in Hg'. injection Hg' as <-.
      apply (memb_true_iff _ edge_eqb) in Hm. destruct Hm as [e' [He' Hee']].
      apply edge_eqb_true_iff in Hee'. destruct Hee' as [Hn [Hd _]].
      apply (has_edge_compat w' (neighbor e') (neighbor e)
               (no_prob c (edge_distance e')) (no_prob c (edge_distance e))).
      * now rewrite cluster_eqb_sym.
      * apply edge_eqb_true_iff. cbn. rewrite cluster_eqb_refl, Qeq_bool_sym. auto.
      * now apply Added.
  - apply edge_eqb_true_iff in Hee0. cbn in Hee0. destruct Hee0 as [Hn [Hd Hp]].
    destruct Ha as [Ha|[<-|[]]].
    + apply Mono.
      apply (has_edge_compat w c (neighbor e) e0 (no_prob a (edge_distance e))).
      * now rewrite cluster_eqb_sym.
      * apply edge_eqb_true_iff. cbn. rewrite (Hnone e0 He0).
        rewrite cluster_eqb_sym, Hae0, Qeq_bool_sym, Hd. auto.
      * exists es. split; [exact Hget|].
        apply (memb_In _ _ edge_eqb_equivalence), He0.
    + apply (has_edge_compat w' (neighbor e0) (neighbor e)
               (no_prob c (edge_distance e0)) (no_prob c (edge_distance e))).
      * apply cluster_eqb_trans with c; [now rewrite cluster_eqb_sym|].
        now rewrite cluster_eqb_sym.
      * apply edge_eqb_true_iff. cbn. rewrite cluster_eqb_refl, Qeq_bool_sym. auto.
      * now apply Added.
Qed.

Lemma handshake_loop (rest : list Cluster) : forall (p : list Cluster) (w w' : World),
  incl rest ks ->
  inv ks unweighted w -> symmetric_on p w ->
  mfor rest (fun cluster =>
    g <~ get_graph ;;
    o <~ mlift (dict_lookup cluster_eqb cluster (edges g)) ;;
    es <~ mlift (the_set TypeError o) ;;
    mfor es (fun e => add_edge (neighbor e) (no_prob cluster (edge_distance e)))) w
  = (w', Ok tt) ->
  symmetric_on (p ++ rest) w'.
Proof.
  induction rest as [|c rest IH]; intros p w w' Hincl Hinv Hsym Hrun.
  - injection Hrun as <-. now rewrite app_nil_r.
  - cbn [mfor] in Hrun. apply mbind_ok in Hrun. destruct Hrun as [w1 [[] [H1 H2]]].
    assert (Hc : In c ks) by (apply Hincl; now left).
    pose proof H1 as H1'.
    apply mbind_ok in H1. destruct H1 as [w0 [g [Hg H1]]]. injection Hg as <- <-.
    apply mbind_ok in H1. destruct H1 as [w0 [o [Ho H1]]].
    apply mlift_ok in Ho. destruct Ho as [-> Ho]. apply dict_lookup_ok in Ho.
    apply mbind_ok in H1. destruct H1 as [w0 [es [Hes H1]]].
    apply mlift_ok in Hes. destruct Hes as [-> Hes].
    destruct o as [es0|]; [|discriminate]. injection Hes as ->.
    replace (p ++ c :: rest) with ((p ++ [c]) ++ rest)
      by (rewrite <- app_assoc; reflexivity).
    apply (IH (p ++ [c]) w1 w').
    + intros x Hx. apply Hincl. now right.
    + revert H1. apply keeps_mfor; [|exact Hinv].
      intros e He. apply keeps_add_edge; auto using unweighted_reverse.
      destruct Hinv as [Hk Ha]. apply (Ha c es e); auto. now rewrite Hk.
    + eapply handshake_step; eassumption.
    + exact H2.
Qed.

Lemma handshake_symmetric (w w' : World) :
  inv ks unweighted w -> handshake w = (w', Ok tt) -> symmetric_on ks w'.
Proof.
  intros Hinv Hrun. unfold handshake in Hrun.
  unfold mbind at 1 in Hrun. cbn [get_graph] in Hrun. rewrite (proj1 Hinv) in Hrun.
  apply (handshake_loop ks [] w w'); auto using incl_refl.
  intros a e [].
Qed.
End Handshake.

(** ** Edges: the removal of the edges to self *)

Lemma no_prob_eqb (a b : Cluster) (d : Q) :
  cluster_eqb a b = true -> edge_eqb (no_prob a d) (no_prob b d) = true.
Proof.
  intro H. apply edge_eqb_true_iff. cbn. now rewrite H, Qeq_bool_refl.
Qed.

Lemma edge_eqb_compat_r (e f f' : Edge) :
  edge_eqb f f' = true -> edge_eqb e f = edge_eqb e f'.
Proof. apply eqb_compat_r, edge_eqb_equivalence. Qed.

Lemma remove_self_step (c : Cluster) (w w' : World) :
  (g <~ get_graph ;;
   o <~ mlift (dict_lookup cluster_eqb c (edges g)) ;;
   es <~ mlift (the_set TypeError o) ;;
   if memb edge_eqb (no_prob c 0%Q) es then
     put_edges (dict_set cluster_eqb c
                  (Some (set_remove edge_eqb (no_prob c 0%Q) es)) (edges g))
   else mret tt) w = (w', Ok tt) ->
  forall a e,
    has_edge w' a e
    <-> has_edge w a e
        /\ (cluster_eqb a c = true -> edge_eqb e (no_prob a 0%Q) = false).
Proof.
  intro H.
  apply mbind_ok in H. destruct H as [w0 [g [Hg H]]]. injection Hg as <- <-.
  apply mbind_ok in H. destruct H as [w0 [o [Ho H]]].
  apply mlift_ok in Ho. destruct Ho as [-> Ho]. apply dict_lookup_ok in Ho.
  apply mbind_ok in H. destruct H as [w0 [es [Hes H]]].
  apply mlift_ok in Hes. destruct Hes as [-> Hes].
  destruct o as [es0|]; [|discriminate]. injection Hes as ->.
  fold (get_edges (w_graph w) c) in Ho.
  intros a e.
  destruct (memb edge_eqb (no_prob c 0%Q) es) eqn:Hm.
  - unfold put_edges in H. injection H as <-. fold (with_edges w
      (dict_set cluster_eqb c (Some (set_remove edge_eqb (no_prob c 0%Q) es))
         (edges (w_graph w)))).
    unfold has_edge. rewrite with_edges_get.
    destruct (cluster_eqb a c) eqn:Hac.
    + rewrite (get_edges_compat _ a c Hac), Ho.
      rewrite (edge_eqb_compat_r e (no_prob a 0%Q) (no_prob c 0%Q) (no_prob_eqb a c _ Hac)).
      split.
      * intros [es' [He' Hme]]. injection He' as <-.
        rewrite (memb_set_remove _ _ edge_eqb_equivalence) in Hme.
        apply andb_true_iff in Hme. destruct Hme as [H1 H2].
        apply negb_true_iff in H2. split; [| intros _; exact H2].
        eexists; split; [reflexivity | exact H1].
      * intros [[es' [He' Hme]] Hne]. injection He' as <-.
        eexists. split; [reflexivity|].
        rewrite (memb_set_remove _ _ edge_eqb_equivalence), Hme, (Hne eq_refl).
        reflexivity.
    + split; [intros [es' [He' Hme]]; split; [eauto | discriminate] | tauto].
  - injection H as <-. split; [|tauto].
    intro He. split; [exact He|]. intro Hac.
    destruct He as [es' [He' Hme]].
    rewrite (get_edges_compat _ a c Hac), Ho in He'. injection He' as <-.
    destruct (edge_eqb e (no_prob a 0%Q)) eqn:Hea; [|reflexivity].
    rewrite <- Hm.
    rewrite (memb_compat _ _ edge_eqb_equivalence e (no_prob a 0%Q) es Hea) in Hme.
    rewrite <- Hme. apply (memb_compat _ _ edge_eqb_equivalence).
    apply no_prob_eqb. exact Hac.
Qed.

Lemma remove_self_loop (rest : list Cluster) : forall (p : list Cluster) (w0 w w' : World),
  (forall a e, has_edge w a e
               <-> has_edge w0 a e
                   /\ (memb cluster_eqb a p = true -> edge_eqb e (no_prob a 0%Q) = false)) ->
  mfor rest (fun cluster =>
    g <~ get_graph ;;
    o <~ mlift (dict_lookup cluster_eqb cluster (edges g)) ;;
    es <~ mlift (the_set TypeError o) ;;
    if memb edge_eqb (no_prob cluster 0%Q) es then
      put_edges (dict_set cluster_eqb cluster
                   (Some (set_remove edge_eqb (no_prob cluster 0%Q) es)) (edges g))
    else mret tt) w = (w', Ok tt) ->
  forall a e, has_edge w' a e
              <-> has_edge w0 a e
                  /\ (memb cluster_eqb a (p ++ rest) = true
                      -> edge_eqb e (no_prob a 0%Q) = false).
Proof.
  induction rest as [|c rest IH]; intros p w0 w w' Hp Hrun.
  - injection Hrun as <-. now rewrite app_nil_r.
  - cbn [mfor] in Hrun. apply mbind_ok in Hrun. destruct Hrun as [w1 [[] [H1 H2]]].
    replace (p ++ c :: rest) with ((p ++ [c]) ++ rest)
      by (rewrite <- app_assoc; reflexivity).
    apply (IH (p ++ [c]) w0 w1 w'); [|exact H2].
    intros a e. rewrite (remove_self_step c w w1 H1 a e), Hp.
    rewrite (memb_app _ cluster_eqb). cbn [memb existsb]. rewrite orb_false_r.
    destruct (memb cluster_eqb a p), (cluster_eqb a c); cbn; tauto.
Qed.

Lemma remove_self_has (w w' : World) :
  remove_self_edges w = (w', Ok tt) ->
  forall a e, has_edge w' a e
              <-> has_edge w a e /\ edge_eqb e (no_prob a 0%Q) = false.
Proof.
  intro Hrun. unfold remove_self_edges in Hrun.
  unfold mbind at 1 in Hrun. cbn [get_graph] in Hrun.
  intros a e.
  rewrite (remove_self_loop (clusters (w_graph w)) [] w w w'); [| |exact Hrun].
  - cbn [app]. split; [|tauto].
    intros [[es [Hg Hm]] Hn]. split; [exists es; auto|].
    apply Hn. eapply get_edges_member, Hg.
  - intros a' e'. cbn. split; [|tauto]. intro H. split; [exact H | discriminate].
Qed.

(** ** Walkable and subsumed clusters *)

Lemma all_edges_ok (g : Graph) (ces : list (Cluster * list Edge)) :
  all_edges g = Ok ces -> edges g = map (fun ce => (fst ce, Some (snd ce))) ces.
Proof.
  unfold all_edges. generalize (edges g). intro l. revert ces.
  induction l as [|[c o] t IH]; intros ces H; simpl in H.
  - injection H as <-. reflexivity.
  - destruct o as [es|]; simpl in H; [|discriminate].
    destruct (rmap _ t) as [ces'|] eqn:R; simpl in H; [|discriminate].
    injection H as <-. simpl. f_equal. now apply IH.
Qed.

Lemma graph_depth_ok (w w' : World) (d : nat) :
  graph_depth w = (w', Ok d) ->
  w_cands w' = w_cands w
  /\ edges (w_graph w') = edges (w_graph w)
  /\ cache_subsumed_clusters (cache (w_graph w')) = cache_subsumed_clusters (cache (w_graph w))
  /\ cache_walkable_clusters (cache (w_graph w')) = cache_walkable_clusters (cache (w_graph w))
  /\ cache_subsumed_edges (cache (w_graph w')) = cache_subsumed_edges (cache (w_graph w))
  /\ cache_walkable_edges (cache (w_graph w')) = cache_walkable_edges (cache (w_graph w)).
Proof.
  unfold graph_depth, mbind, get_graph, put_cache, mret, mraise.
  destruct (cache_depth (cache (w_graph w))).
  - intro H. injection H as <- _. auto 10.
  - destruct (map depth (clusters (w_graph w))); intro H; [discriminate|].
    injection H as <- _. cbn. auto 10.
Qed.

Lemma split_ok (E : Env) (w w' : World) :
  split_walkable_vs_subsumed E w = (w', Ok tt) ->
  exists ces,
    all_edges (w_graph w) = Ok ces
    /\ w_cands w' = w_cands w
    /\ edges (w_graph w') = edges (w_graph w)
    /\ cache_subsumed_clusters (cache (w_graph w')) = Some (subsumed_among E ces)
    /\ cache_walkable_clusters (cache (w_graph w'))
       = Some (walkable_among (w_graph w) (subsumed_among E ces))
    /\ cache_subsumed_edges (cache (w_graph w'))
       = Some (edges_to_subsumed ces (subsumed_among E ces))
    /\ cache_walkable_edges (cache (w_graph w'))
       = Some (edges_among_walkable ces (subsumed_among E ces)).
Proof.
  unfold split_walkable_vs_subsumed. intro H.
  apply mbind_ok in H. destruct H as [w1 [d [Hd H]]].
  apply graph_depth_ok in Hd. destruct Hd as [Hc [He _]].
  apply mbind_ok in H. destruct H as [w0 [g [Hg H]]]. injection Hg as <- <-.
  apply mbind_ok in H. destruct H as [w0 [ces [Hces H]]].
  apply mlift_ok in Hces. destruct Hces as [-> Hces].
  unfold put_cache in H. injection H as <-. cbn.
  exists ces. unfold all_edges in *. unfold walkable_among, clusters.
  rewrite He in *. repeat split; assumption.
Qed.

(** ** Transition probabilities *)

Lemma recompute_step_ok (c : Cluster) (w w' : World) :
  (g <~ get_graph ;;
   we <~ mlift (the_set KeyError (cache_walkable_edges (cache g))) ;;
   es <~ mlift (dict_lookup cluster_eqb c we) ;;
   if 0 <? length es then
     es' <~ mlift (transition_edges es) ;;
     put_cache (set_walkable_edges (cache g) (dict_set cluster_eqb c es' we)) ;;;
     factor <~ mlift (probability_sum es') ;;
     if Qle_bool (Qabs (factor - 1)) (1 / 1000000)%Q then mret tt
     else mraise AssertionError
   else mret tt) w = (w', Ok tt) ->
  exists we es es',
    cache_walkable_edges (cache (w_graph w)) = Some we
    /\ dict_get cluster_eqb c we = Some es
    /\ weighted es es'
    /\ w' = mkWorld (w_cands w)
              (mkGraph (edges (w_graph w))
                 (set_walkable_edges (cache (w_graph w))
                    (if 0 <? length es then dict_set cluster_eqb c es' we else we))).
Proof.
  intro H.
  apply mbind_ok in H. destruct H as [w0 [g [Hg H]]]. injection Hg as <- <-.
  apply mbind_ok in H. destruct H as [w0 [we [Hwe H]]].
  apply mlift_ok in Hwe. destruct Hwe as [-> Hwe].
  apply mbind_ok in H. destruct H as [w0 [es [Hes H]]].
  apply mlift_ok in Hes. destruct Hes as [-> Hes]. apply dict_lookup_ok in Hes.
  destruct (cache_walkable_edges (cache (w_graph w))) as [we0|] eqn:Hc; [|discriminate].
  injection Hwe as ->.
  destruct (0 <? length es) eqn:Hlen.
  - apply mbind_ok in H. destruct H as [w0 [es' [Ht H]]].
    apply mlift_ok in Ht. destruct Ht as [-> Ht].
    apply mbind_ok in H. destruct H as [w1 [[] [Hp H]]].
    unfold put_cache in Hp. injection Hp as <-.
    apply mbind_ok in H. destruct H as [w0 [factor [Hf H]]].
    apply mlift_ok in Hf. destruct Hf as [-> Hf].
    destruct (Qle_bool (Qabs (factor - 1)) (1 / 1000000)%Q) eqn:Ha; [|discriminate].
    injection H as <-.
    exists we, es, es'. split; [reflexivity|]. split; [exact Hes|].
    split; [|rewrite Hlen; reflexivity].
    right. split; [|eauto].
    destruct es; [discriminate | congruence].
  - injection H as <-.
    exists we, es, es. split; [reflexivity|]. split; [exact Hes|]. split.
    + left. destruct es; [auto | discriminate].
    + rewrite Hlen. destruct w as [s [ed [a b c0 d e]]]. cbn in *. now subst.
Qed.

Lemma keys_distinct_split {K : Type} (eqb : K -> K -> bool) (l1 l2 : list K) (a b : K) :
  keys_distinct eqb (l1 ++ l2) -> In a l1 -> In b l2 -> eqb b a = false.
Proof.
  induction l1 as [|x t IH]; intros Hd Ha Hb; [destruct Ha|].
  destruct Hd as [Hx Hd]. destruct Ha as [<-|Ha].
  - apply Hx. apply in_or_app. now right.
  - now apply IH.
Qed.

Section Recompute.
Variable we0 : list (Cluster * list Edge).

Lemma recompute_loop (rest : list Cluster) : forall (done : list Cluster) (w0 w w' : World),
  keys_distinct cluster_eqb (done ++ rest) ->
  recomputed we0 done w0 w ->
  mfor rest (fun cluster =>
    g <~ get_graph ;;
    we <~ mlift (the_set KeyError (cache_walkable_edges (cache g))) ;;
    es <~ mlift (dict_lookup cluster_eqb cluster we) ;;
    if 0 <? length es then
      es' <~ mlift (transition_edges es) ;;
      put_cache (set_walkable_edges (cache g) (dict_set cluster_eqb cluster es' we)) ;;;
      factor <~ mlift (probability_sum es') ;;
      if Qle_bool (Qabs (factor - 1)) (1 / 1000000)%Q then mret tt
      else mraise AssertionError
    else mret tt) w = (w', Ok tt) ->
  recomputed we0 (done ++ rest) w0 w'.
Proof.
  induction rest as [|k rest IH]; intros done w0 w w' Hd Hr Hrun.
  - injection Hrun as <-. now rewrite app_nil_r.
  - cbn [mfor] in Hrun. apply mbind_ok in Hrun. destruct Hrun as [w1 [[] [H1 H2]]].
    replace (done ++ k :: rest) with ((done ++ [k]) ++ rest) in *
      by (rewrite <- app_assoc; reflexivity).
    apply (IH (done ++ [k]) w0 w1 w'); [exact Hd | | exact H2].
    apply recompute_step_ok in H1.
    destruct H1 as [we [es [es' [Hwe [Hes [Hw ->]]]]]].
    destruct Hr as [R1 [R2 [R3 [R4 [R5 [we1 [Q1 [Q2 [Q3 Q4]]]]]]]]].
    rewrite Hwe in Q1. injection Q1 as <-.
    assert (Hk : forall x, In x done -> cluster_eqb k x = false).
    { intros x Hx. apply (keys_distinct_split cluster_eqb done (k :: rest)).
      - rewrite <- app_assoc in Hd. exact Hd.
      - exact Hx.
      - now left. }
    cbn. repeat (split; [assumption|]).
    exists (if 0 <? length es then dict_set cluster_eqb k es' we else we).
    split; [reflexivity|]. split; [|split].
    + destruct (0 <? length es); [|exact Q2].
      rewrite dict_keys_set_present; [exact Q2|].
      apply dict_get_some_memb. eauto.
    + intros c Hc. apply in_app_or in Hc. destruct Hc as [Hc|[<-|[]]].
      * destruct (Q3 c Hc) as [e1 [e2 [G1 [G2 G3]]]]. exists e1, e2.
        split; [exact G1|]. split; [|exact G3].
        destruct (0 <? length es); [|exact G2].
        rewrite (dict_get_set _ _ cluster_eqb_equivalence).
        rewrite cluster_eqb_sym, (Hk c Hc). exact G2.
      * exists es, es'. split; [now rewrite <- (Q4 k Hk)|]. split; [|exact Hw].
        destruct (0 <? length es) eqn:Hlen.
        -- rewrite (dict_get_set _ _ cluster_eqb_equivalence).
           now rewrite cluster_eqb_refl.
        -- destruct Hw as [[-> ->]|[Hne _]]; [exact Hes|].
           destruct es; [congruence | discriminate].
    + intros c Hc.
      assert (Hck : cluster_eqb c k = false)
        by (apply Hc; apply in_or_app; right; now left).
      assert (Hcd : forall x, In x done -> cluster_eqb c x = false)
        by (intros x Hx; apply Hc; apply in_or_app; now left).
      destruct (0 <? length es); [|now apply Q4].
      rewrite (dict_get_set _ _ cluster_eqb_equivalence), Hck. now apply Q4.
Qed.
End Recompute.

Lemma recompute_ok (w w' : World) (we0 : list (Cluster * list Edge)) :
  cache_walkable_edges (cache (w_graph w)) = Some we0 ->
  keys_distinct cluster_eqb (dict_keys we0) ->
  recompute_transition_probabilities w = (w', Ok tt) ->
  recomputed we0 (dict_keys we0) w w'.
Proof.
  intros Hwe Hd Hrun. unfold recompute_transition_probabilities in Hrun.
  apply mbind_ok in Hrun. destruct Hrun as [w1 [d [Hgd Hrun]]].
  apply graph_depth_ok in Hgd. destruct Hgd as [G1 [G2 [G3 [G4 [G5 G6]]]]].
  apply mbind_ok in Hrun. destruct Hrun as [w0 [g [Hg Hrun]]]. injection Hg as <- <-.
  apply mbind_ok in Hrun. destruct Hrun as [w0 [we [Hl Hrun]]].
  apply mlift_ok in Hl. destruct Hl as [-> Hl].
  rewrite G6, Hwe in Hl. injection Hl as <-.
  apply (recompute_loop we0 (dict_keys we0) [] w w1 w'); [exact Hd | | exact Hrun].
  repeat (split; [assumption|]).
  exists we0. split; [now rewrite G6|]. split; [reflexivity|].
  split; [intros c []|reflexivity].
Qed.

(** ** The phases of [build_edges] *)

Lemma build_edges_phases (E : Env) (m : Manifold) (w w' : World) :
  build_edges E m w = (w', Ok tt) ->
  exists w1 w2 w3 w4,
    mfor (clusters (w_graph w)) (_find_neighbors E m) w = (w1, Ok tt)
    /\ handshake w1 = (w2, Ok tt)
    /\ remove_self_edges w2 = (w3, Ok tt)
    /\ split_walkable_vs_subsumed E w3 = (w4, Ok tt)
    /\ recompute_transition_probabilities w4 = (w', Ok tt).
Proof.
  unfold build_edges. intro H.
  apply mbind_ok in H. destruct H as [w0 [g [Hg H]]]. injection Hg as <- <-.
  apply mbind_ok in H. destruct H as [w1 [[] [H1 H]]].
  apply mbind_ok in H. destruct H as [w2 [[] [H2 H]]].
  apply mbind_ok in H. destruct H as [w3 [[] [H3 H]]].
  apply mbind_ok in H. destruct H as [w4 [[] [H4 H]]].
  exists w1, w2, w3, w4. auto.
Qed.

(** ** Sets without repetition *)

Section SetFacts.
Variable K : Type.
Variable eqb : K -> K -> bool.

Lemma set_add_fresh (k : K) (s : list K) :
  memb eqb k s = false -> set_add eqb k s = s ++ [k].
Proof. unfold set_add. now intros ->. Qed.

Lemma set_update_distinct (items : list K) : forall s,
  keys_distinct eqb (s ++ items) -> set_update eqb s items = s ++ items.
Proof.
  unfold set_update. induction items as [|k t IH]; intros s H; simpl.
  - now rewrite app_nil_r.
  - replace (s ++ k :: t) with ((s ++ [k]) ++ t) in *
      by (rewrite <- app_assoc; reflexivity).
    rewrite set_add_fresh.
    + now apply IH.
    + apply keys_distinct_prefix in H. now apply keys_distinct_memb in H.
Qed.

Lemma set_of_distinct (items : list K) :
  keys_distinct eqb items -> set_of eqb items = items.
Proof. intro H. unfold set_of. now apply (set_update_distinct items []). Qed.

Lemma keys_distinct_set_add (k : K) (s : list K) :
  keys_distinct eqb s -> keys_distinct eqb (set_add eqb k s).
Proof.
  intro H. unfold set_add. destruct (memb eqb k s) eqn:Hk; [exact H|].
  now apply keys_distinct_app.
Qed.

Lemma keys_distinct_set_update (items : list K) : forall s,
  keys_distinct eqb s -> keys_distinct eqb (set_update eqb s items).
Proof.
  unfold set_update. induction items as [|k t IH]; intros s H; simpl; [exact H|].
  apply IH. now apply keys_distinct_set_add.
Qed.

Lemma keys_distinct_set_of (items : list K) : keys_distinct eqb (set_of eqb items).
Proof. apply keys_distinct_set_update. exact I. Qed.

Lemma keys_distinct_map {L : Type} (eqb' : L -> L -> bool) (f : K -> L) (l : list K) :
  (forall a b, eqb' (f a) (f b) = true -> eqb a b = true) ->
  keys_distinct eqb l -> keys_distinct eqb' (map f l).
Proof.
  intro Hf. induction l as [|x t IH]; simpl; [auto|].
  intros [Hx Ht]. split; [|now apply IH].
  intros y Hy. apply in_map_iff in Hy. destruct Hy as [z [<- Hz]].
  destruct (eqb' (f z) (f x)) eqn:E; [|reflexivity].
  apply Hf in E. rewrite (Hx z Hz) in E. discriminate.
Qed.

Variable V : Type.

Lemma dict_get_In (d : list (K * V)) (k : K) (v : V) :
  dict_get eqb k d = Some v -> exists k', In (k', v) d.
Proof.
  induction d as [|[a w] t IH]; simpl; [discriminate|].
  destruct (eqb k a).
  - intro H. injection H as ->. eauto.
  - intro H. destruct (IH H) as [k' Hk']. eauto.
Qed.

Lemma In_dict_get (d : list (K * V)) (k : K) (v : V) :
  (forall x, eqb x x = true) ->
  keys_distinct eqb (dict_keys d) -> In (k, v) d -> dict_get eqb k d = Some v.
Proof.
  intro Hr. induction d as [|[a w] t IH]; simpl; [intros _ []|].
  intros [Ha Ht] [H|H].
  - injection H as -> ->. now rewrite Hr.
  - rewrite (Ha k); [now apply IH|].
    unfold dict_keys. apply in_map_iff. now exists (k, v).
Qed.

Lemma In_dict_set (d : list (K * V)) (k k' : K) (v v' : V) :
  In (k', v') (dict_set eqb k v d) -> v' = v \/ In (k', v') d.
Proof.
  induction d as [|[a w] t IH]; simpl.
  - intros [H|[]]. injection H as _ <-. now left.
  - destruct (eqb k a); simpl.
    + intros [H|H]; [injection H as _ <-; now left | right; now right].
    + intros [H|H]; [right; now left|].
      destruct (IH H); [now left | right; now right].
Qed.

Lemma In_dict_update (items : list (K * V)) (k' : K) (v' : V) : forall d,
  In (k', v') (dict_update eqb d items) -> In v' (map snd items) \/ In (k', v') d.
Proof.
  unfold dict_update. induction items as [|[k v] t IH]; intros d H; simpl in *; [auto|].
  apply IH in H. destruct H as [H|H]; [auto|].
  apply In_dict_set in H. destruct H as [->|H]; auto.
Qed.

Lemma In_dict_of (items : list (K * V)) (k' : K) (v' : V) :
  In (k', v') (dict_of eqb items) -> In v' (map snd items).
Proof. intro H. apply In_dict_update in H. destruct H as [H|[]]. exact H. Qed.
End SetFacts.

(** ** Sums and quotients *)

Lemma py_sum_from (l : list Q) : forall acc, (fold_left Qplus l acc == acc + Qsum l)%Q.
Proof.
  induction l as [|x t IH]; intro acc; simpl.
  - ring.
  - rewrite IH. ring.
Qed.

Lemma py_sum_Qsum (l : list Q) : (py_sum l == Qsum l)%Q.
Proof. unfold py_sum. rewrite py_sum_from. ring. Qed.

Lemma rmap_ok {A B : Type} (f : A -> result B) (l : list A) (l' : list B) :
  rmap f l = Ok l' -> Forall2 (fun x y => f x = Ok y) l l'.
Proof.
  revert l'. induction l as [|x t IH]; intros l' H; simpl in H.
  - injection H as <-. constructor.
  - destruct (f x) as [y|] eqn:Fx; simpl in H; [|discriminate].
    destruct (rmap f t) as [ys|] eqn:Ft; simpl in H; [|discriminate].
    injection H as <-. constructor; auto.
Qed.

Lemma Forall2_map_eq {A B : Type} (g : A -> B) (l : list A) (l' : list B) :
  Forall2 (fun x y => y = g x) l l' -> l' = map g l.
Proof. induction 1; simpl; congruence. Qed.

Lemma py_div_ok (a b q : Q) : py_div a b = Ok q -> ~ (b == 0)%Q /\ q = (a / b)%Q.
Proof.
  unfold py_div. destruct (Qeq_bool b 0) eqn:H; [discriminate|].
  intro H0. injection H0 as <-. split; [|reflexivity].
  intro Hb. apply Qeq_bool_iff in Hb. congruence.
Qed.

Lemma Forall2_In_left {A B : Type} (R : A -> B -> Prop) (l : list A) (l' : list B) (x : A) :
  Forall2 R l l' -> In x l -> exists y, R x y.
Proof.
  induction 1 as [|a b t t' Hab _ IH]; intros Hx; [destruct Hx|].
  destruct Hx as [<-|Hx]; eauto.
Qed.

(** What [transition_edges] computes when it does not raise. *)
Lemma transition_edges_ok (es es' : list Edge) :
  transition_edges es = Ok es' ->
  let factor := py_sum (map (fun e => 1 / edge_distance e)%Q es) in
  (forall e, In e es -> ~ (edge_distance e == 0)%Q /\ ~ (edge_distance e * factor == 0)%Q)
  /\ es' = set_of edge_eqb
             (map (fun e => mkEdge (neighbor e) (edge_distance e)
                                   (Some (1 / (edge_distance e * factor))%Q)) es).
Proof.
  unfold transition_edges. intro H.
  destruct (rmap (fun e => py_div 1 (edge_distance e)) es) as [inverses|] eqn:R1;
    simpl in H; [|discriminate].
  apply rmap_ok in R1.
  assert (Hinv : inverses = map (fun e => 1 / edge_distance e)%Q es).
  { apply Forall2_map_eq. eapply Forall2_impl; [|exact R1].
    intros e q Hq. apply py_div_ok in Hq. tauto. }
  subst inverses. set (factor := py_sum _) in *.
  destruct (rmap _ es) as [es1|] eqn:R2; simpl in H; [|discriminate].
  injection H as <-. apply rmap_ok in R2.
  cbn zeta. split.
  - intros e He. split.
    + destruct (Forall2_In_left _ _ _ e R1 He) as [q Hq]. apply py_div_ok in Hq. tauto.
    + destruct (Forall2_In_left _ _ _ e R2 He) as [e' He']. cbn in He'.
      destruct (py_div 1 (edge_distance e * factor)) as [p|] eqn:P; simpl in He';
        [|discriminate].
      apply py_div_ok in P. tauto.
  - f_equal. apply Forall2_map_eq. eapply Forall2_impl; [|exact R2].
    intros e e' He. cbn in He.
    destruct (py_div 1 (edge_distance e * factor)) as [p|] eqn:P; simpl in He; [|discriminate].
    apply py_div_ok in P. destruct P as [_ ->]. congruence.
Qed.

Lemma keys_distinct_map_in {K L : Type} (eqb : K -> K -> bool) (eqb' : L -> L -> bool)
    (f : K -> L) (l : list K) :
  (forall a b, In a l -> In b l -> eqb' (f a) (f b) = true -> eqb a b = true) ->
  keys_distinct eqb l -> keys_distinct eqb' (map f l).
Proof.
  induction l as [|x t IH]; simpl; [auto|].
  intros Hf [Hx Ht]. split.
  - intros y Hy. apply in_map_iff in Hy. destruct Hy as [z [<- Hz]].
    destruct (eqb' (f z) (f x)) eqn:E; [|reflexivity].
    apply Hf in E; auto. rewrite (Hx z Hz) in E. discriminate.
  - apply IH; auto.
Qed.

(** The edges among walkable clusters, as [build_edges] leaves them. *)
Lemma build_edges_walkable (E : Env) (m : Manifold) (w w' : World) :
  build_edges E m w = (w', Ok tt) ->
  exists ces we,
    edges (w_graph w') = map (fun ce => (fst ce, Some (snd ce))) ces
    /\ cache_subsumed_clusters (cache (w_graph w')) = Some (subsumed_among E ces)
    /\ cache_subsumed_edges (cache (w_graph w'))
       = Some (edges_to_subsumed ces (subsumed_among E ces))
    /\ cache_walkable_edges (cache (w_graph w')) = Some we
    /\ dict_keys we = dict_keys (edges_among_walkable ces (subsumed_among E ces))
    /\ forall c, In c (dict_keys we) ->
         exists es es',
           dict_get cluster_eqb c (edges_among_walkable ces (subsumed_among E ces)) = Some es
           /\ dict_get cluster_eqb c we = Some es'
           /\ weighted es es'.
Proof.
  intro H. apply build_edges_phases in H.
  destruct H as [w1 [w2 [w3 [w4 [_ [_ [_ [H4 H5]]]]]]]].
  apply split_ok in H4.
  destruct H4 as [ces [Hall [_ [He [Hsc [_ [Hse Hwe]]]]]]].
  apply all_edges_ok in Hall.
  pose proof (recompute_ok w4 w' _ Hwe (keys_distinct_of _ _ _ _) H5) as R.
  destruct R as [_ [R2 [R3 [_ [R5 [we [Q1 [Q2 [Q3 _]]]]]]]]].
  exists ces, we. rewrite R2, He, R3, Hsc, R5, Hse.
  repeat (split; [first [assumption | reflexivity]|]).
  intros c Hc. apply Q3. now rewrite <- Q2.
Qed.

Lemma walkable_entry_shape (ces : list (Cluster * list Edge)) (sc : list Cluster)
    (c : Cluster) (es : list Edge) :
  dict_get cluster_eqb c (edges_among_walkable ces sc) = Some es ->
  keys_distinct edge_eqb es /\ forall e, In e es -> probability e = None.
Proof.
  intro H. apply dict_get_In in H. destruct H as [k H].
  apply In_dict_of in H. rewrite map_map in H. cbn [snd] in H.
  apply in_map_iff in H. destruct H as [ce [<- _]]. split.
  - apply keys_distinct_set_of.
  - intros e He. apply In_set_of in He. apply in_map_iff in He.
    destruct He as [e0 [<- _]]. reflexivity.
Qed.

(** The edges of a walkable cluster after the probabilities are assigned. *)
Lemma weighted_edges (es es' : list Edge) :
  keys_distinct edge_eqb es -> (forall e, In e es -> probability e = None) ->
  transition_edges es = Ok es' ->
  let factor := py_sum (map (fun e => 1 / edge_distance e)%Q es) in
  (forall e, In e es -> ~ (edge_distance e == 0)%Q /\ ~ (edge_distance e * factor == 0)%Q)
  /\ es' = map (fun e => mkEdge (neighbor e) (edge_distance e)
                                (Some (1 / (edge_distance e * factor))%Q)) es.
Proof.
  intros Hd Hn Ht. apply transition_edges_ok in Ht. cbn zeta in *.
  destruct Ht as [Hnz ->]. split; [exact Hnz|].
  apply set_of_distinct.
  apply (keys_distinct_map_in edge_eqb edge_eqb); [|exact Hd].
  intros a b Ha Hb Hab. apply edge_eqb_true_iff in Hab. cbn in Hab.
  apply edge_eqb_true_iff. rewrite (Hn a Ha), (Hn b Hb). tauto.
Qed.

Lemma probability_sum_ok (es : list Edge) (f : Q) :
  probability_sum es = Ok f -> (f == Qsum (map probability_or_zero es))%Q.
Proof.
  unfold probability_sum. intro H.
  destruct (rmap _ es) as [ps|] eqn:R; simpl in H; [|discriminate].
  injection H as <-. rewrite py_sum_Qsum.
  replace (map probability_or_zero es) with ps; [reflexivity|].
  apply rmap_ok in R. clear -R.
  induction R as [|e p t t' Hp _ IH]; [reflexivity|].
  simpl. unfold probability_or_zero at 1.
  destruct (probability e); [|discriminate]. injection Hp as ->. now rewrite IH.
Qed.

(** Every entry of the walkable edges that is not empty carries, on its
    edge at distance [d], the probability [(1/d) / sum of 1/d_m] over its
    edges, and these probabilities sum to 1 within [1e-6]. *)
Lemma walkable_probabilities (E : Env) (m : Manifold) (w w' : World) :
  build_edges E m w = (w', Ok tt) ->
  exists we,
    cache_walkable_edges (cache (w_graph w')) = Some we
    /\ forall c es, In (c, es) we -> es <> [] ->
         (forall e, In e es ->
            exists p, probability e = Some p
                      /\ (p == (1 / edge_distance e)
                               / Qsum (map (fun x => 1 / edge_distance x) es))%Q)
         /\ (Qabs (Qsum (map probability_or_zero es) - 1) <= 1 / 1000000)%Q.
Proof.
  intro H. apply build_edges_walkable in H.
  destruct H as [ces [we [_ [_ [_ [Hwe [Hk Hall]]]]]]].
  exists we. split; [exact Hwe|].
  intros c es' Hin Hne.
  assert (Hc : In c (dict_keys we))
    by (unfold dict_keys; apply in_map_iff; now exists (c, es')).
  destruct (Hall c Hc) as [es [es'' [G0 [G1 W]]]].
  assert (Hd : keys_distinct cluster_eqb (dict_keys we))
    by (rewrite Hk; apply keys_distinct_of).
  rewrite (In_dict_get _ cluster_eqb _ we c es' cluster_eqb_refl Hd Hin) in G1.
  injection G1 as <-.
  destruct W as [[_ ->]|[_ [Ht [f [Hf Ha]]]]]; [congruence|].
  destruct (walkable_entry_shape _ _ _ _ G0) as [Hdist Hnone].
  destruct (weighted_edges es es' Hdist Hnone Ht) as [Hnz Hes'].
  cbn zeta in *. set (factor := py_sum _) in *.
  assert (Hsum : (Qsum (map (fun x => 1 / edge_distance x) es') == factor)%Q).
  { rewrite Hes', map_map. cbn [edge_distance]. unfold factor.
    now rewrite py_sum_Qsum. }
  split.
  - intros e He. rewrite Hes' in He. apply in_map_iff in He.
    destruct He as [e0 [<- He0]]. cbn [probability edge_distance].
    eexists. split; [reflexivity|].
    destruct (Hnz e0 He0) as [N1 N2].
    rewrite Hsum. field. split; [exact N1|].
    intro F0. apply N2. rewrite F0. ring.
  - apply probability_sum_ok in Hf. rewrite <- Hf.
    now apply Qle_bool_iff.
Qed.

(** ** The edges that [build_edges] leaves *)

Lemma found_inv (ks : list Cluster) (SI : Cands -> Prop) (Q : Cluster -> Edge -> Prop)
    (w : World) :
  found ks SI Q ks w -> inv ks Q w.
Proof.
  intros [Hk [_ Hf]]. split; [exact Hk|].
  intros a es e Ha Hg He. rewrite Hk in Ha.
  destruct (Hf a Ha) as [es' [Hg' Hq]]. rewrite Hg in Hg'. injection Hg' as <-.
  now apply Hq.
Qed.

Section BuiltEdges.
Variable E : Env.
Variable m : Manifold.
Variable ks : list Cluster.
Hypothesis ks_distinct : keys_distinct cluster_eqb ks.

Variable SI : Cands -> Prop.
Variable Q : Cluster -> Edge -> Prop.
Hypothesis SI_kept :
  forall k, keeps (fun w => SI (w_cands w)) (_find_candidates E m k).
Hypothesis Q_found :
  forall s k cs x d,
    SI s -> In k ks -> candidates s k = Some cs -> In (x, d) cs ->
    memb cluster_eqb x ks = true ->
    Qle_bool d (radius E k + radius E x)%Q = true ->
    Q k (no_prob x d).
Hypothesis Q_reverse :
  forall a x e, In a ks -> In x ks -> cluster_eqb x (neighbor e) = true ->
                Q a e -> Q x (no_prob a (edge_distance e)).
Hypothesis Q_unweighted : forall a e, Q a e -> probability e = None.

(** After the first three steps of [build_edges]: every edge satisfies
    [Q], every edge has its counterpart, and no edge [(c, 0)] leaves [c]. *)
Lemma build_edges_steps (w w1 w2 w3 : World) :
  graph_keys ks w -> SI (w_cands w) ->
  mfor ks (_find_neighbors E m) w = (w1, Ok tt) ->
  handshake w1 = (w2, Ok tt) ->
  remove_self_edges w2 = (w3, Ok tt) ->
  inv ks Q w3
  /\ (forall a e, In a ks -> has_edge w3 a e ->
        has_edge w3 (neighbor e) (no_prob a (edge_distance e)))
  /\ (forall a e, has_edge w3 a e -> edge_eqb e (no_prob a 0%Q) = false).
Proof.
  intros Hk Hs H1 H2 H3.
  pose proof (find_all_neighbors E m ks ks_distinct SI Q SI_kept Q_found w w1 Hk Hs H1)
    as Hf.
  apply found_inv in Hf.
  pose proof (keeps_handshake ks Q Q_reverse w1 w2 (Ok tt) Hf H2) as Hi2.
  pose proof (keeps_remove_self_edges ks ks_distinct Q w2 w3 (Ok tt) Hi2 H3) as Hi3.
  assert (Hu1 : inv ks unweighted w1).
  { destruct Hf as [Hk1 Ha1]. split; [exact Hk1|].
    intros a es e Ha Hg He. eapply Q_unweighted, Ha1; eassumption. }
  pose proof (handshake_symmetric ks w1 w2 Hu1 H2) as Hsym.
  pose proof (remove_self_has w2 w3 H3) as Hrem.
  split; [exact Hi3|]. split.
  - intros a e Ha He. apply Hrem in He. destruct He as [He Hne].
    apply Hrem. split; [now apply Hsym|].
    destruct (edge_eqb (no_prob a (edge_distance e)) (no_prob (neighbor e) 0%Q)) eqn:X;
      [|reflexivity].
    rewrite <- Hne. symmetry.
    apply edge_eqb_true_iff in X. cbn in X. destruct X as [X1 [X2 _]].
    apply edge_eqb_true_iff. cbn.
    assert (Hp : probability e = None).
    { destruct He as [es [Hg Hm]]. apply (memb_true_iff _ edge_eqb) in Hm.
      destruct Hm as [e' [He' Hee']].
      destruct Hi2 as [Hk2 Ha2].
      assert (Hq : probability e' = None).
      { eapply Q_unweighted, (Ha2 a es e'); auto. now rewrite Hk2. }
      apply edge_eqb_true_iff in Hee'. destruct Hee' as [_ [_ Hpp]].
      rewrite Hq in Hpp. destruct (probability e); [discriminate | reflexivity]. }
    rewrite Hp, cluster_eqb_sym, X1, X2. auto.
  - intros a e He. apply Hrem in He. tauto.
Qed.
End BuiltEdges.

(** The clusters of a graph stay the same while its edges are built. *)
Lemma build_edges_steps_plain (E : Env) (m : Manifold) (w w1 w2 w3 : World) :
  keys_distinct cluster_eqb (clusters (w_graph w)) ->
  mfor (clusters (w_graph w)) (_find_neighbors E m) w = (w1, Ok tt) ->
  handshake w1 = (w2, Ok tt) ->
  remove_self_edges w2 = (w3, Ok tt) ->
  inv (clusters (w_graph w)) (plain_edge (clusters (w_graph w))) w3.
Proof.
  intros Hd H1 H2 H3.
  refine (proj1 (build_edges_steps E m (clusters (w_graph w)) Hd (fun _ => True)
            (plain_edge (clusters (w_graph w))) _ _ _ _ w w1 w2 w3
            eq_refl I H1 H2 H3)).
  - intros k s s' r _ _. exact I.
  - intros s k cs x d _ _ _ _ Hm _. split; [exact Hm | reflexivity].
  - intros a x e Ha _ _ _. split; [|reflexivity].
    cbn. apply (memb_In _ _ cluster_eqb_equivalence), Ha.
  - intros a e [_ H]. exact H.
Qed.

(** ** Traversals over a neighbour function *)

Section Reach.
Variable nb : Cluster -> list Cluster.
Variable U : list Cluster.
Hypothesis nb_compat : forall a b, cluster_eqb a b = true -> nb a = nb b.
Hypothesis nb_closed :
  forall a n, memb cluster_eqb a U = true -> In n (nb a) -> memb cluster_eqb n U = true.

Local Abbreviation mem := (memb cluster_eqb).

Lemma mem_compat (x y : Cluster) (l : list Cluster) :
  cluster_eqb x y = true -> mem x l = mem y l.
Proof. apply memb_compat, cluster_eqb_equivalence. Qed.

Lemma mem_In (x : Cluster) (l : list Cluster) : In x l -> mem x l = true.
Proof. apply memb_In, cluster_eqb_equivalence. Qed.

Lemma mem_iff (x : Cluster) (l : list Cluster) :
  mem x l = true <-> exists y, In y l /\ cluster_eqb x y = true.
Proof. apply memb_true_iff. Qed.

Lemma reach_compat (start x y : Cluster) :
  reach nb start y -> cluster_eqb x y = true -> reach nb start x.
Proof.
  intros Hy Hxy. destruct Hy as [y Hs|y z Hz Hm].
  - apply reach_start. eapply cluster_eqb_trans; eassumption.
  - apply reach_step with z; [exact Hz|]. now rewrite (mem_compat x y).
Qed.

Lemma reach_mem (start x : Cluster) (l : list Cluster) :
  (forall y, In y l -> reach nb start y) -> mem x l = true -> reach nb start x.
Proof.
  intros H Hx. apply mem_iff in Hx. destruct Hx as [y [Hy Hxy]].
  eapply reach_compat; [apply H, Hy | exact Hxy].
Qed.

(** A set of clusters that holds [start] and is closed under [nb] holds
    everything that can be reached. *)
Lemma reach_closed (start : Cluster) (R : list Cluster) :
  mem start R = true ->
  (forall v n, mem v R = true -> In n (nb v) -> mem n R = true) ->
  forall x, reach nb start x -> mem x R = true.
Proof.
  intros Hs Hc x Hx. induction Hx as [x Hxs|x y _ IH Hm].
  - now rewrite (mem_compat x start).
  - apply mem_iff in Hm. destruct Hm as [n [Hn Hxn]].
    rewrite (mem_compat x n R Hxn). eapply Hc; eassumption.
Qed.

(** *** The flood fill of [traverse] *)

Lemma mem_next_frontier (x : Cluster) (visited frontier : list Cluster) :
  mem x (set_of cluster_eqb
           (filter (fun n => negb (mem n visited)) (concat (map nb frontier)))) = true
  <-> mem x visited = false /\ exists f, In f frontier /\ mem x (nb f) = true.
Proof.
  rewrite (memb_set_of _ _ cluster_eqb_equivalence).
  rewrite (memb_filter_compat _ cluster_eqb).
  2:{ intros a b Hab. now rewrite (mem_compat a b). }
  rewrite andb_true_iff, negb_true_iff. split.
  - intros [Hm Hv]. split; [exact Hv|].
    apply mem_iff in Hm. destruct Hm as [n [Hn Hxn]].
    apply in_concat in Hn. destruct Hn as [l [Hl Hnl]].
    apply in_map_iff in Hl. destruct Hl as [f [<- Hf]].
    exists f. split; [exact Hf|]. apply mem_iff. eauto.
  - intros [Hv [f [Hf Hm]]]. split; [|exact Hv].
    apply mem_iff in Hm. destruct Hm as [n [Hn Hxn]].
    apply mem_iff. exists n. split; [|exact Hxn].
    apply in_concat. exists (nb f). split; [now apply in_map | exact Hn].
Qed.

Lemma closed_is_reach (start : Cluster) (visited : list Cluster) :
  (forall x, mem x visited = true -> reach nb start x) ->
  mem start visited = true ->
  (forall v n, mem v visited = true -> In n (nb v) -> mem n visited = true) ->
  forall x, mem x visited = true <-> reach nb start x.
Proof.
  intros I1 I2 I3 x. split; [apply I1 | now apply reach_closed].
Qed.

Lemma flood_sound (start : Cluster) (fuel : nat) :
  forall (visited frontier R : list Cluster),
    (forall x, mem x visited = true \/ mem x frontier = true -> reach nb start x) ->
    mem start visited = true \/ mem start frontier = true ->
    (forall v n, mem v visited = true -> In n (nb v) ->
                 mem n visited = true \/ mem n frontier = true) ->
    flood nb fuel visited frontier = Some R ->
    forall x, mem x R = true <-> reach nb start x.
Proof.
  assert (Base : forall visited R,
    (forall x, mem x visited = true \/ mem x [] = true -> reach nb start x) ->
    mem start visited = true \/ mem start [] = true ->
    (forall v n, mem v visited = true -> In n (nb v) ->
                 mem n visited = true \/ mem n [] = true) ->
    Some visited = Some R ->
    forall x, mem x R = true <-> reach nb start x).
  { intros visited R I1 I2 I3 H. injection H as <-. apply closed_is_reach.
    - intros x Hx. apply I1. now left.
    - destruct I2 as [I2|I2]; [exact I2 | discriminate].
    - intros v n Hv Hn. destruct (I3 v n Hv Hn) as [H|H]; [exact H | discriminate]. }
  induction fuel as [|fuel IH]; intros visited frontier R I1 I2 I3 H.
  - destruct frontier as [|f t]; [|discriminate]. now apply (Base visited R).
  - destruct frontier as [|f t]; [now apply (Base visited R)|].
    cbn [flood] in H. set (frontier := f :: t) in *.
    set (visited' := set_update cluster_eqb visited frontier) in *.
    assert (Hv' : forall y, mem y visited' = mem y visited || mem y frontier)
      by (intro y; apply (memb_set_update _ _ cluster_eqb_equivalence)).
    refine (IH visited' _ R _ _ _ H).
    + intros y [Hy|Hy].
      * apply I1. rewrite Hv' in Hy. now apply orb_true_iff in Hy.
      * apply mem_next_frontier in Hy. destruct Hy as [_ [g [Hg Hm]]].
        apply reach_step with g; [|exact Hm].
        apply I1. right. now apply mem_In.
    + left. rewrite Hv'. apply orb_true_iff. exact I2.
    + intros v n Hv Hn. rewrite Hv' in Hv. apply orb_true_iff in Hv.
      destruct Hv as [Hv|Hv].
      * left. rewrite Hv'. apply orb_true_iff. now apply (I3 v n).
      * destruct (mem n visited') eqn:Hnv; [now left|]. right.
        apply mem_next_frontier. split; [exact Hnv|].
        apply mem_iff in Hv. destruct Hv as [g [Hg Hvg]].
        exists g. split; [exact Hg|]. rewrite <- (nb_compat v g Hvg).
        now apply mem_In.
Qed.

Lemma filter_length_lt {A : Type} (g g' : A -> bool) (l : list A) (u0 : A) :
  (forall u, g' u = true -> g u = true) ->
  In u0 l -> g u0 = true -> g' u0 = false ->
  length (filter g' l) < length (filter g l).
Proof.
  intros Hle. induction l as [|a t IH]; intros Hin Hg Hg'; [destruct Hin|].
  assert (Hmono : length (filter g' t) <= length (filter g t)).
  { clear -Hle. induction t as [|b t IHt]; simpl; [lia|].
    destruct (g' b) eqn:B'; [rewrite (Hle b B'); simpl; lia|].
    destruct (g b); simpl; lia. }
  simpl. destruct Hin as [->|Hin].
  - rewrite Hg, Hg'. simpl. lia.
  - specialize (IH Hin Hg Hg').
    destruct (g' a) eqn:A'; [rewrite (Hle a A'); simpl; lia|].
    destruct (g a); simpl; lia.
Qed.

Lemma flood_terminates (fuel : nat) : forall (visited frontier : list Cluster),
  (forall f, In f frontier -> mem f U = true /\ mem f visited = false) ->
  length (unvisited U visited) < fuel ->
  exists R, flood nb fuel visited frontier = Some R.
Proof.
  induction fuel as [|fuel IH]; intros visited frontier Hf Hlen; [lia|].
  destruct frontier as [|f t]; [eexists; reflexivity|].
  cbn [flood]. set (frontier := f :: t) in *.
  set (visited' := set_update cluster_eqb visited frontier).
  assert (Hv' : forall y, mem y visited' = mem y visited || mem y frontier)
    by (intro y; apply (memb_set_update _ _ cluster_eqb_equivalence)).
  apply IH.
  - intros n Hn. apply mem_In in Hn. apply mem_next_frontier in Hn.
    destruct Hn as [Hnv [g [Hg Hm]]]. split; [|exact Hnv].
    apply mem_iff in Hm. destruct Hm as [n' [Hn' Hnn']].
    rewrite (mem_compat n n' U Hnn'). apply (nb_closed g); [|exact Hn'].
    apply Hf, Hg.
  - destruct (Hf f (or_introl eq_refl)) as [HfU Hfv].
    apply mem_iff in HfU. destruct HfU as [u0 [Hu0 Hfu0]].
    assert (length (unvisited U visited') < length (unvisited U visited)); [|lia].
    unfold unvisited. apply filter_length_lt with u0.
    + intros u Hu. apply negb_true_iff in Hu. apply negb_true_iff.
      rewrite Hv' in Hu. now apply orb_false_iff in Hu.
    + exact Hu0.
    + apply negb_true_iff. rewrite <- (mem_compat f u0 visited Hfu0). exact Hfv.
    + apply negb_false_iff. rewrite Hv'. apply orb_true_iff. right.
      rewrite <- (mem_compat f u0 frontier Hfu0). apply mem_In. now left.
Qed.
End Reach.

Lemma sum_filter_drop {A : Type} (wt : A -> nat) (g g' : A -> bool) (l : list A) (u0 : A) :
  (forall u, g' u = true -> g u = true) ->
  In u0 l -> g u0 = true -> g' u0 = false ->
  list_sum (map wt (filter g' l)) + wt u0 <= list_sum (map wt (filter g l)).
Proof.
  intros Hle. induction l as [|a t IH]; intros Hin Hg Hg'; [destruct Hin|].
  assert (Hmono : list_sum (map wt (filter g' t)) <= list_sum (map wt (filter g t))).
  { clear -Hle. induction t as [|b t IHt]; simpl; [lia|].
    destruct (g' b) eqn:B'; [rewrite (Hle b B'); simpl; lia|].
    destruct (g b); simpl; lia. }
  simpl. destruct Hin as [->|Hin].
  - rewrite Hg, Hg'. simpl. lia.
  - specialize (IH Hin Hg Hg').
    destruct (g' a) eqn:A'; [rewrite (Hle a A'); simpl; lia|].
    destruct (g a); simpl; lia.
Qed.

Lemma popleft_takes_one : takes_one popleft.
Proof.
  intros [|x t]; simpl; [reflexivity|]. split; [reflexivity|].
  intro y. split; intros [H|H]; auto.
Qed.

Lemma pop_takes_one : takes_one pop.
Proof.
  intro work. unfold pop. destruct (rev work) as [|x t] eqn:R.
  - apply (f_equal (@rev Cluster)) in R. now rewrite rev_involutive in R.
  - apply (f_equal (@rev Cluster)) in R. rewrite rev_involutive in R. simpl in R.
    subst work. split.
    + rewrite length_app. simpl. lia.
    + intro y. rewrite in_app_iff. simpl. intuition congruence.
Qed.

Section Worklist.
Variable nb : Cluster -> list Cluster.
Variable U : list Cluster.
Hypothesis nb_compat : forall a b, cluster_eqb a b = true -> nb a = nb b.
Hypothesis nb_closed :
  forall a n, memb cluster_eqb a U = true -> In n (nb a) -> memb cluster_eqb n U = true.
Variable pop : list Cluster -> option (Cluster * list Cluster).
Hypothesis pop_ok : takes_one pop.

Local Abbreviation mem := (memb cluster_eqb).

Lemma pop_mem (work rest : list Cluster) (c y : Cluster) :
  pop work = Some (c, rest) -> mem y work = cluster_eqb y c || mem y rest.
Proof.
  intro Hp. pose proof (pop_ok work) as H. rewrite Hp in H. destruct H as [_ H].
  destruct (mem y work) eqn:Hw; symmetry.
  - apply (mem_iff y work) in Hw. destruct Hw as [z [Hz Hyz]].
    apply H in Hz. apply orb_true_iff. destruct Hz as [->|Hz]; [now left|].
    right. apply mem_iff. eauto.
  - apply orb_false_iff. split.
    + destruct (cluster_eqb y c) eqn:Hyc; [|reflexivity].
      rewrite <- Hw. symmetry. apply mem_iff. exists c. split; [|exact Hyc].
      apply H. now left.
    + destruct (mem y rest) eqn:Hr; [|reflexivity].
      rewrite <- Hw. symmetry. apply mem_iff in Hr. destruct Hr as [z [Hz Hyz]].
      apply mem_iff. exists z. split; [|exact Hyz]. apply H. now right.
Qed.

Lemma worklist_sound (start : Cluster) (fuel : nat) :
  forall (visited work R : list Cluster),
    (forall x, mem x visited = true \/ mem x work = true -> reach nb start x) ->
    mem start visited = true \/ mem start work = true ->
    (forall v n, mem v visited = true -> In n (nb v) ->
                 mem n visited = true \/ mem n work = true) ->
    worklist nb pop fuel visited work = Some R ->
    forall x, mem x R = true <-> reach nb start x.
Proof.
  assert (Base : forall visited work R,
    pop work = None ->
    (forall x, mem x visited = true \/ mem x work = true -> reach nb start x) ->
    mem start visited = true \/ mem start work = true ->
    (forall v n, mem v visited = true -> In n (nb v) ->
                 mem n visited = true \/ mem n work = true) ->
    Some visited = Some R ->
    forall x, mem x R = true <-> reach nb start x).
  { intros visited work R Hp I1 I2 I3 H. injection H as <-.
    pose proof (pop_ok work) as Hw. rewrite Hp in Hw. subst work.
    apply (closed_is_reach nb).
    - intros x Hx. apply I1. now left.
    - destruct I2 as [I2|I2]; [exact I2 | discriminate].
    - intros v n Hv Hn. destruct (I3 v n Hv Hn) as [H|H]; [exact H | discriminate]. }
  induction fuel as [|fuel IH]; intros visited work R I1 I2 I3 H.
  - cbn [worklist] in H. destruct (pop work) as [[c rest]|] eqn:Hp; [discriminate|].
    now apply (Base visited work R).
  - cbn [worklist] in H. destruct (pop work) as [[c rest]|] eqn:Hp;
      [|now apply (Base visited work R)].
    pose proof (fun y => pop_mem work rest c y Hp) as Hw.
    destruct (mem c visited) eqn:Hc; cbn [negb] in H.
    + refine (IH visited rest R _ _ _ H).
      * intros x [Hx|Hx]; apply I1; [now left|]. right. rewrite Hw, Hx.
        apply orb_true_r.
      * destruct I2 as [I2|I2]; [now left|]. rewrite Hw in I2.
        apply orb_true_iff in I2. destruct I2 as [I2|I2]; [|now right].
        left. now rewrite (mem_compat start c visited I2).
      * intros v n Hv Hn. destruct (I3 v n Hv Hn) as [Hm|Hm]; [now left|].
        rewrite Hw in Hm. apply orb_true_iff in Hm. destruct Hm as [Hm|Hm]; [|now right].
        left. now rewrite (mem_compat n c visited Hm).
    + set (visited' := set_add cluster_eqb c visited) in *.
      assert (Hv' : forall y, mem y visited' = cluster_eqb y c || mem y visited)
        by (intro y; apply (memb_set_add _ _ cluster_eqb_equivalence)).
      assert (Hcw : mem c work = true)
        by (rewrite Hw, cluster_eqb_refl; reflexivity).
      assert (Hwork' : forall y,
                mem y (rest ++ filter (fun n => negb (mem n visited')) (nb c))
                = mem y rest || (mem y (nb c) && negb (mem y visited'))).
      { intro y. rewrite (memb_app _ cluster_eqb).
        rewrite (memb_filter_compat _ cluster_eqb); [reflexivity|].
        intros a b Hab. now rewrite (mem_compat a b visited' Hab). }
      refine (IH visited' _ R _ _ _ H).
      * intros x [Hx|Hx].
        -- rewrite Hv' in Hx. apply orb_true_iff in Hx. destruct Hx as [Hx|Hx].
           ++ apply I1. right. now rewrite (mem_compat x c work Hx).
           ++ apply I1. now left.
        -- rewrite Hwork' in Hx. apply orb_true_iff in Hx. destruct Hx as [Hx|Hx].
           ++ apply I1. right. rewrite Hw, Hx. apply orb_true_r.
           ++ apply andb_true_iff in Hx. destruct Hx as [Hx _].
              apply reach_step with c; [|exact Hx]. apply I1. now right.
      * destruct I2 as [I2|I2].
        -- left. rewrite Hv', I2. apply orb_true_r.
        -- rewrite Hw in I2. apply orb_true_iff in I2. destruct I2 as [I2|I2].
           ++ left. rewrite Hv', I2. reflexivity.
           ++ right. rewrite Hwork', I2. reflexivity.
      * intros v n Hv Hn. rewrite Hv' in Hv. apply orb_true_iff in Hv.
        destruct (mem n visited') eqn:Hnv; [now left|]. right.
        rewrite Hwork', Hnv. cbn [negb]. rewrite andb_true_r.
        destruct Hv as [Hv|Hv].
        -- apply orb_true_iff. right. rewrite <- (nb_compat v c Hv).
           now apply mem_In.
        -- destruct (I3 v n Hv Hn) as [Hm|Hm].
           ++ rewrite Hv', Hm, orb_true_r in Hnv. discriminate.
           ++ rewrite Hw in Hm. apply orb_true_iff in Hm. destruct Hm as [Hm|Hm].
              ** rewrite Hv', Hm in Hnv. discriminate.
              ** now rewrite Hm.
Qed.

Lemma worklist_terminates (fuel : nat) : forall (visited work : list Cluster),
  (forall x, In x work -> mem x U = true) ->
  length work + list_sum (map (fun u => length (nb u)) (unvisited U visited)) < fuel ->
  exists R, worklist nb pop fuel visited work = Some R.
Proof.
  induction fuel as [|fuel IH]; intros visited work Hw Hlen; [lia|].
  cbn [worklist]. pose proof (pop_ok work) as Hp.
  destruct (pop work) as [[c rest]|]; [|eexists; reflexivity].
  destruct Hp as [Hl Hin].
  destruct (mem c visited) eqn:Hc; cbn [negb].
  - apply IH.
    + intros x Hx. apply Hw, Hin. now right.
    + lia.
  - set (visited' := set_add cluster_eqb c visited).
    assert (HcU : mem c U = true) by (apply Hw, Hin; now left).
    apply IH.
    + intros x Hx. apply in_app_or in Hx. destruct Hx as [Hx|Hx].
      * apply Hw, Hin. now right.
      * apply filter_In in Hx. destruct Hx as [Hx _].
        now apply (nb_closed c).
    + apply (mem_iff c U) in HcU. destruct HcU as [u0 [Hu0 Hcu0]].
      assert (Hdrop : list_sum (map (fun u => length (nb u)) (unvisited U visited'))
                      + length (nb u0)
                      <= list_sum (map (fun u => length (nb u)) (unvisited U visited))).
      { unfold unvisited. apply (sum_filter_drop (fun u => length (nb u))).
        - intros u Hu. apply negb_true_iff in Hu. apply negb_true_iff.
          unfold visited' in Hu.
          rewrite (memb_set_add _ _ cluster_eqb_equivalence) in Hu.
          now apply orb_false_iff in Hu.
        - exact Hu0.
        - apply negb_true_iff. now rewrite <- (mem_compat c u0 visited Hcu0).
        - apply negb_false_iff. unfold visited'.
          rewrite (memb_set_add _ _ cluster_eqb_equivalence).
          now rewrite cluster_eqb_sym, Hcu0. }
      rewrite length_app.
      pose proof (filter_length_le (fun n => negb (mem n visited')) (nb c)) as Hf.
      rewrite (nb_compat c u0 Hcu0) in *. lia.
Qed.
End Worklist.

(** ** Traversals of a built graph *)

Lemma neighbors_in_compat (d : list (Cluster * list Edge)) (a b : Cluster) :
  cluster_eqb a b = true -> neighbors_in d a = neighbors_in d b.
Proof.
  intro H. unfold neighbors_in.
  now rewrite (dict_get_compat _ _ cluster_eqb_equivalence _ a b d H).
Qed.

Lemma mmap_run {S A B : Type} (f : A -> M S B) (g : A -> B) (l : list A) (s : S) :
  (forall x, In x l -> f x s = (s, Ok (g x))) -> mmap f l s = (s, Ok (map g l)).
Proof.
  induction l as [|x t IH]; intro H; [reflexivity|].
  cbn [mmap map]. rewrite (mbind_run _ _ _ _ _ (H x (or_introl eq_refl))).
  rewrite (mbind_run _ _ _ _ _ (IH (fun y Hy => H y (or_intror Hy)))).
  reflexivity.
Qed.

Lemma any_edges_none_get (g : Graph) (c : Cluster) (o : option (list Edge)) :
  any_edges_none g = false -> get_edges g c = Some o -> exists es, o = Some es.
Proof.
  unfold any_edges_none, get_edges. intros Hn Hg.
  apply dict_get_In in Hg. destruct Hg as [k Hk].
  destruct o as [es|]; [eauto|].
  assert (X : existsb (fun kv : Cluster * option (list Edge) =>
                         match snd kv with None => true | Some _ => false end)
                      (edges g) = true)
    by (apply existsb_exists; exists (k, None); auto).
  congruence.
Qed.

Section BuiltGraph.
Variable E : Env.
Variable m : Manifold.
Variable w : World.
Variable sc : list Cluster.
Variables we se : list (Cluster * list Edge).
Hypothesis Hb : built w sc we se.

Local Abbreviation mem := (memb cluster_eqb).

Lemma ensure_built_run : ensure_built E m w = (w, Ok tt).
Proof.
  unfold ensure_built, mbind, get_graph. now rewrite (built_edges Hb).
Qed.

Lemma subsumed_clusters_run : subsumed_clusters E m w = (w, Ok sc).
Proof.
  unfold subsumed_clusters, cached, mbind, get_graph.
  rewrite (built_sc Hb). cbn. now rewrite (built_sc Hb).
Qed.

Lemma walkable_edges_run : walkable_edges E m w = (w, Ok we).
Proof.
  unfold walkable_edges, cached, mbind, get_graph.
  rewrite (built_we Hb). cbn. now rewrite (built_we Hb).
Qed.

Lemma subsumed_edges_run : subsumed_edges E m w = (w, Ok se).
Proof.
  unfold subsumed_edges, cached, mbind, get_graph.
  rewrite (built_se Hb). cbn. now rewrite (built_se Hb).
Qed.

Lemma ensure_edges_run (c : Cluster) :
  mem c (clusters (w_graph w)) = true -> ensure_edges E m c w = (w, Ok tt).
Proof.
  intro Hc. unfold ensure_edges, mbind, get_graph, mlift, dict_lookup.
  apply dict_get_some_memb in Hc. destruct Hc as [o Ho]. rewrite Ho.
  destruct (any_edges_none_get _ c o (built_edges Hb) Ho) as [es ->].
  reflexivity.
Qed.

Lemma neighbors_walkable_run (c : Cluster) :
  mem c (dict_keys we) = true ->
  neighbors E m c "walkable" w = (w, Ok (neighbors_in we c)).
Proof.
  intro Hc. unfold neighbors.
  rewrite (mbind_run _ _ _ _ _
             (ensure_edges_run c (proj1 (proj1 (built_walkable Hb c) Hc)))).
  cbn [String.eqb Ascii.eqb Bool.eqb andb].
  rewrite (mbind_run _ _ _ _ _ walkable_edges_run).
  unfold mbind, mlift, dict_lookup, neighbors_in.
  apply dict_get_some_memb in Hc. destruct Hc as [es ->]. reflexivity.
Qed.

Lemma neighbors_subsumed_run (c : Cluster) :
  mem c (clusters (w_graph w)) = true ->
  neighbors E m c "subsumed" w = (w, Ok (neighbors_in se c)).
Proof.
  intro Hc. unfold neighbors.
  rewrite (mbind_run _ _ _ _ _ (ensure_edges_run c Hc)).
  cbn [String.eqb Ascii.eqb Bool.eqb andb].
  rewrite (mbind_run _ _ _ _ _ subsumed_edges_run).
  unfold mbind, mlift, dict_lookup, neighbors_in.
  apply (built_subsumed Hb) in Hc.
  apply dict_get_some_memb in Hc. destruct Hc as [es ->]. reflexivity.
Qed.

Lemma traverse_loop_run (fuel : nat) : forall (visited frontier : list Cluster),
  (forall f, In f frontier -> mem f (dict_keys we) = true) ->
  traverse_loop E m fuel visited frontier w
  = (w, Ok (flood (neighbors_in we) fuel visited frontier)).
Proof.
  induction fuel as [|fuel IH]; intros visited frontier Hf.
  - destruct frontier; reflexivity.
  - destruct frontier as [|f t]; [reflexivity|].
    cbn [traverse_loop flood].
    rewrite (mbind_run _ _ _ _ _
               (mmap_run _ (neighbors_in we) (f :: t) w
                  (fun x Hx => neighbors_walkable_run x (Hf x Hx)))).
    apply IH. intros n Hn. apply In_set_of in Hn. apply filter_In in Hn.
    destruct Hn as [Hn _]. apply in_concat in Hn. destruct Hn as [l [Hl Hn]].
    apply in_map_iff in Hl. destruct Hl as [g [<- Hg]].
    apply (built_closed Hb g); auto.
Qed.

Lemma worklist_loop_run (pop : list Cluster -> option (Cluster * list Cluster))
    (fuel : nat) :
  takes_one pop ->
  forall (visited work : list Cluster),
    (forall x, In x work -> mem x (dict_keys we) = true) ->
    worklist_loop E m pop fuel visited work w
    = (w, Ok (worklist (neighbors_in we) pop fuel visited work)).
Proof.
  intro Hpop. induction fuel as [|fuel IH]; intros visited work Hw.
  - cbn [worklist_loop worklist]. destruct (pop work) as [[c rest]|]; reflexivity.
  - cbn [worklist_loop worklist]. pose proof (Hpop work) as Hp.
    destruct (pop work) as [[c rest]|]; [|reflexivity].
    destruct Hp as [_ Hin].
    destruct (negb (mem c visited)).
    + rewrite (mbind_run _ _ _ _ _
                 (neighbors_walkable_run c (Hw c (proj2 (Hin c) (or_introl eq_refl))))).
      apply IH. intros x Hx. apply in_app_or in Hx. destruct Hx as [Hx|Hx].
      * apply Hw, Hin. now right.
      * apply filter_In in Hx. destruct Hx as [Hx _].
        apply (built_closed Hb c); auto.
        apply Hw, Hin. now left.
    + apply IH. intros x Hx. apply Hw, Hin. now right.
Qed.
End BuiltGraph.

Lemma rmap_run {A B : Type} (f : A -> result B) (g : A -> B) (l : list A) :
  (forall x, In x l -> f x = Ok (g x)) -> rmap f l = Ok (map g l).
Proof.
  induction l as [|x t IH]; intro H; [reflexivity|].
  cbn [rmap map]. rewrite (H x (or_introl eq_refl)). cbn [rbind].
  rewrite (IH (fun y Hy => H y (or_intror Hy))). reflexivity.
Qed.

Lemma reach_within (nb : Cluster -> list Cluster) (U : list Cluster) (start x : Cluster) :
  (forall a n, memb cluster_eqb a U = true -> In n (nb a) -> memb cluster_eqb n U = true) ->
  memb cluster_eqb start U = true -> reach nb start x -> memb cluster_eqb x U = true.
Proof.
  intros Hc Hs Hx. induction Hx as [x Hxs|x y _ IH Hm].
  - now rewrite (mem_compat x start U Hxs).
  - apply mem_iff in Hm. destruct Hm as [n [Hn Hxn]].
    rewrite (mem_compat x n U Hxn). eapply Hc; eassumption.
Qed.

(** The set that the three traversals return, from the set of the walkable
    clusters they visit. *)
Lemma with_subsumed_component (we se : list (Cluster * list Edge))
    (start : Cluster) (R : list Cluster) :
  (forall x, memb cluster_eqb x R = true <-> reach (neighbors_in we) start x) ->
  forall x, memb cluster_eqb x (with_subsumed se R) = true <-> component we se start x.
Proof.
  intros HR x. unfold with_subsumed, component.
  rewrite (memb_set_update _ _ cluster_eqb_equivalence).
  rewrite (memb_set_of _ _ cluster_eqb_equivalence).
  rewrite orb_true_iff, HR. split; (intros [H|H]; [now left | right]).
  - apply mem_iff in H. destruct H as [n [Hn Hxn]].
    apply in_concat in Hn. destruct Hn as [l [Hl Hn]].
    apply in_map_iff in Hl. destruct Hl as [y [<- Hy]].
    exists y. split.
    + apply HR. now apply mem_In.
    + apply mem_iff. eauto.
  - destruct H as [y [Hy Hm]]. apply HR in Hy.
    apply mem_iff in Hy. destruct Hy as [y' [Hy' Hyy']].
    rewrite (neighbors_in_compat se y y' Hyy') in Hm.
    apply mem_iff in Hm. destruct Hm as [n [Hn Hxn]].
    apply mem_iff. exists n. split; [|exact Hxn].
    apply in_concat. exists (neighbors_in se y'). split; [now apply in_map | exact Hn].
Qed.

Section Traversals.
Variable E : Env.
Variable m : Manifold.
Variable w : World.
Variable sc : list Cluster.
Variables we se : list (Cluster * list Edge).
Hypothesis Hb : built w sc we se.

Local Abbreviation mem := (memb cluster_eqb).

Lemma traversals_refuse (start : Cluster) (fuel : nat) :
  mem start sc = true ->
  traverse E m fuel start w = (w, Raise ValueError)
  /\ bft E m fuel start w = (w, Raise ValueError)
  /\ dft E m fuel start w = (w, Raise ValueError).
Proof.
  intro Hs. unfold bft, dft, worklist_traversal, traverse.
  rewrite !(mbind_run _ _ _ _ _ (ensure_built_run E m w sc we se Hb)).
  rewrite !(mbind_run _ _ _ _ _ (subsumed_clusters_run E m w sc we se Hb)).
  rewrite Hs. auto.
Qed.

Lemma reached_in_graph (start x : Cluster) :
  mem start (dict_keys we) = true -> reach (neighbors_in we) start x ->
  mem x (clusters (w_graph w)) = true.
Proof.
  intros Hs Hx.
  apply (built_walkable Hb).
  apply (reach_within (neighbors_in we) (dict_keys we) start x); auto.
  apply (built_closed Hb).
Qed.

Lemma traverse_run (start : Cluster) (fuel : nat) (R : list Cluster) :
  mem start sc = false -> mem start (dict_keys we) = true ->
  flood (neighbors_in we) fuel [] [start] = Some R ->
  (forall x, mem x R = true <-> reach (neighbors_in we) start x) ->
  traverse E m fuel start w = (w, Ok (Some (with_subsumed se R))).
Proof.
  intros Hs Hk Hf HR. unfold traverse.
  rewrite (mbind_run _ _ _ _ _ (ensure_built_run E m w sc we se Hb)).
  rewrite (mbind_run _ _ _ _ _ (subsumed_clusters_run E m w sc we se Hb)).
  rewrite Hs.
  rewrite (mbind_run _ _ _ _ _ (traverse_loop_run E m w sc we se Hb fuel [] [start]
             (fun f Hf0 => match Hf0 with
                           | or_introl e => eq_ind start (fun z => mem z _ = true) Hk f e
                           | or_intror F => match F with end
                           end))).
  rewrite Hf.
  rewrite (mbind_run _ _ _ _ _ (subsumed_edges_run E m w sc we se Hb)).
  set (g := fun c => match dict_get cluster_eqb c se with Some es => es | None => [] end).
  assert (Hr : rmap (fun cluster => dict_lookup cluster_eqb cluster se) R = Ok (map g R)).
  { apply rmap_run. intros c Hc. unfold dict_lookup, g.
    assert (Hm : mem c (dict_keys se) = true).
    { apply (built_subsumed Hb). apply (reached_in_graph start c Hk).
      apply HR. now apply mem_In. }
    apply dict_get_some_memb in Hm. destruct Hm as [es ->]. reflexivity. }
  unfold mbind, mlift. rewrite Hr. unfold mret, with_subsumed.
  do 4 f_equal. rewrite concat_map, map_map. do 2 f_equal.
  apply map_ext. intro c. unfold neighbors_in, g.
  now destruct (dict_get cluster_eqb c se).
Qed.

Lemma worklist_traversal_run (pop : list Cluster -> option (Cluster * list Cluster))
    (start : Cluster) (fuel : nat) (R : list Cluster) :
  takes_one pop ->
  mem start sc = false -> mem start (dict_keys we) = true ->
  worklist (neighbors_in we) pop fuel [] [start] = Some R ->
  (forall x, mem x R = true <-> reach (neighbors_in we) start x) ->
  worklist_traversal E m pop fuel start w = (w, Ok (Some (with_subsumed se R))).
Proof.
  intros Hpop Hs Hk Hf HR. unfold worklist_traversal.
  rewrite (mbind_run _ _ _ _ _ (ensure_built_run E m w sc we se Hb)).
  rewrite (mbind_run _ _ _ _ _ (subsumed_clusters_run E m w sc we se Hb)).
  rewrite Hs.
  rewrite (mbind_run _ _ _ _ _ (worklist_loop_run E m w sc we se Hb pop fuel Hpop [] [start]
             (fun f Hf0 => match Hf0 with
                           | or_introl e => eq_ind start (fun z => mem z _ = true) Hk f e
                           | or_intror F => match F with end
                           end))).
  rewrite Hf. unfold attach_subsumed.
  rewrite (mbind_run _ _ _ _ _
             (mbind_run _ _ _ _ _
                (mmap_run _ (neighbors_in se) R w
                   (fun c Hc => neighbors_subsumed_run E m w sc we se Hb c
                      (reached_in_graph start c Hk (proj1 (HR c) (mem_In c R Hc))))))).
  reflexivity.
Qed.
End Traversals.

(** ** A graph is built once [build_edges] has run *)

Lemma memb_keys_update {K V : Type} (eqb : K -> K -> bool)
    (eqb_equiv : is_equivalence eqb) (x : K) (items : list (K * V)) : forall d,
  memb eqb x (dict_keys (dict_update eqb d items))
  = memb eqb x (dict_keys d) || memb eqb x (map fst items).
Proof.
  unfold dict_update. induction items as [|[k v] t IH]; intro d; simpl.
  - now rewrite orb_false_r.
  - rewrite IH, dict_keys_set. cbn [fst].
    destruct (memb eqb k (dict_keys d)) eqn:Hk.
    + destruct (eqb x k) eqn:Hx; [|reflexivity].
      now rewrite (memb_compat _ eqb eqb_equiv x k _ Hx), Hk.
    + rewrite (memb_app _ eqb). cbn [memb existsb]. rewrite orb_false_r.
      now rewrite orb_assoc.
Qed.

Lemma memb_keys_of {K V : Type} (eqb : K -> K -> bool)
    (eqb_equiv : is_equivalence eqb) (x : K) (items : list (K * V)) :
  memb eqb x (dict_keys (dict_of eqb items)) = memb eqb x (map fst items).
Proof. unfold dict_of. now rewrite (memb_keys_update eqb eqb_equiv). Qed.

Lemma filter_fst {A B : Type} (p : A -> bool) (l : list (A * B)) :
  map fst (filter (fun ab => p (fst ab)) l) = filter p (map fst l).
Proof.
  induction l as [|[a b] t IH]; simpl; [reflexivity|].
  destruct (p a); simpl; now rewrite IH.
Qed.

Lemma any_edges_none_all (ces : list (Cluster * list Edge)) (g : Graph) :
  edges g = map (fun ce => (fst ce, Some (snd ce))) ces -> any_edges_none g = false.
Proof.
  unfold any_edges_none. intros ->. induction ces as [|ce t IH]; [reflexivity|exact IH].
Qed.

Lemma walkable_entry_origin (ces : list (Cluster * list Edge)) (sc : list Cluster)
    (c : Cluster) (es : list Edge) :
  dict_get cluster_eqb c (edges_among_walkable ces sc) = Some es ->
  exists ce, In ce ces
             /\ forall e, In e es ->
                  exists e0, In e0 (snd ce) /\ neighbor e = neighbor e0
                             /\ memb cluster_eqb (neighbor e0) sc = false.
Proof.
  intro H. apply dict_get_In in H. destruct H as [k H].
  apply In_dict_of in H. rewrite map_map in H. cbn [snd] in H.
  apply in_map_iff in H. destruct H as [ce [<- Hce]].
  apply filter_In in Hce. destruct Hce as [Hce _].
  exists ce. split; [exact Hce|].
  intros e He. apply In_set_of in He. apply in_map_iff in He.
  destruct He as [e0 [<- He0]]. apply filter_In in He0. destruct He0 as [He0 Hn].
  exists e0. split; [exact He0|]. split; [reflexivity|].
  now apply negb_true_iff in Hn.
Qed.

Lemma weighted_neighbors (es es' : list Edge) (e' : Edge) :
  weighted es es' -> In e' es' -> exists e, In e es /\ neighbor e' = neighbor e.
Proof.
  intros [[_ ->]|[_ [Ht _]]] He'; [destruct He'|].
  apply transition_edges_ok in Ht. cbn zeta in Ht. destruct Ht as [_ ->].
  apply In_set_of in He'. apply in_map_iff in He'.
  destruct He' as [e [<- He]]. eauto.
Qed.

Lemma build_edges_built (E : Env) (m : Manifold) (w w' : World) :
  keys_distinct cluster_eqb (clusters (w_graph w)) ->
  build_edges E m w = (w', Ok tt) ->
  clusters (w_graph w') = clusters (w_graph w)
  /\ exists sc we se, built w' sc we se.
Proof.
  intros Hd Hrun.
  destruct (build_edges_phases E m w w' Hrun) as [w1 [w2 [w3 [w4 [H1 [H2 [H3 [H4 H5]]]]]]]].
  destruct (build_edges_steps_plain E m w w1 w2 w3 Hd H1 H2 H3) as [Hk3 Ha3].
  apply split_ok in H4.
  destruct H4 as [ces [Hall [_ [He [Hsc [_ [Hse Hwe]]]]]]].
  apply all_edges_ok in Hall.
  pose proof (recompute_ok w4 w' _ Hwe (keys_distinct_of _ _ _ _) H5) as R.
  destruct R as [_ [R2 [R3 [_ [R5 [we [Q1 [Q2 [Q3 _]]]]]]]]].
  set (sc := subsumed_among E ces) in *.
  assert (Hedges : edges (w_graph w') = edges (w_graph w3)) by now rewrite R2, He.
  assert (Hcl : clusters (w_graph w') = clusters (w_graph w)).
  { unfold clusters. rewrite Hedges. exact Hk3. }
  assert (Hks : clusters (w_graph w') = map fst ces).
  { unfold clusters, dict_keys. rewrite Hedges, Hall, map_map. reflexivity. }
  assert (Hwalk : forall c, memb cluster_eqb c (dict_keys we) = true
            <-> memb cluster_eqb c (clusters (w_graph w')) = true
                /\ memb cluster_eqb c sc = false).
  { intro c. rewrite Q2. unfold edges_among_walkable.
    rewrite (memb_keys_of _ cluster_eqb_equivalence), map_map. cbn [fst].
    change (map (fun x : Cluster * list Edge => fst x)) with (map (@fst Cluster (list Edge))).
    rewrite (filter_fst (fun k => negb (memb cluster_eqb k sc))).
    rewrite (memb_filter_compat _ cluster_eqb).
    - rewrite andb_true_iff, negb_true_iff, Hks. reflexivity.
    - intros a b Hab. f_equal.
      apply (memb_compat _ _ cluster_eqb_equivalence). exact Hab. }
  split; [exact Hcl|].
  exists sc, we, (edges_to_subsumed ces sc).
  constructor.
  - apply (any_edges_none_all ces). now rewrite Hedges.
  - now rewrite R3.
  - exact Q1.
  - now rewrite R5.
  - exact Hwalk.
  - intros c Hc. unfold edges_to_subsumed.
    rewrite (memb_keys_of _ cluster_eqb_equivalence), map_map. cbn [fst].
    change (map (fun x : Cluster * list Edge => fst x)) with (map (@fst Cluster (list Edge))).
    now rewrite <- Hks.
  - intros c n Hc Hn. apply Hwalk.
    assert (Hc' := Hc).
    apply (memb_true_iff _ cluster_eqb) in Hc'. destruct Hc' as [c0 [Hc0 Hcc0]].
    rewrite Q2 in Hc0. destruct (Q3 c0 Hc0) as [es [es' [Hg0 [Hg Hw]]]].
    unfold neighbors_in in Hn.
    rewrite (dict_get_compat _ _ cluster_eqb_equivalence _ c c0 we Hcc0), Hg in Hn.
    apply in_map_iff in Hn. destruct Hn as [e' [<- He']].
    destruct (weighted_neighbors es es' e' Hw He') as [e [He1 ->]].
    destruct (walkable_entry_origin ces sc c0 es Hg0) as [ce [Hce Hor]].
    destruct (Hor e He1) as [e0 [He0 [-> Hns]]].
    split; [|exact Hns].
    rewrite Hcl. 
    assert (Hin : In (fst ce, Some (snd ce)) (edges (w_graph w3))).
    { rewrite Hall. apply in_map_iff. now exists ce. }
    assert (Hkd : keys_distinct cluster_eqb (dict_keys (edges (w_graph w3)))).
    { fold (clusters (w_graph w3)). rewrite Hk3. exact Hd. }
    pose proof (In_dict_get _ cluster_eqb _ (edges (w_graph w3)) (fst ce) (Some (snd ce))
                  cluster_eqb_refl Hkd Hin) as Hget.
    refine (proj1 (Ha3 (fst ce) (snd ce) e0 _ Hget He0)).
    unfold clusters, dict_keys. apply in_map_iff. now exists (fst ce, Some (snd ce)).
Qed.

Lemma unvisited_nil (U : list Cluster) : unvisited U [] = U.
Proof.
  unfold unvisited. induction U as [|u t IH]; [reflexivity|].
  cbn [filter memb existsb negb]. now f_equal.
Qed.

(** On a built graph the three traversals from a walkable cluster return,
    with enough fuel for their loops, sets with the members of the
    component of the start. *)
Lemma traversals_of_built (E : Env) (m : Manifold) (w : World) (sc : list Cluster)
    (we se : list (Cluster * list Edge)) (start : Cluster) :
  built w sc we se ->
  memb cluster_eqb start sc = false ->
  memb cluster_eqb start (clusters (w_graph w)) = true ->
  exists fuel0, forall fuel, fuel0 <= fuel ->
    exists T B D,
      traverse E m fuel start w = (w, Ok (Some T))
      /\ bft E m fuel start w = (w, Ok (Some B))
      /\ dft E m fuel start w = (w, Ok (Some D))
      /\ forall x, (memb cluster_eqb x T = true <-> component we se start x)
                   /\ (memb cluster_eqb x B = true <-> component we se start x)
                   /\ (memb cluster_eqb x D = true <-> component we se start x).
Proof.
  intros Hb Hs Hg.
  set (nb := neighbors_in we). set (U := dict_keys we).
  assert (Hk : memb cluster_eqb start U = true) by (apply (built_walkable Hb); auto).
  assert (Hc : forall a b, cluster_eqb a b = true -> nb a = nb b)
    by apply neighbors_in_compat.
  assert (Hcl : forall a n, memb cluster_eqb a U = true -> In n (nb a) ->
                            memb cluster_eqb n U = true) by apply (built_closed Hb).
  exists (2 + length U + list_sum (map (fun u => length (nb u)) U)).
  intros fuel Hfuel.
  assert (Hr0 : forall x, memb cluster_eqb x [] = true \/ memb cluster_eqb x [start] = true ->
                          reach nb start x).
  { intros x [H|H]; [discriminate|]. cbn in H. rewrite orb_false_r in H.
    now apply reach_start. }
  assert (Hs0 : memb cluster_eqb start [] = true \/ memb cluster_eqb start [start] = true).
  { right. cbn. now rewrite cluster_eqb_refl. }
  assert (Hn0 : forall v n, memb cluster_eqb v [] = true -> In n (nb v) ->
                  memb cluster_eqb n [] = true \/ memb cluster_eqb n [start] = true)
    by (intros v n H; discriminate).
  assert (Hin : forall x, In x [start] -> memb cluster_eqb x U = true)
    by (intros x [<-|[]]; exact Hk).
  destruct (flood_terminates nb U Hcl fuel [] [start]) as [T HT].
  { intros f Hf. split; [now apply Hin | reflexivity]. }
  { rewrite unvisited_nil. lia. }
  destruct (worklist_terminates nb U Hc Hcl popleft popleft_takes_one fuel [] [start] Hin)
    as [B HB].
  { rewrite unvisited_nil. cbn [length]. lia. }
  destruct (worklist_terminates nb U Hc Hcl pop pop_takes_one fuel [] [start] Hin)
    as [D HD].
  { rewrite unvisited_nil. cbn [length]. lia. }
  pose proof (flood_sound nb Hc start fuel [] [start] T Hr0 Hs0 Hn0 HT) as ST.
  pose proof (worklist_sound nb Hc popleft popleft_takes_one start fuel [] [start] B
                Hr0 Hs0 Hn0 HB) as SB.
  pose proof (worklist_sound nb Hc pop pop_takes_one start fuel [] [start] D
                Hr0 Hs0 Hn0 HD) as SD.
  exists (with_subsumed se T), (with_subsumed se B), (with_subsumed se D).
  split; [exact (traverse_run E m w sc we se Hb start fuel T Hs Hk HT ST)|].
  split; [exact (worklist_traversal_run E m w sc we se Hb popleft start fuel B
                   popleft_takes_one Hs Hk HB SB)|].
  split; [exact (worklist_traversal_run E m w sc we se Hb pop start fuel D
                   pop_takes_one Hs Hk HD SD)|].
  intro x. repeat split; try (apply (with_subsumed_component we se start); assumption);
    try (apply (with_subsumed_component we se start _ ST));
    try (apply (with_subsumed_component we se start _ SB));
    try (apply (with_subsumed_component we se start _ SD)).
Qed.

(** C9. After [build_edges] has run on a graph, let [sc] be its subsumed
    clusters, [we] its walkable edges and [se] its edges to subsumed
    clusters.  From a subsumed start, [traverse], [bft] and [dft] all raise
    [ValueError].  From a walkable start of the graph, the three return (as
    soon as the fuel of their loops is large enough, so the loops end) sets
    with the same members: the clusters reached from the start over walkable
    edges, together with the subsumed neighbours of those. *)
Theorem traversals_agree (E : Env) (m : Manifold) (w w' : World) (start : Cluster) :
  keys_distinct cluster_eqb (clusters (w_graph w)) ->
  build_edges E m w = (w', Ok tt) ->
  exists sc we se,
    subsumed_clusters E m w' = (w', Ok sc)
    /\ walkable_edges E m w' = (w', Ok we)
    /\ subsumed_edges E m w' = (w', Ok se)
    /\ (memb cluster_eqb start sc = true ->
        forall fuel,
          traverse E m fuel start w' = (w', Raise ValueError)
          /\ bft E m fuel start w' = (w', Raise ValueError)
          /\ dft E m fuel start w' = (w', Raise ValueError))
    /\ (memb cluster_eqb start sc = false ->
        memb cluster_eqb start (clusters (w_graph w')) = true ->
        exists fuel0, forall fuel, fuel0 <= fuel ->
          exists T B D,
            traverse E m fuel start w' = (w', Ok (Some T))
            /\ bft E m fuel start w' = (w', Ok (Some B))
            /\ dft E m fuel start w' = (w', Ok (Some D))
            /\ forall x,
                 (memb cluster_eqb x T = true <-> component we se start x)
                 /\ (memb cluster_eqb x B = true <-> component we se start x)
                 /\ (memb cluster_eqb x D = true <-> component we se start x)).
Proof.
  intros Hd Hrun.
  destruct (build_edges_built E m w w' Hd Hrun) as [_ [sc [we [se Hb]]]].
  exists sc, we, se.
  split; [exact (subsumed_clusters_run E m w' sc we se Hb)|].
  split; [exact (walkable_edges_run E m w' sc we se Hb)|].
  split; [exact (subsumed_edges_run E m w' sc we se Hb)|].
  split.
  - intros Hs fuel. exact (traversals_refuse E m w' sc we se Hb start fuel Hs).
  - intros Hs Hg. exact (traversals_of_built E m w' sc we se start Hb Hs Hg).
Qed.

Lemma traversals_agree_witness :
  exists sc we se,
    subsumed_clusters env6 manifold6 (fst (build_edges env6 manifold6 world6))
    = (fst (build_edges env6 manifold6 world6), Ok sc)
    /\ walkable_edges env6 manifold6 (fst (build_edges env6 manifold6 world6))
       = (fst (build_edges env6 manifold6 world6), Ok we)
    /\ subsumed_edges env6 manifold6 (fst (build_edges env6 manifold6 world6))
       = (fst (build_edges env6 manifold6 world6), Ok se)
    /\ (memb cluster_eqb start6 sc = true ->
        forall fuel,
          traverse env6 manifold6 fuel start6
            (fst (build_edges env6 manifold6 world6))
          = (fst (build_edges env6 manifold6 world6), Raise ValueError)
          /\ bft env6 manifold6 fuel start6
               (fst (build_edges env6 manifold6 world6))
             = (fst (build_edges env6 manifold6 world6), Raise ValueError)
          /\ dft env6 manifold6 fuel start6
               (fst (build_edges env6 manifold6 world6))
             = (fst (build_edges env6 manifold6 world6), Raise ValueError))
    /\ (memb cluster_eqb start6 sc = false ->
        memb cluster_eqb start6
          (clusters (w_graph (fst (build_edges env6 manifold6 world6)))) = true ->
        exists fuel0, forall fuel, fuel0 <= fuel ->
          exists T B D,
            traverse env6 manifold6 fuel start6
              (fst (build_edges env6 manifold6 world6))
            = (fst (build_edges env6 manifold6 world6), Ok (Some T))
            /\ bft env6 manifold6 fuel start6
                 (fst (build_edges env6 manifold6 world6))
               = (fst (build_edges env6 manifold6 world6), Ok (Some B))
            /\ dft env6 manifold6 fuel start6
                 (fst (build_edges env6 manifold6 world6))
               = (fst (build_edges env6 manifold6 world6), Ok (Some D))
            /\ forall x,
                 (memb cluster_eqb x T = true <-> component we se start6 x)
                 /\ (memb cluster_eqb x B = true <-> component we se start6 x)
                 /\ (memb cluster_eqb x D = true <-> component we se start6 x)).
Proof.
  apply (traversals_agree env6 manifold6 world6).
  - vm_compute. split; [intros y [<-|[]]; reflexivity | split; [intros y [] | exact I]].
  - vm_compute. reflexivity.
Defined.

(** ** The clusters of a tree *)

Lemma nodes_eq (c : Cluster) :
  nodes c = c :: concat (map nodes (children_list c)).
Proof.
  destruct c as [n a ch]. cbn [nodes children children_list]. f_equal.
  destruct ch as [l|]; [|reflexivity].
  induction l as [|x t IH]; [reflexivity|]. cbn [map concat]. now rewrite IH.
Qed.

Lemma nodes_self (c : Cluster) : In c (nodes c).
Proof. rewrite nodes_eq. now left. Qed.

Lemma nodes_child (c k x : Cluster) :
  In k (children_list c) -> In x (nodes k) -> In x (nodes c).
Proof.
  intros Hk Hx. rewrite (nodes_eq c). right.
  apply in_concat. exists (nodes k). split; [now apply in_map | exact Hx].
Qed.

Lemma descend_nodes (names : list string) : forall (c x : Cluster),
  In x (descend c names) -> In x (nodes c).
Proof.
  induction names as [|n t IH]; intros c x H; cbn [descend] in H; [destruct H|].
  destruct (no_children c); [destruct H|].
  destruct (find_child (children_list c) n) as [child|] eqn:F.
  - unfold find_child in F. apply find_some in F. destruct F as [Hc _].
    destruct H as [<-|H].
    + apply (nodes_child c child); [exact Hc | apply nodes_self].
    + apply (nodes_child c child); [exact Hc | now apply IH].
  - now apply IH.
Qed.

Lemma ancestry_nodes (m : Manifold) (n : string) (lineage : list Cluster) (x : Cluster) :
  ancestry m n = Ok lineage -> In x lineage -> In x (nodes (root m)).
Proof.
  unfold ancestry. destruct (manifold_depth m <? count_zero n); [discriminate|].
  cbv zeta. destruct (negb _); [discriminate|].
  intro H. injection H as <-. intros [<-|H]; [apply nodes_self|].
  destruct (0 <? String.length n); [|destruct H].
  now apply descend_nodes in H.
Qed.

Lemma unique_name (m : Manifold) (x y : Cluster) :
  NoDup (map name (nodes (root m))) ->
  In x (nodes (root m)) -> In y (nodes (root m)) -> name x = name y -> x = y.
Proof.
  generalize (nodes (root m)). intro l.
  induction l as [|a t IH]; intros Hd Hx Hy Hn; [destruct Hx|].
  cbn [map] in Hd. apply NoDup_cons_iff in Hd. destruct Hd as [Ha Hd].
  destruct Hx as [<-|Hx], Hy as [<-|Hy].
  - reflexivity.
  - exfalso. apply Ha. rewrite Hn. now apply in_map.
  - exfalso. apply Ha. rewrite <- Hn. now apply in_map.
  - now apply IH.
Qed.

(** ** Keys of dictionaries *)

Section DictKeys.
Variable K V : Type.
Variable eqb : K -> K -> bool.

Lemma In_keys_set (d : list (K * V)) (k a : K) (v : V) :
  In a (dict_keys (dict_set eqb k v d)) -> In a (dict_keys d) \/ a = k.
Proof.
  rewrite dict_keys_set. destruct (memb eqb k (dict_keys d)); [now left|].
  intro H. apply in_app_or in H. destruct H as [H|[<-|[]]]; auto.
Qed.

Lemma In_keys_update (items : list (K * V)) (a : K) : forall d,
  In a (dict_keys (dict_update eqb d items)) ->
  In a (dict_keys d) \/ In a (map fst items).
Proof.
  unfold dict_update. induction items as [|[k v] t IH]; intros d H; cbn in *; [now left|].
  apply IH in H. destruct H as [H|H]; [|now right; right].
  apply In_keys_set in H. destruct H as [H| ->]; [now left | right; now left].
Qed.

Lemma In_dict_set_key (d : list (K * V)) (k a : K) (v b : V) :
  In (a, b) (dict_set eqb k v d) ->
  In (a, b) d \/ (b = v /\ (a = k \/ (eqb k a = true /\ In a (dict_keys d)))).
Proof.
  induction d as [|[k' v'] t IH]; cbn [dict_set].
  - intros [H|[]]. injection H as <- <-. right. auto.
  - destruct (eqb k k') eqn:Hk.
    + intros [H|H]; [|left; now right].
      injection H as <- <-. right. split; [reflexivity|]. right.
      split; [exact Hk | now left].
    + intros [H|H]; [left; now left|].
      destruct (IH H) as [H1|[-> [-> |[H1 H2]]]].
      * left. now right.
      * right. auto.
      * right. split; [reflexivity|]. right. split; [exact H1 | now right].
Qed.

Lemma In_dict_update_key (items : list (K * V)) (a : K) (b : V) : forall d,
  In (a, b) (dict_update eqb d items) ->
  In (a, b) d
  \/ exists k, In (k, b) items
               /\ (a = k \/ (eqb k a = true
                             /\ (In a (dict_keys d) \/ In a (map fst items)))).
Proof.
  unfold dict_update. induction items as [|[k v] t IH]; intros d H; cbn [fold_left] in H;
    [now left|].
  apply IH in H. cbn [fst snd] in H. destruct H as [H|[k0 [H0 H1]]].
  - apply In_dict_set_key in H. destruct H as [H|[-> H]]; [now left|].
    right. exists k. split; [now left|].
    destruct H as [-> |[H1 H2]]; [now left | right; auto].
  - right. exists k0. split; [now right|].
    destruct H1 as [-> |[H1 H2]]; [now left|]. right. split; [exact H1|].
    destruct H2 as [H2|H2]; [|right; now right].
    apply In_keys_set in H2. destruct H2 as [H2| ->]; [now left | right; now left].
Qed.

Lemma In_dict_of_key (items : list (K * V)) (a : K) (b : V) :
  In (a, b) (dict_of eqb items) ->
  exists k, In (k, b) items /\ (a = k \/ (eqb k a = true /\ In a (map fst items))).
Proof.
  intro H. apply In_dict_update_key in H. destruct H as [[]|[k [H0 H1]]].
  exists k. split; [exact H0|]. destruct H1 as [-> |[H1 [[]|H2]]]; auto.
Qed.

Lemma In_combine_map {A B : Type} (f : A -> K) (g : A -> B) (l : list A) (a : K) (b : B) :
  In (a, b) (combine (map f l) (map g l)) -> exists y, In y l /\ a = f y /\ b = g y.
Proof.
  induction l as [|y t IH]; cbn; [intros []|].
  intros [H|H].
  - injection H as <- <-. exists y. auto.
  - destruct (IH H) as [z [Hz Hab]]. exists z. auto.
Qed.
End DictKeys.

Lemma nodes_trans (r : Cluster) : forall k x,
  In k (nodes r) -> In x (nodes k) -> In x (nodes r).
Proof.
  induction r as [r IH] using cluster_induction. intros k x Hk Hx.
  rewrite nodes_eq in Hk. destruct Hk as [<-|Hk]; [exact Hx|].
  apply in_concat in Hk. destruct Hk as [l [Hl Hk]].
  apply in_map_iff in Hl. destruct Hl as [c [<- Hc]].
  apply (nodes_child r c); [exact Hc|]. now apply (IH c Hc k).
Qed.

Lemma nodes_children (r k x : Cluster) :
  In k (nodes r) -> In x (children_list k) -> In x (nodes r).
Proof.
  intros Hk Hx. apply (nodes_trans r k); [exact Hk|].
  apply (nodes_child k x); [exact Hx | apply nodes_self].
Qed.

(** ** The candidates stay clusters of the tree *)

Section TreeStore.
Variable E : Env.
Variable m : Manifold.
Hypothesis cdist_refl : forall p, (cdist E p p == 0)%Q.
Hypothesis names_unique : NoDup (map name (nodes (root m))).

Lemma working_set_nodes (s : Cands) (n : string) (pc ws : list (Cluster * Q)) (d : nat) :
  tree_store m s -> dict_get String.eqb n s = Some pc -> working_set pc d = Ok ws ->
  forall x, In x (map fst ws) -> In x (nodes (root m)).
Proof.
  intros Hs Hpc Hws x Hx. unfold working_set in Hws.
  destruct (rmap _ pc) as [kids|] eqn:R; cbn in Hws; [|discriminate].
  injection Hws as <-. apply rmap_ok in R.
  apply (In_keys_update _ _ cluster_eqb) in Hx. destruct Hx as [Hx|Hx].
  - apply (In_keys_update _ _ cluster_eqb) in Hx. destruct Hx as [[]|Hx].
    rewrite map_map in Hx. apply in_map_iff in Hx. destruct Hx as [[c q] [<- Hc]].
    exact (proj1 (Hs n pc c q Hpc Hc)).
  - apply (In_keys_update _ _ cluster_eqb) in Hx. destruct Hx as [[]|Hx].
    rewrite map_map in Hx. apply in_map_iff in Hx. destruct Hx as [c [<- Hc]].
    cbn [fst]. apply in_concat in Hc. destruct Hc as [l [Hl Hc]].
    assert (Hall : forall p q, In (p, q) pc -> In p (nodes (root m)))
      by (intros p q Hp; exact (proj1 (Hs n pc p q Hpc Hp))).
    clear Hpc. revert Hl. induction R as [|[p q] l' pc' kids' Hp _ IH]; [intros []|].
    intros [<-|Hl].
    + cbn [fst] in Hp. destruct (children p) as [ch|] eqn:Hch; [|discriminate].
      injection Hp as <-. destruct (depth p =? d); [|destruct Hc].
      apply (nodes_children (root m) p c).
      * apply (Hall p q). now left.
      * unfold children_list. now rewrite Hch.
    + apply IH; [|exact Hl]. intros p' q' Hp'. apply (Hall p' q'). now right.
Qed.

Lemma retain_store (child : Cluster) (r : Q) (ws : list (Cluster * Q)) :
  In child (nodes (root m)) ->
  (forall x, In x (map fst ws) -> In x (nodes (root m))) ->
  forall x d, In (x, d) (retain E child r ws) ->
              In x (nodes (root m)) /\ (name x = name child -> (d == 0)%Q).
Proof.
  intros Hc Hws x d H. unfold retain in H. cbv zeta in H.
  apply In_dict_of_key in H. destruct H as [k [Hk Hx]].
  assert (Hin : forall a b,
             In (a, b) (filter (fun cd => Qle_bool (snd cd) (radius E (fst cd) + r * 4)%Q)
                          (combine (map fst ws)
                             (distance_from E child
                                (map (fun cd => argmedoid E (fst cd)) ws)))) ->
             In a (nodes (root m)) /\ b = cdist E (medoid E child) (medoid E a)).
  { intros a b Hab. apply filter_In in Hab. destruct Hab as [Hab _].
    unfold distance_from in Hab. rewrite map_map in Hab.
    apply In_combine_map in Hab. destruct Hab as [y [Hy [-> ->]]].
    split; [apply Hws; now apply in_map | reflexivity]. }
  destruct (Hin k d Hk) as [Hkn ->].
  assert (Hxk : x = k).
  { destruct Hx as [->|[Hx1 Hx2]]; [reflexivity|].
    apply in_map_iff in Hx2. destruct Hx2 as [[a b] [<- Hab]].
    destruct (Hin a b Hab) as [Ha _]. cbn [fst] in *.
    apply (unique_name m); auto. symmetry. now apply cluster_eqb_name. }
  subst k. split; [exact Hkn|].
  intro Hn. rewrite (unique_name m x child names_unique Hkn Hc Hn). apply cdist_refl.
Qed.

Lemma candidates_step_store (lineage : list Cluster) (r : Q) (d : nat) :
  (forall x, In x lineage -> In x (nodes (root m))) ->
  keeps (fun w => tree_store m (w_cands w)) (candidates_step E lineage r d).
Proof.
  intros Hl w w' res Hw Hrun. unfold candidates_step in Hrun.
  destruct (nth_error lineage (S d)) as [child|] eqn:Hch;
    [|injection Hrun as <- _; exact Hw].
  unfold mbind, get_cands in Hrun.
  destruct (candidates (w_cands w) child); [injection Hrun as <- _; exact Hw|].
  destruct (nth_error lineage d) as [parent|] eqn:Hpa;
    [|injection Hrun as <- _; exact Hw].
  destruct (candidates (w_cands w) parent) as [pc|] eqn:Hpc;
    [|injection Hrun as <- _; exact Hw].
  unfold mlift in Hrun.
  destruct (working_set pc d) as [ws|] eqn:Hws; [|injection Hrun as <- _; exact Hw].
  cbn in Hrun. injection Hrun as <- _. cbn [w_cands].
  apply nth_error_In in Hch. apply Hl in Hch.
  pose proof (working_set_nodes (w_cands w) (name parent) pc ws d Hw Hpc Hws) as Hn.
  intros n cs x q Hg Hx. unfold set_candidates in Hg.
  rewrite (dict_get_set _ _ string_eqb_equivalence) in Hg.
  destruct (String.eqb n (name child)) eqn:Hnc.
  - injection Hg as <-. apply String.eqb_eq in Hnc. subst n.
    destruct ws as [|p t]; [destruct Hx|].
    exact (retain_store child _ (p :: t) Hch Hn x q Hx).
  - exact (Hw n cs x q Hg Hx).
Qed.

Lemma find_candidates_store (k : Cluster) :
  keeps (fun w => tree_store m (w_cands w)) (_find_candidates E m k).
Proof.
  intros w w' res Hw Hrun. unfold _find_candidates in Hrun. cbv zeta in Hrun.
  unfold mbind at 1, mlift in Hrun.
  destruct (ancestry m (name k)) as [lineage|] eqn:Ha; [|injection Hrun as <- _; exact Hw].
  revert w w' res Hw Hrun.
  change (keeps (fun w => tree_store m (w_cands w))
            (mbind (mfold (candidates_step E lineage) (seq 0 (depth k)) (radius E (root m)))
                   (fun _ => mret tt))).
  apply keeps_mbind; [|intros; apply keeps_mret].
  apply keeps_mfold. intros b x _. apply candidates_step_store.
  intros y Hy. exact (ancestry_nodes m (name k) lineage y Ha Hy).
Qed.
End TreeStore.

(** ** The edges of a built graph *)

(** The last two steps of [build_edges] leave the edges as they are. *)
Lemma build_edges_keeps_edges (E : Env) (m : Manifold) (w w' : World) :
  build_edges E m w = (w', Ok tt) ->
  exists w1 w2 w3,
    mfor (clusters (w_graph w)) (_find_neighbors E m) w = (w1, Ok tt)
    /\ handshake w1 = (w2, Ok tt)
    /\ remove_self_edges w2 = (w3, Ok tt)
    /\ edges (w_graph w') = edges (w_graph w3).
Proof.
  intro Hrun.
  destruct (build_edges_phases E m w w' Hrun) as [w1 [w2 [w3 [w4 [H1 [H2 [H3 [H4 H5]]]]]]]].
  exists w1, w2, w3. repeat (split; [assumption|]).
  apply split_ok in H4. destruct H4 as [ces [_ [_ [He [_ [_ [_ Hwe]]]]]]].
  pose proof (recompute_ok w4 w' _ Hwe (keys_distinct_of _ _ _ _) H5) as R.
  destruct R as [_ [R2 _]]. now rewrite R2.
Qed.

Lemma has_edge_edges (w w' : World) (a : Cluster) (f : Edge) :
  edges (w_graph w') = edges (w_graph w) -> has_edge w a f -> has_edge w' a f.
Proof.
  intros He [es [Hg Hm]]. exists es. split; [|exact Hm].
  unfold get_edges in *. now rewrite He.
Qed.

(** C5. Let the tree of the manifold have no two clusters of the same name,
    the distance of a point to itself be zero, the clusters of the graph be
    clusters of the tree, and the candidates known so far be as
    [_find_candidates] leaves them.  After [build_edges] has run: the edge
    [(a, b, d)] is there if and only if [(b, a, d)] is; and every edge
    [(a, b, d)] has its counterpart [(b, a, d)], has [b] different from [a],
    and has [d <= a.radius + b.radius]. *)
Theorem build_edges_invariants (E : Env) (m : Manifold) (w w' : World) :
  (forall p, (cdist E p p == 0)%Q) ->
  NoDup (map name (nodes (root m))) ->
  (forall c, In c (clusters (w_graph w)) -> In c (nodes (root m))) ->
  tree_store m (w_cands w) ->
  keys_distinct cluster_eqb (clusters (w_graph w)) ->
  build_edges E m w = (w', Ok tt) ->
  clusters (w_graph w') = clusters (w_graph w)
  /\ (forall a b d,
        In a (clusters (w_graph w')) -> In b (clusters (w_graph w')) ->
        (has_edge w' a (no_prob b d) <-> has_edge w' b (no_prob a d)))
  /\ (forall a es e,
        In a (clusters (w_graph w')) ->
        get_edges (w_graph w') a = Some (Some es) -> In e es ->
        has_edge w' (neighbor e) (no_prob a (edge_distance e))
        /\ cluster_eqb (neighbor e) a = false
        /\ (edge_distance e <= radius E a + radius E (neighbor e))%Q).
Proof.
  intros Hrefl Hu Hg Hs Hd Hrun.
  destruct (build_edges_keeps_edges E m w w' Hrun) as [w1 [w2 [w3 [H1 [H2 [H3 He]]]]]].
  set (ks := clusters (w_graph w)) in *.
  assert (Hsteps :
    inv ks (overlap_edge E m) w3
    /\ (forall a e, In a ks -> has_edge w3 a e ->
          has_edge w3 (neighbor e) (no_prob a (edge_distance e)))
    /\ (forall a e, has_edge w3 a e -> edge_eqb e (no_prob a 0%Q) = false)).
  { apply (build_edges_steps E m ks Hd (tree_store m) (overlap_edge E m)) with w w1 w2;
      try assumption; try reflexivity.
    - intro k. apply find_candidates_store; assumption.
    - intros s k cs x d HS Hk Hc Hx _ Hle.
      destruct (HS (name k) cs x d Hc Hx) as [Hn Hz].
      split; [exact Hn|]. split; [reflexivity|].
      cbn [neighbor edge_distance probability no_prob].
      split; [now apply Qle_bool_iff | exact Hz].
    - intros a x e Ha Hx Hxe [Q1 [Q2 [Q3 Q4]]].
      assert (x = neighbor e).
      { apply (unique_name m); auto. now apply cluster_eqb_name. }
      subst x. split; [now apply Hg|]. split; [reflexivity|].
      cbn [neighbor edge_distance probability no_prob].
      split; [now rewrite Qplus_comm | intro Hn; apply Q4; now symmetry].
    - intros a e [_ [H _]]. exact H. }
  destruct Hsteps as [[Hk3 Ha3] [Hsym Hself]].
  assert (Hks : clusters (w_graph w') = ks).
  { unfold clusters. rewrite He. exact Hk3. }
  assert (Hto : forall a f, has_edge w3 a f -> has_edge w' a f)
    by (intros a f; apply has_edge_edges; exact He).
  assert (Hfrom : forall a f, has_edge w' a f -> has_edge w3 a f)
    by (intros a f; apply has_edge_edges; now rewrite He).
  split; [exact Hks|]. rewrite Hks. split.
  - intros a b d Ha Hb. split; intro H; apply Hto; apply Hfrom in H.
    + exact (Hsym a (no_prob b d) Ha H).
    + exact (Hsym b (no_prob a d) Hb H).
  - intros a es e Ha Hget He'.
    assert (Hhas : has_edge w3 a e).
    { exists es. split.
      - unfold get_edges in *. now rewrite <- He.
      - now apply (memb_In _ _ edge_eqb_equivalence). }
    assert (HQ : overlap_edge E m a e).
    { apply (Ha3 a es e); auto.
      - now rewrite Hk3.
      - unfold get_edges in *. now rewrite <- He. }
    destruct HQ as [Q1 [Q2 [Q3 Q4]]].
    split; [apply Hto, (Hsym a e Ha Hhas)|]. split; [|exact Q3].
    destruct (cluster_eqb (neighbor e) a) eqn:Hna; [|reflexivity].
    rewrite <- (Hself a e Hhas). symmetry.
    apply edge_eqb_true_iff. cbn [neighbor edge_distance probability no_prob].
    split; [exact Hna|]. split.
    + apply Qeq_bool_iff. apply Q4. now apply cluster_eqb_name.
    + now rewrite Q2.
Qed.

Lemma line_cdist_refl (p : Z) : (line_cdist p p == 0)%Q.
Proof. unfold line_cdist. now rewrite Z.sub_diag. Qed.

Lemma build_edges_invariants_witness :
  clusters (w_graph (fst (build_edges env6 manifold6 world6))) = clusters (w_graph world6)
  /\ (forall a b d,
        In a (clusters (w_graph (fst (build_edges env6 manifold6 world6)))) ->
        In b (clusters (w_graph (fst (build_edges env6 manifold6 world6)))) ->
        (has_edge (fst (build_edges env6 manifold6 world6)) a (no_prob b d)
         <-> has_edge (fst (build_edges env6 manifold6 world6)) b (no_prob a d)))
  /\ (forall a es e,
        In a (clusters (w_graph (fst (build_edges env6 manifold6 world6)))) ->
        get_edges (w_graph (fst (build_edges env6 manifold6 world6))) a = Some (Some es) ->
        In e es ->
        has_edge (fst (build_edges env6 manifold6 world6)) (neighbor e)
          (no_prob a (edge_distance e))
        /\ cluster_eqb (neighbor e) a = false
        /\ (edge_distance e <= radius env6 a + radius env6 (neighbor e))%Q).
Proof.
  apply (build_edges_invariants env6 manifold6 world6).
  - exact line_cdist_refl.
  - vm_compute. repeat (constructor; [cbn; intuition discriminate|]). constructor.
  - vm_compute. intros c [<-|[<-|[]]]; cbn; tauto.
  - intros n cs x d Hg Hx. vm_compute in Hg.
    destruct n as [|a n]; [|discriminate]. injection Hg as <-.
    destruct Hx as [Hx|[]]. injection Hx as <- <-.
    split; [apply nodes_self | reflexivity].
  - vm_compute. split; [intros y [<-|[]]; reflexivity | split; [intros y [] | exact I]].
  - vm_compute. reflexivity.
Defined.

(** ** The radius adopted along a path *)

Lemma adopted_radius_snoc (E : Env) (top : Cluster) (below : list Cluster) (c : Cluster) :
  adopted_radius E ((top :: below) ++ [c])
  = if Qlt_bool 0 (radius E c) then radius E c else adopted_radius E (top :: below).
Proof.
  cbn [app adopted_radius]. rewrite rev_app_distr. cbn [rev app find].
  now destruct (Qlt_bool 0 (radius E c)).
Qed.

Lemma firstn_snoc {A : Type} (l : list A) : forall (n : nat) (x : A),
  nth_error l n = Some x -> firstn (S n) l = firstn n l ++ [x].
Proof.
  induction l as [|a t IH]; intros [|n] x H; cbn in H; try discriminate.
  - injection H as <-. reflexivity.
  - cbn [firstn app]. f_equal. now apply IH.
Qed.

Lemma adopted_radius_step (E : Env) (lineage : list Cluster) (d : nat) (child : Cluster) :
  nth_error lineage (S d) = Some child ->
  adopted_radius E (firstn (S (S d)) lineage)
  = if Qlt_bool 0 (radius E child) then radius E child
    else adopted_radius E (firstn (S d) lineage).
Proof.
  intro H. rewrite (firstn_snoc lineage (S d) child H).
  destruct lineage as [|top t]; [discriminate|].
  cbn [firstn]. apply adopted_radius_snoc.
Qed.

(** ** One turn of the loop of [_find_candidates] *)

Lemma candidates_step_ok (E : Env) (lineage : list Cluster) (r r' : Q) (d : nat)
    (w w' : World) :
  candidates_step E lineage r d w = (w', Ok r') ->
  exists child,
    nth_error lineage (S d) = Some child
    /\ r' = (if Qlt_bool 0 (radius E child) then radius E child else r)
    /\ ((w' = w /\ candidates (w_cands w) child <> None)
        \/ (candidates (w_cands w) child = None
            /\ exists parent pc ws,
                 nth_error lineage d = Some parent
                 /\ candidates (w_cands w) parent = Some pc
                 /\ working_set pc d = Ok ws
                 /\ w' = mkWorld (set_candidates child (retained E child r' ws) (w_cands w))
                                 (w_graph w))).
Proof.
  unfold candidates_step. intro H.
  destruct (nth_error lineage (S d)) as [child|]; [|discriminate].
  exists child. split; [reflexivity|].
  unfold mbind, get_cands in H.
  destruct (candidates (w_cands w) child) as [cs|] eqn:Hc.
  - injection H as <- <-. split; [reflexivity|]. left. split; [reflexivity | discriminate].
  - destruct (nth_error lineage d) as [parent|]; [|discriminate].
    destruct (candidates (w_cands w) parent) as [pc|] eqn:Hp; [|discriminate].
    unfold mlift in H. destruct (working_set pc d) as [ws|] eqn:Hws; [|discriminate].
    cbn in H. injection H as <- <-. split; [reflexivity|]. right.
    split; [reflexivity|]. exists parent, pc, ws. auto.
Qed.

(** Candidates that are known stay as they are. *)
Lemma candidates_step_known (E : Env) (lineage : list Cluster) (r : Q) (d : nat)
    (c : Cluster) (cs : list (Cluster * Q)) :
  keeps (fun w => candidates (w_cands w) c = Some cs) (candidates_step E lineage r d).
Proof.
  intros w w' res Hw Hrun. unfold candidates_step in Hrun.
  destruct (nth_error lineage (S d)) as [child|]; [|injection Hrun as <- _; exact Hw].
  unfold mbind, get_cands in Hrun.
  destruct (candidates (w_cands w) child) eqn:Hc; [injection Hrun as <- _; exact Hw|].
  destruct (nth_error lineage d) as [parent|]; [|injection Hrun as <- _; exact Hw].
  destruct (candidates (w_cands w) parent) as [pc|]; [|injection Hrun as <- _; exact Hw].
  unfold mlift in Hrun.
  destruct (working_set pc d) as [ws|]; [|injection Hrun as <- _; exact Hw].
  cbn in Hrun. injection Hrun as <- _. cbn [w_cands].
  unfold candidates, set_candidates in *.
  rewrite (dict_get_set _ _ string_eqb_equivalence).
  destruct (String.eqb (name c) (name child)) eqn:Hn; [|exact Hw].
  apply String.eqb_eq in Hn. rewrite Hn in Hw. congruence.
Qed.

(** The loop of [_find_candidates] from depth [a] on: the candidates of the
    cluster at depth [i + 1], unknown so far, are what is retained of the
    working set of its parent with the radius adopted down to it. *)
Lemma candidates_loop (E : Env) (lineage : list Cluster) (n : nat) :
  forall (a : nat) (r rf : Q) (w w' : World) (i : nat) (parent child : Cluster),
    mfold (candidates_step E lineage) (seq a n) r w = (w', Ok rf) ->
    r = adopted_radius E (firstn (S a) lineage) ->
    a <= i < a + n ->
    nth_error lineage i = Some parent ->
    nth_error lineage (S i) = Some child ->
    (forall j c, a <= j < i -> nth_error lineage (S j) = Some c -> name c <> name child) ->
    candidates (w_cands w) child = None ->
    exists pc ws,
      candidates (w_cands w') parent = Some pc
      /\ working_set pc i = Ok ws
      /\ candidates (w_cands w') child
         = Some (retained E child (adopted_radius E (firstn (S (S i)) lineage)) ws).
Proof.
  induction n as [|n IH]; intros a r rf w w' i parent child Hrun Hr Hi Hp Hc Hn Hnone;
    [lia|].
  cbn [seq mfold] in Hrun. apply mbind_ok in Hrun.
  destruct Hrun as [w1 [r1 [Hstep Hrest]]].
  destruct (candidates_step_ok E lineage r r1 a w w1 Hstep)
    as [ca [Hca [Hr1 Hcase]]].
  assert (Hr1' : r1 = adopted_radius E (firstn (S (S a)) lineage)).
  { rewrite (adopted_radius_step E lineage a ca Hca), <- Hr. exact Hr1. }
  assert (Hkeep : forall c cs, candidates (w_cands w1) c = Some cs ->
                               candidates (w_cands w') c = Some cs).
  { intros c cs H.
    refine (keeps_mfold (fun w => candidates (w_cands w) c = Some cs)
              (candidates_step E lineage) (seq (S a) n) _ r1 w1 w' (Ok rf) H Hrest).
    intros b x _. apply candidates_step_known. }
  destruct (Nat.eq_dec i a) as [->|Hia].
  - rewrite Hc in Hca. injection Hca as <-.
    destruct Hcase as [[_ Hsome]|[_ [pa [pc [ws [Hpa [Hpc [Hws ->]]]]]]]]; [congruence|].
    rewrite Hp in Hpa. injection Hpa as <-.
    exists pc, ws. split; [|split; [exact Hws|]].
    + apply Hkeep. cbn [w_cands]. unfold candidates, set_candidates in *.
      rewrite (dict_get_set _ _ string_eqb_equivalence).
      destruct (String.eqb (name parent) (name child)) eqn:Hpn; [|exact Hpc].
      apply String.eqb_eq in Hpn. rewrite Hpn in Hpc. congruence.
    + apply Hkeep. cbn [w_cands]. unfold candidates, set_candidates.
      rewrite (dict_get_set _ _ string_eqb_equivalence), String.eqb_refl.
      now rewrite Hr1'.
  - apply (IH (S a) r1 rf w1 w' i parent child Hrest Hr1'); auto; try lia.
    + intros j c Hj. apply Hn. lia.
    + destruct Hcase as [[-> _]|[_ [pa [pc [ws [_ [_ [_ ->]]]]]]]]; [exact Hnone|].
      cbn [w_cands]. unfold candidates, set_candidates in *.
      rewrite (dict_get_set _ _ string_eqb_equivalence).
      destruct (String.eqb (name child) (name ca)) eqn:Hcn; [|exact Hnone].
      apply String.eqb_eq in Hcn. exfalso.
      apply (Hn a ca); [lia | exact Hca | now symmetry].
Qed.

(** ** What is retained of a working set *)

Lemma combine_map_map {A B C : Type} (f : A -> B) (g : A -> C) (l : list A) :
  combine (map f l) (map g l) = map (fun y => (f y, g y)) l.
Proof. induction l as [|y t IH]; cbn; [reflexivity | now rewrite IH]. Qed.

Lemma working_set_distinct (pc ws : list (Cluster * Q)) (d : nat) :
  working_set pc d = Ok ws -> keys_distinct cluster_eqb (map fst ws).
Proof.
  unfold working_set. destruct (rmap _ pc) as [kids|]; cbn; [|discriminate].
  intro H. injection H as <-.
  apply (keys_distinct_update _ cluster_eqb). apply keys_distinct_of.
Qed.

Lemma retain_keys (E : Env) (child : Cluster) (r : Q) (ws : list (Cluster * Q))
    (x : Cluster) :
  keys_distinct cluster_eqb (map fst ws) -> In x (map fst ws) ->
  (memb cluster_eqb x (map fst (retain E child r ws)) = true
   <-> (cdist E (medoid E child) (medoid E x) <= radius E x + 4 * r)%Q).
Proof.
  intros Hd Hx. unfold retain. cbv zeta.
  change (map fst (dict_of cluster_eqb ?l)) with (dict_keys (dict_of cluster_eqb l)).
  rewrite (memb_keys_of cluster_eqb cluster_eqb_equivalence).
  unfold distance_from. rewrite map_map, combine_map_map.
  rewrite (Qmult_comm 4 r), <- Qle_bool_iff.
  rewrite (memb_true_iff _ cluster_eqb). split.
  - intros [a [Ha Hxa]]. apply in_map_iff in Ha. destruct Ha as [[a' b] [<- Hab]].
    apply filter_In in Hab. destruct Hab as [Hab HP].
    apply in_map_iff in Hab. destruct Hab as [cd [Hcd Hin]].
    injection Hcd as <- <-. cbn [fst snd] in *.
    assert (x = fst cd).
    { apply (keys_distinct_eqb_eq cluster_eqb (map fst ws));
        auto using cluster_eqb_equivalence. now apply in_map. }
    subst x. exact HP.
  - intro HP. apply in_map_iff in Hx. destruct Hx as [cd [<- Hcd]].
    exists (fst cd). split; [|apply cluster_eqb_refl].
    apply in_map_iff.
    exists (fst cd, cdist E (medoid E child) (data E (argmedoid E (fst cd)))).
    split; [reflexivity|]. apply filter_In. split; [|exact HP].
    apply in_map_iff. now exists cd.
Qed.

Lemma retained_keys (E : Env) (child : Cluster) (r : Q) (ws : list (Cluster * Q))
    (x : Cluster) :
  keys_distinct cluster_eqb (map fst ws) -> In x (map fst ws) ->
  (memb cluster_eqb x (map fst (retained E child r ws)) = true
   <-> (cdist E (medoid E child) (medoid E x) <= radius E x + 4 * r)%Q).
Proof.
  intros Hd Hx. destruct ws as [|p t]; [destruct Hx|]. now apply retain_keys.
Qed.

(** ** The names along a lineage are pairwise different *)

Lemma longest_last (acc : list string) :
  StronglySorted (fun a b => String.length a < String.length b) acc ->
  forall y, In y acc -> String.length y <= String.length (last acc EmptyString).
Proof.
  induction acc as [|a t IH]; intros Hs y Hy; [destruct Hy|].
  apply StronglySorted_inv in Hs. destruct Hs as [Ht Ha].
  destruct t as [|b t'].
  - destruct Hy as [<-|[]]. cbn. lia.
  - change (last (a :: b :: t') EmptyString) with (last (b :: t') EmptyString).
    destruct Hy as [<-|Hy]; [|now apply IH].
    rewrite Forall_forall in Ha.
    pose proof (Ha b (or_introl eq_refl)).
    pose proof (IH Ht b (or_introl eq_refl)). lia.
Qed.

Lemma sorted_snoc (acc : list string) (x : string) :
  StronglySorted (fun a b => String.length a < String.length b) acc ->
  (forall y, In y acc -> String.length y < String.length x) ->
  StronglySorted (fun a b => String.length a < String.length b) (acc ++ [x]).
Proof.
  induction acc as [|a t IH]; intros Hs Hx; cbn.
  - repeat constructor.
  - apply StronglySorted_inv in Hs. destruct Hs as [Ht Ha].
    constructor.
    + apply IH; [exact Ht|]. intros y Hy. apply Hx. now right.
    + apply Forall_app. split; [exact Ha|]. constructor; [|constructor].
      apply Hx. now left.
Qed.

Lemma string_length_app (a b : string) :
  String.length (a ++ b) = String.length a + String.length b.
Proof. induction a as [|c a IH]; cbn; [reflexivity | now rewrite IH]. Qed.

Lemma ancestor_names_from (pieces : list string) : forall acc,
  StronglySorted (fun a b => String.length a < String.length b) acc ->
  exists more,
    fold_left (fun acc piece => acc ++ [(last acc EmptyString ++ "0" ++ piece)%string])
              pieces acc = acc ++ more
    /\ StronglySorted (fun a b => String.length a < String.length b) (acc ++ more).
Proof.
  induction pieces as [|p t IH]; intros acc Hs; cbn [fold_left].
  - exists []. rewrite app_nil_r. auto.
  - destruct (IH (acc ++ [(last acc EmptyString ++ "0" ++ p)%string])) as [more [H1 H2]].
    + apply sorted_snoc; [exact Hs|]. intros y Hy.
      pose proof (longest_last acc Hs y Hy). rewrite string_length_app. cbn. lia.
    + exists ((last acc EmptyString ++ "0" ++ p)%string :: more).
      rewrite H1, <- app_assoc in *. cbn [app] in *. auto.
Qed.

Lemma ancestor_names_sorted (cluster : string) :
  exists more,
    ancestor_names cluster = EmptyString :: more
    /\ StronglySorted (fun a b => String.length a < String.length b)
         (EmptyString :: more).
Proof.
  unfold ancestor_names.
  destruct (ancestor_names_from (tl (split_zero cluster)) [EmptyString]) as [more H].
  - repeat constructor.
  - exists more. exact H.
Qed.

Lemma descend_names (names : list string) : forall (c x : Cluster),
  In x (descend c names) -> In (name x) names.
Proof.
  induction names as [|n t IH]; intros c x H; cbn [descend] in H; [destruct H|].
  destruct (no_children c); [destruct H|].
  destruct (find_child (children_list c) n) as [child|] eqn:F.
  - unfold find_child in F. apply find_some in F. destruct F as [_ Hn].
    apply String.eqb_eq in Hn.
    destruct H as [<-|H]; [now left | right; now apply (IH child)].
  - right. now apply (IH c).
Qed.

Lemma descend_distinct (names : list string) : forall (c : Cluster),
  StronglySorted (fun a b => String.length a < String.length b) names ->
  NoDup (map name (descend c names)).
Proof.
  induction names as [|n t IH]; intros c Hs; cbn [descend]; [constructor|].
  apply StronglySorted_inv in Hs. destruct Hs as [Ht Hn].
  destruct (no_children c); [constructor|].
  destruct (find_child (children_list c) n) as [child|] eqn:F; [|now apply IH].
  unfold find_child in F. apply find_some in F. destruct F as [_ Hc].
  apply String.eqb_eq in Hc. cbn [map]. constructor; [|now apply IH].
  intro Hin. apply in_map_iff in Hin. destruct Hin as [x [Hx Hin]].
  apply descend_names in Hin. rewrite Forall_forall in Hn.
  pose proof (Hn (name x) Hin). rewrite Hx, Hc in H. lia.
Qed.

Lemma ancestry_distinct (m : Manifold) (n : string) (lineage : list Cluster) :
  name (root m) = EmptyString -> ancestry m n = Ok lineage ->
  NoDup (map name lineage).
Proof.
  intros Hroot. unfold ancestry.
  destruct (manifold_depth m <? count_zero n); [discriminate|].
  cbv zeta. destruct (negb _); [discriminate|].
  intro H. injection H as <-. cbn [map].
  destruct (ancestor_names_sorted n) as [more [-> Hs]]. cbn [tl].
  apply StronglySorted_inv in Hs. destruct Hs as [Hs Hlt].
  destruct (0 <? String.length n); [|repeat constructor; intros []].
  constructor; [|now apply descend_distinct].
  intro Hin. apply in_map_iff in Hin. destruct Hin as [x [Hx Hin]].
  apply descend_names in Hin. rewrite Forall_forall in Hlt.
  pose proof (Hlt (name x) Hin). rewrite Hx, Hroot in H. cbn in H. lia.
Qed.

(** ** The working set *)

Lemma Forall2_In_pair {A B : Type} (R : A -> B -> Prop) (l : list A) (l' : list B) :
  Forall2 R l l' ->
  (forall x, In x l -> exists y, In y l' /\ R x y)
  /\ (forall y, In y l' -> exists x, In x l /\ R x y).
Proof.
  induction 1 as [|a b t t' Hab _ [IH1 IH2]]; split;
    try (intros ? Hnil; exact (match Hnil with end)).
  - intros u [<-|Hu]; [exists b; split; [now left | exact Hab]|].
    destruct (IH1 u Hu) as [v [Hv Hr]]. exists v. split; [now right | exact Hr].
  - intros v [<-|Hv]; [exists a; split; [now left | exact Hab]|].
    destruct (IH2 v Hv) as [u [Hu Hr]]. exists u. split; [now right | exact Hr].
Qed.

Lemma memb_concat (x : Cluster) (ls : list (list Cluster)) :
  memb cluster_eqb x (concat ls) = true
  <-> exists l, In l ls /\ memb cluster_eqb x l = true.
Proof.
  rewrite (memb_true_iff _ cluster_eqb). split.
  - intros [y [Hy Hxy]]. apply in_concat in Hy. destruct Hy as [l [Hl Hy]].
    exists l. split; [exact Hl|]. apply (memb_true_iff _ cluster_eqb). eauto.
  - intros [l [Hl Hm]]. apply (memb_true_iff _ cluster_eqb) in Hm.
    destruct Hm as [y [Hy Hxy]]. exists y. split; [|exact Hxy].
    apply in_concat. eauto.
Qed.

(** The working set holds the candidates of the parent and the children of
    those among them that are at the depth of the parent. *)
Lemma working_set_members (pc ws : list (Cluster * Q)) (d : nat) (x : Cluster) :
  working_set pc d = Ok ws ->
  (memb cluster_eqb x (map fst ws) = true
   <-> memb cluster_eqb x (map fst pc) = true
       \/ exists p, In p (map fst pc) /\ depth p = d
                    /\ memb cluster_eqb x (children_list p) = true).
Proof.
  unfold working_set. destruct (rmap _ pc) as [kids|] eqn:R; cbn; [|discriminate].
  intro H. injection H as <-. apply rmap_ok, Forall2_In_pair in R. destruct R as [R1 R2].
  change (map fst (dict_update cluster_eqb ?a ?b)) with (dict_keys (dict_update cluster_eqb a b)).
  rewrite (memb_keys_update cluster_eqb cluster_eqb_equivalence).
  change (map fst (dict_of cluster_eqb ?l)) with (dict_keys (dict_of cluster_eqb l)).
  rewrite !(memb_keys_of cluster_eqb cluster_eqb_equivalence), !map_map. cbn [fst].
  rewrite orb_true_iff.
  change (map (fun x0 : Cluster => x0) (concat kids)) with (map id (concat kids)).
  rewrite map_id, memb_concat.
  change (map (fun x0 : Cluster * Q => fst x0) pc) with (map fst pc).
  split; (intros [H|H]; [now left | right]).
  - destruct H as [l [Hl Hm]]. destruct (R2 l Hl) as [[p q] [Hp Hr]]. cbn [fst] in Hr.
    destruct (children p) as [ch|] eqn:Hch; [|discriminate]. injection Hr as <-.
    destruct (depth p =? d) eqn:Hd; [|discriminate].
    apply Nat.eqb_eq in Hd. exists p. split; [|split; [exact Hd|]].
    + apply in_map_iff. now exists (p, q).
    + unfold children_list. now rewrite Hch.
  - destruct H as [p [Hp [Hd Hm]]]. apply in_map_iff in Hp.
    destruct Hp as [[p' q] [<- Hp]]. destruct (R1 (p', q) Hp) as [l [Hl Hr]].
    cbn [fst] in *. exists l. split; [exact Hl|].
    unfold children_list in Hm. destruct (children p') as [ch|]; [|discriminate].
    injection Hr as <-. apply Nat.eqb_eq in Hd. now rewrite Hd.
Qed.

(** ** The candidates that [_find_candidates] computes *)

(** C4 as stated fails.  In the tree of [env4] the cluster [near0] is in the
    working set of its sibling [near21], at distance 21; the largest radius
    on the path to [near21] is 20, that of the root, so that
    [21 <= near0.radius + 4 * 20]; but [_find_candidates] has adopted the
    radius 1 of [near21] and does not retain [near0]. *)
Lemma find_candidates_adopts_last_radius :
  exists w' lineage ws cs,
    _find_candidates env4 manifold4 near21 world4 = (w', Ok tt)
    /\ ancestry manifold4 (name near21) = Ok lineage
    /\ candidates (w_cands w') (root manifold4) = Some [(root manifold4, 0%Q)]
    /\ working_set [(root manifold4, 0%Q)] 0 = Ok ws
    /\ In near0 (map fst ws)
    /\ candidates (w_cands w') near21 = Some cs
    /\ memb cluster_eqb near0 (map fst cs) = false
    /\ (cdist env4 (medoid env4 near21) (medoid env4 near0)
        <= radius env4 near0 + 4 * largest_radius env4 lineage)%Q.
Proof.
  eexists. eexists. eexists. eexists.
  split; [vm_compute; reflexivity|].
  split; [vm_compute; reflexivity|].
  split; [vm_compute; reflexivity|].
  split; [vm_compute; reflexivity|].
  split; [vm_compute; auto|].
  split; [vm_compute; reflexivity|].
  split; [vm_compute; reflexivity|].
  vm_compute. discriminate.
Qed.

(** C4, amended.  Let [_find_candidates] run for [cluster], whose lineage
    (root first) has [parent] at depth [i] and [child] at depth [i + 1], and
    let the candidates of [child] be unknown before.  Afterwards, with [ws]
    the working set of [child] (the candidates of [parent], and the children
    of those among them that are at depth [i]), a cluster [x] of [ws] is a
    candidate of [child] if and only if
    [d(child.medoid, x.medoid) <= x.radius + 4 * R], where [R] is the radius
    of the deepest cluster of positive radius on the path from below the root
    down to [child], and the radius of the root if there is none. *)
Theorem find_candidates_retains (E : Env) (m : Manifold) (cluster : Cluster)
    (w w' : World) (lineage : list Cluster) (i : nat) (parent child : Cluster) :
  name (root m) = EmptyString ->
  ancestry m (name cluster) = Ok lineage ->
  _find_candidates E m cluster w = (w', Ok tt) ->
  i < depth cluster ->
  nth_error lineage i = Some parent ->
  nth_error lineage (S i) = Some child ->
  candidates (w_cands w) child = None ->
  exists pc ws cs,
    candidates (w_cands w') parent = Some pc
    /\ working_set pc i = Ok ws
    /\ (forall x,
          memb cluster_eqb x (map fst ws) = true
          <-> memb cluster_eqb x (map fst pc) = true
              \/ exists p, In p (map fst pc) /\ depth p = i
                           /\ memb cluster_eqb x (children_list p) = true)
    /\ candidates (w_cands w') child = Some cs
    /\ forall x,
         In x (map fst ws) ->
         (memb cluster_eqb x (map fst cs) = true
          <-> (cdist E (medoid E child) (medoid E x)
               <= radius E x + 4 * adopted_radius E (firstn (S (S i)) lineage))%Q).
Proof.
  intros Hroot Ha Hrun Hi Hp Hc Hnone.
  pose proof (ancestry_distinct m (name cluster) lineage Hroot Ha) as Hnd.
  unfold _find_candidates in Hrun. cbv zeta in Hrun.
  unfold mbind at 1, mlift in Hrun. rewrite Ha in Hrun.
  apply mbind_ok in Hrun. destruct Hrun as [w1 [rf [Hloop Hret]]].
  injection Hret as <-.
  assert (Hr0 : radius E (root m) = adopted_radius E (firstn 1 lineage)).
  { unfold ancestry in Ha. destruct (manifold_depth m <? count_zero (name cluster));
      [discriminate|]. cbv zeta in Ha. destruct (negb _); [discriminate|].
    injection Ha as <-. reflexivity. }
  destruct (candidates_loop E lineage (depth cluster) 0 (radius E (root m)) rf w w1 i
              parent child Hloop Hr0 (conj (Nat.le_0_l i) Hi) Hp Hc) as [pc [ws [H1 [H2 H3]]]].
  - intros j c Hj Hcj Hname.
    assert (Hjj : S j = S i).
    { apply (proj1 (NoDup_nth_error (map name lineage)) Hnd).
      - rewrite length_map. apply nth_error_Some. congruence.
      - rewrite !nth_error_map, Hcj, Hc. cbn. now rewrite Hname. }
    lia.
  - exact Hnone.
  - exists pc, ws, (retained E child (adopted_radius E (firstn (S (S i)) lineage)) ws).
    split; [exact H1|]. split; [exact H2|].
    split; [intro x; now apply working_set_members|].
    split; [exact H3|].
    intros x Hx. apply retained_keys; [|exact Hx].
    exact (working_set_distinct pc ws i H2).
Qed.

Lemma find_candidates_retains_witness :
  exists pc ws cs,
    candidates (w_cands (fst (_find_candidates env4 manifold4 near21 world4)))
      (root manifold4) = Some pc
    /\ working_set pc 0 = Ok ws
    /\ (forall x,
          memb cluster_eqb x (map fst ws) = true
          <-> memb cluster_eqb x (map fst pc) = true
              \/ exists p, In p (map fst pc) /\ depth p = 0
                           /\ memb cluster_eqb x (children_list p) = true)
    /\ candidates (w_cands (fst (_find_candidates env4 manifold4 near21 world4))) near21
       = Some cs
    /\ forall x,
         In x (map fst ws) ->
         (memb cluster_eqb x (map fst cs) = true
          <-> (cdist env4 (medoid env4 near21) (medoid env4 x)
               <= radius env4 x
                  + 4 * adopted_radius env4
                          (firstn 2 [root manifold4; near21]))%Q).
Proof.
  apply (find_candidates_retains env4 manifold4 near21 world4
           (fst (_find_candidates env4 manifold4 near21 world4))
           [root manifold4; near21] 0 (root manifold4) near21).
  - reflexivity.
  - vm_compute. reflexivity.
  - vm_compute. reflexivity.
  - vm_compute. lia.
  - reflexivity.
  - reflexivity.
  - vm_compute. reflexivity.
Defined.

(** ** The environment of points on a line keeps the contract of numpy *)

Lemma insert_Z_in (x v : Z) (l : list Z) : In v (insert_Z x l) -> v = x \/ In v l.
Proof.
  induction l as [|y t IH]; cbn [insert_Z].
  - intros [<-|[]]. now left.
  - destruct (x =? y)%Z; [now right|].
    destruct (x <? y)%Z.
    + intros [<-|H]; [now left | now right].
    + intros [<-|H]; [right; now left|].
      destruct (IH H) as [->|H']; [now left | right; now right].
Qed.

Lemma inserted_in (values : list Z) (v : Z) : forall acc,
  In v (fold_left (fun acc v => insert_Z v acc) values acc) -> In v acc \/ In v values.
Proof.
  induction values as [|x t IH]; intros acc H; cbn [fold_left] in H; [now left|].
  destruct (IH _ H) as [H1|H1]; [|right; now right].
  destruct (insert_Z_in x v acc H1) as [->|H2]; [right; now left | now left].
Qed.

Lemma index_of_lt (v : Z) (l : list Z) : forall i,
  In v l -> index_of v l i < i + length l.
Proof.
  induction l as [|y t IH]; intros i H; [destruct H|].
  cbn [index_of length]. destruct (v =? y)%Z eqn:Hv; [lia|].
  destruct H as [->|H]; [rewrite Z.eqb_refl in Hv; discriminate|].
  pose proof (IH (S i) H). lia.
Qed.

Lemma line_env_contract (pts : list Z) : numpy_contract (line_env pts).
Proof.
  split.
  - intros l n x Hx. cbn in Hx. now apply In_firstn in Hx.
  - intros l i Hi. cbn in Hi. unfold line_unique_index in Hi.
    apply in_map_iff in Hi. destruct Hi as [v [<- Hv]].
    apply inserted_in in Hv. destruct Hv as [[]|Hv].
    pose proof (index_of_lt v _ 0 Hv) as H. now rewrite length_map in H.
Qed.

(** ** The theorems on concrete inputs *)

Lemma replace_clusters_spec_witness :
  replace_clusters env1 manifold1 [stranger] [] true world1 = (world1, Raise ValueError)
  /\ exists cs : list Cluster,
       (forall c, memb cluster_eqb c cs
                  = memb cluster_eqb c (clusters (w_graph world4))
                    && negb (memb cluster_eqb c [near21])
                    || memb cluster_eqb c (children_list near21))
       /\ replace_clusters env4 manifold4 [near21] (children_list near21) true world4
          = build_edges env4 manifold4 (mkWorld (w_cands world4) (new_Graph cs)).
Proof.
  split.
  - apply (proj1 (replace_clusters_spec env1 manifold1 world1 [stranger] [])).
    left. exists stranger. split; [now left | reflexivity].
  - apply (proj2 (replace_clusters_spec env4 manifold4 world4 [near21]
                    (children_list near21))).
    rewrite refused_dec. vm_compute. discriminate.
Defined.

Lemma random_walks_fewer_than_two_witness :
  exists counts,
    random_walks env1 manifold1 (StartNames []) (-5)%Z world1 = (world1, Ok counts)
    /\ map fst counts = clusters (w_graph world1)
    /\ forall c n, In (c, n) counts -> n = 1.
Proof.
  apply (random_walks_fewer_than_two env1 manifold1 world1 (StartNames []) (-5)%Z).
  vm_compute. lia.
Defined.

(** ** Graphs as the code builds them *)

(** The clusters of a graph made by the constructor are pairwise different. *)
Lemma new_Graph_distinct (cs : list Cluster) :
  keys_distinct cluster_eqb (clusters (new_Graph cs)).
Proof. unfold clusters, new_Graph. cbn [edges]. apply keys_distinct_of. Qed.

(** [build_graph] starts from candidates that are clusters of the tree. *)
Lemma root_store (m : Manifold) :
  tree_store m (set_candidates (root m) [(root m, 0%Q)] []).
Proof.
  intros n cs x d Hg Hx. cbn in Hg.
  destruct (String.eqb n (name (root m))); [|discriminate].
  injection Hg as <-. destruct Hx as [Hx|[]]. injection Hx as <- <-.
  split; [apply nodes_self | reflexivity].
Qed.

(** ** Searches on the four points of [env4] *)

(** With [k] at most the number of points, [find_knn] returns the [k]
    nearest points, nearest first. *)
Example find_knn_within_N :
  find_knn env4 manifold4 60 0%Z 2 = Some (Ok [(0, 0%Q); (1, 1%Q)])
  /\ find_knn env4 manifold4 60 0%Z 4
     = Some (Ok [(0, 0%Q); (1, 1%Q); (2, 20%Q); (3, 21%Q)]).
Proof. split; vm_compute; reflexivity. Qed.

(** With [k] above the number of points it does not return either. *)
Example find_knn_five_of_four : find_knn env4 manifold4 200 0%Z 5 = None.
Proof. vm_compute. reflexivity. Qed.

(** A search below the depth of the cluster follows the overlaps. *)
Example tree_search_full_depth :
  exists found,
    tree_search env4 manifold4 (root manifold4) 0%Z 2%Q (-1)%Z = Ok found
    /\ map (fun cd => (name (fst cd), snd cd)) found
       = [("010"%string, 0%Q); ("0101"%string, 1%Q)].
Proof. eexists. split; vm_compute; reflexivity. Qed.

(** ** The poles of a cluster in a metric space *)

Lemma Qmax_zero (row : list Q) : forall acc,
  (acc == 0)%Q -> (forall x, In x row -> (x == 0)%Q) -> (fold_left Qmax row acc == 0)%Q.
Proof.
  induction row as [|x t IH]; intros acc Ha Hr; cbn [fold_left]; [exact Ha|].
  apply IH; [|intros y Hy; apply Hr; now right].
  unfold Qmax. destruct (Qle_bool acc x); [apply Hr; now left | exact Ha].
Qed.

Lemma matrix_max_zero (m : list (list Q)) :
  (forall row x, In row m -> In x row -> (x == 0)%Q) -> Qeq_bool (matrix_max m) 0 = true.
Proof.
  intro H. apply Qeq_bool_iff. unfold matrix_max.
  assert (G : forall acc, (acc == 0)%Q ->
            (fold_left (fun acc row => fold_left Qmax row acc) m acc == 0)%Q).
  { induction m as [|row t IH]; intros acc Ha; cbn [fold_left]; [exact Ha|].
    apply IH.
    - intros r x Hr Hx. apply (H r x); [now right | exact Hx].
    - apply Qmax_zero; [exact Ha|]. intros x Hx. apply (H row x); [now left | exact Hx]. }
  apply G. reflexivity.
Qed.

(** [np.argmax] gives the position of an entry that no entry exceeds. *)
Lemma argmax_from_max (t : list Q) : forall (pre : list Q) (bi : nat) (b : Q) (i : nat),
  length pre = i -> bi < i -> nth bi (pre ++ t) 0%Q = b ->
  (forall y, In y pre -> (y <= b)%Q) ->
  forall y, In y (pre ++ t) -> (y <= nth (argmax_from bi b i t) (pre ++ t) 0)%Q.
Proof.
  induction t as [|x t IH]; intros pre bi b i Hl Hb Hn Hp y Hy; cbn [argmax_from].
  - rewrite Hn. rewrite app_nil_r in Hy. now apply Hp.
  - assert (Happ : pre ++ x :: t = (pre ++ [x]) ++ t) by (rewrite <- app_assoc; reflexivity).
    destruct (Qlt_bool b x) eqn:Hbx.
    + apply Qlt_bool_iff in Hbx. rewrite Happ in *.
      apply (IH (pre ++ [x]) i x (S i)); auto.
      * rewrite length_app. cbn. lia.
      * rewrite <- app_assoc. cbn [app]. rewrite <- Hl. now rewrite nth_middle.
      * intros z Hz. apply in_app_or in Hz. destruct Hz as [Hz|[<-|[]]].
        -- apply Qlt_le_weak. eapply Qle_lt_trans; [apply Hp, Hz | exact Hbx].
        -- apply Qle_refl.
    + rewrite Happ in *.
      apply (IH (pre ++ [x]) bi b (S i)); auto.
      * rewrite length_app. cbn. lia.
      * intros z Hz. apply in_app_or in Hz. destruct Hz as [Hz|[<-|[]]].
        -- now apply Hp.
        -- unfold Qlt_bool in Hbx. apply negb_false_iff in Hbx.
           now apply Qle_bool_iff.
Qed.

Lemma np_argmax_max (l : list Q) (y : Q) :
  In y l -> (y <= nth (np_argmax l) l 0)%Q.
Proof.
  destruct l as [|x t]; [intros []|]. intro Hy. cbn [np_argmax].
  apply (argmax_from_max t [x] 0 x 1); auto.
  intros z [<-|[]]. apply Qle_refl.
Qed.

Lemma NoDup_firstn {A : Type} (n : nat) (l : list A) : NoDup l -> NoDup (firstn n l).
Proof.
  intro H. rewrite <- (firstn_skipn n l) in H. now apply NoDup_app_remove_r in H.
Qed.

(** A cluster with more than one sample has samples at different points. *)
Lemma samples_differ (E : Env) (c : Cluster) (d : Data E) :
  metric E -> unique_rows E ->
  1 < length (argsamples E c) ->
  (forall s, In s (argsamples E c) -> data E s = d) -> False.
Proof.
  intros [_ [Hrefl _]] Hu. unfold argsamples.
  set (small := cardinality c <=? SUBSAMPLE_LIMIT).
  set (n := if small then length (argpoints c) else Nat.sqrt (cardinality c)).
  set (indices := if small then argpoints c else np_random_choice E (argpoints c) n).
  destruct (Qeq_bool (matrix_max (distance E indices indices)) 0) eqn:Hz.
  - intros Hlen Hall.
    pose proof (NoDup_firstn n _ (Hu (argpoints c))) as Hnd.
    rewrite <- map_map, firstn_map in Hnd.
    destruct (firstn n (map (fun i => nth i (argpoints c) 0) (np_unique_index E (argpoints c))))
      as [|a [|b t]]; cbn [length] in Hlen; try lia.
    cbn [map] in Hnd. apply NoDup_cons_iff in Hnd. destruct Hnd as [Hnd _].
    apply Hnd. left. rewrite (Hall a), (Hall b); cbn; auto.
  - intros _ Hall. rewrite matrix_max_zero in Hz; [discriminate|].
    intros row x Hrow Hx. unfold distance, distance_points in Hrow.
    apply in_map_iff in Hrow. destruct Hrow as [p [<- Hp]].
    apply in_map_iff in Hx. destruct Hx as [q [<- Hq]].
    apply in_map_iff in Hp. destruct Hp as [a [<- Ha]].
    apply in_map_iff in Hq. destruct Hq as [b [<- Hb]].
    rewrite (Hall a Ha), (Hall b Hb). apply Hrefl.
Qed.

(** In a metric space [_find_poles] passes its assertions. *)
Lemma find_poles_ok (E : Env) (c : Cluster) :
  metric E -> unique_rows E ->
  1 < length (argsamples E c) ->
  exists poles, _find_poles E c = Ok poles.
Proof.
  intros HM Hu H1. pose proof HM as [Hpos [Hrefl Hid]].
  unfold _find_poles.
  assert (H1' := H1). apply Nat.ltb_lt in H1'. rewrite H1'.
  destruct (2 <? length (argsamples E c)) eqn:H2.
  - set (row := map (fun s => cdist E (data E (argradius E c)) (data E s)) (argsamples E c)).
    set (far := nth (np_argmax row) (argsamples E c) 0).
    rewrite set_of_pair_length.
    destruct (argradius E c =? far) eqn:Heq; [|eexists; reflexivity].
    exfalso. apply Nat.eqb_eq in Heq.
    assert (Hlt : np_argmax row < length row).
    { apply np_argmax_lt. unfold row. intro H0. apply map_eq_nil in H0.
      rewrite H0 in H1. cbn in H1. lia. }
    assert (Hmax : (nth (np_argmax row) row 0 == 0)%Q).
    { rewrite (nth_indep row 0%Q
                 (cdist E (data E (argradius E c)) (data E 0)) Hlt).
      unfold row at 2.
      rewrite (map_nth (fun s => cdist E (data E (argradius E c)) (data E s))).
      fold far. rewrite <- Heq. apply Hrefl. }
    apply (samples_differ E c (data E (argradius E c)) HM Hu H1).
    intros s Hs. symmetry. apply Hid. apply Qle_antisym; [|apply Hpos].
    rewrite <- Hmax. apply np_argmax_max. unfold row.
    apply in_map_iff. now exists s.
  - apply Nat.ltb_ge in H2.
    destruct (argsamples E c) as [|a [|b [|x t]]] eqn:Hs; cbn [length] in H1, H2; try lia.
    rewrite set_of_pair_length.
    destruct (a =? b) eqn:Heq; [|eexists; reflexivity].
    exfalso. apply Nat.eqb_eq in Heq. subst b.
    apply (samples_differ E c (data E a) HM Hu); rewrite Hs; [cbn; lia|].
    intros s [<-|[<-|[]]]; reflexivity.
Qed.

(** C7.  Let numpy keep its contract, the distance be a metric, and [c] have
    points.  When [len(argsamples) <= 1] or a criterion fails, [partition]
    leaves [c] with no children.  Otherwise it gives [c] exactly two
    children, named [name + '0'] and [name + '01'], the smaller first, whose
    points are non-empty, disjoint, and together the points of [c]. *)
Theorem partition_splits (E : Env) (c : Cluster) (criterion : list (Cluster -> bool)) :
  numpy_contract E -> unique_rows E -> metric E ->
  argpoints c <> [] ->
  (splittable E c criterion = false ->
   partition E c criterion = Ok (mkCluster (name c) (argpoints c) (Some [])))
  /\ (splittable E c criterion = true ->
      exists b0 b1 : list nat,
        partition E c criterion
        = Ok (mkCluster (name c) (argpoints c)
                (Some [mkCluster (child_name (name c) 0) b0 None;
                       mkCluster (child_name (name c) 1) b1 None]))
        /\ b0 <> [] /\ b1 <> []
        /\ length b0 <= length b1
        /\ (forall p, In p b0 -> ~ In p b1)
        /\ (forall p, In p (argpoints c) <-> In p b0 \/ In p b1)).
Proof.
  intros HN HU HM Hne.
  destruct (partition_with_poles E c criterion HN Hne) as [Hleaf Hsplit].
  split; [exact Hleaf|].
  intro Hs. apply Hsplit; [exact Hs|].
  apply find_poles_ok; auto.
  unfold splittable in Hs. apply andb_true_iff in Hs. destruct Hs as [Hs _].
  now apply Nat.ltb_lt.
Qed.

(** ** Points on a line are a metric space *)

Lemma line_env_metric (pts : list Z) : metric (line_env pts).
Proof.
  unfold metric. cbn [cdist line_env]. unfold line_cdist. repeat split.
  - intros x y. change 0%Q with (inject_Z 0). rewrite <- Zle_Qle. apply Z.abs_nonneg.
  - intro x. now rewrite Z.sub_diag.
  - intros x y H. cbn [Data] in x, y. unfold Qeq in H. cbn in H.
    rewrite Z.mul_1_r in H.
    assert (G : forall a b : Z, Z.abs (a - b) = 0%Z -> a = b) by (intros a b Hab; lia).
    exact (G x y H).
Qed.

Lemma insert_Z_sorted (x : Z) (l : list Z) :
  StronglySorted Z.lt l -> StronglySorted Z.lt (insert_Z x l).
Proof.
  induction l as [|y t IH]; intro Hs; cbn [insert_Z].
  - repeat constructor.
  - destruct (x =? y)%Z eqn:Hxy; [exact Hs|].
    destruct (x <? y)%Z eqn:Hlt.
    + apply Z.ltb_lt in Hlt. constructor; [exact Hs|].
      apply StronglySorted_inv in Hs. destruct Hs as [_ Hy].
      constructor; [exact Hlt|].
      rewrite Forall_forall in *. intros z Hz. specialize (Hy z Hz). lia.
    + apply Z.ltb_ge in Hlt. apply Z.eqb_neq in Hxy.
      apply StronglySorted_inv in Hs. destruct Hs as [Ht Hy].
      constructor; [now apply IH|].
      rewrite Forall_forall in *. intros z Hz.
      apply insert_Z_in in Hz. destruct Hz as [->|Hz]; [lia | now apply Hy].
Qed.

Lemma sorted_NoDup (l : list Z) : StronglySorted Z.lt l -> NoDup l.
Proof.
  induction 1 as [|x t _ IH Hx]; constructor; [|exact IH].
  intro Hin. rewrite Forall_forall in Hx. specialize (Hx x Hin). lia.
Qed.

Lemma index_of_nth (v : Z) (l : list Z) (d : Z) : forall i,
  In v l -> nth (index_of v l i - i) l d = v.
Proof.
  induction l as [|y t IH]; intros i H; [destruct H|].
  cbn [index_of]. destruct (v =? y)%Z eqn:Hv.
  - apply Z.eqb_eq in Hv. subst y. now rewrite Nat.sub_diag.
  - destruct H as [->|H]; [rewrite Z.eqb_refl in Hv; discriminate|].
    assert (Hge : S i <= index_of v t (S i)).
    { clear. revert i. induction t as [|z t IH]; intro i; cbn [index_of]; [lia|].
      destruct (v =? z)%Z; [lia|]. specialize (IH (S i)). lia. }
    replace (index_of v t (S i) - i) with (S (index_of v t (S i) - S i)) by lia.
    cbn [nth]. now apply IH.
Qed.

Lemma line_env_unique_rows (pts : list Z) : unique_rows (line_env pts).
Proof.
  intro l. cbn [np_unique_index data line_env]. unfold line_unique_index.
  set (values := map (line_data pts) l).
  set (sorted := fold_left (fun acc v => insert_Z v acc) values []).
  rewrite map_map.
  assert (Hs : StronglySorted Z.lt sorted).
  { unfold sorted. generalize (@nil Z) (SSorted_nil Z.lt).
    induction values as [|v t IH]; intros acc Ha; cbn [fold_left]; [exact Ha|].
    apply IH. now apply insert_Z_sorted. }
  assert (Hin : forall v, In v sorted -> In v values).
  { intros v Hv. apply inserted_in in Hv. destruct Hv as [[]|Hv]. exact Hv. }
  match goal with
  | |- NoDup ?X => assert (Heq : X = sorted); [|rewrite Heq; now apply sorted_NoDup]
  end.
  clear Hs. clearbody sorted. induction sorted as [|v t IH]; [reflexivity|].
  cbn [map]. f_equal.
  - pose proof (index_of_nth v values (line_data pts 0) 0 (Hin v (or_introl eq_refl))) as H.
    rewrite Nat.sub_0_r in H. unfold values in H at 2.
    rewrite (map_nth (line_data pts)) in H. exact H.
  - apply IH. intros z Hz. apply Hin. now right.
Qed.

Lemma partition_splits_witness :
  (splittable env4 (mkCluster EmptyString [0; 1; 2; 3] None) [] = false ->
   partition env4 (mkCluster EmptyString [0; 1; 2; 3] None) []
   = Ok (mkCluster EmptyString [0; 1; 2; 3] (Some [])))
  /\ (splittable env4 (mkCluster EmptyString [0; 1; 2; 3] None) [] = true ->
      exists b0 b1 : list nat,
        partition env4 (mkCluster EmptyString [0; 1; 2; 3] None) []
        = Ok (mkCluster EmptyString [0; 1; 2; 3]
                (Some [mkCluster (child_name EmptyString 0) b0 None;
                       mkCluster (child_name EmptyString 1) b1 None]))
        /\ b0 <> [] /\ b1 <> []
        /\ length b0 <= length b1
        /\ (forall p, In p b0 -> ~ In p b1)
        /\ (forall p, In p [0; 1; 2; 3] <-> In p b0 \/ In p b1)).
Proof.
  apply (partition_splits env4 (mkCluster EmptyString [0; 1; 2; 3] None) []).
  - exact (line_env_contract [0%Z; 1%Z; 20%Z; 21%Z]).
  - exact (line_env_unique_rows [0%Z; 1%Z; 20%Z; 21%Z]).
  - exact (line_env_metric [0%Z; 1%Z; 20%Z; 21%Z]).
  - discriminate.
Defined.

(** ** The medoid and the radius of a cluster *)

Lemma argmin_from_min (t : list Q) : forall (pre : list Q) (bi : nat) (b : Q) (i : nat),
  length pre = i -> bi < i -> nth bi (pre ++ t) 0%Q = b ->
  (forall y, In y pre -> (b <= y)%Q) ->
  argmin_from bi b i t < i + length t
  /\ forall y, In y (pre ++ t) -> (nth (argmin_from bi b i t) (pre ++ t) 0 <= y)%Q.
Proof.
  induction t as [|x t IH]; intros pre bi b i Hl Hb Hn Hp; cbn [argmin_from length].
  - split; [lia|]. intros y Hy. rewrite Hn. rewrite app_nil_r in Hy. now apply Hp.
  - assert (Happ : pre ++ x :: t = (pre ++ [x]) ++ t) by (rewrite <- app_assoc; reflexivity).
    destruct (Qlt_bool x b) eqn:Hxb.
    + apply Qlt_bool_iff in Hxb. rewrite Happ in *.
      destruct (IH (pre ++ [x]) i x (S i)) as [H1 H2]; auto.
      * rewrite length_app. cbn. lia.
      * rewrite <- app_assoc. cbn [app]. rewrite <- Hl. now rewrite nth_middle.
      * intros z Hz. apply in_app_or in Hz. destruct Hz as [Hz|[<-|[]]].
        -- apply Qlt_le_weak. eapply Qlt_le_trans; [exact Hxb | apply Hp, Hz].
        -- apply Qle_refl.
      * split; [lia | exact H2].
    + rewrite Happ in *.
      destruct (IH (pre ++ [x]) bi b (S i)) as [H1 H2]; auto.
      * rewrite length_app. cbn. lia.
      * intros z Hz. apply in_app_or in Hz. destruct Hz as [Hz|[<-|[]]].
        -- now apply Hp.
        -- unfold Qlt_bool in Hxb. apply negb_false_iff in Hxb.
           now apply Qle_bool_iff.
      * split; [lia | exact H2].
Qed.

Lemma np_argmin_min (l : list Q) :
  l <> [] ->
  np_argmin l < length l /\ forall y, In y l -> (nth (np_argmin l) l 0 <= y)%Q.
Proof.
  destruct l as [|x t]; [congruence|]. intros _. cbn [np_argmin].
  assert (Hp : forall y, In y [x] -> (x <= y)%Q) by (intros z [<-|[]]; apply Qle_refl).
  destruct (argmin_from_min t [x] 0 x 1 eq_refl Nat.lt_0_1 eq_refl Hp) as [H1 H2].
  split; [cbn [length]; lia | exact H2].
Qed.

(** X2.  The medoid is one of the samples of the cluster, and among the
    samples it has the least sum of distances to the samples. *)
Theorem argmedoid_least_sum (E : Env) (c : Cluster) :
  argsamples E c <> [] ->
  In (argmedoid E c) (argsamples E c)
  /\ forall s, In s (argsamples E c) ->
       (sample_sum E c (argmedoid E c) <= sample_sum E c s)%Q.
Proof.
  intro Hne. unfold argmedoid. cbv zeta.
  set (sums := map Qsum (distance E (argsamples E c) (argsamples E c))).
  assert (Hsums : sums = map (sample_sum E c) (argsamples E c)).
  { unfold sums, distance, distance_points, sample_sum.
    rewrite !map_map. apply map_ext. intro s. now rewrite map_map. }
  assert (Hlen : length sums = length (argsamples E c))
    by (rewrite Hsums; apply length_map).
  destruct (np_argmin_min sums) as [Hlt Hmin].
  { intro H0. rewrite H0 in Hlen. destruct (argsamples E c); [congruence | discriminate]. }
  split.
  - apply nth_In. now rewrite <- Hlen.
  - intros s Hs.
    assert (Hnth : nth (np_argmin sums) sums 0%Q
                   = sample_sum E c (nth (np_argmin sums) (argsamples E c) 0)).
    { rewrite (nth_indep sums 0%Q (sample_sum E c 0) Hlt).
      rewrite Hsums at 2. apply map_nth. }
    rewrite <- Hnth. apply Hmin. rewrite Hsums. now apply in_map.
Qed.

Lemma argmedoid_least_sum_witness :
  In (argmedoid env4 (root manifold4)) (argsamples env4 (root manifold4))
  /\ forall s, In s (argsamples env4 (root manifold4)) ->
       (sample_sum env4 (root manifold4) (argmedoid env4 (root manifold4))
        <= sample_sum env4 (root manifold4) s)%Q.
Proof.
  apply (argmedoid_least_sum env4 (root manifold4)). vm_compute. discriminate.
Defined.

Lemma max_by_snd_max (l : list (nat * Q)) : forall best x,
  x = best \/ In x l -> (snd x <= snd (max_by_snd best l))%Q.
Proof.
  induction l as [|y t IH]; intros best x Hx; cbn [max_by_snd].
  - destruct Hx as [->|[]]. apply Qle_refl.
  - destruct (Qlt_bool (snd best) (snd y)) eqn:Hb.
    + apply Qlt_bool_iff in Hb.
      destruct Hx as [->|[->|Hx]].
      * apply Qle_trans with (snd y); [now apply Qlt_le_weak|]. apply IH. now left.
      * apply IH. now left.
      * apply IH. now right.
    + unfold Qlt_bool in Hb. apply negb_false_iff, Qle_bool_iff in Hb.
      destruct Hx as [->|[->|Hx]].
      * apply IH. now left.
      * apply Qle_trans with (snd best); [exact Hb|]. apply IH. now left.
      * apply IH. now right.
Qed.

(** What [argmax_max] returns for a batch: a point of the batch, its
    distance from the medoid, and no point of the batch is farther. *)
Lemma argmax_max_ok (E : Env) (c : Cluster) (b : list nat) :
  b <> [] ->
  In (fst (argmax_max E c b)) b
  /\ snd (argmax_max E c b) = cdist E (medoid E c) (data E (fst (argmax_max E c b)))
  /\ forall p, In p b -> (cdist E (medoid E c) (data E p) <= snd (argmax_max E c b))%Q.
Proof.
  intro Hne. unfold argmax_max. cbv zeta. cbn [fst snd].
  set (ds := distance_from E c b).
  assert (Hlen : length ds = length b) by apply length_map.
  assert (Hlt : np_argmax ds < length ds).
  { apply np_argmax_lt. intro H0. rewrite H0 in Hlen. destruct b; [congruence | discriminate]. }
  assert (Hnth : nth (np_argmax ds) ds 0%Q
                 = cdist E (medoid E c) (data E (nth (np_argmax ds) b 0))).
  { rewrite (nth_indep ds 0%Q (cdist E (medoid E c) (data E 0)) Hlt).
    unfold ds at 2, distance_from.
    apply (map_nth (fun x => cdist E (medoid E c) (data E x))). }
  split; [apply nth_In; now rewrite <- Hlen|]. split; [exact Hnth|].
  intros p Hp. apply np_argmax_max. unfold ds, distance_from.
  apply in_map_iff. now exists p.
Qed.

(** The radius is the largest distance from the medoid to a point. *)
Lemma radius_bounds (E : Env) (c : Cluster) :
  argpoints c <> [] ->
  In (argradius E c) (argpoints c)
  /\ radius E c = cdist E (medoid E c) (data E (argradius E c))
  /\ forall p, In p (argpoints c) ->
       (cdist E (medoid E c) (data E p) <= radius E c)%Q.
Proof.
  intro Hne. split; [now apply argradius_in|].
  unfold radius, argradius, argradius_radius.
  destruct (batches BATCH_SIZE (argpoints c)) as [|b bs] eqn:Hb.
  { apply batches_nil_inv in Hb. congruence. }
  cbn [map].
  set (pairs := map (argmax_max E c) bs).
  set (best := argmax_max E c b).
  assert (Hall : forall b', In b' (b :: bs) -> b' <> [])
    by (intros b' Hb'; apply (batches_nonempty (argpoints c)); now rewrite Hb).
  assert (Hin : max_by_snd best pairs = best \/ In (max_by_snd best pairs) pairs)
    by apply max_by_snd_in.
  split.
  - destruct Hin as [->|Hin].
    + apply (argmax_max_ok E c b). apply Hall. now left.
    + apply in_map_iff in Hin. destruct Hin as [b' [<- Hb']].
      apply (argmax_max_ok E c b'). apply Hall. now right.
  - intros p Hp. rewrite <- (batches_concat (argpoints c)), Hb in Hp.
    apply in_concat in Hp. destruct Hp as [b' [Hb' Hp]].
    apply Qle_trans with (snd (argmax_max E c b')).
    + apply (argmax_max_ok E c b'); [now apply Hall | exact Hp].
    + apply max_by_snd_max. destruct Hb' as [<-|Hb']; [now left|].
      right. now apply in_map.
Qed.

(** X1.  The radius of a cluster is the distance from its medoid to
    [argradius], which is one of its points, and no point of the cluster is
    farther from the medoid. *)
Theorem radius_is_farthest (E : Env) (c : Cluster) :
  argpoints c <> [] ->
  In (argradius E c) (argpoints c)
  /\ radius E c = cdist E (medoid E c) (data E (argradius E c))
  /\ forall p, In p (argpoints c) ->
       (cdist E (medoid E c) (data E p) <= radius E c)%Q.
Proof. exact (radius_bounds E c). Qed.

Lemma radius_is_farthest_witness :
  In (argradius env4 (root manifold4)) (argpoints (root manifold4))
  /\ radius env4 (root manifold4)
     = cdist env4 (medoid env4 (root manifold4)) (data env4 (argradius env4 (root manifold4)))
  /\ forall p, In p (argpoints (root manifold4)) ->
       (cdist env4 (medoid env4 (root manifold4)) (data env4 p)
        <= radius env4 (root manifold4))%Q.
Proof.
  apply (radius_is_farthest env4 (root manifold4)). vm_compute. discriminate.
Defined.

(** X3.  A cluster contains each of its own points, and overlaps every ball
    around one of them. *)
Theorem contains_own_points (E : Env) (c : Cluster) (p : nat) (r : Q) :
  In p (argpoints c) -> (0 <= r)%Q ->
  contains E c (data E p) = true /\ overlaps E c (data E p) r = true.
Proof.
  intros Hp Hr.
  assert (Hne : argpoints c <> []) by (intro H0; rewrite H0 in Hp; destruct Hp).
  destruct (radius_bounds E c Hne) as [_ [_ Hmax]].
  unfold contains, overlaps, distance_from_point.
  split; apply Qle_bool_iff.
  - rewrite Qplus_0_r. now apply Hmax.
  - apply Qle_trans with (radius E c); [now apply Hmax|].
    rewrite <- (Qplus_0_r (radius E c)) at 1. apply Qplus_le_r. exact Hr.
Qed.

Lemma contains_own_points_witness :
  contains env4 (root manifold4) (data env4 3) = true
  /\ overlaps env4 (root manifold4) (data env4 3) 2%Q = true.
Proof.
  apply (contains_own_points env4 (root manifold4) 3 2%Q).
  - vm_compute. tauto.
  - vm_compute. discriminate.
Defined.

(** ** Tree search: what is found overlaps the query ball *)

Lemma unique_name_in (l : list Cluster) (x y : Cluster) :
  NoDup (map name l) -> In x l -> In y l -> name x = name y -> x = y.
Proof.
  induction l as [|a t IH]; intros Hd Hx Hy Hn; [destruct Hx|].
  cbn [map] in Hd. apply NoDup_cons_iff in Hd. destruct Hd as [Ha Hd].
  destruct Hx as [<-|Hx], Hy as [<-|Hy].
  - reflexivity.
  - exfalso. apply Ha. rewrite Hn. now apply in_map.
  - exfalso. apply Ha. rewrite <- Hn. now apply in_map.
  - now apply IH.
Qed.

Lemma combine3_map {A B C : Type} (f : A -> B) (g : A -> C) (l : list A) :
  combine (combine l (map f l)) (map g l) = map (fun x => ((x, f x), g x)) l.
Proof. induction l as [|x t IH]; cbn; [reflexivity | now rewrite IH]. Qed.

Section SearchSound.
Variable E : Env.
Variable c : Cluster.
Variable point : Data E.
Variable r : Q.
Hypothesis names_unique : NoDup (map name (nodes c)).

Local Abbreviation good := (all_found_ok E c point r).

Lemma good_key (l : list (Cluster * Q)) (x : Cluster) :
  good l -> In x (map fst l) -> In x (nodes c).
Proof.
  intros Hl Hx. apply in_map_iff in Hx. destruct Hx as [[y v] [<- Hy]].
  exact (proj1 (Hl y v Hy)).
Qed.

Lemma good_update (d items : list (Cluster * Q)) :
  good d -> good items -> good (dict_update cluster_eqb d items).
Proof.
  intros Hd Hi x v H. apply In_dict_update_key in H.
  destruct H as [H|[k [Hk Hx]]]; [now apply Hd|].
  assert (Hkg := Hi k v Hk).
  destruct Hx as [->|[Hkx Hin]]; [exact Hkg|].
  assert (Hxn : In x (nodes c))
    by (destruct Hin as [Hin|Hin]; [exact (good_key d x Hd Hin) | exact (good_key items x Hi Hin)]).
  rewrite <- (unique_name_in (nodes c) k x names_unique (proj1 Hkg) Hxn
                (cluster_eqb_name k x Hkx)).
  exact Hkg.
Qed.

Lemma good_of (items : list (Cluster * Q)) :
  good items -> good (dict_of cluster_eqb items).
Proof. intro Hi. unfold dict_of. apply good_update; [intros x v []|exact Hi]. Qed.

Lemma good_filter (f : Cluster * Q -> bool) (l : list (Cluster * Q)) :
  good l -> good (filter f l).
Proof. intros Hl x v H. apply filter_In in H. now apply Hl. Qed.

Lemma good_step (results candidates : list (Cluster * Q)) :
  good results -> good candidates ->
  match tree_search_step E point r results candidates with
  | inl rc | inr rc => good (fst rc) /\ good (snd rc)
  end.
Proof.
  intros Hr Hc. unfold tree_search_step. cbv zeta.
  set (results' := dict_update cluster_eqb results _).
  set (cands := dict_of cluster_eqb (filter _ candidates)).
  assert (Hr' : good results')
    by (apply good_update; [exact Hr | apply good_of, good_filter, Hc]).
  assert (Hc' : good cands) by (apply good_of, good_filter, Hc).
  set (kids := flat_map (fun cd => children_list (fst cd)) cands).
  destruct kids as [|k0 ks] eqn:Hkids; [cbn [fst snd]; auto|].
  rewrite <- Hkids. clear Hkids k0 ks.
  set (new := dict_of cluster_eqb _).
  assert (Hn : good new).
  { apply good_of. intros x v H.
    apply in_map_iff in H. destruct H as [[[k d] rad] [Hxv H]].
    cbn [fst snd] in Hxv. injection Hxv as <- <-.
    apply filter_In in H. destruct H as [H Hle]. cbn [fst snd] in Hle.
    rewrite !map_map, combine3_map in H.
    apply in_map_iff in H. destruct H as [k' [Hk' Hin]].
    injection Hk' as <- <- <-.
    apply in_flat_map in Hin. destruct Hin as [[p q] [Hp Hk]]. cbn [fst] in Hk.
    split; [|split].
    - apply (nodes_children c p); [|exact Hk]. exact (proj1 (Hc' p q Hp)).
    - now left.
    - now apply Qle_bool_iff. }
  destruct new; cbn [fst snd]; auto.
Qed.

Lemma good_loop (n : nat) : forall results candidates,
  good results -> good candidates ->
  good (fst (tree_search_loop E n point r results candidates))
  /\ good (snd (tree_search_loop E n point r results candidates)).
Proof.
  induction n as [|n IH]; intros results candidates Hr Hc; cbn [tree_search_loop];
    [cbn; auto|].
  pose proof (good_step results candidates Hr Hc) as Hs.
  destruct (tree_search_step E point r results candidates) as [rc|[res' cands']];
    [exact Hs|].
  cbn [fst snd] in Hs. now apply IH.
Qed.
End SearchSound.

(** X4.  In a tree without two clusters of the same name, what
    [tree_search] returns from a cluster [c] for a depth greater than that of
    [c] are clusters of the tree of [c], not deeper than asked, each with
    the distance between the query point and its medoid, and each
    overlapping the query ball: [distance <= radius + cluster.radius]. *)
Theorem tree_search_sound (E : Env) (m : Manifold) (c : Cluster) (point : Data E)
    (r : Q) (d : Z) (found : list (Cluster * Q)) :
  NoDup (map name (nodes c)) ->
  (Z.of_nat (depth c) < effective_depth m d)%Z ->
  tree_search E m c point r d = Ok found ->
  forall x v, In (x, v) found ->
    found_ok E c point r x v /\ (Z.of_nat (depth x) <= effective_depth m d)%Z.
Proof.
  intros Hu Hd Hrun x v Hx. unfold tree_search in Hrun.
  fold (effective_depth m d) in Hrun.
  set (d' := effective_depth m d) in *.
  assert (H1 : (d' <? Z.of_nat (depth c))%Z = false) by (apply Z.ltb_ge; lia).
  assert (H2 : (Z.of_nat (depth c) =? d')%Z = false) by (apply Z.eqb_neq; lia).
  rewrite H1, H2 in Hrun.
  destruct (overlaps E c point r) eqn:Ho; [|injection Hrun as <-; destruct Hx].
  unfold _tree_search in Hrun. cbv zeta in Hrun.
  destruct (Qle_bool _ _) eqn:Hle; [|discriminate].
  destruct (Z.of_nat (depth c) <? d')%Z; [|discriminate].
  set (rc := tree_search_loop E _ point r [] [(c, distance_from_point E c point)]) in Hrun.
  destruct (forallb _ _) eqn:Hall; [|discriminate].
  injection Hrun as <-.
  split.
  - destruct (good_loop E c point r Hu (Z.to_nat (d' - Z.of_nat (depth c))) []
                [(c, distance_from_point E c point)]) as [G1 G2].
    + intros ? ? [].
    + intros y w [H|[]]. injection H as <- <-.
      split; [apply nodes_self|]. split; [now right|].
      now apply Qle_bool_iff.
    + exact (good_update E c point r Hu _ _ G1 G2 x v Hx).
  - rewrite forallb_forall in Hall. specialize (Hall (x, v) Hx). cbn [fst] in Hall.
    now apply Z.leb_le.
Qed.

Lemma tree_search_sound_witness :
  exists found,
    tree_search env4 manifold4 (root manifold4) 0%Z 1%Q (-1) = Ok found
    /\ forall x v, In (x, v) found ->
         found_ok env4 (root manifold4) 0%Z 1%Q x v
         /\ (Z.of_nat (depth x) <= effective_depth manifold4 (-1))%Z.
Proof.
  eexists. split; [vm_compute; reflexivity|].
  apply (tree_search_sound env4 manifold4 (root manifold4) 0%Z 1%Q (-1)).
  - vm_compute. repeat constructor; cbn; intuition discriminate.
  - vm_compute. reflexivity.
  - vm_compute. reflexivity.
Defined.

(** ** Tree search: what overlaps the query ball is found *)

Lemma well_formedb_ok (c : Cluster) : well_formedb c = true -> well_formed c.
Proof.
  unfold well_formedb, well_formed. rewrite forallb_forall. intros H x Hx.
  specialize (H x Hx). apply andb_true_iff in H. destruct H as [H1 H2].
  rewrite forallb_forall in H1. split.
  - intros k Hk. specialize (H1 k Hk). apply andb_true_iff in H1.
    destruct H1 as [Hd Hp]. apply Nat.eqb_eq in Hd. split; [exact Hd|].
    rewrite forallb_forall in Hp. intros p Hin. now apply memb_nat_iff, Hp.
  - intros p Hp Hnc. rewrite Hnc in H2. cbn [orb] in H2.
    rewrite forallb_forall in H2. specialize (H2 p Hp).
    apply existsb_exists in H2. destruct H2 as [k [Hk Hm]].
    exists k. split; [exact Hk | now apply memb_nat_iff].
Qed.

Lemma cluster_eqb_points (a b : Cluster) (p : nat) :
  cluster_eqb a b = true -> In p (argpoints a) -> In p (argpoints b).
Proof.
  unfold cluster_eqb. intros H Hp. apply andb_true_iff in H. destruct H as [_ H].
  rewrite (set_eqb_true_iff _ _ nat_eqb_equivalence) in H.
  apply memb_nat_iff. rewrite <- H. now apply memb_nat_iff.
Qed.

Lemma covered_memb (l : list (Cluster * Q)) (x : Cluster) (p : nat) :
  memb cluster_eqb x (map fst l) = true -> In p (argpoints x) -> covered l p.
Proof.
  intros Hm Hp. apply (memb_true_iff _ cluster_eqb) in Hm.
  destruct Hm as [y [Hy Hxy]]. exists y. split; [exact Hy|].
  exact (cluster_eqb_points x y p Hxy Hp).
Qed.

Lemma covered_update (d items : list (Cluster * Q)) (p : nat) :
  covered d p \/ covered items p -> covered (dict_update cluster_eqb d items) p.
Proof.
  intros [[x [Hx Hp]]|[x [Hx Hp]]]; apply (covered_memb _ x p); auto;
    change (map fst (dict_update cluster_eqb d items))
      with (dict_keys (dict_update cluster_eqb d items));
    rewrite (memb_keys_update cluster_eqb cluster_eqb_equivalence);
    apply orb_true_iff; [left | right];
    now apply (memb_In _ _ cluster_eqb_equivalence).
Qed.

Lemma covered_of (items : list (Cluster * Q)) (p : nat) :
  covered items p -> covered (dict_of cluster_eqb items) p.
Proof. intro H. unfold dict_of. apply covered_update. now right. Qed.

Lemma keys_of_incl (items : list (Cluster * Q)) (x : Cluster) :
  In x (map fst (dict_of cluster_eqb items)) -> In x (map fst items).
Proof.
  intro H. apply (In_keys_update _ _ cluster_eqb) in H. destruct H as [[]|H]. exact H.
Qed.

Section SearchComplete.
Variable E : Env.
Variable c : Cluster.
Variable point : Data E.
Variable r : Q.
Hypothesis space : metric_space E.
Hypothesis tree : well_formed c.

(** A cluster with a point of the query ball overlaps the ball. *)
Lemma overlap_of_point (x : Cluster) (p : nat) :
  In p (argpoints x) -> (cdist E point (data E p) <= r)%Q ->
  (cdist E point (medoid E x) <= r + radius E x)%Q.
Proof.
  intros Hp Hr. destruct space as [Hsym Htri].
  assert (Hne : argpoints x <> []) by (intro H0; rewrite H0 in Hp; destruct Hp).
  destruct (radius_bounds E x Hne) as [_ [_ Hmax]].
  apply Qle_trans with (cdist E point (data E p) + cdist E (data E p) (medoid E x))%Q;
    [apply Htri|].
  apply Qplus_le_compat; [exact Hr|].
  rewrite Hsym. now apply Hmax.
Qed.

Local Abbreviation state_ok := (search_state E c point r).

Lemma state_ok_later (j k : nat) (results candidates : list (Cluster * Q)) :
  j <= k -> state_ok j results candidates -> state_ok k results candidates.
Proof.
  intros Hjk [H1 [H2 H3]]. split; [|split; [|exact H3]].
  - intros x Hx. destruct (H1 x Hx). split; [assumption | lia].
  - intros x Hx. destruct (H2 x Hx). split; [assumption | lia].
Qed.

Lemma state_ok_step (j : nat) (results candidates : list (Cluster * Q)) :
  state_ok j results candidates ->
  match tree_search_step E point r results candidates with
  | inl rc => state_ok j (fst rc) (snd rc)
  | inr rc => state_ok (S j) (fst rc) (snd rc)
  end.
Proof.
  intros [H1 [H2 H3]]. unfold tree_search_step. cbv zeta.
  set (leaves := filter (fun cd => no_children (fst cd)) candidates).
  set (inner := filter (fun cd => negb (no_children (fst cd))) candidates).
  set (results' := dict_update cluster_eqb results (dict_of cluster_eqb leaves)).
  set (cands := dict_of cluster_eqb inner).
  assert (Hk1 : forall x, In x (map fst results') ->
                          In x (nodes c) /\ depth x <= depth c + j).
  { intros x Hx. apply (In_keys_update _ _ cluster_eqb) in Hx.
    destruct Hx as [Hx|Hx]; [now apply H1|].
    apply keys_of_incl in Hx. apply in_map_iff in Hx.
    destruct Hx as [cd [<- Hcd]]. apply filter_In in Hcd.
    apply H2. apply in_map. tauto. }
  assert (Hk2 : forall x, In x (map fst cands) ->
                 (In x (nodes c) /\ depth x <= depth c + j) /\ no_children x = false).
  { intros x Hx. apply keys_of_incl in Hx. apply in_map_iff in Hx.
    destruct Hx as [cd [<- Hcd]]. apply filter_In in Hcd. destruct Hcd as [Hcd Hn].
    split; [apply H2; now apply in_map | now apply negb_true_iff]. }
  (* a point of the ball is in the new results or in a child of [cands] *)
  assert (Hcov : forall p, In p (argpoints c) -> (cdist E point (data E p) <= r)%Q ->
            covered results' p
            \/ exists x k, In x (map fst cands) /\ In k (children_list x)
                           /\ In p (argpoints k)).
  { intros p Hp Hr. destruct (H3 p Hp Hr) as [Hc|[x [Hx Hpx]]].
    - left. apply covered_update. now left.
    - apply in_map_iff in Hx. destruct Hx as [[x' v] [Hxx Hin]].
      cbn [fst] in Hxx. subst x'.
      destruct (no_children x) eqn:Hnc.
      + left. apply covered_update. right. apply covered_of.
        exists x. split; [|exact Hpx]. apply in_map_iff. exists (x, v).
        split; [reflexivity|]. apply filter_In. auto.
      + right.
        assert (Hc : covered cands p).
        { apply covered_of. exists x. split; [|exact Hpx].
          apply in_map_iff. exists (x, v). split; [reflexivity|].
          apply filter_In. cbn [fst]. rewrite Hnc. auto. }
        destruct Hc as [y [Hy Hpy]].
        destruct (Hk2 y Hy) as [[Hyn _] Hync].
        destruct (proj2 (tree y Hyn) p Hpy Hync) as [k [Hk Hpk]].
        exists y, k. auto. }
  set (kids := flat_map (fun cd => children_list (fst cd)) cands).
  assert (Hkids : forall x k, In x (map fst cands) -> In k (children_list x) -> In k kids).
  { intros x k Hx Hk. apply in_map_iff in Hx. destruct Hx as [cd [<- Hcd]].
    unfold kids. apply in_flat_map. eauto. }
  destruct kids as [|k0 ks] eqn:Ek.
  { cbn [fst snd]. split; [exact Hk1|]. split; [intros x Hx; now apply Hk2|].
    intros p Hp Hr. destruct (Hcov p Hp Hr) as [Hc|[x [k [Hx [Hk _]]]]]; [now left|].
    destruct (Hkids x k Hx Hk). }
  rewrite <- Ek in *. clear Ek k0 ks.
  set (new := dict_of cluster_eqb _).
  assert (Hnew : forall x, In x (map fst new) ->
            exists y, In y (map fst cands) /\ In x (children_list y)).
  { intros x Hx. apply keys_of_incl in Hx. rewrite map_map in Hx.
    apply in_map_iff in Hx. destruct Hx as [[[k d] rad] [Hxk H]].
    cbn [fst snd] in Hxk. subst k.
    apply filter_In in H. destruct H as [H _].
    rewrite !map_map, combine3_map in H.
    apply in_map_iff in H. destruct H as [k' [Hk' Hin]]. injection Hk' as <- _ _.
    apply in_flat_map in Hin. destruct Hin as [cd [Hcd Hk]].
    exists (fst cd). split; [now apply in_map | exact Hk]. }
  assert (Hcovn : forall p, In p (argpoints c) -> (cdist E point (data E p) <= r)%Q ->
            covered results' p \/ covered new p).
  { intros p Hp Hr. destruct (Hcov p Hp Hr) as [Hc|[x [k [Hx [Hk Hpk]]]]]; [now left|].
    right. apply covered_of. exists k. split; [|exact Hpk].
    rewrite map_map. apply in_map_iff.
    exists ((k, cdist E point (data E (argmedoid E k))), (r + radius E k)%Q).
    split; [reflexivity|]. apply filter_In. split.
    - rewrite !map_map, combine3_map. apply in_map_iff. exists k.
      split; [reflexivity|]. exact (Hkids x k Hx Hk).
    - cbn [fst snd]. apply Qle_bool_iff. exact (overlap_of_point k p Hpk Hr). }
  destruct new as [|n0 ns] eqn:En.
  { cbn [fst snd]. split; [exact Hk1|]. split; [intros x []|exact Hcovn]. }
  rewrite <- En in *. cbn [fst snd].
  split; [|split; [|exact Hcovn]].
  - intros x Hx. destruct (Hk1 x Hx). split; [assumption | lia].
  - intros x Hx. destruct (Hnew x Hx) as [y [Hy Hxy]].
    destruct (Hk2 y Hy) as [[Hyn Hyd] _].
    split; [exact (nodes_children c y x Hyn Hxy)|].
    rewrite (proj1 (proj1 (tree y Hyn) x Hxy)). lia.
Qed.

Lemma state_ok_loop (n : nat) : forall j results candidates,
  state_ok j results candidates ->
  state_ok (j + n)
    (fst (tree_search_loop E n point r results candidates))
    (snd (tree_search_loop E n point r results candidates)).
Proof.
  induction n as [|n IH]; intros j results candidates H; cbn [tree_search_loop].
  - rewrite Nat.add_0_r. exact H.
  - pose proof (state_ok_step j results candidates H) as Hs.
    destruct (tree_search_step E point r results candidates) as [rc|[res' cands']].
    + apply (state_ok_later j); [lia | exact Hs].
    + cbn [fst snd] in Hs. replace (j + S n) with (S j + n) by lia. now apply IH.
Qed.
End SearchComplete.

(** The search from [c] returns, and covers the points of [c] in the ball. *)
Lemma tree_search_covers (E : Env) (m : Manifold) (c : Cluster) (point : Data E)
    (r : Q) (d : Z) :
  metric_space E -> well_formed c ->
  (Z.of_nat (depth c) < effective_depth m d)%Z ->
  exists found,
    tree_search E m c point r d = Ok found
    /\ (forall x, In x (map fst found) -> In x (nodes c))
    /\ forall p, In p (argpoints c) -> (cdist E point (data E p) <= r)%Q ->
         covered found p.
Proof.
  intros Hs Hw Hd. unfold tree_search. fold (effective_depth m d).
  set (d' := effective_depth m d) in *.
  assert (H1 : (d' <? Z.of_nat (depth c))%Z = false) by (apply Z.ltb_ge; lia).
  assert (H2 : (Z.of_nat (depth c) =? d')%Z = false) by (apply Z.eqb_neq; lia).
  rewrite H1, H2.
  destruct (overlaps E c point r) eqn:Ho.
  - unfold _tree_search. cbv zeta.
    unfold overlaps in Ho. rewrite Qplus_comm in Ho. rewrite Ho.
    assert (H3 : (Z.of_nat (depth c) <? d')%Z = true) by (apply Z.ltb_lt; lia).
    rewrite H3.
    set (n := Z.to_nat (d' - Z.of_nat (depth c))).
    pose proof (state_ok_loop E c point r Hs Hw n 0 [] [(c, distance_from_point E c point)])
      as Hloop.
    set (rc := tree_search_loop E n point r [] [(c, distance_from_point E c point)]) in *.
    destruct Hloop as [L1 [L2 L3]].
    { split; [intros x []|]. split.
      - intros x [<-|[]]. cbn [fst]. split; [apply nodes_self | lia].
      - intros p Hp _. right. exists c. split; [now left | exact Hp]. }
    assert (Hkeys : forall x, In x (map fst (dict_update cluster_eqb (fst rc) (snd rc))) ->
                      In x (nodes c) /\ depth x <= depth c + (0 + n)).
    { intros x Hx. apply (In_keys_update _ _ cluster_eqb) in Hx.
      destruct Hx as [Hx|Hx]; [now apply L1 | now apply L2]. }
    assert (Hall : forallb (fun cd => (Z.of_nat (depth (fst cd)) <=? d')%Z)
                     (dict_update cluster_eqb (fst rc) (snd rc)) = true).
    { apply forallb_forall. intros cd Hcd. apply Z.leb_le.
      destruct (Hkeys (fst cd) (in_map fst _ cd Hcd)) as [_ Hle]. unfold n in Hle. lia. }
    rewrite Hall. eexists. split; [reflexivity|]. split.
    + intros x Hx. now apply Hkeys.
    + intros p Hp Hr. apply covered_update. now apply L3.
  - exists []. split; [reflexivity|]. split; [intros x []|].
    intros p Hp Hr. exfalso.
    assert (Ho' : overlaps E c point r = true); [|congruence].
    unfold overlaps, distance_from_point. apply Qle_bool_iff.
    destruct Hs as [Hsym Htri]. rewrite Hsym, Qplus_comm.
    exact (overlap_of_point E point r (conj Hsym Htri) c p Hp Hr).
Qed.

(** X5.  In a metric space and a tree as [partition] makes it,
    [tree_search] from a cluster [c] for a depth greater than that of
    [c] does not raise, and every point of [c] in the query ball is a point of
    one of the clusters it returns. *)
Theorem tree_search_complete (E : Env) (m : Manifold) (c : Cluster) (point : Data E)
    (r : Q) (d : Z) :
  metric_space E -> well_formed c ->
  (Z.of_nat (depth c) < effective_depth m d)%Z ->
  exists found,
    tree_search E m c point r d = Ok found
    /\ (forall x, In x (map fst found) -> In x (nodes c))
    /\ forall p, In p (argpoints c) -> (cdist E point (data E p) <= r)%Q ->
         covered found p.
Proof. exact (tree_search_covers E m c point r d). Qed.

Lemma line_env_metric_space (pts : list Z) : metric_space (line_env pts).
Proof.
  split.
  - intros x y. cbn. unfold line_cdist.
    now rewrite <- Z.abs_opp, Z.opp_sub_distr, Z.add_comm, Z.add_opp_r.
  - intros x y z. cbn. unfold line_cdist. rewrite <- inject_Z_plus, <- Zle_Qle.
    assert (G : forall a b c : Z, (Z.abs (a - c) <= Z.abs (a - b) + Z.abs (b - c))%Z)
      by (intros a b c; lia).
    apply G.
Qed.

Lemma tree_search_complete_witness :
  exists found,
    tree_search env4 manifold4 (root manifold4) 0%Z 1%Q (-1) = Ok found
    /\ (forall x, In x (map fst found) -> In x (nodes (root manifold4)))
    /\ forall p, In p (argpoints (root manifold4)) ->
         (cdist env4 0%Z (data env4 p) <= 1)%Q -> covered found p.
Proof.
  apply (tree_search_complete env4 manifold4 (root manifold4) 0%Z 1%Q (-1)).
  - apply line_env_metric_space.
  - apply well_formedb_ok. vm_compute. reflexivity.
  - vm_compute. reflexivity.
Defined.

(** ** Sorting by distance *)

Lemma insert_by_distance_in (x y : nat * Q) (l : list (nat * Q)) :
  In y (insert_by_distance x l) <-> y = x \/ In y l.
Proof.
  induction l as [|z t IH]; cbn [insert_by_distance].
  - cbn. intuition congruence.
  - destruct (Qlt_bool (snd x) (snd z)); cbn [In]; [intuition congruence|].
    rewrite IH. intuition congruence.
Qed.

Lemma sort_by_distance_from (l : list (nat * Q)) : forall acc y,
  In y (fold_left (fun acc x => insert_by_distance x acc) l acc) <-> In y acc \/ In y l.
Proof.
  induction l as [|x t IH]; intros acc y; cbn [fold_left].
  - cbn. tauto.
  - rewrite IH, insert_by_distance_in. cbn [In]. intuition congruence.
Qed.

Lemma sort_by_distance_in (l : list (nat * Q)) (y : nat * Q) :
  In y (sort_by_distance l) <-> In y l.
Proof. unfold sort_by_distance. rewrite sort_by_distance_from. cbn. tauto. Qed.

Lemma insert_by_distance_length (x : nat * Q) (l : list (nat * Q)) :
  length (insert_by_distance x l) = S (length l).
Proof.
  induction l as [|z t IH]; cbn [insert_by_distance]; [reflexivity|].
  destruct (Qlt_bool (snd x) (snd z)); cbn [length]; [reflexivity | now rewrite IH].
Qed.

Lemma sort_by_distance_length (l : list (nat * Q)) :
  length (sort_by_distance l) = length l.
Proof.
  unfold sort_by_distance.
  assert (G : forall acc, length (fold_left (fun acc x => insert_by_distance x acc) l acc)
                          = length acc + length l).
  { induction l as [|x t IH]; intro acc; cbn [fold_left length]; [lia|].
    rewrite IH, insert_by_distance_length. lia. }
  now rewrite G.
Qed.

Lemma insert_by_distance_sorted (x : nat * Q) (l : list (nat * Q)) :
  StronglySorted (fun a b => (snd a <= snd b)%Q) l ->
  StronglySorted (fun a b => (snd a <= snd b)%Q) (insert_by_distance x l).
Proof.
  induction l as [|z t IH]; intro Hs; cbn [insert_by_distance].
  - repeat constructor.
  - apply StronglySorted_inv in Hs. destruct Hs as [Ht Hz].
    destruct (Qlt_bool (snd x) (snd z)) eqn:Hxz.
    + apply Qlt_bool_iff in Hxz. constructor; [now constructor|].
      constructor; [now apply Qlt_le_weak|].
      rewrite Forall_forall in *. intros w Hw.
      apply Qle_trans with (snd z); [now apply Qlt_le_weak | now apply Hz].
    + unfold Qlt_bool in Hxz. apply negb_false_iff, Qle_bool_iff in Hxz.
      constructor; [now apply IH|].
      rewrite Forall_forall in *. intros w Hw.
      apply insert_by_distance_in in Hw. destruct Hw as [->|Hw]; [exact Hxz | now apply Hz].
Qed.

Lemma sort_by_distance_sorted (l : list (nat * Q)) :
  StronglySorted (fun a b => (snd a <= snd b)%Q) (sort_by_distance l).
Proof.
  unfold sort_by_distance. generalize (@nil (nat * Q)) (SSorted_nil (fun a b : nat * Q => (snd a <= snd b)%Q)).
  induction l as [|x t IH]; intros acc Ha; cbn [fold_left]; [exact Ha|].
  apply IH. now apply insert_by_distance_sorted.
Qed.

Lemma insert_by_distance_perm (x : nat * Q) (l : list (nat * Q)) :
  Permutation (insert_by_distance x l) (x :: l).
Proof.
  induction l as [|z t IH]; cbn [insert_by_distance]; [apply Permutation_refl|].
  destruct (Qlt_bool (snd x) (snd z)); [apply Permutation_refl|].
  apply Permutation_trans with (z :: x :: t); [now constructor | constructor].
Qed.

Lemma sort_by_distance_perm (l : list (nat * Q)) : Permutation (sort_by_distance l) l.
Proof.
  unfold sort_by_distance.
  assert (G : forall acc,
            Permutation (fold_left (fun acc x => insert_by_distance x acc) l acc) (l ++ acc)).
  { induction l as [|x t IH]; intro acc; cbn [fold_left app]; [apply Permutation_refl|].
    apply Permutation_trans with (t ++ insert_by_distance x acc); [apply IH|].
    apply Permutation_trans with (t ++ x :: acc).
    - apply Permutation_app_head, insert_by_distance_perm.
    - apply Permutation_sym, Permutation_middle. }
  specialize (G []). now rewrite app_nil_r in G.
Qed.

Lemma sort_by_distance_NoDup (l : list (nat * Q)) :
  NoDup (map fst l) -> NoDup (map fst (sort_by_distance l)).
Proof.
  apply Permutation_NoDup, Permutation_map, Permutation_sym, sort_by_distance_perm.
Qed.

(** ** The points in a ball *)

Lemma keys_distinct_nat (l : list nat) : keys_distinct Nat.eqb l -> NoDup l.
Proof.
  induction l as [|a t IH]; intro H; constructor; destruct H as [Ha Ht].
  - intro Hin. specialize (Ha a Hin). rewrite Nat.eqb_refl in Ha. discriminate.
  - now apply IH.
Qed.

Lemma nodes_points (c x : Cluster) :
  well_formed c -> In x (nodes c) -> incl (argpoints x) (argpoints c).
Proof.
  revert x. induction c as [c IH] using cluster_induction. intros x Hw Hx.
  rewrite nodes_eq in Hx. destruct Hx as [<-|Hx]; [apply incl_refl|].
  apply in_concat in Hx. destruct Hx as [l [Hl Hx]].
  apply in_map_iff in Hl. destruct Hl as [k [<- Hk]].
  apply incl_tran with (argpoints k).
  - apply (IH k Hk x); [|exact Hx].
    intros y Hy. apply Hw. apply (nodes_child c k); assumption.
  - exact (proj2 (proj1 (Hw c (nodes_self c)) k Hk)).
Qed.

(** Dictionaries whose keys are numbers. *)
Lemma nat_dict_update_in {V : Type} (d items : list (nat * V)) (p : nat) (v : V) :
  In (p, v) (dict_update Nat.eqb d items) -> In (p, v) d \/ In (p, v) items.
Proof.
  intro H. apply In_dict_update_key in H. destruct H as [H|[k [Hk Hx]]]; [now left|].
  right. replace p with k; [exact Hk|].
  destruct Hx as [->|[Hx _]]; [reflexivity | now apply Nat.eqb_eq in Hx].
Qed.

Lemma nat_dict_update_keys {V : Type} (d items : list (nat * V)) (p : nat) :
  In p (map fst (dict_update Nat.eqb d items)) <-> In p (map fst d) \/ In p (map fst items).
Proof.
  rewrite <- !memb_nat_iff.
  change (map fst (dict_update Nat.eqb d items)) with (dict_keys (dict_update Nat.eqb d items)).
  rewrite (memb_keys_update Nat.eqb nat_eqb_equivalence). apply orb_true_iff.
Qed.

Section PointsInBall.
Variable E : Env.
Variable point : Data E.
Variable r : Q.

(** The entries that one batch of [find_points] brings. *)
Local Abbreviation batch_items :=
  (fun batch : list nat =>
     filter (fun pd : nat * Q => Qle_bool (snd pd) r)
       (combine batch (map (fun p => cdist E point (data E p)) batch))).

Lemma batch_items_in (batch : list nat) (p : nat) (v : Q) :
  In (p, v) (batch_items batch)
  <-> In p batch /\ v = cdist E point (data E p) /\ (v <= r)%Q.
Proof.
  rewrite filter_In. cbn [snd]. rewrite Qle_bool_iff.
  rewrite <- (map_id batch) at 1. rewrite combine_map_map.
  rewrite in_map_iff. unfold id. split.
  - intros [[y [Hy Hin]] Hle]. injection Hy as <- <-. auto.
  - intros [Hin [-> Hle]]. split; [|exact Hle]. exists p. auto.
Qed.

Lemma hits_fold (bs : list (list nat)) : forall (done : list nat) (R : list (nat * Q)),
  keys_distinct Nat.eqb (dict_keys R) ->
  (forall p v, In (p, v) R ->
     In p done /\ v = cdist E point (data E p) /\ (v <= r)%Q) ->
  (forall p, In p done -> (cdist E point (data E p) <= r)%Q -> In p (map fst R)) ->
  let R' := fold_left
              (fun results batch =>
                 dict_update Nat.eqb results (dict_of Nat.eqb (batch_items batch)))
              bs R in
  keys_distinct Nat.eqb (dict_keys R')
  /\ (forall p v, In (p, v) R' ->
        In p (done ++ concat bs) /\ v = cdist E point (data E p) /\ (v <= r)%Q)
  /\ (forall p, In p (done ++ concat bs) -> (cdist E point (data E p) <= r)%Q ->
        In p (map fst R')).
Proof.
  induction bs as [|b bs IH]; intros done R Hd Hs Hc; cbn [fold_left concat].
  - rewrite app_nil_r. auto.
  - rewrite app_assoc. apply IH.
    + now apply keys_distinct_update.
    + intros p v H. apply nat_dict_update_in in H. destruct H as [H|H].
      * destruct (Hs p v H) as [Hin Hv]. split; [apply in_or_app; now left | exact Hv].
      * unfold dict_of in H. apply nat_dict_update_in in H. destruct H as [[]|H].
        apply batch_items_in in H. destruct H as [Hin Hv].
        split; [apply in_or_app; now right | exact Hv].
    + intros p Hin Hle. apply nat_dict_update_keys.
      apply in_app_or in Hin. destruct Hin as [Hin|Hin]; [left; now apply Hc|].
      right. unfold dict_of. apply nat_dict_update_keys. right.
      apply in_map_iff. exists (p, cdist E point (data E p)).
      split; [reflexivity|]. apply batch_items_in. auto.
Qed.
End PointsInBall.

(** [find_points] returns the points of the ball around the query point. *)
Lemma find_points_ball (E : Env) (m : Manifold) (point : Data E) (r : Q) :
  metric_space E -> well_formed (root m) ->
  name (root m) = EmptyString ->
  hd_error (map clusters (layers m)) = Some [root m] ->
  exists l,
    find_points E m point r = Ok l
    /\ NoDup (map fst l)
    /\ StronglySorted (fun a b => (snd a <= snd b)%Q) l
    /\ forall p v,
         In (p, v) l
         <-> In p (argpoints (root m)) /\ v = cdist E point (data E p) /\ (v <= r)%Q.
Proof.
  intros Hs Hw Hn Hl.
  destruct (layers m) as [|l0 rest] eqn:El; [discriminate|].
  cbn [map hd_error] in Hl. injection Hl as Hl.
  assert (Hd : (Z.of_nat (depth (root m))
                < effective_depth m (Z.of_nat (length (layers m))))%Z).
  { unfold effective_depth, depth. rewrite Hn, El. cbn [count_zero length].
    destruct (Z.of_nat (S (length rest)) =? -1)%Z; lia. }
  destruct (tree_search_covers E m (root m) point r _ Hs Hw Hd)
    as [found [Hrun [Hkeys Hcov]]].
  unfold find_points, find_clusters. rewrite ?El in *.
  rewrite Hl. cbn [rmap]. rewrite Hrun. cbn [rbind concat].
  rewrite app_nil_r.
  set (cs := dict_of cluster_eqb found).
  set (candidates := flat_map (fun cd : Cluster * Q => argpoints (fst cd)) cs).
  destruct (hits_fold E point r (batches BATCH_SIZE candidates) [] []) as [Hd' [Hs' Hc']].
  { exact I. }
  { intros p v []. }
  { intros p []. }
  cbn [app] in Hs', Hc'. rewrite batches_concat in Hs', Hc'.
  set (R := fold_left _ (batches BATCH_SIZE candidates) []) in *.
  exists (sort_by_distance R). split; [reflexivity|].
  split; [apply sort_by_distance_NoDup, keys_distinct_nat, Hd'|].
  split; [apply sort_by_distance_sorted|].
  assert (Hcand : forall p, In p candidates -> In p (argpoints (root m))).
  { intros p Hp. apply in_flat_map in Hp. destruct Hp as [cd [Hcd Hp]].
    apply (nodes_points (root m) (fst cd) Hw); [|exact Hp].
    apply Hkeys. apply keys_of_incl. now apply in_map. }
  intros p v. rewrite sort_by_distance_in. split.
  - intro H. destruct (Hs' p v H) as [Hin Hv]. split; [now apply Hcand | exact Hv].
  - intros [Hin [Hv Hle]].
    assert (Hkey : In p (map fst R)).
    { apply Hc'; [|now rewrite <- Hv].
      destruct (covered_of found p (Hcov p Hin (eq_ind v (fun z => (z <= r)%Q) Hle _ Hv)))
        as [x [Hx Hpx]].
      apply in_flat_map. apply in_map_iff in Hx. destruct Hx as [cd [<- Hcd]].
      exists cd. auto. }
    apply in_map_iff in Hkey. destruct Hkey as [[p' v'] [Hp' Hin']].
    cbn [fst] in Hp'. subst p'.
    destruct (Hs' p v' Hin') as [_ [Hv' _]]. now rewrite Hv, <- Hv'.
Qed.

(** X6.  In a metric space, on a manifold whose tree is as [partition]
    makes it, with a root named '' that is alone in the first layer,
    [find_points] does not raise and returns exactly the points of the
    manifold within [radius] of the query point: each one once, with its
    distance, nearest first. *)
Theorem find_points_exact (E : Env) (m : Manifold) (point : Data E) (r : Q) :
  metric_space E -> well_formed (root m) ->
  name (root m) = EmptyString ->
  hd_error (map clusters (layers m)) = Some [root m] ->
  exists l,
    find_points E m point r = Ok l
    /\ NoDup (map fst l)
    /\ StronglySorted (fun a b => (snd a <= snd b)%Q) l
    /\ forall p v,
         In (p, v) l
         <-> In p (argpoints (root m)) /\ v = cdist E point (data E p) /\ (v <= r)%Q.
Proof. exact (find_points_ball E m point r). Qed.

Lemma find_points_exact_witness :
  exists l,
    find_points env4 manifold4 0%Z 1%Q = Ok l
    /\ NoDup (map fst l)
    /\ StronglySorted (fun a b => (snd a <= snd b)%Q) l
    /\ forall p v,
         In (p, v) l
         <-> In p (argpoints (root manifold4))
             /\ v = cdist env4 0%Z (data env4 p) /\ (v <= 1)%Q.
Proof.
  apply (find_points_exact env4 manifold4 0%Z 1%Q).
  - apply line_env_metric_space.
  - apply well_formedb_ok. vm_compute. reflexivity.
  - vm_compute. reflexivity.
  - vm_compute. reflexivity.
Defined.

(** ** find_knn: the nearest points *)

Lemma distances_bounded (E : Env) (point : Data E) (l : list nat) :
  exists D, forall p, In p l -> (cdist E point (data E p) <= D)%Q.
Proof.
  induction l as [|a l [D IH]].
  - exists 0%Q. intros p [].
  - destruct (Qlt_le_dec D (cdist E point (data E a))) as [H|H].
    + exists (cdist E point (data E a)). intros p [<-|Hp]; [apply Qle_refl|].
      apply Qle_trans with D; [now apply IH | now apply Qlt_le_weak].
    + exists D. intros p [<-|Hp]; [exact H | now apply IH].
Qed.

Lemma below_integer (q : Q) : (q <= inject_Z (Z.abs (Qnum q)))%Q.
Proof.
  destruct q as [a b]. unfold Qle, inject_Z. cbn [Qnum Qden]. nia.
Qed.

(** Doubling a positive radius reaches every bound. *)
Lemma doubling_reaches (r D : Q) :
  (0 < r)%Q -> exists n, (D <= r * inject_Z (2 ^ Z.of_nat n))%Q.
Proof.
  intro Hr. set (z := Z.abs (Qnum (D / r))).
  exists (Z.to_nat z).
  assert (Hz : (D / r <= inject_Z (2 ^ Z.of_nat (Z.to_nat z)))%Q).
  { apply Qle_trans with (inject_Z z); [apply below_integer|].
    rewrite <- Zle_Qle. rewrite Z2Nat.id by (unfold z; lia).
    apply Z.lt_le_incl, Z.pow_gt_lin_r; [lia | unfold z; lia]. }
  assert (Hne : ~ (r == 0)%Q) by (intro H0; rewrite H0 in Hr; discriminate).
  rewrite <- (Qmult_div_r D r Hne) at 1. apply Qmult_le_l; [exact Hr | exact Hz].
Qed.

Lemma sorted_app_inv {A : Type} (R : A -> A -> Prop) (l1 l2 : list A) :
  StronglySorted R (l1 ++ l2) ->
  StronglySorted R l1 /\ forall a b, In a l1 -> In b l2 -> R a b.
Proof.
  induction l1 as [|x l1 IH]; cbn [app]; intro H.
  - split; [constructor | intros a b []].
  - inversion H as [|? ? Hs Hall]; subst. destruct (IH Hs) as [IH1 IH2].
    rewrite Forall_forall in Hall. split.
    + constructor; [exact IH1|]. apply Forall_forall. intros y Hy.
      apply Hall, in_or_app. now left.
    + intros a b [<-|Ha] Hb; [|now apply IH2].
      apply Hall, in_or_app. now right.
Qed.

Section Nearest.
Variable E : Env.
Variable m : Manifold.
Variable point : Data E.
Variable k : nat.
Hypothesis space : metric_space E.
Hypothesis tree : well_formed (root m).
Hypothesis root_name : name (root m) = EmptyString.
Hypothesis first_layer : hd_error (map clusters (layers m)) = Some [root m].
Hypothesis enough : k <= length (nodup Nat.eq_dec (argpoints (root m))).

Lemma initial_radius_positive : exists r, initial_radius E m = Ok r /\ (0 < r)%Q.
Proof.
  unfold initial_radius. destruct (rev (layers m)) as [|deepest rest] eqn:Er.
  - apply (f_equal (@length _)) in Er. rewrite length_rev in Er.
    destruct (layers m); [discriminate first_layer | discriminate Er].
  - eexists. split; [reflexivity|].
    destruct (Qlt_bool _ _) eqn:Hlt; [reflexivity|].
    unfold Qlt_bool in Hlt. apply negb_false_iff, Qle_bool_iff in Hlt.
    eapply Qlt_le_trans; [|exact Hlt]. reflexivity.
Qed.

Lemma all_points_found (D r : Q) (l : list (nat * Q)) :
  (forall p, In p (argpoints (root m)) -> (cdist E point (data E p) <= D)%Q) ->
  (D <= r)%Q -> find_points E m point r = Ok l -> k <= length l.
Proof.
  intros HD Hr Hrun.
  destruct (find_points_ball E m point r space tree root_name first_layer)
    as [l' [Hrun' [Hnd [_ Hin]]]].
  rewrite Hrun in Hrun'. injection Hrun' as <-.
  rewrite <- (length_map fst l).
  eapply Nat.le_trans; [exact enough|].
  apply NoDup_incl_length; [apply NoDup_nodup|].
  intros p Hp. apply nodup_In in Hp.
  assert (H : In (p, cdist E point (data E p)) l).
  { apply Hin. split; [exact Hp|]. split; [reflexivity|].
    apply Qle_trans with D; [now apply HD | exact Hr]. }
  now apply (in_map fst) in H.
Qed.

Lemma knn_loop_returns (D : Q) :
  (forall p, In p (argpoints (root m)) -> (cdist E point (data E p) <= D)%Q) ->
  forall gap r l,
    find_points E m point r = Ok l ->
    (D <= r * inject_Z (2 ^ Z.of_nat gap))%Q ->
    exists r' l',
      (forall fuel, gap <= fuel -> knn_loop E m fuel point k r l = Some (Ok l'))
      /\ find_points E m point r' = Ok l' /\ k <= length l'.
Proof.
  intros HD gap. induction gap as [|gap IH]; intros r l Hrun Hr;
    (destruct (length l <? k) eqn:Hlen;
     [|exists r, l; split;
        [intros fuel _; destruct fuel; cbn [knn_loop]; now rewrite Hlen
        |split; [exact Hrun | now apply Nat.ltb_ge]]]).
  - exfalso. apply Nat.ltb_lt in Hlen.
    assert (k <= length l); [|lia].
    apply (all_points_found D r l HD); [|exact Hrun].
    change (2 ^ Z.of_nat 0)%Z with 1%Z in Hr. now rewrite Qmult_1_r in Hr.
  - destruct (find_points_ball E m point (r * 2) space tree root_name first_layer)
      as [l2 [Hrun2 _]].
    destruct (IH (r * 2)%Q l2 Hrun2) as [r' [l' [Hloop Hl']]].
    { eapply Qle_trans; [exact Hr|]. rewrite Nat2Z.inj_succ, Z.pow_succ_r by lia.
      rewrite inject_Z_mult. change (inject_Z 2) with 2%Q.
      rewrite Qmult_assoc. apply Qle_refl. }
    exists r', l'. split; [|exact Hl'].
    intros fuel Hfuel. destruct fuel as [|fuel]; [lia|].
    cbn [knn_loop]. rewrite Hlen, Hrun2. apply Hloop. lia.
Qed.
End Nearest.

(** X7.  In a metric space, on a manifold whose tree is as [partition]
    makes it, with a root named '' that is alone in the first layer,
    [find_knn] with [k] at most the number of points returns (for every
    fuel of its loop from some fuel on): it gives [k] different points of
    the manifold with their distances to the query point, nearest first,
    and no other point of the manifold is nearer than one of them. *)
Theorem find_knn_nearest (E : Env) (m : Manifold) (point : Data E) (k : nat) :
  metric_space E -> well_formed (root m) ->
  name (root m) = EmptyString ->
  hd_error (map clusters (layers m)) = Some [root m] ->
  k <= length (nodup Nat.eq_dec (argpoints (root m))) ->
  exists fuel l,
    (forall fuel', fuel <= fuel' -> find_knn E m fuel' point k = Some (Ok l))
    /\ length l = k
    /\ NoDup (map fst l)
    /\ StronglySorted (fun a b => (snd a <= snd b)%Q) l
    /\ (forall p v, In (p, v) l ->
          In p (argpoints (root m)) /\ v = cdist E point (data E p))
    /\ (forall p, In p (argpoints (root m)) -> ~ In p (map fst l) ->
          forall q v, In (q, v) l -> (v <= cdist E point (data E p))%Q).
Proof.
  intros Hs Hw Hn Hl Hk.
  destruct (initial_radius_positive E m Hl) as [r0 [Hr0 Hpos]].
  destruct (find_points_ball E m point r0 Hs Hw Hn Hl) as [l0 [Hrun0 _]].
  destruct (distances_bounded E point (argpoints (root m))) as [D HD].
  destruct (doubling_reaches r0 D Hpos) as [gap Hgap].
  destruct (knn_loop_returns E m point k Hs Hw Hn Hl Hk D HD gap r0 l0 Hrun0 Hgap)
    as [r' [l' [Hloop [Hrun' Hlen]]]].
  destruct (find_points_ball E m point r' Hs Hw Hn Hl) as [l'' [Hrun'' [Hnd [_ Hin]]]].
  rewrite Hrun' in Hrun''. injection Hrun'' as <-.
  set (S' := sort_by_distance l').
  assert (Hsorted : StronglySorted (fun a b => (snd a <= snd b)%Q)
                      (firstn k S' ++ skipn k S'))
    by (rewrite firstn_skipn; apply sort_by_distance_sorted).
  apply sorted_app_inv in Hsorted. destruct Hsorted as [Hfirst Hcross].
  assert (Hmem : forall x, In x (firstn k S') -> In x l').
  { intros x Hx. apply sort_by_distance_in. fold S'.
    rewrite <- (firstn_skipn k S'). apply in_or_app. now left. }
  exists gap, (firstn k S'). split; [|split; [|split; [|split; [|split]]]].
  - intros fuel Hfuel. unfold find_knn. rewrite Hr0, Hrun0, (Hloop fuel Hfuel).
    reflexivity.
  - rewrite length_firstn. unfold S'. rewrite sort_by_distance_length. lia.
  - rewrite <- firstn_map. apply NoDup_firstn. now apply sort_by_distance_NoDup.
  - exact Hfirst.
  - intros p v Hpv. destruct (proj1 (Hin p v) (Hmem _ Hpv)) as [H1 [H2 _]]. now split.
  - intros p Hp Hout q v Hqv.
    destruct (Qlt_le_dec r' (cdist E point (data E p))) as [Hfar|Hnear].
    + destruct (proj1 (Hin q v) (Hmem _ Hqv)) as [_ [_ Hv]].
      apply Qle_trans with r'; [exact Hv | now apply Qlt_le_weak].
    + assert (Hp' : In (p, cdist E point (data E p)) S').
      { apply sort_by_distance_in, Hin. auto. }
      rewrite <- (firstn_skipn k S') in Hp'. apply in_app_or in Hp'.
      destruct Hp' as [Hp'|Hp'].
      * exfalso. apply Hout. now apply (in_map fst) in Hp'.
      * exact (Hcross _ _ Hqv Hp').
Qed.

Lemma find_knn_nearest_witness :
  exists fuel l,
    (forall fuel', fuel <= fuel' -> find_knn env4 manifold4 fuel' 0%Z 2 = Some (Ok l))
    /\ length l = 2
    /\ NoDup (map fst l)
    /\ StronglySorted (fun a b => (snd a <= snd b)%Q) l
    /\ (forall p v, In (p, v) l ->
          In p (argpoints (root manifold4)) /\ v = cdist env4 0%Z (data env4 p))
    /\ (forall p, In p (argpoints (root manifold4)) -> ~ In p (map fst l) ->
          forall q v, In (q, v) l -> (v <= cdist env4 0%Z (data env4 p))%Q).
Proof.
  apply (find_knn_nearest env4 manifold4 0%Z 2).
  - apply line_env_metric_space.
  - apply well_formedb_ok. vm_compute. reflexivity.
  - vm_compute. reflexivity.
  - vm_compute. reflexivity.
  - vm_compute. lia.
Defined.

(** ** Lineages *)

Lemma string_app_assoc (a b c : string) : ((a ++ b) ++ c = a ++ (b ++ c))%string.
Proof. induction a as [|x a IH]; cbn; [reflexivity | now rewrite IH]. Qed.

Lemma string_app_nil_r (a : string) : (a ++ EmptyString)%string = a.
Proof. induction a as [|x a IH]; cbn; [reflexivity | now rewrite IH]. Qed.

Lemma last_cons_default {A : Type} (l : list A) : forall a d, last (a :: l) d = last l a.
Proof.
  induction l as [|b t IH]; intros a d; [reflexivity|].
  change (last (a :: b :: t) d) with (last (b :: t) d). now rewrite !IH.
Qed.

Lemma named_treeb_ok (c : Cluster) : named_treeb c = true -> named_tree c.
Proof.
  unfold named_treeb, named_tree. rewrite forallb_forall. intros H x k Hx Hk.
  specialize (H x Hx). rewrite forallb_forall in H. specialize (H k Hk).
  apply existsb_exists in H. destruct H as [i [_ Hi]].
  exists i. now apply String.eqb_eq.
Qed.

Lemma split_zero_ones (i : nat) : forall acc s,
  split_zero_aux acc (ones i ++ s) = split_zero_aux (acc ++ ones i) s.
Proof.
  induction i as [|i IH]; intros acc s; cbn [ones String.append].
  - now rewrite string_app_nil_r.
  - cbn [split_zero_aux Ascii.eqb Bool.eqb]. cbn. rewrite IH.
    now rewrite string_app_assoc.
Qed.

Lemma split_zero_join (indices : list nat) : forall acc,
  split_zero_aux acc (join indices) = acc :: map ones indices.
Proof.
  induction indices as [|i t IH]; intro acc; [reflexivity|].
  cbn [join map]. change ("0" ++ ones i ++ join t)%string
    with (String "0"%char (ones i ++ join t)).
  cbn [split_zero_aux]. change (Ascii.eqb "0" "0") with true. cbv iota.
  now rewrite split_zero_ones, IH.
Qed.

Lemma names_from_last (indices : list nat) : forall pre,
  last (names_from pre indices) pre = (pre ++ join indices)%string.
Proof.
  induction indices as [|i t IH]; intro pre.
  - cbn. now rewrite string_app_nil_r.
  - cbn [names_from join].
    rewrite last_cons_default, IH. unfold child_name. now rewrite !string_app_assoc.
Qed.

Lemma ancestor_fold (indices : list nat) : forall acc,
  fold_left (fun acc piece => acc ++ [(last acc EmptyString ++ "0" ++ piece)%string])
            (map ones indices) acc
  = acc ++ names_from (last acc EmptyString) indices.
Proof.
  induction indices as [|i t IH]; intro acc; cbn [map fold_left names_from].
  - now rewrite app_nil_r.
  - rewrite IH, last_last, <- app_assoc. reflexivity.
Qed.

Lemma ancestor_names_join (indices : list nat) :
  ancestor_names (join indices) = EmptyString :: names_from EmptyString indices.
Proof.
  unfold ancestor_names, split_zero. rewrite split_zero_join. cbn [tl].
  now rewrite ancestor_fold.
Qed.

Lemma chain_names (path : list Cluster) : forall r,
  named_tree r -> chain r path ->
  exists indices, map name path = names_from (name r) indices.
Proof.
  induction path as [|k t IH]; intros r Hn Hc.
  - now exists [].
  - destruct Hc as [Hk Hc].
    destruct (Hn r k (nodes_self r) Hk) as [i Hi].
    destruct (IH k) as [indices Hind]; [|exact Hc|].
    + intros x y Hx Hy. apply (Hn x y); [|exact Hy].
      now apply (nodes_child r k).
    + exists (i :: indices). cbn [map names_from]. now rewrite <- Hi, Hind.
Qed.

Lemma nodes_chain (c : Cluster) : forall r,
  In c (nodes r) -> exists path, chain r path /\ last path r = c.
Proof.
  intro r. revert c. pattern r. apply cluster_induction. clear r.
  intros r IH c Hc. rewrite nodes_eq in Hc. destruct Hc as [<-|Hc].
  - now exists [].
  - apply in_concat in Hc. destruct Hc as [l [Hl Hc]].
    apply in_map_iff in Hl. destruct Hl as [k [<- Hk]].
    destruct (IH k Hk c Hc) as [path [Hp Hlast]].
    exists (k :: path). split; [now split|].
    now rewrite last_cons_default.
Qed.

Lemma chain_nodes (path : list Cluster) : forall r x,
  chain r path -> In x path -> In x (nodes r).
Proof.
  induction path as [|k t IH]; intros r x Hc Hx; [destruct Hx|].
  destruct Hc as [Hk Hc]. apply (nodes_child r k); [exact Hk|].
  destruct Hx as [<-|Hx]; [apply nodes_self | now apply IH].
Qed.

Lemma descend_chain (m : Manifold) (path : list Cluster) : forall r,
  NoDup (map name (nodes (root m))) ->
  In r (nodes (root m)) -> chain r path ->
  descend r (map name path) = path.
Proof.
  induction path as [|k t IH]; intros r Hu Hr Hc; [reflexivity|].
  destruct Hc as [Hk Hc]. cbn [map descend].
  assert (Hnc : no_children r = false).
  { unfold no_children, children_list in *. destruct (children r) as [[|]|];
      [destruct Hk | reflexivity | destruct Hk]. }
  rewrite Hnc.
  assert (Hkn : In k (nodes (root m))).
  { apply (nodes_trans (root m) r); [exact Hr|].
    apply (nodes_child r k); [exact Hk | apply nodes_self]. }
  destruct (find_child (children_list r) (name k)) as [k'|] eqn:F.
  - unfold find_child in F. apply find_some in F. destruct F as [Hk' Hn].
    apply String.eqb_eq in Hn.
    assert (k' = k) as ->.
    { apply (unique_name m); [exact Hu | | exact Hkn | exact Hn].
      apply (nodes_trans (root m) r); [exact Hr|].
      apply (nodes_child r k'); [exact Hk' | apply nodes_self]. }
    f_equal. now apply IH.
  - unfold find_child in F. pose proof (find_none _ _ F k Hk) as Hf.
    cbn in Hf. now rewrite String.eqb_refl in Hf.
Qed.

Lemma descend_is_chain (names : list string) : forall r, chain r (descend r names).
Proof.
  induction names as [|n t IH]; intro r; cbn [descend]; [exact I|].
  destruct (no_children r); [exact I|].
  destruct (find_child (children_list r) n) as [child|] eqn:F; [|apply IH].
  unfold find_child in F. apply find_some in F. destruct F as [Hc _].
  split; [exact Hc | apply IH].
Qed.

(** X8.  What [ancestry] returns for a name is a path down the tree from
    the root, each cluster a child of the one before, that ends in a cluster
    of that name, not deeper than the manifold, which is what [select]
    returns; and the only error of the two is a ValueError. *)
Theorem ancestry_sound (m : Manifold) (n : string) :
  match ancestry m n with
  | Ok lineage =>
      exists path,
        lineage = root m :: path
        /\ chain (root m) path
        /\ name (last path (root m)) = n
        /\ depth (last path (root m)) <= manifold_depth m
        /\ select m n = Ok (last path (root m))
  | Raise e => e = ValueError /\ select m n = Raise ValueError
  end.
Proof.
  unfold select, ancestry.
  destruct (manifold_depth m <? count_zero n) eqn:Hd; [now split|].
  cbv zeta.
  set (path := if 0 <? String.length n
               then descend (root m) (tl (ancestor_names n)) else []).
  rewrite last_cons_default.
  destruct (String.eqb n (name (last path (root m)))) eqn:Hn; cbn [negb rbind];
    [|now split].
  apply String.eqb_eq in Hn. apply Nat.ltb_ge in Hd.
  exists path. split; [reflexivity|]. split.
  - unfold path. destruct (0 <? String.length n); [apply descend_is_chain | exact I].
  - split; [now symmetry|]. split.
    + unfold depth. now rewrite <- Hn.
    + now rewrite last_cons_default.
Qed.

Section RoundTrip.
Variable m : Manifold.
Hypothesis root_name : name (root m) = EmptyString.
Hypothesis names : named_tree (root m).
Hypothesis distinct : NoDup (map name (nodes (root m))).

Lemma ancestry_of_node (c : Cluster) :
  In c (nodes (root m)) -> depth c <= manifold_depth m ->
  exists path,
    ancestry m (name c) = Ok (root m :: path)
    /\ chain (root m) path /\ last path (root m) = c.
Proof.
  intros Hc Hd.
  destruct (nodes_chain c (root m) Hc) as [path [Hp Hlast]].
  destruct (chain_names path (root m) names Hp) as [indices Hind].
  assert (Hname : name c = join indices).
  { rewrite <- Hlast.
    transitivity (last (map name path) (name (root m))).
    - clear. generalize (root m). induction path as [|k t IH]; intro r; [reflexivity|].
      cbn [map]. now rewrite !last_cons_default.
    - rewrite Hind, names_from_last, root_name. reflexivity. }
  exists path. split; [|now split].
  unfold ancestry. unfold depth in Hd.
  assert (H1 : (manifold_depth m <? count_zero (name c)) = false)
    by (apply Nat.ltb_ge; exact Hd).
  rewrite H1. cbv zeta.
  assert (Hpath : (if 0 <? String.length (name c)
                   then descend (root m) (tl (ancestor_names (name c))) else [])
                  = path).
  { rewrite Hname, ancestor_names_join. cbn [tl].
    rewrite root_name in Hind. rewrite <- Hind.
    destruct (0 <? String.length (join indices)) eqn:Hlen.
    - apply (descend_chain m); [exact distinct | apply nodes_self | exact Hp].
    - destruct indices as [|i t]; [|discriminate Hlen].
      destruct path; [reflexivity | discriminate Hind]. }
  rewrite Hpath, last_cons_default, Hlast, String.eqb_refl. reflexivity.
Qed.
End RoundTrip.

(** X9.  In a tree whose root is named '', whose children are named as
    [partition] names them and where no two clusters have the same name,
    every cluster that is not deeper than the manifold is what [select]
    returns for its name, and [ancestry] gives the path from the root down
    to it. *)
Theorem select_round_trip (m : Manifold) (c : Cluster) :
  name (root m) = EmptyString -> named_tree (root m) ->
  NoDup (map name (nodes (root m))) ->
  In c (nodes (root m)) -> depth c <= manifold_depth m ->
  select m (name c) = Ok c
  /\ exists path,
       ancestry m (name c) = Ok (root m :: path)
       /\ chain (root m) path /\ last path (root m) = c.
Proof.
  intros Hr Hn Hu Hc Hd.
  destruct (ancestry_of_node m Hr Hn Hu c Hc Hd) as [path [Ha [Hp Hlast]]].
  split; [|now exists path].
  unfold select. rewrite Ha. cbn [rbind]. now rewrite last_cons_default, Hlast.
Qed.

Lemma select_round_trip_witness :
  select manifold4 (name near0) = Ok near0
  /\ exists path,
       ancestry manifold4 (name near0) = Ok (root manifold4 :: path)
       /\ chain (root manifold4) path /\ last path (root manifold4) = near0.
Proof.
  apply (select_round_trip manifold4 near0).
  - vm_compute. reflexivity.
  - apply named_treeb_ok. vm_compute. reflexivity.
  - vm_compute. repeat constructor; cbn; intuition discriminate.
  - vm_compute. tauto.
  - vm_compute. lia.
Defined.

Lemma chain_last_parent (path : list Cluster) : forall r p c rest,
  chain r path -> rev (r :: path) = c :: p :: rest -> In c (children_list p).
Proof.
  induction path as [|k t IH]; intros r p c rest Hc Hrev; [discriminate Hrev|].
  destruct Hc as [Hk Hc]. destruct t as [|k' t'].
  - cbn in Hrev. injection Hrev as <- <- _. exact Hk.
  - apply (IH k p c (removelast rest)); [exact Hc|].
    change (rev (r :: k :: k' :: t')) with (rev (k :: k' :: t') ++ [r]) in Hrev.
    destruct (rev (k :: k' :: t')) as [|a [|b l]] eqn:Er.
    + apply (f_equal (@length _)) in Er. rewrite length_rev in Er. discriminate Er.
    + apply (f_equal (@length _)) in Er. rewrite length_rev in Er. discriminate Er.
    + cbn [app] in Hrev. injection Hrev as <- <- <-.
      f_equal. f_equal. now rewrite removelast_last.
Qed.

(** X10.  In a tree whose root is named '', whose children are named as
    [partition] names them and where no two clusters have the same name,
    take a cluster of the tree that is not deeper than the manifold.  If
    its depth is 0, [parent] raises a ValueError; otherwise [parent] returns
    a cluster of the tree of which it is a child. *)
Theorem parent_of_child (m : Manifold) (c : Cluster) :
  name (root m) = EmptyString -> named_tree (root m) ->
  NoDup (map name (nodes (root m))) ->
  In c (nodes (root m)) -> depth c <= manifold_depth m ->
  (depth c = 0 -> parent m c = Raise ValueError)
  /\ (0 < depth c ->
      exists p, parent m c = Ok p /\ In p (nodes (root m)) /\ In c (children_list p)).
Proof.
  intros Hr Hn Hu Hc Hd. unfold parent. split.
  - intros ->. reflexivity.
  - intro Hpos. apply Nat.ltb_lt in Hpos. rewrite Hpos.
    destruct (ancestry_of_node m Hr Hn Hu c Hc Hd) as [path [Ha [Hp Hlast]]].
    rewrite Ha. cbn [rbind].
    destruct (rev (root m :: path)) as [|c' [|p rest]] eqn:Er.
    + apply (f_equal (@length _)) in Er. rewrite length_rev in Er. discriminate Er.
    + exfalso. apply (f_equal (@rev _)) in Er. rewrite rev_involutive in Er.
      cbn in Er. injection Er as Hroot Hpath. subst path. cbn in Hlast. subst c.
      unfold depth in Hpos. rewrite Hr in Hpos. discriminate Hpos.
    + exists p. split; [reflexivity|].
      assert (Hc' : c' = c).
      { apply (f_equal (@rev _)) in Er. rewrite rev_involutive in Er.
        cbn [rev] in Er. rewrite <- Hlast, <- (last_cons_default path (root m) (root m)), Er.
        symmetry. apply last_last. }
      subst c'. split.
      * assert (Hin : In p (root m :: path)).
        { apply in_rev. rewrite Er. right. now left. }
        destruct Hin as [<-|Hin]; [apply nodes_self | now apply (chain_nodes path)].
      * exact (chain_last_parent path (root m) p c rest Hp Er).
Qed.

Lemma parent_of_child_witness :
  (depth near0 = 0 -> parent manifold4 near0 = Raise ValueError)
  /\ (0 < depth near0 ->
      exists p, parent manifold4 near0 = Ok p /\ In p (nodes (root manifold4))
                /\ In near0 (children_list p)).
Proof.
  apply (parent_of_child manifold4 near0).
  - vm_compute. reflexivity.
  - apply named_treeb_ok. vm_compute. reflexivity.
  - vm_compute. repeat constructor; cbn; intuition discriminate.
  - vm_compute. tauto.
  - vm_compute. lia.
Defined.

(** ** The graph that [build_edges] leaves *)

Lemma dict_get_In_key {K V : Type} (eqb : K -> K -> bool) (k : K) (v : V)
    (d : list (K * V)) :
  dict_get eqb k d = Some v -> exists k', In (k', v) d /\ eqb k k' = true.
Proof.
  induction d as [|[k0 v0] t IH]; cbn [dict_get]; [discriminate|].
  destruct (eqb k k0) eqn:Hk.
  - intro H. injection H as <-. exists k0. split; [now left | exact Hk].
  - intro H. destruct (IH H) as [k' [Hin Hk']]. exists k'. split; [now right | exact Hk'].
Qed.

(** The edges, the subsumed clusters and the two dictionaries of edges
    after [build_edges], in terms of the edges [ces] of the clusters. *)
Lemma build_edges_shape (E : Env) (m : Manifold) (w w' : World) :
  keys_distinct cluster_eqb (clusters (w_graph w)) ->
  build_edges E m w = (w', Ok tt) ->
  exists ces we,
    edges (w_graph w') = map (fun ce => (fst ce, Some (snd ce))) ces
    /\ map fst ces = clusters (w_graph w)
    /\ (forall ce e, In ce ces -> In e (snd ce) ->
          memb cluster_eqb (neighbor e) (map fst ces) = true /\ probability e = None)
    /\ cache_subsumed_clusters (cache (w_graph w')) = Some (subsumed_among E ces)
    /\ cache_walkable_clusters (cache (w_graph w'))
       = Some (walkable_among (w_graph w') (subsumed_among E ces))
    /\ cache_subsumed_edges (cache (w_graph w'))
       = Some (edges_to_subsumed ces (subsumed_among E ces))
    /\ cache_walkable_edges (cache (w_graph w')) = Some we
    /\ dict_keys we = dict_keys (edges_among_walkable ces (subsumed_among E ces))
    /\ forall c, In c (dict_keys we) ->
         exists es es',
           dict_get cluster_eqb c (edges_among_walkable ces (subsumed_among E ces)) = Some es
           /\ dict_get cluster_eqb c we = Some es'
           /\ weighted es es'.
Proof.
  intros Hd Hrun.
  destruct (build_edges_phases E m w w' Hrun) as [w1 [w2 [w3 [w4 [H1 [H2 [H3 [H4 H5]]]]]]]].
  destruct (build_edges_steps_plain E m w w1 w2 w3 Hd H1 H2 H3) as [Hk3 Ha3].
  apply split_ok in H4.
  destruct H4 as [ces [Hall [_ [He [Hsc [Hwc [Hse Hwe]]]]]]].
  apply all_edges_ok in Hall.
  pose proof (recompute_ok w4 w' _ Hwe (keys_distinct_of _ _ _ _) H5) as R.
  destruct R as [_ [R2 [R3 [R4 [R5 [we [Q1 [Q2 [Q3 _]]]]]]]]].
  assert (Hedges : edges (w_graph w') = edges (w_graph w3)) by now rewrite R2, He.
  assert (Hks : map fst ces = clusters (w_graph w)).
  { rewrite <- Hk3. unfold graph_keys, clusters, dict_keys. rewrite Hall, map_map.
    reflexivity. }
  exists ces, we.
  split; [now rewrite Hedges|]. split; [exact Hks|]. split.
  { intros ce e Hce He'. rewrite Hks.
    assert (Hin : In (fst ce, Some (snd ce)) (edges (w_graph w3))).
    { rewrite Hall. apply in_map_iff. now exists ce. }
    assert (Hkd : keys_distinct cluster_eqb (dict_keys (edges (w_graph w3)))).
    { fold (clusters (w_graph w3)). rewrite Hk3. exact Hd. }
    pose proof (In_dict_get _ cluster_eqb _ (edges (w_graph w3)) (fst ce) (Some (snd ce))
                  cluster_eqb_refl Hkd Hin) as Hget.
    refine (Ha3 (fst ce) (snd ce) e _ Hget He').
    unfold clusters, dict_keys. apply in_map_iff. now exists (fst ce, Some (snd ce)). }
  split; [now rewrite R3|]. split.
  { rewrite R4, Hwc. unfold walkable_among, clusters. now rewrite Hedges. }
  split; [now rewrite R5|]. split; [exact Q1|]. split; [exact Q2|].
  intros c Hc. apply Q3. now rewrite <- Q2.
Qed.

Lemma subsumed_among_iff (E : Env) (ces : list (Cluster * list Edge)) (c : Cluster) :
  memb cluster_eqb c (subsumed_among E ces) = true
  <-> exists ce e, In ce ces /\ In e (snd ce) /\ subsumes E (fst ce) e = true
                   /\ cluster_eqb c (fst ce) = true.
Proof.
  unfold subsumed_among. rewrite (memb_set_of _ _ cluster_eqb_equivalence).
  rewrite memb_true_iff. split.
  - intros [y [Hy Hc]]. apply in_flat_map in Hy. destruct Hy as [ce [Hce Hy]].
    apply in_map_iff in Hy. destruct Hy as [e [<- He]].
    apply filter_In in He. destruct He as [He Hs]. now exists ce, e.
  - intros [ce [e [Hce [He [Hs Hc]]]]]. exists (fst ce). split; [|exact Hc].
    apply in_flat_map. exists ce. split; [exact Hce|].
    apply in_map_iff. exists e. split; [reflexivity|]. now apply filter_In.
Qed.

Lemma edges_of_key (ces : list (Cluster * list Edge)) (c : Cluster) (es : list Edge) :
  keys_distinct cluster_eqb (map fst ces) -> In c (map fst ces) ->
  (dict_get cluster_eqb c (map (fun ce => (fst ce, Some (snd ce))) ces) = Some (Some es)
   <-> In (c, es) ces).
Proof.
  intros Hd Hc.
  assert (Hkeys : dict_keys (map (fun ce : Cluster * list Edge => (fst ce, Some (snd ce))) ces)
                  = map fst ces) by (unfold dict_keys; now rewrite map_map).
  split.
  - intro H. apply dict_get_In_key in H. destruct H as [k' [Hin Hk]].
    apply in_map_iff in Hin. destruct Hin as [[k es'] [Heq Hin]].
    cbn [fst snd] in Heq. injection Heq as <- <-.
    assert (c = k) as ->; [|exact Hin].
    apply (key_eq _ Hd); [exact Hc | | exact Hk].
    now apply (in_map fst) in Hin.
  - intro H. apply In_dict_get; [apply cluster_eqb_refl | now rewrite Hkeys |].
    apply in_map_iff. now exists (c, es).
Qed.

(** X11.  After [build_edges] on a graph of pairwise different clusters,
    a cluster of the graph is among the subsumed clusters exactly when one
    of its edges leads to a neighbour whose radius is at least the distance
    plus its own radius, and among the walkable clusters exactly when it is
    not subsumed; both sets hold clusters of the graph only. *)
Theorem subsumed_or_walkable (E : Env) (m : Manifold) (w w' : World) :
  keys_distinct cluster_eqb (clusters (w_graph w)) ->
  build_edges E m w = (w', Ok tt) ->
  exists sc wc,
    cache_subsumed_clusters (cache (w_graph w')) = Some sc
    /\ cache_walkable_clusters (cache (w_graph w')) = Some wc
    /\ (forall c, memb cluster_eqb c sc = true \/ memb cluster_eqb c wc = true ->
          memb cluster_eqb c (clusters (w_graph w')) = true)
    /\ forall c, In c (clusters (w_graph w')) ->
         (memb cluster_eqb c sc = true
          <-> exists es e,
                get_edges (w_graph w') c = Some (Some es) /\ In e es
                /\ (edge_distance e + radius E c <= radius E (neighbor e))%Q)
         /\ memb cluster_eqb c wc = negb (memb cluster_eqb c sc).
Proof.
  intros Hd Hrun.
  destruct (build_edges_shape E m w w' Hd Hrun)
    as [ces [we [Hedges [Hks [_ [Hsc [Hwc _]]]]]]].
  assert (Hcl : clusters (w_graph w') = map fst ces).
  { unfold clusters, dict_keys. now rewrite Hedges, map_map. }
  assert (Hd' : keys_distinct cluster_eqb (map fst ces)) by now rewrite Hks.
  exists (subsumed_among E ces), (walkable_among (w_graph w') (subsumed_among E ces)).
  split; [exact Hsc|]. split; [exact Hwc|]. split.
  - intros c [Hc|Hc].
    + apply subsumed_among_iff in Hc. destruct Hc as [ce [e [Hce [_ [_ Hc]]]]].
      apply memb_true_iff. exists (fst ce). split; [|exact Hc].
      rewrite Hcl. now apply in_map.
    + unfold walkable_among in Hc.
      rewrite (memb_set_diff _ _ cluster_eqb_equivalence) in Hc.
      apply andb_true_iff in Hc. destruct Hc as [Hc _].
      now rewrite (memb_set_of _ _ cluster_eqb_equivalence) in Hc.
  - intros c Hc. rewrite Hcl in Hc. split.
    + rewrite subsumed_among_iff. unfold get_edges. rewrite Hedges. split.
      * intros [ce [e [Hce [He [Hs Heq]]]]].
        assert (c = fst ce) as ->.
        { apply (key_eq _ Hd'); [exact Hc | now apply in_map | exact Heq]. }
        exists (snd ce), e. split; [|split; [exact He|]].
        -- apply edges_of_key; [exact Hd' | exact Hc | now destruct ce].
        -- unfold subsumes in Hs. now apply Qle_bool_iff.
      * intros [es [e [Hg [He Hle]]]].
        apply edges_of_key in Hg; [|exact Hd' | exact Hc].
        exists (c, es), e. cbn [fst snd].
        split; [exact Hg|]. split; [exact He|]. split; [|apply cluster_eqb_refl].
        unfold subsumes. now apply Qle_bool_iff.
    + unfold walkable_among.
      rewrite (memb_set_diff _ _ cluster_eqb_equivalence).
      rewrite (memb_set_of _ _ cluster_eqb_equivalence).
      rewrite Hcl, (memb_In _ _ cluster_eqb_equivalence c (map fst ces) Hc).
      reflexivity.
Qed.

(** ** Neighbours by choice *)

Lemma memb_map_set_of (f : Edge -> Cluster) (x : Cluster) (l : list Edge) :
  (forall a b, edge_eqb a b = true -> cluster_eqb (f a) (f b) = true) ->
  memb cluster_eqb x (map f (set_of edge_eqb l)) = memb cluster_eqb x (map f l).
Proof.
  intro Hf.
  destruct (memb cluster_eqb x (map f l)) eqn:Hm.
  - apply memb_true_iff in Hm. destruct Hm as [y [Hy Hx]].
    apply in_map_iff in Hy. destruct Hy as [e [<- He]].
    pose proof (memb_In _ _ edge_eqb_equivalence e l He) as Hin.
    rewrite <- (memb_set_of _ _ edge_eqb_equivalence) in Hin.
    apply memb_true_iff in Hin. destruct Hin as [e' [He' Hee]].
    apply memb_true_iff. exists (f e'). split; [now apply in_map|].
    exact (cluster_eqb_trans _ _ _ Hx (Hf e e' Hee)).
  - destruct (memb cluster_eqb x (map f (set_of edge_eqb l))) eqn:Hs; [|reflexivity].
    apply memb_true_iff in Hs. destruct Hs as [y [Hy Hx]].
    apply in_map_iff in Hy. destruct Hy as [e [<- He]]. apply In_set_of in He.
    assert (memb cluster_eqb x (map f l) = true); [|congruence].
    apply memb_true_iff. exists (f e). split; [now apply in_map | exact Hx].
Qed.

Lemma edge_eqb_neighbor (a b : Edge) :
  edge_eqb a b = true -> cluster_eqb (neighbor a) (neighbor b) = true.
Proof.
  unfold edge_eqb. intro H. apply andb_true_iff in H. destruct H as [H _].
  apply andb_true_iff in H. now destruct H.
Qed.

(** The neighbours of the edges kept by a test on the neighbour. *)
Lemma memb_kept_neighbors (keep : Cluster -> bool) (x : Cluster) (es : list Edge) :
  (forall a b, cluster_eqb a b = true -> keep a = keep b) ->
  memb cluster_eqb x
    (map neighbor
       (set_of edge_eqb
          (map (fun e => no_prob (neighbor e) (edge_distance e))
               (filter (fun e => keep (neighbor e)) es))))
  = memb cluster_eqb x (map neighbor es) && keep x.
Proof.
  intro Hk. rewrite (memb_map_set_of neighbor x _ edge_eqb_neighbor).
  rewrite map_map. cbn [neighbor no_prob].
  destruct (memb cluster_eqb x (map neighbor es) && keep x) eqn:Hm.
  - apply andb_true_iff in Hm. destruct Hm as [Hm Hkx].
    apply memb_true_iff in Hm. destruct Hm as [y [Hy Hx]].
    apply in_map_iff in Hy. destruct Hy as [e [<- He]].
    apply memb_true_iff. exists (neighbor e). split; [|exact Hx].
    apply in_map_iff. exists e. split; [reflexivity|].
    apply filter_In. split; [exact He|]. now rewrite <- (Hk x _ Hx).
  - destruct (memb cluster_eqb x (map _ (filter _ es))) eqn:Hs; [|reflexivity].
    apply memb_true_iff in Hs. destruct Hs as [y [Hy Hx]].
    apply in_map_iff in Hy. destruct Hy as [e [<- He]].
    apply filter_In in He. destruct He as [He Hke].
    assert (memb cluster_eqb x (map neighbor es) && keep x = true); [|congruence].
    apply andb_true_iff. split.
    + apply memb_true_iff. exists (neighbor e). split; [now apply in_map | exact Hx].
    + now rewrite (Hk x _ Hx).
Qed.

Lemma weighted_members (es es' : list Edge) (x : Cluster) :
  weighted es es' ->
  memb cluster_eqb x (map neighbor es') = memb cluster_eqb x (map neighbor es).
Proof.
  intros [[-> ->]|[_ [Ht _]]]; [reflexivity|].
  apply transition_edges_ok in Ht. cbn zeta in Ht. destruct Ht as [_ ->].
  rewrite (memb_map_set_of neighbor x _ edge_eqb_neighbor).
  now rewrite map_map.
Qed.

Lemma weighted_probabilities (es es' : list Edge) (e : Edge) :
  weighted es es' -> In e es' -> exists p, probability e = Some p.
Proof.
  intros [[_ ->]|[_ [Ht _]]] He; [destruct He|].
  apply transition_edges_ok in Ht. cbn zeta in Ht. destruct Ht as [_ ->].
  apply In_set_of in He. apply in_map_iff in He. destruct He as [e0 [<- _]].
  eexists. reflexivity.
Qed.

Lemma keys_distinct_filter_fst {V : Type} (p : Cluster * V -> bool)
    (l : list (Cluster * V)) :
  keys_distinct cluster_eqb (map fst l) ->
  keys_distinct cluster_eqb (map fst (filter p l)).
Proof.
  induction l as [|a t IH]; [auto|]. cbn [map filter keys_distinct].
  intros [Ha Ht]. destruct (p a); [|now apply IH].
  cbn [map keys_distinct]. split; [|now apply IH].
  intros y Hy. apply Ha. apply in_map_iff in Hy. destruct Hy as [z [<- Hz]].
  apply filter_In in Hz. apply in_map. now destruct Hz.
Qed.

(** What the queries of a graph read once [build_edges] has run. *)
Lemma built_queries (E : Env) (m : Manifold) (w w' : World) :
  keys_distinct cluster_eqb (clusters (w_graph w)) ->
  build_edges E m w = (w', Ok tt) ->
  exists sc wc we se,
    built w' sc we se
    /\ cache_walkable_clusters (cache (w_graph w')) = Some wc
    /\ (forall c, memb cluster_eqb c wc
                  = memb cluster_eqb c (clusters (w_graph w'))
                    && negb (memb cluster_eqb c sc))
    /\ forall c, In c (clusters (w_graph w')) ->
         exists es,
           get_edges (w_graph w') c = Some (Some es)
           /\ (forall x, memb cluster_eqb x (neighbors_in se c)
                         = memb cluster_eqb x (map neighbor es) && memb cluster_eqb x sc)
           /\ (memb cluster_eqb c sc = false ->
               exists es',
                 dict_get cluster_eqb c we = Some es'
                 /\ (forall x, memb cluster_eqb x (map neighbor es')
                               = memb cluster_eqb x (map neighbor es)
                                 && negb (memb cluster_eqb x sc))
                 /\ forall e, In e es' -> exists p, probability e = Some p).
Proof.
  intros Hd Hrun.
  destruct (build_edges_shape E m w w' Hd Hrun)
    as [ces [we [Hedges [Hks [_ [Hsc [Hwc [Hse [Hwe [Hkeys Hall]]]]]]]]]].
  destruct (build_edges_built E m w w' Hd Hrun) as [_ [sc [we' [se Hb]]]].
  pose proof (built_sc Hb) as B1. rewrite Hsc in B1. injection B1 as B1.
  pose proof (built_we Hb) as B2. rewrite Hwe in B2. injection B2 as B2.
  pose proof (built_se Hb) as B3. rewrite Hse in B3. injection B3 as B3.
  subst we'. exists sc, (walkable_among (w_graph w') sc), we, se.
  assert (Hcl : clusters (w_graph w') = map fst ces).
  { unfold clusters, dict_keys. now rewrite Hedges, map_map. }
  assert (Hd' : keys_distinct cluster_eqb (map fst ces)) by now rewrite Hks.
  assert (Hcompat : forall a b, cluster_eqb a b = true ->
                      memb cluster_eqb a sc = memb cluster_eqb b sc).
  { intros a b Hab. now apply (memb_compat _ _ cluster_eqb_equivalence). }
  split; [exact Hb|]. split; [now rewrite Hwc, B1|]. split.
  { intro c. unfold walkable_among.
    rewrite (memb_set_diff _ _ cluster_eqb_equivalence).
    now rewrite (memb_set_of _ _ cluster_eqb_equivalence). }
  intros c Hc. rewrite Hcl in Hc.
  assert (Hce : exists es, In (c, es) ces).
  { apply in_map_iff in Hc. destruct Hc as [[c' es] [Heq Hin]]. cbn in Heq. subst c'.
    now exists es. }
  destruct Hce as [es Hces]. exists es. split.
  { unfold get_edges. rewrite Hedges. now apply edges_of_key. }
  split.
  - intro x. unfold neighbors_in. rewrite <- B3. unfold edges_to_subsumed.
    rewrite dict_of_distinct
      by (unfold dict_keys; rewrite map_map; exact Hd').
    rewrite (In_dict_get _ cluster_eqb _ _ c
               (set_of edge_eqb
                  (map (fun e => no_prob (neighbor e) (edge_distance e))
                     (filter (fun e => memb cluster_eqb (neighbor e) (subsumed_among E ces))
                        es)))
               cluster_eqb_refl).
    + rewrite B1. apply (memb_kept_neighbors (fun n => memb cluster_eqb n sc)).
      exact Hcompat.
    + unfold dict_keys. rewrite map_map. exact Hd'.
    + apply in_map_iff. now exists (c, es).
  - intro Hns.
    assert (Hkeep : In (c, es) (filter (fun ce : Cluster * list Edge =>
                                          negb (memb cluster_eqb (fst ce) sc)) ces)).
    { apply filter_In. split; [exact Hces|]. cbn [fst]. now rewrite Hns. }
    assert (Hw0 : edges_among_walkable ces sc
                  = map (fun ce : Cluster * list Edge =>
                           (fst ce,
                            set_of edge_eqb
                              (map (fun e => no_prob (neighbor e) (edge_distance e))
                                 (filter (fun e => negb (memb cluster_eqb (neighbor e) sc))
                                    (snd ce)))))
                        (filter (fun ce => negb (memb cluster_eqb (fst ce) sc)) ces)).
    { unfold edges_among_walkable. apply dict_of_distinct.
      unfold dict_keys. rewrite map_map. cbn [fst].
      now apply keys_distinct_filter_fst. }
    rewrite B1 in Hkeys, Hall.
    assert (Hkey : In c (dict_keys we)).
    { rewrite Hkeys, Hw0. unfold dict_keys. rewrite map_map. cbn [fst].
      now apply (in_map fst) in Hkeep. }
    destruct (Hall c Hkey) as [es0 [es' [Hg0 [Hg Hwt]]]].
    assert (Hes0 : es0 = set_of edge_eqb
                           (map (fun e => no_prob (neighbor e) (edge_distance e))
                              (filter (fun e => negb (memb cluster_eqb (neighbor e) sc)) es))).
    { rewrite Hw0 in Hg0.
      rewrite (In_dict_get _ cluster_eqb _ _ c
                 (set_of edge_eqb
                    (map (fun e => no_prob (neighbor e) (edge_distance e))
                       (filter (fun e => negb (memb cluster_eqb (neighbor e) sc)) es)))
                 cluster_eqb_refl) in Hg0.
      - now injection Hg0.
      - unfold dict_keys. rewrite map_map. cbn [fst].
        now apply keys_distinct_filter_fst.
      - apply in_map_iff. now exists (c, es). }
    exists es'. split; [exact Hg|]. split.
    + intro x. rewrite (weighted_members es0 es' x Hwt), Hes0.
      apply (memb_kept_neighbors (fun n => negb (memb cluster_eqb n sc))).
      intros a b Hab. f_equal. now apply Hcompat.
    + intros e He. exact (weighted_probabilities es0 es' e Hwt He).
Qed.

Lemma neighbors_all_run (E : Env) (m : Manifold) (w : World) (c : Cluster)
    (es : list Edge) :
  get_edges (w_graph w) c = Some (Some es) ->
  neighbors E m c "all" w = (w, Ok (map neighbor es)).
Proof.
  intro Hg. unfold neighbors, ensure_edges, mbind, get_graph, mlift, dict_lookup.
  unfold get_edges in Hg. rewrite Hg. cbn. now rewrite Hg.
Qed.

Lemma walkable_clusters_run (E : Env) (m : Manifold) (w : World) (wc : list Cluster) :
  cache_walkable_clusters (cache (w_graph w)) = Some wc ->
  walkable_clusters E m w = (w, Ok wc).
Proof.
  intro H. unfold walkable_clusters, cached, mbind, get_graph.
  rewrite H. cbn. now rewrite H.
Qed.

(** X12.  After [build_edges] on a graph of pairwise different clusters,
    for a cluster of the graph [neighbors] with the choices 'all' and
    'subsumed' returns without changing the graph, and the subsumed
    neighbours are the neighbours that are subsumed clusters.  With the
    choice 'walkable' it raises a KeyError for a subsumed cluster, and for a
    walkable cluster it returns the neighbours that are not subsumed. *)
Theorem neighbors_by_choice (E : Env) (m : Manifold) (w w' : World) (c : Cluster) :
  keys_distinct cluster_eqb (clusters (w_graph w)) ->
  build_edges E m w = (w', Ok tt) ->
  In c (clusters (w_graph w')) ->
  exists sc every sn,
    subsumed_clusters E m w' = (w', Ok sc)
    /\ neighbors E m c "all" w' = (w', Ok every)
    /\ neighbors E m c "subsumed" w' = (w', Ok sn)
    /\ (forall x, memb cluster_eqb x sn
                  = memb cluster_eqb x every && memb cluster_eqb x sc)
    /\ (memb cluster_eqb c sc = true ->
        neighbors E m c "walkable" w' = (w', Raise KeyError))
    /\ (memb cluster_eqb c sc = false ->
        exists wn,
          neighbors E m c "walkable" w' = (w', Ok wn)
          /\ forall x, memb cluster_eqb x wn
                       = memb cluster_eqb x every && negb (memb cluster_eqb x sc)).
Proof.
  intros Hd Hrun Hc.
  destruct (built_queries E m w w' Hd Hrun) as [sc [wc [we [se [Hb [_ [_ Hq]]]]]]].
  destruct (Hq c Hc) as [es [Hg [Hsn Hwn]]].
  pose proof (memb_In _ _ cluster_eqb_equivalence c _ Hc) as Hm.
  exists sc, (map neighbor es), (neighbors_in se c).
  split; [exact (subsumed_clusters_run E m w' sc we se Hb)|].
  split; [now apply neighbors_all_run|].
  split; [exact (neighbors_subsumed_run E m w' sc we se Hb c Hm)|].
  split; [exact Hsn|]. split.
  - intro Hs.
    assert (Hk : memb cluster_eqb c (dict_keys we) = false).
    { destruct (memb cluster_eqb c (dict_keys we)) eqn:Hk; [|reflexivity].
      apply (built_walkable Hb) in Hk. destruct Hk as [_ Hk]. congruence. }
    unfold neighbors.
    rewrite (mbind_run _ _ _ _ _ (ensure_edges_run E m w' sc we se Hb c Hm)).
    cbn [String.eqb Ascii.eqb Bool.eqb andb].
    rewrite (mbind_run _ _ _ _ _ (walkable_edges_run E m w' sc we se Hb)).
    unfold mbind, mlift, dict_lookup.
    apply dict_get_none_memb in Hk. now rewrite Hk.
  - intro Hs. destruct (Hwn Hs) as [es' [Hg' [Hmem _]]].
    exists (map neighbor es'). split; [|exact Hmem].
    assert (Hk : memb cluster_eqb c (dict_keys we) = true).
    { apply (built_walkable Hb). now split. }
    rewrite (neighbors_walkable_run E m w' sc we se Hb c Hk).
    unfold neighbors_in. now rewrite Hg'.
Qed.

(** X13.  After [build_edges] on a graph of pairwise different clusters,
    [probabilities] raises a ValueError for a subsumed cluster of the graph;
    for a walkable cluster it returns, without changing the graph, one
    probability for each walkable neighbour, in the order in which
    [neighbors] lists them, and none of them is missing. *)
Theorem probabilities_of_neighbors (E : Env) (m : Manifold) (w w' : World) (c : Cluster) :
  keys_distinct cluster_eqb (clusters (w_graph w)) ->
  build_edges E m w = (w', Ok tt) ->
  In c (clusters (w_graph w')) ->
  exists sc,
    subsumed_clusters E m w' = (w', Ok sc)
    /\ (memb cluster_eqb c sc = true ->
        probabilities E m c w' = (w', Raise ValueError))
    /\ (memb cluster_eqb c sc = false ->
        exists es,
          neighbors E m c "walkable" w' = (w', Ok (map neighbor es))
          /\ probabilities E m c w' = (w', Ok (map probability es))
          /\ forall e, In e es -> exists p, probability e = Some p).
Proof.
  intros Hd Hrun Hc.
  destruct (built_queries E m w w' Hd Hrun) as [sc [wc [we [se [Hb [_ [_ Hq]]]]]]].
  destruct (Hq c Hc) as [es [Hg [_ Hwn]]].
  pose proof (memb_In _ _ cluster_eqb_equivalence c _ Hc) as Hm.
  exists sc. split; [exact (subsumed_clusters_run E m w' sc we se Hb)|].
  assert (Hstart : forall k : list Cluster -> M World (list (option Q)),
            (ensure_edges E m c ;;; sc0 <~ subsumed_clusters E m ;; k sc0) w' = k sc w').
  { intro k.
    rewrite (mbind_run _ _ _ _ _ (ensure_edges_run E m w' sc we se Hb c Hm)).
    now rewrite (mbind_run _ _ _ _ _ (subsumed_clusters_run E m w' sc we se Hb)). }
  split.
  - intro Hs. unfold probabilities. rewrite Hstart. now rewrite Hs.
  - intro Hs. destruct (Hwn Hs) as [es' [Hg' [_ Hp]]].
    exists es'.
    assert (Hk : memb cluster_eqb c (dict_keys we) = true).
    { apply (built_walkable Hb). now split. }
    split; [|split; [|exact Hp]].
    + rewrite (neighbors_walkable_run E m w' sc we se Hb c Hk).
      unfold neighbors_in. now rewrite Hg'.
    + unfold probabilities. rewrite Hstart, Hs.
      rewrite (mbind_run _ _ _ _ _ (walkable_edges_run E m w' sc we se Hb)).
      unfold mbind at 1, mlift at 1, dict_lookup at 1. rewrite Hg'.
      assert (Hnone : existsb (fun p : option Q => match p with
                                                   | None => true
                                                   | Some _ => false
                                                   end) (map probability es') = false).
      { clear -Hp. induction es' as [|e t IH]; [reflexivity|].
        cbn [map existsb]. destruct (Hp e (or_introl eq_refl)) as [p ->].
        apply IH. intros e' He'. apply Hp. now right. }
      now rewrite Hnone.
Qed.

Lemma world6s_distinct : keys_distinct cluster_eqb (clusters (w_graph world6s)).
Proof.
  vm_compute. repeat split; intros y H; repeat (destruct H as [<-|H]; [reflexivity|]);
    destruct H.
Qed.

Lemma world6s_built : build_edges env6 manifold6 world6s = (built6s, Ok tt).
Proof. vm_compute. reflexivity. Qed.

Lemma subsumed_or_walkable_witness :
  exists sc wc,
    cache_subsumed_clusters (cache (w_graph built6s)) = Some sc
    /\ cache_walkable_clusters (cache (w_graph built6s)) = Some wc
    /\ (forall c, memb cluster_eqb c sc = true \/ memb cluster_eqb c wc = true ->
          memb cluster_eqb c (clusters (w_graph built6s)) = true)
    /\ forall c, In c (clusters (w_graph built6s)) ->
         (memb cluster_eqb c sc = true
          <-> exists es e,
                get_edges (w_graph built6s) c = Some (Some es) /\ In e es
                /\ (edge_distance e + radius env6 c <= radius env6 (neighbor e))%Q)
         /\ memb cluster_eqb c wc = negb (memb cluster_eqb c sc).
Proof.
  exact (subsumed_or_walkable env6 manifold6 world6s built6s
           world6s_distinct world6s_built).
Defined.

Lemma neighbors_by_choice_witness :
  exists sc every sn,
    subsumed_clusters env6 manifold6 built6s = (built6s, Ok sc)
    /\ neighbors env6 manifold6 start6 "all" built6s = (built6s, Ok every)
    /\ neighbors env6 manifold6 start6 "subsumed" built6s = (built6s, Ok sn)
    /\ (forall x, memb cluster_eqb x sn
                  = memb cluster_eqb x every && memb cluster_eqb x sc)
    /\ (memb cluster_eqb start6 sc = true ->
        neighbors env6 manifold6 start6 "walkable" built6s = (built6s, Raise KeyError))
    /\ (memb cluster_eqb start6 sc = false ->
        exists wn,
          neighbors env6 manifold6 start6 "walkable" built6s = (built6s, Ok wn)
          /\ forall x, memb cluster_eqb x wn
                       = memb cluster_eqb x every && negb (memb cluster_eqb x sc)).
Proof.
  apply (neighbors_by_choice env6 manifold6 world6s built6s start6
           world6s_distinct world6s_built).
  vm_compute. tauto.
Defined.

(** ** Edge cases of the graph *)

(** X14.  On a graph without clusters whose depth is not cached,
    [build_edges] raises a ValueError (the maximum of no depths, taken for
    the log line of [split_walkable_vs_subsumed]) and leaves the state as it
    is. *)
Theorem build_edges_empty_graph (E : Env) (m : Manifold) (w : World) :
  clusters (w_graph w) = [] ->
  cache_depth (cache (w_graph w)) = None ->
  build_edges E m w = (w, Raise ValueError).
Proof.
  intros Hc Hd.
  assert (H1 : mfor (clusters (w_graph w)) (_find_neighbors E m) w = (w, Ok tt))
    by now rewrite Hc.
  assert (H2 : handshake w = (w, Ok tt))
    by (unfold handshake, mbind, get_graph; now rewrite Hc).
  assert (H3 : remove_self_edges w = (w, Ok tt))
    by (unfold remove_self_edges, mbind, get_graph; now rewrite Hc).
  assert (H4 : graph_depth w = (w, Raise ValueError)).
  { unfold graph_depth, mbind, get_graph. now rewrite Hd, Hc. }
  unfold build_edges. unfold mbind at 1, get_graph at 1.
  rewrite (mbind_run _ _ _ _ _ H1), (mbind_run _ _ _ _ _ H2), (mbind_run _ _ _ _ _ H3).
  unfold split_walkable_vs_subsumed, mbind. now rewrite H4.
Qed.

Lemma build_edges_empty_graph_witness :
  build_edges env1 manifold1 (mkWorld [] (new_Graph [])) 
  = (mkWorld [] (new_Graph []), Raise ValueError).
Proof.
  apply (build_edges_empty_graph env1 manifold1 (mkWorld [] (new_Graph [])));
    reflexivity.
Defined.

(** X15.  After [build_edges] on a graph of at least two pairwise
    different clusters, [random_walks] from a list of clusters of which one
    is subsumed or not in the graph raises a ValueError and leaves the graph
    as it is, whatever the number of steps. *)
Theorem random_walks_refuses (E : Env) (m : Manifold) (w w' : World)
    (starts : list Cluster) (steps : Z) :
  keys_distinct cluster_eqb (clusters (w_graph w)) ->
  build_edges E m w = (w', Ok tt) ->
  2 <= graph_cardinality (w_graph w') ->
  exists sc,
    subsumed_clusters E m w' = (w', Ok sc)
    /\ ((exists c, In c starts
                   /\ (memb cluster_eqb c sc = true
                       \/ memb cluster_eqb c (clusters (w_graph w')) = false)) ->
        random_walks E m (StartClusters starts) steps w' = (w', Raise ValueError)).
Proof.
  intros Hd Hrun Hcard.
  destruct (built_queries E m w w' Hd Hrun) as [sc [wc [we [se [Hb [Hwc [Hmem _]]]]]]].
  exists sc. split; [exact (subsumed_clusters_run E m w' sc we se Hb)|].
  intros [c [Hc Hbad]].
  unfold random_walks. unfold mbind at 1, get_graph at 1.
  assert (Hlt : (graph_cardinality (w_graph w') <? 2) = false)
    by (apply Nat.ltb_ge; exact Hcard).
  rewrite Hlt.
  destruct starts as [|s0 rest]; [destruct Hc|].
  unfold mbind at 1, mlift at 1.
  rewrite (mbind_run _ _ _ _ _ (ensure_built_run E m w' sc we se Hb)).
  rewrite (mbind_run _ _ _ _ _ (walkable_clusters_run E m w' wc Hwc)).
  assert (Hex : existsb (fun cluster => negb (memb cluster_eqb cluster wc)) (s0 :: rest)
                = true).
  { apply existsb_exists. exists c. split; [exact Hc|].
    rewrite Hmem. destruct Hbad as [H|H]; rewrite H; [|reflexivity].
    now rewrite andb_false_r. }
  now rewrite Hex.
Qed.

Lemma random_walks_refuses_witness :
  exists sc,
    subsumed_clusters env6 manifold6 built6s = (built6s, Ok sc)
    /\ ((exists c, In c [root manifold6; start6]
                   /\ (memb cluster_eqb c sc = true
                       \/ memb cluster_eqb c (clusters (w_graph built6s)) = false)) ->
        random_walks env6 manifold6 (StartClusters [root manifold6; start6]) 3 built6s
        = (built6s, Raise ValueError)).
Proof.
  apply (random_walks_refuses env6 manifold6 world6s built6s [root manifold6; start6] 3
           world6s_distinct world6s_built).
  vm_compute. lia.
Defined.

(** ** Replacing clusters without rebuilding *)

(** X16.  A replacement that [replace_clusters] accepts can be undone:
    without recomputation, replacing the removals by the additions and then
    the additions by the removals both succeed, and leave a graph with the
    clusters it had at first, no edges, an empty cache and the same
    candidates. *)
Theorem replace_clusters_undo (E : Env) (m : Manifold) (w : World)
    (removals additions : list Cluster) :
  ~ refused (w_graph w) removals additions ->
  exists w1 w2,
    replace_clusters E m removals additions false w = (w1, Ok tt)
    /\ replace_clusters E m additions removals false w1 = (w2, Ok tt)
    /\ (forall c, memb cluster_eqb c (clusters (w_graph w2))
                  = memb cluster_eqb c (clusters (w_graph w)))
    /\ (forall c o, get_edges (w_graph w2) c = Some o -> o = None)
    /\ cache (w_graph w2) = empty_cache
    /\ w_cands w2 = w_cands w.
Proof.
  intro Hok.
  pose proof (refused_dec (w_graph w) removals additions) as D.
  destruct (negb (subsetb cluster_eqb removals (set_of cluster_eqb (clusters (w_graph w)))))
    eqn:C1; [exfalso; apply Hok, D; reflexivity|].
  destruct (existsb (fun c => memb cluster_eqb c (clusters (w_graph w))) additions) eqn:C2;
    [exfalso; apply Hok, D; reflexivity|].
  destruct (negb (set_eqb Nat.eqb (points_of removals) (points_of additions))) eqn:C3;
    [exfalso; apply Hok, D; reflexivity|].
  clear D.
  set (cs1 := set_update cluster_eqb
                (set_diff cluster_eqb (set_of cluster_eqb (clusters (w_graph w))) removals)
                additions).
  set (g1 := mkGraph (dict_of cluster_eqb (map (fun c => (c, @None (list Edge))) cs1))
                     empty_cache).
  set (cs2 := set_update cluster_eqb
                (set_diff cluster_eqb (set_of cluster_eqb (clusters g1)) additions)
                removals).
  set (g2 := mkGraph (dict_of cluster_eqb (map (fun c => (c, @None (list Edge))) cs2))
                     empty_cache).
  assert (Hkeys : forall l c,
            memb cluster_eqb c
              (dict_keys (dict_of cluster_eqb (map (fun c => (c, @None (list Edge))) l)))
            = memb cluster_eqb c l).
  { intros l c. rewrite (memb_keys_of _ cluster_eqb_equivalence), map_map. cbn [fst].
    now rewrite map_id. }
  assert (H1 : forall c, memb cluster_eqb c (clusters g1)
                         = memb cluster_eqb c (clusters (w_graph w))
                           && negb (memb cluster_eqb c removals)
                           || memb cluster_eqb c additions).
  { intro c. unfold clusters at 1, g1. cbn [edges]. rewrite Hkeys. unfold cs1.
    rewrite (memb_set_update _ _ cluster_eqb_equivalence).
    rewrite (memb_set_diff _ _ cluster_eqb_equivalence).
    now rewrite (memb_set_of _ _ cluster_eqb_equivalence). }
  apply negb_false_iff in C1, C3.
  rewrite (subsetb_true_iff _ _ cluster_eqb_equivalence) in C1.
  assert (HR : forall c, memb cluster_eqb c removals = true ->
                         memb cluster_eqb c (clusters (w_graph w)) = true).
  { intros c Hc. specialize (C1 c Hc).
    now rewrite (memb_set_of _ _ cluster_eqb_equivalence) in C1. }
  assert (HA : forall c, memb cluster_eqb c additions = true ->
                         memb cluster_eqb c (clusters (w_graph w)) = false).
  { intros c Hc. apply memb_true_iff in Hc. destruct Hc as [a [Ha Hca]].
    rewrite (memb_compat _ _ cluster_eqb_equivalence c a _ Hca).
    destruct (memb cluster_eqb a (clusters (w_graph w))) eqn:Hm; [|reflexivity].
    assert (X : existsb (fun c => memb cluster_eqb c (clusters (w_graph w))) additions = true)
      by (apply existsb_exists; now exists a).
    congruence. }
  exists (mkWorld (w_cands w) g1), (mkWorld (w_cands w) g2).
  split; [|split].
  - unfold replace_clusters, mbind, get_graph, put_graph, mret.
    apply negb_false_iff in C3. 
    assert (C1' : negb (subsetb cluster_eqb removals
                          (set_of cluster_eqb (clusters (w_graph w)))) = false).
    { apply negb_false_iff. apply (subsetb_true_iff _ _ cluster_eqb_equivalence). exact C1. }
    rewrite C1', C2, C3. reflexivity.
  - unfold replace_clusters, mbind, get_graph, put_graph, mret. cbn [w_graph w_cands].
    assert (V1 : negb (subsetb cluster_eqb additions (set_of cluster_eqb (clusters g1)))
                 = false).
    { apply negb_false_iff. apply (subsetb_true_iff _ _ cluster_eqb_equivalence).
      intros c Hc. rewrite (memb_set_of _ _ cluster_eqb_equivalence), H1, Hc.
      apply orb_true_r. }
    assert (V2 : existsb (fun c => memb cluster_eqb c (clusters g1)) removals = false).
    { destruct (existsb _ removals) eqn:Hex; [|reflexivity].
      apply existsb_exists in Hex. destruct Hex as [r [Hr Hm]].
      pose proof (memb_In _ _ cluster_eqb_equivalence r _ Hr) as HrR.
      rewrite H1, HrR in Hm. cbn [negb] in Hm. rewrite andb_false_r in Hm.
      cbn [orb] in Hm. pose proof (HA r Hm). pose proof (HR r HrR). congruence. }
    assert (V3 : negb (set_eqb Nat.eqb (points_of additions) (points_of removals)) = false).
    { apply negb_false_iff. apply (set_eqb_true_iff _ _ nat_eqb_equivalence).
      intro p. symmetry.
      now apply (proj1 (set_eqb_true_iff _ _ nat_eqb_equivalence _ _) C3). }
    rewrite V1, V2, V3. reflexivity.
  - split; [|split; [|split; reflexivity]].
    + intro c. unfold clusters at 1. cbn [w_graph edges g2]. rewrite Hkeys. unfold cs2.
      rewrite (memb_set_update _ _ cluster_eqb_equivalence).
      rewrite (memb_set_diff _ _ cluster_eqb_equivalence).
      rewrite (memb_set_of _ _ cluster_eqb_equivalence), H1.
      destruct (memb cluster_eqb c removals) eqn:Hr.
      * rewrite (HR c Hr). now rewrite orb_true_r.
      * destruct (memb cluster_eqb c additions) eqn:Ha.
        -- rewrite (HA c Ha). reflexivity.
        -- cbn. now rewrite !andb_true_r, !orb_false_r.
    + intros c o Hg. unfold get_edges in Hg. cbn [w_graph edges g2] in Hg.
      apply dict_get_In in Hg. destruct Hg as [k Hk].
      apply In_dict_of in Hk. rewrite map_map in Hk. cbn [snd] in Hk.
      apply in_map_iff in Hk. now destruct Hk as [x [<- _]].
Qed.

Lemma replace_clusters_undo_witness :
  exists w1 w2,
    replace_clusters env6 manifold6 (children_list (root manifold6)) [root manifold6]
      false world6 = (w1, Ok tt)
    /\ replace_clusters env6 manifold6 [root manifold6] (children_list (root manifold6))
         false w1 = (w2, Ok tt)
    /\ (forall c, memb cluster_eqb c (clusters (w_graph w2))
                  = memb cluster_eqb c (clusters (w_graph world6)))
    /\ (forall c o, get_edges (w_graph w2) c = Some o -> o = None)
    /\ cache (w_graph w2) = empty_cache
    /\ w_cands w2 = w_cands world6.
Proof.
  apply (replace_clusters_undo env6 manifold6 world6).
  rewrite refused_dec. vm_compute. discriminate.
Defined.

(** ** Samples and poles *)

Lemma Qmax_fold_ge (r : list Q) : forall a, (a <= fold_left Qmax r a)%Q.
Proof.
  induction r as [|y r IH]; intro a; cbn [fold_left]; [apply Qle_refl|].
  eapply Qle_trans; [|apply IH]. unfold Qmax.
  destruct (Qle_bool a y) eqn:Hay; [now apply Qle_bool_iff | apply Qle_refl].
Qed.

Lemma Qmax_fold_in (r : list Q) : forall a x, In x r -> (x <= fold_left Qmax r a)%Q.
Proof.
  induction r as [|y r IH]; intros a x Hx; [destruct Hx|]. cbn [fold_left].
  destruct Hx as [<-|Hx]; [|now apply IH].
  eapply Qle_trans; [|apply Qmax_fold_ge]. unfold Qmax.
  destruct (Qle_bool a y) eqn:Hay; [apply Qle_refl|].
  destruct (Qlt_le_dec y a) as [Hlt|Hle]; [now apply Qlt_le_weak|].
  apply Qle_bool_iff in Hle. congruence.
Qed.

Lemma matrix_fold_ge (rows : list (list Q)) : forall a,
  (a <= fold_left (fun acc row => fold_left Qmax row acc) rows a)%Q.
Proof.
  induction rows as [|r rows IH]; intro a; cbn [fold_left]; [apply Qle_refl|].
  eapply Qle_trans; [apply (Qmax_fold_ge r a) | apply IH].
Qed.

Lemma matrix_max_in (rows : list (list Q)) (row : list Q) (x : Q) :
  In row rows -> In x row -> (x <= matrix_max rows)%Q.
Proof.
  unfold matrix_max. generalize 0%Q.
  induction rows as [|r rows IH]; intros a Hr Hx; [destruct Hr|].
  cbn [fold_left]. destruct Hr as [->|Hr]; [|now apply IH].
  eapply Qle_trans; [apply (Qmax_fold_in row a x Hx) | apply matrix_fold_ge].
Qed.

(** X17.  Let numpy keep its contract and the distance be a metric.  The
    samples of a cluster are points of the cluster; if there is more than
    one sample, they are not all at the same place; and a cluster of at most
    [SUBSAMPLE_LIMIT] points with two points at a distance other than zero
    has all its points as samples. *)
Theorem argsamples_spec (E : Env) (c : Cluster) :
  numpy_contract E -> unique_rows E -> metric E ->
  incl (argsamples E c) (argpoints c)
  /\ (1 < length (argsamples E c) ->
      ~ exists d, forall s, In s (argsamples E c) -> data E s = d)
  /\ (cardinality c <= SUBSAMPLE_LIMIT ->
      (exists p q, In p (argpoints c) /\ In q (argpoints c)
                   /\ ~ (cdist E (data E p) (data E q) == 0)%Q) ->
      argsamples E c = argpoints c).
Proof.
  intros HN HU HM. split; [now apply argsamples_incl|]. split.
  - intros Hlen [d Hd]. exact (samples_differ E c d HM HU Hlen Hd).
  - intros Hsmall [p [q [Hp [Hq Hpq]]]]. unfold argsamples.
    apply Nat.leb_le in Hsmall. rewrite Hsmall.
    destruct (Qeq_bool (matrix_max (distance E (argpoints c) (argpoints c))) 0) eqn:Hz;
      [|reflexivity].
    exfalso. apply Hpq. apply Qeq_bool_eq in Hz.
    destruct HM as [Hpos _]. apply Qle_antisym; [|apply Hpos].
    rewrite <- Hz.
    apply (matrix_max_in _ (map (fun y => cdist E (data E p) y) (map (data E) (argpoints c)))).
    + unfold distance, distance_points. apply in_map_iff. exists (data E p).
      split; [reflexivity | now apply in_map].
    + apply in_map_iff. exists (data E q). split; [reflexivity | now apply in_map].
Qed.

Lemma argsamples_spec_witness :
  incl (argsamples env4 (root manifold4)) (argpoints (root manifold4))
  /\ (1 < length (argsamples env4 (root manifold4)) ->
      ~ exists d, forall s, In s (argsamples env4 (root manifold4)) -> data env4 s = d)
  /\ (cardinality (root manifold4) <= SUBSAMPLE_LIMIT ->
      (exists p q, In p (argpoints (root manifold4)) /\ In q (argpoints (root manifold4))
                   /\ ~ (cdist env4 (data env4 p) (data env4 q) == 0)%Q) ->
      argsamples env4 (root manifold4) = argpoints (root manifold4)).
Proof.
  apply (argsamples_spec env4 (root manifold4)).
  - apply line_env_contract.
  - apply line_env_unique_rows.
  - apply line_env_metric.
Defined.

(** X18.  Let numpy keep its contract, the distance be a metric and the
    cluster have points.  With fewer than two samples [_find_poles] raises
    an AssertionError.  Otherwise it returns two different points of the
    cluster; with exactly two samples these are the samples, and with more
    the first is [argradius] and the second a sample that no sample exceeds
    in distance from the first. *)
Theorem find_poles_spec (E : Env) (c : Cluster) :
  numpy_contract E -> unique_rows E -> metric E -> argpoints c <> [] ->
  (length (argsamples E c) <= 1 -> _find_poles E c = Raise AssertionError)
  /\ (1 < length (argsamples E c) ->
      exists p0 p1,
        _find_poles E c = Ok [p0; p1]
        /\ p0 <> p1 /\ In p0 (argpoints c) /\ In p1 (argpoints c)
        /\ (length (argsamples E c) = 2 -> argsamples E c = [p0; p1])
        /\ (2 < length (argsamples E c) ->
            p0 = argradius E c /\ In p1 (argsamples E c)
            /\ forall s, In s (argsamples E c) ->
                 (cdist E (data E p0) (data E s) <= cdist E (data E p0) (data E p1))%Q)).
Proof.
  intros HN HU HM Hne. split.
  - intro Hlen. unfold _find_poles.
    assert (H : (1 <? length (argsamples E c)) = false) by (apply Nat.ltb_ge; lia).
    now rewrite H.
  - intro Hlen.
    destruct (find_poles_ok E c HM HU Hlen) as [poles Hp].
    destruct (find_poles_shape E c poles HN Hne Hp) as [p0 [p1 [-> [Hd [H0 H1]]]]].
    exists p0, p1. split; [exact Hp|]. split; [exact Hd|].
    split; [exact H0|]. split; [exact H1|].
    unfold _find_poles in Hp.
    assert (H : (1 <? length (argsamples E c)) = true) by now apply Nat.ltb_lt.
    rewrite H in Hp. split.
    + intro H2.
      assert (H' : (2 <? length (argsamples E c)) = false) by (apply Nat.ltb_ge; lia).
      rewrite H' in Hp.
      destruct (length (set_of Nat.eqb (argsamples E c)) =? length (argsamples E c));
        [|discriminate].
      now injection Hp.
    + intro H2.
      assert (H' : (2 <? length (argsamples E c)) = true) by now apply Nat.ltb_lt.
      rewrite H' in Hp. cbv zeta in Hp.
      set (row := map (fun s => cdist E (data E (argradius E c)) (data E s))
                      (argsamples E c)) in *.
      destruct (length (set_of Nat.eqb _) =? _); [|discriminate].
      injection Hp as <- <-.
      assert (Hlt : np_argmax row < length row).
      { apply np_argmax_lt. unfold row. intro Hnil. apply map_eq_nil in Hnil.
        rewrite Hnil in Hlen. cbn in Hlen. lia. }
      split; [reflexivity|]. split.
      * apply nth_In. unfold row in Hlt. now rewrite length_map in Hlt.
      * intros s Hs.
        assert (Hmax : nth (np_argmax row) row 0%Q
                       = cdist E (data E (argradius E c))
                           (data E (nth (np_argmax row) (argsamples E c) 0))).
        { rewrite (nth_indep row 0%Q (cdist E (data E (argradius E c)) (data E 0)) Hlt).
          unfold row at 2.
          now rewrite (map_nth (fun s => cdist E (data E (argradius E c)) (data E s))). }
        rewrite <- Hmax. apply np_argmax_max. unfold row.
        apply in_map_iff. now exists s.
Qed.

Lemma find_poles_spec_witness :
  (length (argsamples env4 (root manifold4)) <= 1 ->
   _find_poles env4 (root manifold4) = Raise AssertionError)
  /\ (1 < length (argsamples env4 (root manifold4)) ->
      exists p0 p1,
        _find_poles env4 (root manifold4) = Ok [p0; p1]
        /\ p0 <> p1 /\ In p0 (argpoints (root manifold4))
        /\ In p1 (argpoints (root manifold4))
        /\ (length (argsamples env4 (root manifold4)) = 2 ->
            argsamples env4 (root manifold4) = [p0; p1])
        /\ (2 < length (argsamples env4 (root manifold4)) ->
            p0 = argradius env4 (root manifold4)
            /\ In p1 (argsamples env4 (root manifold4))
            /\ forall s, In s (argsamples env4 (root manifold4)) ->
                 (cdist env4 (data env4 p0) (data env4 s)
                  <= cdist env4 (data env4 p0) (data env4 p1))%Q)).
Proof.
  apply (find_poles_spec env4 (root manifold4)).
  - apply line_env_contract.
  - apply line_env_unique_rows.
  - apply line_env_metric.
  - vm_compute. discriminate.
Defined.

(** ** Clusters: equality, iteration, the children of a partition *)

(** X19.  Two clusters are equal ([==]) exactly when they have the same
    name and the same points, whatever the order and the repetitions of the
    points and whatever their children; this equality is reflexive,
    symmetric and transitive, and equal clusters have the same hash (the
    hash of the name) and the same depth. *)
Theorem cluster_eq_iff :
  (forall a b, cluster_eqb a b = true
               <-> name a = name b
                   /\ forall p, In p (argpoints a) <-> In p (argpoints b))
  /\ is_equivalence cluster_eqb
  /\ forall a b, cluster_eqb a b = true -> depth a = depth b.
Proof.
  split; [|split; [exact cluster_eqb_equivalence|]].
  - intros a b. unfold cluster_eqb. rewrite andb_true_iff, String.eqb_eq.
    rewrite (set_eqb_true_iff _ _ nat_eqb_equivalence). split.
    + intros [Hn Hp]. split; [exact Hn|]. intro p.
      rewrite <- !memb_nat_iff. now rewrite Hp.
    + intros [Hn Hp]. split; [exact Hn|]. intro p.
      destruct (memb Nat.eqb p (argpoints a)) eqn:Ha, (memb Nat.eqb p (argpoints b)) eqn:Hb;
        try reflexivity.
      * apply memb_nat_iff, Hp, memb_nat_iff in Ha. congruence.
      * apply memb_nat_iff, Hp, memb_nat_iff in Hb. congruence.
  - intros a b H. unfold depth. now rewrite (cluster_eqb_name a b H).
Qed.

Lemma batches_aux_short {A : Type} (n : nat) :
  forall (fuel : nat) (l b : list A), In b (batches_aux fuel n l) -> length b <= n.
Proof.
  intro fuel. induction fuel as [|fuel IH]; intros l b Hb; [destruct Hb|].
  destruct l as [|x t]; [destruct Hb|].
  cbn [batches_aux] in Hb. destruct Hb as [<-|Hb]; [|eapply IH; eassumption].
  apply firstn_le_length.
Qed.

(** X20.  Iterating over a cluster yields its points in order, in batches
    none of which is empty or longer than [BATCH_SIZE]; a cluster without
    points yields nothing. *)
Theorem iter_batches (c : Cluster) :
  concat (batches BATCH_SIZE (argpoints c)) = argpoints c
  /\ (forall b, In b (batches BATCH_SIZE (argpoints c)) ->
        b <> [] /\ length b <= BATCH_SIZE)
  /\ (batches BATCH_SIZE (argpoints c) = [] <-> argpoints c = []).
Proof.
  split; [apply batches_concat|]. split.
  - intros b Hb. split; [exact (batches_nonempty _ _ Hb)|].
    exact (batches_aux_short _ _ _ _ Hb).
  - split; [apply batches_nil_inv|]. now intros ->.
Qed.

Lemma count_zero_app (a b : string) :
  count_zero (a ++ b) = count_zero a + count_zero b.
Proof.
  induction a as [|x a IH]; [reflexivity|]. cbn [String.append count_zero].
  rewrite IH. lia.
Qed.

Lemma count_zero_ones (i : nat) : count_zero (ones i) = 0.
Proof. induction i as [|i IH]; [reflexivity | exact IH]. Qed.

Lemma child_name_depth (n : string) (i : nat) :
  count_zero (child_name n i) = S (count_zero n).
Proof.
  unfold child_name. rewrite !count_zero_app, count_zero_ones. cbn. lia.
Qed.

(** X21.  Let numpy keep its contract, the distance be a metric and the
    cluster have points.  Then [partition] raises nothing and keeps the name
    and the points of the cluster; its children are new clusters without
    children of their own, one level deeper, named after the cluster with
    '0' and a run of '1', of different names, each with points, all of them
    points of the cluster; and if there are children, every point of the
    cluster is in one of them. *)
Theorem partition_tree_shape (E : Env) (c : Cluster) (criterion : list (Cluster -> bool)) :
  numpy_contract E -> unique_rows E -> metric E -> argpoints c <> [] ->
  exists c',
    partition E c criterion = Ok c'
    /\ name c' = name c /\ argpoints c' = argpoints c /\ children c' <> None
    /\ NoDup (map name (children_list c'))
    /\ (forall k, In k (children_list c') ->
          depth k = S (depth c)
          /\ (exists i, name k = child_name (name c) i)
          /\ argpoints k <> [] /\ incl (argpoints k) (argpoints c)
          /\ children k = None)
    /\ (no_children c' = false ->
        forall p, In p (argpoints c) ->
          exists k, In k (children_list c') /\ In p (argpoints k)).
Proof.
  intros HN HU HM Hne.
  destruct (partition_with_poles E c criterion HN Hne) as [Hleaf Hsplit].
  destruct (splittable E c criterion) eqn:Hs.
  - destruct (Hsplit eq_refl) as [b0 [b1 [Hp [H0 [H1 [_ [_ Hall]]]]]]].
    { apply find_poles_ok; auto. unfold splittable in Hs.
      apply andb_true_iff in Hs. destruct Hs as [Hs _]. now apply Nat.ltb_lt. }
    eexists. split; [exact Hp|]. cbn [name argpoints children children_list].
    split; [reflexivity|]. split; [reflexivity|]. split; [discriminate|]. split.
    { constructor; [|constructor; [intros []|constructor]].
      intros [H|[]]. pose proof (child_names_differ (name c)) as D.
      apply String.eqb_neq in D. apply D. exact H. }
    split.
    + intros k [<-|[<-|[]]]; cbn [name argpoints children]; unfold depth; cbn [name];
        (split; [apply child_name_depth|]);
        (split; [eexists; reflexivity|]);
        (split; [assumption|]); (split; [|reflexivity]);
        intros p Hp'; apply Hall; auto.
    + intros _ p Hp'. apply Hall in Hp'. destruct Hp' as [Hp'|Hp'].
      * eexists. split; [left; reflexivity | exact Hp'].
      * eexists. split; [right; left; reflexivity | exact Hp'].
  - eexists. split; [exact (Hleaf eq_refl)|]. cbn [name argpoints children children_list].
    split; [reflexivity|]. split; [reflexivity|]. split; [discriminate|].
    split; [constructor|]. split; [intros k []|]. discriminate.
Qed.

Lemma partition_tree_shape_witness :
  exists c',
    partition env4 (root manifold4) [] = Ok c'
    /\ name c' = name (root manifold4) /\ argpoints c' = argpoints (root manifold4)
    /\ children c' <> None
    /\ NoDup (map name (children_list c'))
    /\ (forall k, In k (children_list c') ->
          depth k = S (depth (root manifold4))
          /\ (exists i, name k = child_name (name (root manifold4)) i)
          /\ argpoints k <> [] /\ incl (argpoints k) (argpoints (root manifold4))
          /\ children k = None)
    /\ (no_children c' = false ->
        forall p, In p (argpoints (root manifold4)) ->
          exists k, In k (children_list c') /\ In p (argpoints k)).
Proof.
  apply (partition_tree_shape env4 (root manifold4) []).
  - apply line_env_contract.
  - apply line_env_unique_rows.
  - apply line_env_metric.
  - vm_compute. discriminate.
Defined.

(** ** Equality of graphs *)

Lemma edge_set_own (g : Graph) (c : Cluster) :
  any_edges_none g = false -> In c (clusters g) ->
  exists es, edge_set (edges g) c = Ok es.
Proof.
  intros Hn Hc. unfold edge_set, dict_lookup.
  pose proof (memb_In _ _ cluster_eqb_equivalence c _ Hc) as Hm.
  apply dict_get_some_memb in Hm. destruct Hm as [o Ho]. rewrite Ho. cbn [rbind].
  destruct (any_edges_none_get g c o Hn Ho) as [es ->]. cbn. eauto.
Qed.

(** X22.  A graph equals itself.  A graph with an edge set still [None]
    equals another graph exactly when the two have the same clusters, the
    edges being ignored.  For a graph whose edges are all built, the
    comparison raises a KeyError when its first cluster is not a cluster of
    the other graph, and a TypeError when that cluster's edges in the other
    graph are still [None]: such a comparison does not answer [False]. *)
Theorem graph_eq_cases (g other : Graph) :
  graph_eq g g = Ok true
  /\ (any_edges_none g = true ->
      graph_eq g other
      = Ok (set_eqb cluster_eqb (set_of cluster_eqb (clusters g))
                    (set_of cluster_eqb (clusters other))))
  /\ (any_edges_none g = false ->
      forall c rest, clusters g = c :: rest ->
        (memb cluster_eqb c (clusters other) = false ->
         graph_eq g other = Raise KeyError)
        /\ (get_edges other c = Some None -> graph_eq g other = Raise TypeError)).
Proof.
  split; [|split].
  - unfold graph_eq.
    assert (Hc : set_eqb cluster_eqb (set_of cluster_eqb (clusters g))
                   (set_of cluster_eqb (clusters g)) = true)
      by (apply (set_eqb_true_iff _ _ cluster_eqb_equivalence); reflexivity).
    rewrite Hc. destruct (any_edges_none g) eqn:Hn; [reflexivity|].
    assert (Hall : forall l, incl l (clusters g) ->
              py_all (fun cluster =>
                        mine <- edge_set (edges g) cluster ;;
                        theirs <- edge_set (edges g) cluster ;;
                        Ok (set_eqb edge_eqb mine theirs)) l = Ok true).
    { induction l as [|c t IH]; intro Hl; [reflexivity|]. cbn [py_all].
      destruct (edge_set_own g c Hn (Hl c (or_introl eq_refl))) as [es ->].
      cbn [rbind].
      assert (He : set_eqb edge_eqb es es = true)
        by (apply (set_eqb_true_iff _ _ edge_eqb_equivalence); reflexivity).
      rewrite He. apply IH. intros x Hx. apply Hl. now right. }
    rewrite (Hall _ (incl_refl _)). reflexivity.
  - intro Hn. unfold graph_eq. now rewrite Hn.
  - intros Hn c rest Hcl. unfold graph_eq. rewrite Hn, Hcl. cbn [py_all].
    destruct (edge_set_own g c Hn) as [es ->]; [rewrite Hcl; now left|].
    cbn [rbind]. unfold edge_set, dict_lookup. split.
    + intro Hm. apply dict_get_none_memb in Hm. unfold clusters in Hm.
      now rewrite Hm.
    + intro Hg. unfold get_edges in Hg. now rewrite Hg.
Qed.

Lemma graph_eq_cases_witness :
  graph_eq (w_graph world6s) (w_graph built6s) = Ok true
  /\ graph_eq (w_graph built6s) (w_graph world6s) = Raise TypeError
  /\ graph_eq (w_graph built6s) (w_graph world6) = Raise KeyError.
Proof.
  split; [|split].
  - destruct (graph_eq_cases (w_graph world6s) (w_graph built6s)) as [_ [H _]].
    rewrite H by (vm_compute; reflexivity). vm_compute. reflexivity.
  - destruct (graph_eq_cases (w_graph built6s) (w_graph world6s)) as [_ [_ H]].
    refine (proj2 (H _ (root manifold6) (children_list (root manifold6)) _) _);
      vm_compute; reflexivity.
  - destruct (graph_eq_cases (w_graph built6s) (w_graph world6)) as [_ [_ H]].
    refine (proj1 (H _ (root manifold6) (children_list (root manifold6)) _) _);
      vm_compute; reflexivity.
Defined.

(** ** The graph of a manifold that has not been partitioned *)

Lemma radius_nonneg (E : Env) (c : Cluster) :
  (forall x y, (0 <= cdist E x y)%Q) -> (0 <= radius E c)%Q.
Proof.
  intro Hpos. destruct (argpoints c) as [|p t] eqn:Hp.
  - unfold radius, argradius_radius. rewrite Hp. cbn. apply Qle_refl.
  - assert (Hne : argpoints c <> []) by (rewrite Hp; discriminate).
    destruct (radius_bounds E c Hne) as [_ [_ Hmax]].
    eapply Qle_trans; [apply (Hpos (medoid E c) (data E p))|].
    apply Hmax. rewrite Hp. now left.
Qed.

(** X23.  When distances are not negative, [build_graph] on a manifold
    whose graph is its root alone (as [Manifold.__init__] leaves it) raises
    nothing: the root is its own candidate at distance 0, the edge to itself
    is removed again, and the graph is left with the root as a walkable
    cluster without edges, no subsumed cluster, and its depth cached.  On a
    graph without clusters [build_graph] raises a ValueError (the minimum of
    no depths, taken for its log line) before it sets the candidates of the
    root, and leaves the state as it is. *)
Theorem build_graph_of_root (E : Env) (m : Manifold) :
  (forall x y, (0 <= cdist E x y)%Q) ->
  (graph m = new_Graph [root m] ->
   build_graph E m (initial_world m)
   = (mkWorld [(name (root m), [(root m, 0%Q)])]
        (mkGraph [(root m, Some [])]
           (mkCache (Some (depth (root m))) (Some []) (Some [root m])
                    (Some [(root m, [])]) (Some [(root m, [])]))),
      Ok tt))
  /\ (forall w, clusters (w_graph w) = [] ->
        build_graph E m w = (w, Raise ValueError)).
Proof.
  intro Hpos. split;
    [|intros w Hc; unfold build_graph, mbind, get_graph; now rewrite Hc].
  intro Hg.
  pose proof (cluster_eqb_refl (root m)) as Hcc.
  assert (Hle : Qle_bool 0 (radius E (root m) + radius E (root m)) = true).
  { apply Qle_bool_iff. pose proof (radius_nonneg E (root m) Hpos).
    rewrite <- (Qplus_0_r 0). now apply Qplus_le_compat. }
  assert (Hee : edge_eqb (no_prob (root m) 0) (no_prob (root m) 0) = true)
    by (destruct edge_eqb_equivalence as [R _]; apply R).
  set (s := [(name (root m), [(root m, 0%Q)])]).
  set (w0 := mkWorld s (new_Graph [root m])).
  set (w1 := mkWorld s (mkGraph [(root m, Some [no_prob (root m) 0])] empty_cache)).
  set (w3 := mkWorld s (mkGraph [(root m, Some [])] empty_cache)).
  set (w4 := mkWorld s
               (mkGraph [(root m, Some [])]
                  (mkCache (Some (depth (root m))) (Some []) (Some [root m])
                           (Some [(root m, [])]) (Some [(root m, [])])))).
  assert (H1 : mfor (clusters (w_graph w0)) (_find_neighbors E m) w0 = (w1, Ok tt)).
  { unfold w0, w1, s, new_Graph, clusters, dict_keys, _find_neighbors, candidates.
    repeat (progress (unfold mbind, get_cands, get_graph, put_edges, mlift, the_set, mret,
                        set_of, set_update, set_add, memb;
                      cbn -[cluster_eqb radius String.eqb Qle_bool Qplus edge_eqb];
                      rewrite ?String.eqb_refl, ?Hcc, ?Hle, ?Hee)).
    reflexivity. }
  assert (H2 : handshake w1 = (w1, Ok tt)).
  { unfold w1, handshake, add_edge, dict_lookup, clusters, dict_keys.
    repeat (progress (unfold mbind, get_cands, get_graph, put_edges, mlift, the_set, mret,
                        set_of, set_update, set_add, memb;
                      cbn -[cluster_eqb radius String.eqb Qle_bool Qplus edge_eqb];
                      rewrite ?String.eqb_refl, ?Hcc, ?Hle, ?Hee)).
    reflexivity. }
  assert (H3 : remove_self_edges w1 = (w3, Ok tt)).
  { unfold w1, w3, remove_self_edges, dict_lookup, clusters, dict_keys.
    repeat (progress (unfold mbind, get_cands, get_graph, put_edges, mlift, the_set, mret,
                        set_of, set_update, set_add, set_remove, memb;
                      cbn -[cluster_eqb radius String.eqb Qle_bool Qplus edge_eqb];
                      rewrite ?String.eqb_refl, ?Hcc, ?Hle, ?Hee)).
    reflexivity. }
  assert (H4 : split_walkable_vs_subsumed E w3 = (w4, Ok tt)).
  { unfold w3, w4, split_walkable_vs_subsumed, graph_depth, all_edges, subsumed_among,
      walkable_among, edges_to_subsumed, edges_among_walkable, clusters, dict_keys,
      set_diff, dict_of, dict_update.
    repeat (progress (unfold mbind, get_graph, put_cache, mlift, the_set, mret,
                        set_of, set_update, set_add, memb;
                      cbn -[cluster_eqb radius String.eqb Qle_bool Qplus edge_eqb depth];
                      rewrite ?Hcc)).
    reflexivity. }
  assert (H5 : recompute_transition_probabilities w4 = (w4, Ok tt)).
  { unfold w4, recompute_transition_probabilities, graph_depth, dict_lookup, dict_keys.
    repeat (progress (unfold mbind, get_graph, put_cache, mlift, the_set, mret;
                      cbn -[cluster_eqb radius String.eqb Qle_bool Qplus edge_eqb depth];
                      rewrite ?Hcc)).
    reflexivity. }
  unfold build_graph, initial_world. rewrite Hg.
  unfold mbind at 1, get_graph at 1. cbn [w_graph].
  unfold mbind at 1.
  change (map depth (clusters (new_Graph [root m]))) with [depth (root m)].
  cbv iota. unfold mret at 1.
  unfold mbind at 1, get_cands at 1. cbn [w_cands].
  unfold mbind at 1, put_cands at 1, set_candidates. cbn [w_cands w_graph dict_set].
  fold s. fold w0.
  unfold build_edges. unfold mbind at 1, get_graph at 1.
  rewrite (mbind_run _ _ _ _ _ H1), (mbind_run _ _ _ _ _ H2), (mbind_run _ _ _ _ _ H3).
  rewrite (mbind_run _ _ _ _ _ H4). exact H5.
Qed.

Lemma build_graph_of_root_witness :
  build_graph env1 manifold1 (initial_world manifold1)
  = (mkWorld [(name (root manifold1), [(root manifold1, 0%Q)])]
       (mkGraph [(root manifold1, Some [])]
          (mkCache (Some (depth (root manifold1))) (Some []) (Some [root manifold1])
                   (Some [(root manifold1, [])]) (Some [(root manifold1, [])]))),
     Ok tt)
  /\ build_graph env1 manifold1 (mkWorld [] (new_Graph []))
     = (mkWorld [] (new_Graph []), Raise ValueError).
Proof.
  assert (Hpos : forall x y, (0 <= cdist env1 x y)%Q).
  { intros x y. cbn. unfold line_cdist. rewrite <- (Zle_Qle 0). apply Z.abs_nonneg. }
  split.
  - apply (proj1 (build_graph_of_root env1 manifold1 Hpos)). reflexivity.
  - apply (proj2 (build_graph_of_root env1 manifold1 Hpos)). reflexivity.
Defined.

(** ** The components of a built graph *)

(** Every edge of a built graph has its counterpart. *)
Lemma build_edges_symmetric (E : Env) (m : Manifold) (w w' : World) :
  keys_distinct cluster_eqb (clusters (w_graph w)) ->
  build_edges E m w = (w', Ok tt) ->
  forall a e, In a (clusters (w_graph w')) -> has_edge w' a e ->
              has_edge w' (neighbor e) (no_prob a (edge_distance e)).
Proof.
  intros Hd Hrun a e Ha Hae.
  destruct (build_edges_keeps_edges E m w w' Hrun) as [w1 [w2 [w3 [H1 [H2 [H3 He]]]]]].
  assert (Hsteps :
    inv (clusters (w_graph w)) (plain_edge (clusters (w_graph w))) w3
    /\ (forall a e, In a (clusters (w_graph w)) -> has_edge w3 a e ->
          has_edge w3 (neighbor e) (no_prob a (edge_distance e)))
    /\ (forall a e, has_edge w3 a e -> edge_eqb e (no_prob a 0%Q) = false)).
  { refine (build_edges_steps E m (clusters (w_graph w)) Hd (fun _ => True)
              (plain_edge (clusters (w_graph w))) _ _ _ _ w w1 w2 w3
              eq_refl I H1 H2 H3).
    - intros k s s' r _ _. exact I.
    - intros s k cs x d _ _ _ _ Hm _. split; [exact Hm | reflexivity].
    - intros a0 x e0 Ha0 _ _ _. split; [|reflexivity].
      cbn. apply (memb_In _ _ cluster_eqb_equivalence), Ha0.
    - intros a0 e0 [_ H]. exact H. }
  destruct Hsteps as [[Hk3 _] [Hsym _]].
  assert (Hks : clusters (w_graph w') = clusters (w_graph w)).
  { unfold clusters. rewrite He. exact Hk3. }
  apply (has_edge_edges w3 w'); [exact He|].
  apply Hsym; [now rewrite <- Hks|].
  apply (has_edge_edges w' w3); [now rewrite He | exact Hae].
Qed.

Lemma all_neighbors_symmetric (E : Env) (m : Manifold) (w w' : World)
    (a b : Cluster) (ea eb : list Edge) :
  keys_distinct cluster_eqb (clusters (w_graph w)) ->
  build_edges E m w = (w', Ok tt) ->
  In a (clusters (w_graph w')) ->
  get_edges (w_graph w') a = Some (Some ea) ->
  get_edges (w_graph w') b = Some (Some eb) ->
  memb cluster_eqb b (map neighbor ea) = true ->
  memb cluster_eqb a (map neighbor eb) = true.
Proof.
  intros Hd Hrun Ha Hga Hgb Hm.
  apply memb_true_iff in Hm. destruct Hm as [n [Hn Hbn]].
  apply in_map_iff in Hn. destruct Hn as [e [<- He]].
  assert (Hhas : has_edge w' a e).
  { exists ea. split; [exact Hga | now apply (memb_In _ _ edge_eqb_equivalence)]. }
  pose proof (build_edges_symmetric E m w w' Hd Hrun a e Ha Hhas) as [es [Hg Hmem]].
  rewrite <- (get_edges_compat _ b (neighbor e) Hbn), Hgb in Hg. injection Hg as <-.
  apply memb_true_iff in Hmem. destruct Hmem as [e' [He' Hee]].
  apply memb_true_iff. exists (neighbor e'). split; [now apply in_map|].
  exact (edge_eqb_neighbor _ _ Hee).
Qed.

Section ReachSymmetric.
Variable nb : Cluster -> list Cluster.
Variable U : list Cluster.
Hypothesis nb_compat : forall a b, cluster_eqb a b = true -> nb a = nb b.
Hypothesis nb_symmetric :
  forall a b, memb cluster_eqb a U = true -> memb cluster_eqb b (nb a) = true ->
              memb cluster_eqb b U = true /\ memb cluster_eqb a (nb b) = true.

Lemma reach_inside (s x : Cluster) :
  memb cluster_eqb s U = true -> reach nb s x -> memb cluster_eqb x U = true.
Proof.
  intros Hs Hx. induction Hx as [x Hxs|x y _ IH Hm].
  - now rewrite (memb_compat _ _ cluster_eqb_equivalence x s U Hxs).
  - exact (proj1 (nb_symmetric y x IH Hm)).
Qed.

Lemma reach_trans (s y z : Cluster) : reach nb s y -> reach nb y z -> reach nb s z.
Proof.
  intros Hsy Hyz. induction Hyz as [z Hzy|z t _ IH Hm].
  - destruct Hsy as [y Hys|y t Hst Hm].
    + apply reach_start. exact (cluster_eqb_trans _ _ _ Hzy Hys).
    + apply (@reach_step nb s z t); [exact Hst|].
      now rewrite (memb_compat _ _ cluster_eqb_equivalence z y _ Hzy).
  - exact (@reach_step nb s z t IH Hm).
Qed.

Lemma reach_symmetric (s x : Cluster) :
  memb cluster_eqb s U = true -> reach nb s x -> reach nb x s.
Proof.
  intros Hs Hx. induction Hx as [x Hxs|x y Hy IH Hm].
  - apply reach_start. now rewrite cluster_eqb_sym.
  - apply (reach_trans x y s); [|exact IH].
    apply (@reach_step nb x y x).
    + apply reach_start. apply cluster_eqb_refl.
    + exact (proj2 (nb_symmetric y x (reach_inside s y Hs Hy) Hm)).
Qed.

Lemma reach_same (a b : Cluster) :
  memb cluster_eqb a U = true -> reach nb a b ->
  forall x, reach nb a x <-> reach nb b x.
Proof.
  intros Ha Hab x. split; intro H.
  - exact (reach_trans b a x (reach_symmetric a b Ha Hab) H).
  - exact (reach_trans a b x Hab H).
Qed.
End ReachSymmetric.

(** The walkable neighbours of a built graph go both ways. *)
Lemma walkable_symmetric (E : Env) (m : Manifold) (w w' : World) :
  keys_distinct cluster_eqb (clusters (w_graph w)) ->
  build_edges E m w = (w', Ok tt) ->
  exists sc we se,
    built w' sc we se
    /\ (forall a b, memb cluster_eqb a (dict_keys we) = true ->
                    memb cluster_eqb b (neighbors_in we a) = true ->
                    memb cluster_eqb b (dict_keys we) = true
                    /\ memb cluster_eqb a (neighbors_in we b) = true)
    /\ (forall y x, memb cluster_eqb y (clusters (w_graph w')) = true ->
                    memb cluster_eqb x (neighbors_in se y) = true ->
                    memb cluster_eqb x sc = true
                    /\ memb cluster_eqb x (clusters (w_graph w')) = true).
Proof.
  intros Hd Hrun.
  destruct (built_queries E m w w' Hd Hrun) as [sc [wc [we [se [Hb [_ [_ Hq]]]]]]].
  exists sc, we, se. split; [exact Hb|].
  assert (Hin_graph : forall c es x,
            In c (clusters (w_graph w')) -> get_edges (w_graph w') c = Some (Some es) ->
            memb cluster_eqb x (map neighbor es) = true ->
            memb cluster_eqb x (clusters (w_graph w')) = true).
  { intros c es x Hc Hg Hx. apply memb_true_iff in Hx. destruct Hx as [n [Hn Hxn]].
    apply in_map_iff in Hn. destruct Hn as [e [<- He]].
    assert (Hhas : has_edge w' c e).
    { exists es. split; [exact Hg | now apply (memb_In _ _ edge_eqb_equivalence)]. }
    destruct (build_edges_symmetric E m w w' Hd Hrun c e Hc Hhas) as [es' [Hg' _]].
    rewrite (memb_compat _ _ cluster_eqb_equivalence x (neighbor e) _ Hxn).
    exact (get_edges_member _ _ _ Hg'). }
  split.
  - intros a b Ha Hab.
    pose proof (proj1 (built_walkable Hb a) Ha) as [Hag Hasc].
    apply memb_true_iff in Hag. destruct Hag as [a0 [Ha0 Haa0]].
    rewrite (neighbors_in_compat we a a0 Haa0) in Hab.
    rewrite (memb_compat _ _ cluster_eqb_equivalence a a0 sc Haa0) in Hasc.
    destruct (Hq a0 Ha0) as [ea [Hga [_ Hwa]]].
    destruct (Hwa Hasc) as [ea' [Hga' [Hma _]]].
    unfold neighbors_in in Hab. rewrite Hga' in Hab. rewrite Hma in Hab.
    apply andb_true_iff in Hab. destruct Hab as [Hball Hbsc].
    apply negb_true_iff in Hbsc.
    pose proof (Hin_graph a0 ea b Ha0 Hga Hball) as Hbg.
    split; [apply (built_walkable Hb); now split|].
    apply memb_true_iff in Hbg. destruct Hbg as [b0 [Hb0 Hbb0]].
    rewrite (neighbors_in_compat we b b0 Hbb0).
    rewrite (memb_compat _ _ cluster_eqb_equivalence a a0 _ Haa0).
    rewrite (memb_compat _ _ cluster_eqb_equivalence b b0 sc Hbb0) in Hbsc.
    destruct (Hq b0 Hb0) as [eb [Hgb [_ Hwb]]].
    destruct (Hwb Hbsc) as [eb' [Hgb' [Hmb _]]].
    unfold neighbors_in. rewrite Hgb', Hmb, Hasc. cbn [negb]. rewrite andb_true_r.
    apply (all_neighbors_symmetric E m w w' a0 b0 ea eb Hd Hrun Ha0 Hga Hgb).
    now rewrite <- (memb_compat _ _ cluster_eqb_equivalence b b0 _ Hbb0).
  - intros y x Hy Hx.
    apply memb_true_iff in Hy. destruct Hy as [y0 [Hy0 Hyy0]].
    rewrite (neighbors_in_compat se y y0 Hyy0) in Hx.
    destruct (Hq y0 Hy0) as [ey [Hgy [Hsn _]]].
    rewrite Hsn in Hx. apply andb_true_iff in Hx. destruct Hx as [Hxall Hxsc].
    split; [exact Hxsc|]. exact (Hin_graph y0 ey x Hy0 Hgy Hxall).
Qed.

(** X24.  After [build_edges] on a graph of pairwise different clusters,
    take two walkable clusters [a] and [b] of the graph.  With enough fuel
    for its loop, [traverse] returns from both; what it returns from [a]
    contains [a] and only clusters of the graph; and if it contains [b],
    then [traverse] from [b] returns a set with the same members. *)
Theorem traverse_components (E : Env) (m : Manifold) (w w' : World) (a b : Cluster) :
  keys_distinct cluster_eqb (clusters (w_graph w)) ->
  build_edges E m w = (w', Ok tt) ->
  exists sc,
    subsumed_clusters E m w' = (w', Ok sc)
    /\ (memb cluster_eqb a (clusters (w_graph w')) = true ->
        memb cluster_eqb b (clusters (w_graph w')) = true ->
        memb cluster_eqb a sc = false -> memb cluster_eqb b sc = false ->
        exists fuel0, forall fuel, fuel0 <= fuel ->
          exists Ta Tb,
            traverse E m fuel a w' = (w', Ok (Some Ta))
            /\ traverse E m fuel b w' = (w', Ok (Some Tb))
            /\ memb cluster_eqb a Ta = true
            /\ (forall x, memb cluster_eqb x Ta = true ->
                          memb cluster_eqb x (clusters (w_graph w')) = true)
            /\ (memb cluster_eqb b Ta = true ->
                forall x, memb cluster_eqb x Ta = memb cluster_eqb x Tb)).
Proof.
  intros Hd Hrun.
  destruct (walkable_symmetric E m w w' Hd Hrun) as [sc [we [se [Hb [Hsym Hsub]]]]].
  exists sc. split; [exact (subsumed_clusters_run E m w' sc we se Hb)|].
  intros Hag Hbg Hasc Hbsc.
  destruct (traversals_of_built E m w' sc we se a Hb Hasc Hag) as [fa Hfa].
  destruct (traversals_of_built E m w' sc we se b Hb Hbsc Hbg) as [fb Hfb].
  exists (Nat.max fa fb). intros fuel Hfuel.
  destruct (Hfa fuel) as [Ta [Ba [Da [HTa [_ [_ Hca]]]]]]; [lia|].
  destruct (Hfb fuel) as [Tb [Bb [Db [HTb [_ [_ Hcb]]]]]]; [lia|].
  exists Ta, Tb. split; [exact HTa|]. split; [exact HTb|].
  assert (Hak : memb cluster_eqb a (dict_keys we) = true)
    by (apply (built_walkable Hb); now split).
  assert (Hcompat : forall x y, cluster_eqb x y = true ->
                      neighbors_in we x = neighbors_in we y)
    by apply neighbors_in_compat.
  split; [|split].
  - apply (proj1 (Hca a)). left. apply reach_start. apply cluster_eqb_refl.
  - intros x Hx. apply (proj1 (Hca x)) in Hx. destruct Hx as [Hx|[y [Hy Hx]]].
    + apply (built_walkable Hb).
      exact (reach_inside (neighbors_in we) (dict_keys we) Hsym a x Hak Hx).
    + apply (Hsub y x); [|exact Hx].
      apply (built_walkable Hb).
      exact (reach_inside (neighbors_in we) (dict_keys we) Hsym a y Hak Hy).
  - intros HbT x. apply (proj1 (Hca b)) in HbT.
    assert (Hab : reach (neighbors_in we) a b).
    { destruct HbT as [H|[y [Hy Hx]]]; [exact H|].
      assert (Hy' : memb cluster_eqb y (clusters (w_graph w')) = true).
      { apply (built_walkable Hb).
        exact (reach_inside (neighbors_in we) (dict_keys we) Hsym a y Hak Hy). }
      destruct (Hsub y b Hy' Hx) as [Hbs _]. congruence. }
    pose proof (reach_same (neighbors_in we) (dict_keys we) Hsym a b Hak Hab) as Hsame.
    assert (Hiff : component we se a x <-> component we se b x).
    { unfold component. rewrite (Hsame x). split.
      - intros [H|[y [Hy Hx]]]; [now left|]. right. exists y. now rewrite <- (Hsame y).
      - intros [H|[y [Hy Hx]]]; [now left|]. right. exists y. now rewrite (Hsame y). }
    destruct (memb cluster_eqb x Ta) eqn:Hxa, (memb cluster_eqb x Tb) eqn:Hxb;
      try reflexivity.
    + apply (proj1 (Hca x)), Hiff, (proj1 (Hcb x)) in Hxa. congruence.
    + apply (proj1 (Hcb x)), Hiff, (proj1 (Hca x)) in Hxb. congruence.
Qed.

Lemma traverse_components_witness :
  exists sc,
    subsumed_clusters env6 manifold6 (fst (build_edges env6 manifold6 world6))
    = (fst (build_edges env6 manifold6 world6), Ok sc)
    /\ (memb cluster_eqb start6
          (clusters (w_graph (fst (build_edges env6 manifold6 world6)))) = true ->
        memb cluster_eqb (last (children_list (root manifold6)) start6)
          (clusters (w_graph (fst (build_edges env6 manifold6 world6)))) = true ->
        memb cluster_eqb start6 sc = false ->
        memb cluster_eqb (last (children_list (root manifold6)) start6) sc = false ->
        exists fuel0, forall fuel, fuel0 <= fuel ->
          exists Ta Tb,
            traverse env6 manifold6 fuel start6 (fst (build_edges env6 manifold6 world6))
            = (fst (build_edges env6 manifold6 world6), Ok (Some Ta))
            /\ traverse env6 manifold6 fuel (last (children_list (root manifold6)) start6)
                 (fst (build_edges env6 manifold6 world6))
               = (fst (build_edges env6 manifold6 world6), Ok (Some Tb))
            /\ memb cluster_eqb start6 Ta = true
            /\ (forall x, memb cluster_eqb x Ta = true ->
                          memb cluster_eqb x
                            (clusters (w_graph (fst (build_edges env6 manifold6 world6))))
                          = true)
            /\ (memb cluster_eqb (last (children_list (root manifold6)) start6) Ta = true ->
                forall x, memb cluster_eqb x Ta = memb cluster_eqb x Tb)).
Proof.
  apply (traverse_components env6 manifold6 world6).
  - vm_compute. split; [intros y [<-|[]]; reflexivity | split; [intros y [] | exact I]].
  - vm_compute. reflexivity.
Defined.

(** ** The probabilities of the walkable edges *)

Lemma world8_distinct : keys_distinct cluster_eqb (clusters (w_graph world8)).
Proof.
  vm_compute. repeat split; intros y H; repeat (destruct H as [<-|H]; [reflexivity|]);
    destruct H.
Qed.

Lemma world8_built : build_edges env8 manifold8 world8 = (built8, Ok tt).
Proof. vm_compute. reflexivity. Qed.

(** The walkable edges of a walkable cluster are its edges to the
    neighbours that are not subsumed. *)
Lemma walkable_entry (E : Env) (m : Manifold) (w w' : World) :
  keys_distinct cluster_eqb (clusters (w_graph w)) ->
  build_edges E m w = (w', Ok tt) ->
  exists sc we,
    cache_subsumed_clusters (cache (w_graph w')) = Some sc
    /\ cache_walkable_edges (cache (w_graph w')) = Some we
    /\ forall c, In c (clusters (w_graph w')) -> memb cluster_eqb c sc = false ->
         exists es es',
           get_edges (w_graph w') c = Some (Some es)
           /\ dict_get cluster_eqb c we = Some es'
           /\ In (c, es') we
           /\ keys_distinct edge_eqb es'
           /\ (forall e', In e' es' ->
                 exists e, In e es /\ neighbor e' = neighbor e
                           /\ edge_distance e' = edge_distance e
                           /\ memb cluster_eqb (neighbor e) sc = false)
           /\ (forall e, In e es -> memb cluster_eqb (neighbor e) sc = false ->
                 exists e', In e' es'
                            /\ cluster_eqb (neighbor e') (neighbor e) = true
                            /\ (edge_distance e' == edge_distance e)%Q).
Proof.
  intros Hd Hrun.
  destruct (build_edges_shape E m w w' Hd Hrun)
    as [ces [we [Hedges [Hks [_ [Hsc [_ [_ [Hwe [Hkeys Hall]]]]]]]]]].
  set (sc := subsumed_among E ces) in *.
  exists sc, we. split; [exact Hsc|]. split; [exact Hwe|].
  assert (Hcl : clusters (w_graph w') = map fst ces).
  { unfold clusters, dict_keys. now rewrite Hedges, map_map. }
  assert (Hd' : keys_distinct cluster_eqb (map fst ces)) by now rewrite Hks.
  set (keep := fun e : Edge => negb (memb cluster_eqb (neighbor e) sc)).
  set (plain := fun e : Edge => no_prob (neighbor e) (edge_distance e)).
  assert (Hw0 : edges_among_walkable ces sc
                = map (fun ce : Cluster * list Edge =>
                         (fst ce, set_of edge_eqb (map plain (filter keep (snd ce)))))
                      (filter (fun ce => negb (memb cluster_eqb (fst ce) sc)) ces)).
  { unfold edges_among_walkable. apply dict_of_distinct.
    unfold dict_keys. rewrite map_map. cbn [fst].
    now apply keys_distinct_filter_fst. }
  assert (Hwd : keys_distinct cluster_eqb (dict_keys we))
    by (rewrite Hkeys; apply keys_distinct_of).
  intros c Hc Hns. rewrite Hcl in Hc.
  assert (Hce : exists es, In (c, es) ces).
  { apply in_map_iff in Hc. destruct Hc as [[c' es] [Heq Hin]]. cbn in Heq. subst c'.
    now exists es. }
  destruct Hce as [es Hces].
  assert (Hkeep : In (c, es) (filter (fun ce : Cluster * list Edge =>
                                        negb (memb cluster_eqb (fst ce) sc)) ces)).
  { apply filter_In. split; [exact Hces|]. cbn [fst]. now rewrite Hns. }
  assert (Hkey : In c (dict_keys we)).
  { rewrite Hkeys, Hw0. unfold dict_keys. rewrite map_map. cbn [fst].
    now apply (in_map fst) in Hkeep. }
  destruct (Hall c Hkey) as [es0 [es' [Hg0 [Hg Hwt]]]].
  assert (Hes0 : es0 = set_of edge_eqb (map plain (filter keep es))).
  { rewrite Hw0 in Hg0.
    rewrite (In_dict_get _ cluster_eqb _ _ c
               (set_of edge_eqb (map plain (filter keep es))) cluster_eqb_refl) in Hg0.
    - now injection Hg0.
    - unfold dict_keys. rewrite map_map. cbn [fst].
      now apply keys_distinct_filter_fst.
    - apply in_map_iff. now exists (c, es). }
  assert (Hdist0 : keys_distinct edge_eqb es0)
    by (rewrite Hes0; apply keys_distinct_set_of).
  assert (Hnone0 : forall e, In e es0 -> probability e = None).
  { intros e He. rewrite Hes0 in He. apply In_set_of in He.
    apply in_map_iff in He. now destruct He as [e1 [<- _]]. }
  assert (Horigin : forall e0, In e0 es0 ->
            exists e, In e es /\ neighbor e0 = neighbor e
                      /\ edge_distance e0 = edge_distance e
                      /\ memb cluster_eqb (neighbor e) sc = false).
  { intros e0 He0. rewrite Hes0 in He0. apply In_set_of in He0.
    apply in_map_iff in He0. destruct He0 as [e [<- He]].
    apply filter_In in He. destruct He as [He Hk]. exists e.
    split; [exact He|]. split; [reflexivity|]. split; [reflexivity|].
    unfold keep in Hk. now apply negb_true_iff in Hk. }
  assert (Hcover : forall e, In e es -> memb cluster_eqb (neighbor e) sc = false ->
            exists e0, In e0 es0 /\ edge_eqb (plain e) e0 = true).
  { intros e He Hk.
    assert (Hin : In (plain e) (map plain (filter keep es))).
    { apply in_map. apply filter_In. split; [exact He|]. unfold keep. now rewrite Hk. }
    apply (memb_In _ _ edge_eqb_equivalence) in Hin.
    rewrite <- (memb_set_of _ _ edge_eqb_equivalence), <- Hes0 in Hin.
    apply memb_true_iff in Hin. destruct Hin as [e0 [He0 Hee]]. now exists e0. }
  exists es, es'.
  split; [unfold get_edges; rewrite Hedges; now apply edges_of_key|].
  split; [exact Hg|].
  assert (Hin' : In (c, es') we).
  { apply dict_get_In_key in Hg. destruct Hg as [k [Hk Hck]].
    assert (c = k) as <-; [|exact Hk].
    apply (key_eq _ Hwd); [exact Hkey | | exact Hck].
    unfold dict_keys. now apply (in_map fst) in Hk. }
  split; [exact Hin'|].
  destruct Hwt as [[Hnil ->]|[Hne [Ht _]]].
  - split; [exact I|]. split; [intros e' []|].
    intros e He Hk. destruct (Hcover e He Hk) as [e0 [He0 _]].
    rewrite Hnil in He0. destruct He0.
  - destruct (weighted_edges es0 es' Hdist0 Hnone0 Ht) as [_ ->]. cbn zeta.
    set (weigh := fun e : Edge =>
                    mkEdge (neighbor e) (edge_distance e)
                      (Some (1 / (edge_distance e
                                  * py_sum (map (fun e1 : Edge => 1 / edge_distance e1) es0)))%Q)).
    split; [|split].
    + apply (keys_distinct_map_in edge_eqb edge_eqb); [|exact Hdist0].
      intros a b Ha Hb Hab. apply edge_eqb_true_iff in Hab. cbn in Hab.
      apply edge_eqb_true_iff. rewrite (Hnone0 a Ha), (Hnone0 b Hb). tauto.
    + intros e' He'. apply in_map_iff in He'. destruct He' as [e0 [<- He0]].
      exact (Horigin e0 He0).
    + intros e He Hk. destruct (Hcover e He Hk) as [e0 [He0 Hee]].
      exists (weigh e0). split; [now apply in_map|].
      apply edge_eqb_true_iff in Hee. cbn in Hee. destruct Hee as [Hn [Hq _]].
      cbn [neighbor edge_distance weigh]. split.
      * now rewrite cluster_eqb_sym.
      * apply Qeq_bool_iff in Hq. now symmetry.
Qed.

(** C6.  After [build_edges] on a graph of pairwise different clusters,
    every walkable cluster [c] of the graph (one that is not among the
    subsumed clusters) has an entry in the walkable edges.  Its edges there
    are pairwise different and are the edges of [c] to the neighbours that
    are not subsumed, with their distances.  If there is one at least, the
    edge to a neighbour at distance [d] carries the probability
    [(1/d) / sum of 1/d_m] over these edges, and the probabilities sum to 1
    within [1e-6] (distances and probabilities are exact rationals in the
    model). *)
Theorem transition_probabilities (E : Env) (m : Manifold) (w w' : World) :
  keys_distinct cluster_eqb (clusters (w_graph w)) ->
  build_edges E m w = (w', Ok tt) ->
  exists sc we,
    cache_subsumed_clusters (cache (w_graph w')) = Some sc
    /\ cache_walkable_edges (cache (w_graph w')) = Some we
    /\ forall c, In c (clusters (w_graph w')) -> memb cluster_eqb c sc = false ->
         exists es es',
           get_edges (w_graph w') c = Some (Some es)
           /\ dict_get cluster_eqb c we = Some es'
           /\ keys_distinct edge_eqb es'
           /\ (forall e', In e' es' ->
                 exists e, In e es /\ neighbor e' = neighbor e
                           /\ edge_distance e' = edge_distance e
                           /\ memb cluster_eqb (neighbor e) sc = false)
           /\ (forall e, In e es -> memb cluster_eqb (neighbor e) sc = false ->
                 exists e', In e' es'
                            /\ cluster_eqb (neighbor e') (neighbor e) = true
                            /\ (edge_distance e' == edge_distance e)%Q)
           /\ (es' <> [] ->
               (forall e', In e' es' ->
                  exists p, probability e' = Some p
                            /\ (p == (1 / edge_distance e')
                                     / Qsum (map (fun x => 1 / edge_distance x) es'))%Q)
               /\ (Qabs (Qsum (map probability_or_zero es') - 1) <= 1 / 1000000)%Q).
Proof.
  intros Hd Hrun.
  destruct (walkable_entry E m w w' Hd Hrun) as [sc [we [Hsc [Hwe Hall]]]].
  destruct (walkable_probabilities E m w w' Hrun) as [we0 [Hwe0 Hprob]].
  rewrite Hwe in Hwe0. injection Hwe0 as <-.
  exists sc, we. split; [exact Hsc|]. split; [exact Hwe|].
  intros c Hc Hns.
  destruct (Hall c Hc Hns) as [es [es' [Hg [Hg' [Hin [Hdist [Hfrom Hto]]]]]]].
  exists es, es'. repeat (split; [assumption|]).
  intro Hne. exact (Hprob c es' Hin Hne).
Qed.

Lemma transition_probabilities_witness :
  keys_distinct cluster_eqb (clusters (w_graph world8))
  /\ build_edges env8 manifold8 world8 = (built8, Ok tt)
  /\ exists sc we es es',
       cache_subsumed_clusters (cache (w_graph built8)) = Some sc
       /\ cache_walkable_edges (cache (w_graph built8)) = Some we
       /\ map name sc = ["00"]%string
       /\ get_edges (w_graph built8) (cluster8 "0") = Some (Some es)
       /\ map (fun e => name (neighbor e)) es = ["01"; "00"]%string
       /\ dict_get cluster_eqb (cluster8 "0") we = Some es'
       /\ map (fun e => name (neighbor e)) es' = ["01"]%string
       /\ (forall e', In e' es' ->
             exists p, probability e' = Some p
                       /\ (p == (1 / edge_distance e')
                                / Qsum (map (fun x => 1 / edge_distance x) es'))%Q)
       /\ (Qabs (Qsum (map probability_or_zero es') - 1) <= 1 / 1000000)%Q.
Proof.
  split; [exact world8_distinct|]. split; [exact world8_built|].
  destruct (transition_probabilities env8 manifold8 world8 built8
              world8_distinct world8_built) as [sc [we [Hsc [Hwe Hall]]]].
  assert (Hs : sc = [cluster8 "00"]).
  { vm_compute in Hsc. injection Hsc as <-. vm_compute. reflexivity. }
  assert (Hw : exists we0, we0 = we /\ cache_walkable_edges (cache (w_graph built8)) = Some we0)
    by (exists we; split; [reflexivity|exact Hwe]).
  destruct Hw as [we0 [Hwe0 Hw]].
  vm_compute in Hw. injection Hw as Hw.
  destruct (Hall (cluster8 "0")) as [es [es' [Hg [Hg' [_ [_ [_ Hp]]]]]]].
  - vm_compute. left. reflexivity.
  - rewrite Hs. vm_compute. reflexivity.
  - exists sc, we, es, es'.
    assert (He : map (fun e => name (neighbor e)) es = ["01"; "00"]%string).
    { assert (Hg0 : get_edges (w_graph built8) (cluster8 "0") = Some (Some es)) by exact Hg.
      vm_compute in Hg0. injection Hg0 as <-. vm_compute. reflexivity. }
    assert (He' : map (fun e => name (neighbor e)) es' = ["01"]%string).
    { assert (Hg0 : dict_get cluster_eqb (cluster8 "0") we0 = Some es')
        by (rewrite Hwe0; exact Hg').
      rewrite <- Hw in Hg0. vm_compute in Hg0. injection Hg0 as <-.
      vm_compute. reflexivity. }
    assert (Hne : es' <> []) by (intro H0; rewrite H0 in He'; discriminate He').
    destruct (Hp Hne) as [Hp1 Hp2].
    split; [exact Hsc|]. split; [exact Hwe|].
    split; [rewrite Hs; vm_compute; reflexivity|].
    split; [exact Hg|]. split; [exact He|]. split; [exact Hg'|]. split; [exact He'|].
    split; [exact Hp1|exact Hp2].
Defined.

(** ** The probabilities of a walkable and of a subsumed cluster *)

Lemma probabilities_of_neighbors_witness :
  (exists es,
     neighbors env8 manifold8 (cluster8 "01") "walkable" built8
     = (built8, Ok (map neighbor es))
     /\ probabilities env8 manifold8 (cluster8 "01") built8
        = (built8, Ok (map probability es))
     /\ map (fun e => name (neighbor e)) es = ["0"; "010"]%string
     /\ forall e, In e es -> exists p, probability e = Some p)
  /\ probabilities env8 manifold8 (cluster8 "00") built8 = (built8, Raise ValueError).
Proof.
  split.
  - destruct (probabilities_of_neighbors env8 manifold8 world8 built8 (cluster8 "01")
                world8_distinct world8_built) as [sc [Hsc [_ Hw]]].
    + vm_compute. right. left. reflexivity.
    + assert (Hs : sc = [cluster8 "00"]).
      { vm_compute in Hsc. injection Hsc as <-. vm_compute. reflexivity. }
      destruct Hw as [es [Hn [Hp Hall]]]; [rewrite Hs; vm_compute; reflexivity|].
      exists es. split; [exact Hn|]. split; [exact Hp|]. split; [|exact Hall].
      assert (Hm : map name (map neighbor es) = ["0"; "010"]%string).
      { assert (Hx : match snd (neighbors env8 manifold8 (cluster8 "01") "walkable" built8)
                     with
                     | Ok l => map name l
                     | Raise _ => []
                     end = ["0"; "010"]%string) by (vm_compute; reflexivity).
        rewrite Hn in Hx. exact Hx. }
      rewrite map_map in Hm. exact Hm.
  - destruct (probabilities_of_neighbors env8 manifold8 world8 built8 (cluster8 "00")
                world8_distinct world8_built) as [sc [Hsc [Hr _]]].
    + vm_compute. right. right. right. left. reflexivity.
    + apply Hr. vm_compute in Hsc. injection Hsc as <-. vm_compute. reflexivity.
Defined.

(** ** A distance that is zero between two different points *)

(** C7 as stated fails: the distance of [env_flat] is
    never negative, zero from a point to itself and symmetric, numpy keeps
    its contract, and the cluster [flat3] has three points and three
    samples, so that [partition] without criteria has to split it.  But all
    distances being zero, [_find_poles] takes the same point for both poles
    and its assertion fails: [partition] raises [AssertionError] and gives
    no children. *)
Lemma partition_raises_on_zero_distance :
  partition env_flat flat3 [] = Raise AssertionError
  /\ _find_poles env_flat flat3 = Raise AssertionError
  /\ argsamples env_flat flat3 = [0; 1; 2]
  /\ splittable env_flat flat3 [] = true
  /\ argpoints flat3 <> []
  /\ numpy_contract env_flat
  /\ unique_rows env_flat
  /\ NoDup (map (data env_flat) (argpoints flat3))
  /\ (forall x y, (0 <= cdist env_flat x y)%Q)
  /\ (forall x, (cdist env_flat x x == 0)%Q)
  /\ (forall x y, (cdist env_flat x y == cdist env_flat y x)%Q)
  /\ (forall x y z, (cdist env_flat x z <= cdist env_flat x y + cdist env_flat y z)%Q)
  /\ ~ metric env_flat.
Proof.
  split; [vm_compute; reflexivity|]. split; [vm_compute; reflexivity|].
  split; [vm_compute; reflexivity|]. split; [vm_compute; reflexivity|].
  split; [discriminate|].
  split; [exact (line_env_contract [1%Z; 2%Z; 3%Z])|].
  split; [exact (line_env_unique_rows [1%Z; 2%Z; 3%Z])|].
  split.
  { cbn. repeat constructor; cbn; intuition discriminate. }
  split; [intros x y; cbn; apply Qle_refl|].
  split; [intro x; reflexivity|].
  split; [intros x y; reflexivity|].
  split; [intros x y z; cbn; discriminate|].
  intros [_ [_ H]]. specialize (H 1%Z 2%Z (Qeq_refl 0)). discriminate H.
Qed.
